(** * minicc: a shallow embedding of the compiler and its checked properties

    The development follows [minicc.c] top to bottom: machine integers,
    tokens, the AST, the [Compiler] state, the lexer, the recursive-descent
    parser, the symbol table, the two code generators and the driver
    [compile].  Stateful C code is written in a small state-and-error monad
    over the [Compiler] record; loops and recursive calls consume fuel. *)

From Stdlib Require Import ZArith List String Ascii Bool Lia.
From Stdlib Require Import DecimalString DecimalPos DecimalZ Permutation.
Import ListNotations.
Local Open Scope string_scope.
Local Open Scope Z_scope.

(** ** Machine integers: C [int] is 32 bits, two's complement *)

Module Int.

Definition modulus : Z := 4294967296.
Definition half_modulus : Z := 2147483648.
Definition max_signed : Z := 2147483647.
Definition min_signed : Z := -2147483648.

(** Reduce to the signed 32-bit range. *)
Definition wrap (x : Z) : Z :=
  let r := x mod modulus in
  if r <? half_modulus then r else r - modulus.

Definition add (a b : Z) : Z := wrap (a + b).
Definition sub (a b : Z) : Z := wrap (a - b).
Definition mul (a b : Z) : Z := wrap (a * b).
Definition neg (a : Z) : Z := wrap (- a).

Definition in_range (x : Z) : Prop := min_signed <= x <= max_signed.

End Int.

(** ** Tokens *)

Inductive TokenType : Type :=
| TOK_EOF | TOK_INT | TOK_IF | TOK_ELSE | TOK_WHILE | TOK_FOR | TOK_RETURN
| TOK_VOID | TOK_IDENT | TOK_NUM | TOK_STR
| TOK_PLUS | TOK_MINUS | TOK_STAR | TOK_SLASH | TOK_PERCENT
| TOK_ASSIGN | TOK_EQ | TOK_NE | TOK_LT | TOK_GT | TOK_LE | TOK_GE
| TOK_AND | TOK_OR | TOK_NOT
| TOK_LPAREN | TOK_RPAREN | TOK_LBRACE | TOK_RBRACE
| TOK_LBRACKET | TOK_RBRACKET | TOK_SEMI | TOK_COMMA | TOK_AMP
| TOK_PLUSPLUS | TOK_MINUSMINUS | TOK_PLUSEQ | TOK_MINUSEQ.

Definition TokenType_eq_dec (a b : TokenType) : {a = b} + {a <> b}.
Proof. decide equality. Defined.

Definition tok_eqb (a b : TokenType) : bool :=
  if TokenType_eq_dec a b then true else false.

(** The [Token] struct.  [str] and [num] are only written by the tokens
    that carry them and keep their previous contents otherwise, as in C. *)
Record Token : Type := mkToken {
  type : TokenType;
  str : string;
  num : Z;
  tline : Z;
  tcol : Z
}.

(** ** The AST: one constructor per [ASTType] tag *)

Inductive AST : Type :=
| AST_NUM (n : Z)
| AST_STR (s : string)
| AST_VAR (s : string)
| AST_BINOP (op : TokenType) (left right : AST)
| AST_UNOP (op : TokenType) (operand : AST)
| AST_ASSIGN (left right : AST) (op : Z)
| AST_CALL (name : string) (args : list AST)
| AST_IF (cond then_branch : AST) (else_branch : option AST)
| AST_WHILE (cond body : AST)
| AST_FOR (init cond update : option AST) (body : AST)
| AST_RETURN (value : option AST)
| AST_BLOCK (stmts : list AST)
| AST_FUNC (name : string) (params : list string) (body : AST) (is_void : bool)
| AST_VARDECL (name : string) (init : option AST) (is_array : bool) (array_size : Z)
| AST_PROGRAM (funcs globals : list AST)
| AST_ARRAY_ACCESS (name : string) (index : AST)
| AST_ADDR (name : string).

(** The compound-op marker of [assign.op]: 0, ['+'] or ['-']. *)
Definition OP_PLAIN : Z := 0.
Definition OP_PLUS : Z := 43.
Definition OP_MINUS : Z := 45.

(** ** Symbols and the compiler state *)

Record Symbol : Type := mkSymbol {
  sym_name : string;
  offset : Z;
  is_global : bool;
  is_param : bool;
  param_index : Z;
  sym_is_array : bool;
  sym_array_size : Z
}.

(** An output line is kept as the format string and the arguments handed to
    [emit]; [render_line] below prints it the way [vfprintf] does. *)
Inductive fmt_arg : Type :=
| FInt (z : Z)
| FStr (s : string)
| FChar (ch : ascii).

Record line : Type := mkLine { fmt : string; fargs : list fmt_arg }.

Record Compiler : Type := mkCompiler {
  src : list ascii;          (* the bytes before the terminating NUL *)
  pos : Z;
  cline : Z;
  col : Z;
  cur : Token;
  symbols : list Symbol;     (* [nsymbols] is the length of the list *)
  stack_offset : Z;
  out : list line;
  label_count : Z;
  string_literals : list string;
  is_arm64 : bool;
  is_linux : bool
}.

Definition nsymbols (c : Compiler) : Z := Z.of_nat (List.length (symbols c)).
Definition nstrings (c : Compiler) : Z := Z.of_nat (List.length (string_literals c)).

Definition set_pos (v : Z) (c : Compiler) : Compiler :=
  mkCompiler (src c) v (cline c) (col c) (cur c) (symbols c) (stack_offset c)
             (out c) (label_count c) (string_literals c) (is_arm64 c) (is_linux c).
Definition set_line (v : Z) (c : Compiler) : Compiler :=
  mkCompiler (src c) (pos c) v (col c) (cur c) (symbols c) (stack_offset c)
             (out c) (label_count c) (string_literals c) (is_arm64 c) (is_linux c).
Definition set_col (v : Z) (c : Compiler) : Compiler :=
  mkCompiler (src c) (pos c) (cline c) v (cur c) (symbols c) (stack_offset c)
             (out c) (label_count c) (string_literals c) (is_arm64 c) (is_linux c).
Definition set_cur (v : Token) (c : Compiler) : Compiler :=
  mkCompiler (src c) (pos c) (cline c) (col c) v (symbols c) (stack_offset c)
             (out c) (label_count c) (string_literals c) (is_arm64 c) (is_linux c).
Definition set_symbols (v : list Symbol) (c : Compiler) : Compiler :=
  mkCompiler (src c) (pos c) (cline c) (col c) (cur c) v (stack_offset c)
             (out c) (label_count c) (string_literals c) (is_arm64 c) (is_linux c).
Definition set_stack_offset (v : Z) (c : Compiler) : Compiler :=
  mkCompiler (src c) (pos c) (cline c) (col c) (cur c) (symbols c) v
             (out c) (label_count c) (string_literals c) (is_arm64 c) (is_linux c).
Definition set_out (v : list line) (c : Compiler) : Compiler :=
  mkCompiler (src c) (pos c) (cline c) (col c) (cur c) (symbols c) (stack_offset c)
             v (label_count c) (string_literals c) (is_arm64 c) (is_linux c).
Definition set_label_count (v : Z) (c : Compiler) : Compiler :=
  mkCompiler (src c) (pos c) (cline c) (col c) (cur c) (symbols c) (stack_offset c)
             (out c) v (string_literals c) (is_arm64 c) (is_linux c).
Definition set_string_literals (v : list string) (c : Compiler) : Compiler :=
  mkCompiler (src c) (pos c) (cline c) (col c) (cur c) (symbols c) (stack_offset c)
             (out c) (label_count c) v (is_arm64 c) (is_linux c).

Definition set_type (t : TokenType) (c : Compiler) : Compiler :=
  set_cur (mkToken t (str (cur c)) (num (cur c)) (tline (cur c)) (tcol (cur c))) c.
Definition set_str (s : string) (c : Compiler) : Compiler :=
  set_cur (mkToken (type (cur c)) s (num (cur c)) (tline (cur c)) (tcol (cur c))) c.
Definition set_num (n : Z) (c : Compiler) : Compiler :=
  set_cur (mkToken (type (cur c)) (str (cur c)) n (tline (cur c)) (tcol (cur c))) c.
Definition set_tok_pos (l k : Z) (c : Compiler) : Compiler :=
  set_cur (mkToken (type (cur c)) (str (cur c)) (num (cur c)) l k) c.

(** ** Outcomes of running a piece of the compiler

    [Done] is a normal return.  [Fatal] is a call of [error]: the diagnostic
    goes to stderr and the process exits with status 1.  [Fault] marks a
    point where the C code leaves defined behaviour.  [Timeout] is the
    model's fuel running out. *)

Record diagnostic : Type := mkDiag {
  dline : Z;
  dcol : Z;
  dmsg : line
}.

Inductive fault : Type :=
| ReadPastEnd (index : Z)      (* [src[index]] beyond the terminating NUL *)
| NullSymbol (name : string)   (* field read through a NULL [Symbol*] *)
| TableOverflow                (* write past a fixed-size array *)
| BadIndex                     (* index outside an AST child array *)
| WrongNode.                   (* union member read on a node of another tag *)

Inductive result (A : Type) : Type :=
| Done (a : A) (c : Compiler)
| Fatal (d : diagnostic) (c : Compiler)
| Fault (f : fault) (c : Compiler)
| Timeout.

Arguments Done {A} a c.
Arguments Fatal {A} d c.
Arguments Fault {A} f c.
Arguments Timeout {A}.

Definition M (A : Type) : Type := Compiler -> result A.

Definition ret {A} (a : A) : M A := fun c => Done a c.

Definition bind {A B} (m : M A) (k : A -> M B) : M B :=
  fun c =>
    match m c with
    | Done a c' => k a c'
    | Fatal d c' => Fatal d c'
    | Fault f c' => Fault f c'
    | Timeout => Timeout
    end.

Notation "x <- m ;; k" := (bind m (fun x => k))
  (at level 61, m at next level, right associativity).
Notation "m ;; k" := (bind m (fun _ => k))
  (at level 61, right associativity).

Definition get : M Compiler := fun c => Done c c.
Definition modify (f : Compiler -> Compiler) : M unit := fun c => Done tt (f c).
Definition raise_fault {A} (f : fault) : M A := fun c => Fault f c.
Definition timeout {A} : M A := fun _ => Timeout.

(** [error]: print the position held in the compiler state and the
    formatted message, then [exit(1)]. *)
Definition error {A} (f : string) (a : list fmt_arg) : M A :=
  fun c => Fatal (mkDiag (cline c) (col c) (mkLine f a)) c.

(** ** Lexer *)

Definition NUL : ascii := "000"%char.
Definition LF : ascii := "010"%char.
Definition CR : ascii := "013"%char.
Definition TAB : ascii := "009"%char.
Definition DQUOTE : ascii := "034"%char.
Definition BACKSLASH : ascii := "092"%char.

Definition is_char (a b : ascii) : bool := Ascii.eqb a b.

Definition isdigit (ch : ascii) : bool :=
  let n := nat_of_ascii ch in (48 <=? n)%nat && (n <=? 57)%nat.

Definition isalpha (ch : ascii) : bool :=
  let n := nat_of_ascii ch in
  ((65 <=? n)%nat && (n <=? 90)%nat) || ((97 <=? n)%nat && (n <=? 122)%nat).

Definition isalnum (ch : ascii) : bool := isalpha ch || isdigit ch.

(** [c->src[i]]: the buffer holds the source bytes and one terminating NUL;
    any other index is outside the allocation. *)
Definition src_at (i : Z) : M ascii :=
  fun c =>
    if (i <? 0) then Fault (ReadPastEnd i) c
    else match nth_error (src c) (Z.to_nat i) with
         | Some ch => Done ch c
         | None => if i =? Z.of_nat (List.length (src c)) then Done NUL c
                   else Fault (ReadPastEnd i) c
         end.

Definition peek : M ascii := fun c => src_at (pos c) c.

Definition advance : M ascii :=
  c <- get ;;
  ch <- src_at (pos c) ;;
  modify (set_pos (Int.add (pos c) 1)) ;;
  (if is_char ch LF
   then modify (fun c => set_col 1 (set_line (Int.add (cline c) 1) c))
   else modify (fun c => set_col (Int.add (col c) 1) c)) ;;
  ret ch.

(** [while (peek(c) && peek(c) != '\n') advance(c);] *)
Fixpoint skip_line_comment (fuel : nat) : M unit :=
  match fuel with
  | O => timeout
  | S n =>
      ch <- peek ;;
      if negb (is_char ch NUL) && negb (is_char ch LF)
      then advance ;; skip_line_comment n
      else ret tt
  end.

(** [while (peek(c) && !(peek(c) == '*' && c->src[c->pos + 1] == '/')) advance(c);] *)
Fixpoint skip_block_comment (fuel : nat) : M unit :=
  match fuel with
  | O => timeout
  | S n =>
      ch <- peek ;;
      if is_char ch NUL then ret tt
      else if is_char ch "*"
      then c <- get ;;
           nx <- src_at (Int.add (pos c) 1) ;;
           if is_char nx "/" then ret tt
           else advance ;; skip_block_comment n
      else advance ;; skip_block_comment n
  end.

Fixpoint skip_whitespace (fuel : nat) : M unit :=
  match fuel with
  | O => timeout
  | S n =>
      ch <- peek ;;
      if is_char ch " " || is_char ch TAB || is_char ch LF || is_char ch CR
      then advance ;; skip_whitespace n
      else if is_char ch "/"
      then c <- get ;;
           nx <- src_at (Int.add (pos c) 1) ;;
           if is_char nx "/"
           then skip_line_comment n ;; skip_whitespace n
           else if is_char nx "*"
           then advance ;; advance ;;
                skip_block_comment n ;;
                ch' <- peek ;;
                (if negb (is_char ch' NUL) then advance ;; advance ;; ret tt else ret tt) ;;
                skip_whitespace n
           else ret tt
      else ret tt
  end.

(** [while (isalnum(peek(c)) || peek(c) == '_') advance(c);] *)
Fixpoint lex_ident_loop (fuel : nat) : M unit :=
  match fuel with
  | O => timeout
  | S n =>
      ch <- peek ;;
      if isalnum ch || is_char ch "_"
      then advance ;; lex_ident_loop n
      else ret tt
  end.

(** [while (isdigit(peek(c))) c->cur.num = c->cur.num * 10 + (advance(c) - '0');] *)
Fixpoint lex_number_loop (fuel : nat) : M unit :=
  match fuel with
  | O => timeout
  | S n =>
      ch <- peek ;;
      if isdigit ch
      then c <- get ;;
           d <- advance ;;
           modify (set_num (Int.add (Int.mul (num (cur c)) 10)
                                    (Z.of_nat (nat_of_ascii d) - 48))) ;;
           lex_number_loop n
      else ret tt
  end.

(** The body of a string literal: while the current byte is neither NUL
    nor the closing quote, a backslash is skipped together with the byte
    after it, any other byte alone. *)
Fixpoint lex_string_loop (fuel : nat) : M unit :=
  match fuel with
  | O => timeout
  | S n =>
      ch <- peek ;;
      if negb (is_char ch NUL) && negb (is_char ch DQUOTE)
      then (if is_char ch BACKSLASH then advance ;; ret tt else ret tt) ;;
           advance ;;
           lex_string_loop n
      else ret tt
  end.

(** [strncpy(dst, c->src + start, len); dst[len] = 0]: the copy stops at
    the first NUL of the source. *)
Fixpoint take_chars (l : list ascii) (len : nat) : string :=
  match len, l with
  | S k, ch :: tl => if is_char ch NUL then EmptyString else String ch (take_chars tl k)
  | _, _ => EmptyString
  end.

Definition src_substring (c : Compiler) (start len : Z) : string :=
  take_chars (skipn (Z.to_nat start) (src c)) (Z.to_nat len).

Definition keyword_type (s : string) : TokenType :=
  if String.eqb s "int" then TOK_INT
  else if String.eqb s "void" then TOK_VOID
  else if String.eqb s "if" then TOK_IF
  else if String.eqb s "else" then TOK_ELSE
  else if String.eqb s "while" then TOK_WHILE
  else if String.eqb s "for" then TOK_FOR
  else if String.eqb s "return" then TOK_RETURN
  else TOK_IDENT.

(** [if (peek(c) == x) { advance(c); type = yes; } else type = no;] *)
Definition two_char (x : ascii) (yes no : TokenType) : M unit :=
  nx <- peek ;;
  if is_char nx x then advance ;; modify (set_type yes)
  else modify (set_type no).

Definition next_token (fuel : nat) : M unit :=
  skip_whitespace fuel ;;
  modify (fun c => set_tok_pos (cline c) (col c) c) ;;
  ch <- peek ;;
  if is_char ch NUL then modify (set_type TOK_EOF)
  else if isalpha ch || is_char ch "_" then
    c0 <- get ;;
    lex_ident_loop fuel ;;
    c1 <- get ;;
    let s := src_substring c1 (pos c0) (Int.sub (pos c1) (pos c0)) in
    modify (set_str s) ;;
    modify (set_type (keyword_type s))
  else if isdigit ch then
    modify (set_num 0) ;;
    lex_number_loop fuel ;;
    modify (set_type TOK_NUM)
  else if is_char ch DQUOTE then
    advance ;;
    c0 <- get ;;
    lex_string_loop fuel ;;
    c1 <- get ;;
    modify (set_str (src_substring c1 (pos c0) (Int.sub (pos c1) (pos c0)))) ;;
    q <- peek ;;
    (if is_char q DQUOTE then advance ;; ret tt else ret tt) ;;
    modify (set_type TOK_STR)
  else
    advance ;;
    if is_char ch "+" then
      nx <- peek ;;
      if is_char nx "+" then advance ;; modify (set_type TOK_PLUSPLUS)
      else if is_char nx "=" then advance ;; modify (set_type TOK_PLUSEQ)
      else modify (set_type TOK_PLUS)
    else if is_char ch "-" then
      nx <- peek ;;
      if is_char nx "-" then advance ;; modify (set_type TOK_MINUSMINUS)
      else if is_char nx "=" then advance ;; modify (set_type TOK_MINUSEQ)
      else modify (set_type TOK_MINUS)
    else if is_char ch "*" then modify (set_type TOK_STAR)
    else if is_char ch "/" then modify (set_type TOK_SLASH)
    else if is_char ch "%" then modify (set_type TOK_PERCENT)
    else if is_char ch "=" then two_char "=" TOK_EQ TOK_ASSIGN
    else if is_char ch "!" then two_char "=" TOK_NE TOK_NOT
    else if is_char ch "<" then two_char "=" TOK_LE TOK_LT
    else if is_char ch ">" then two_char "=" TOK_GE TOK_GT
    else if is_char ch "&" then two_char "&" TOK_AND TOK_AMP
    else if is_char ch "|" then
      nx <- peek ;;
      if is_char nx "|" then advance ;; modify (set_type TOK_OR)
      else error "Expected '||'" []
    else if is_char ch "(" then modify (set_type TOK_LPAREN)
    else if is_char ch ")" then modify (set_type TOK_RPAREN)
    else if is_char ch "{" then modify (set_type TOK_LBRACE)
    else if is_char ch "}" then modify (set_type TOK_RBRACE)
    else if is_char ch "[" then modify (set_type TOK_LBRACKET)
    else if is_char ch "]" then modify (set_type TOK_RBRACKET)
    else if is_char ch ";" then modify (set_type TOK_SEMI)
    else if is_char ch "," then modify (set_type TOK_COMMA)
    else error "Unexpected character: '%c'" [FChar ch].

(** ** Parser

    [fuel] bounds every loop of the lexer and the parser and the nesting
    depth of expressions and statements.  The recursive knots ([parse_expr]
    inside the expression levels, [parse_stmt] inside statements) are closed
    after the levels are defined, in the order of the C file. *)

Definition is_tok (t : TokenType) : M bool :=
  fun c => Done (tok_eqb (type (cur c)) t) c.

Definition cur_type : M TokenType := fun c => Done (type (cur c)) c.

Section Parser.

Variable fuel : nat.

Definition accept (t : TokenType) : M bool :=
  b <- is_tok t ;;
  if b then next_token fuel ;; ret true else ret false.

Definition expect (t : TokenType) : M unit :=
  b <- accept t ;;
  if b then ret tt else error "Unexpected token" [].

Section Levels.

Variable parse_expr : M AST.

(** The argument loop of a call; [args] was allocated for 16 pointers. *)
Fixpoint call_args_loop (n : nat) (args : list AST) : M (list AST) :=
  match n with
  | O => timeout
  | S k =>
      t <- cur_type ;;
      if negb (tok_eqb t TOK_RPAREN)
      then a <- parse_expr ;;
           (if (16 <=? Z.of_nat (List.length args)) then raise_fault TableOverflow
            else ret tt) ;;
           t' <- cur_type ;;
           (if negb (tok_eqb t' TOK_RPAREN) then expect TOK_COMMA else ret tt) ;;
           call_args_loop k (args ++ [a])
      else ret args
  end.

Definition parse_primary : M AST :=
  c <- get ;;
  let t := type (cur c) in
  if tok_eqb t TOK_NUM then
    next_token fuel ;; ret (AST_NUM (num (cur c)))
  else if tok_eqb t TOK_STR then
    next_token fuel ;; ret (AST_STR (str (cur c)))
  else if tok_eqb t TOK_IDENT then
    let name := str (cur c) in
    next_token fuel ;;
    t1 <- cur_type ;;
    if tok_eqb t1 TOK_LPAREN then
      next_token fuel ;;
      args <- call_args_loop fuel [] ;;
      expect TOK_RPAREN ;;
      ret (AST_CALL name args)
    else if tok_eqb t1 TOK_LBRACKET then
      next_token fuel ;;
      idx <- parse_expr ;;
      expect TOK_RBRACKET ;;
      ret (AST_ARRAY_ACCESS name idx)
    else ret (AST_VAR name)
  else if tok_eqb t TOK_LPAREN then
    next_token fuel ;;
    node <- parse_expr ;;
    expect TOK_RPAREN ;;
    ret node
  else if tok_eqb t TOK_AMP then
    next_token fuel ;;
    t1 <- cur_type ;;
    (if negb (tok_eqb t1 TOK_IDENT) then error "Expected identifier after &" []
     else ret tt) ;;
    c1 <- get ;;
    next_token fuel ;;
    ret (AST_ADDR (str (cur c1)))
  else error "Expected expression" [].

Fixpoint parse_unary (n : nat) : M AST :=
  match n with
  | O => timeout
  | S k =>
      op <- cur_type ;;
      if tok_eqb op TOK_MINUS || tok_eqb op TOK_NOT then
        next_token fuel ;;
        e <- parse_unary k ;;
        ret (AST_UNOP op e)
      else if tok_eqb op TOK_PLUSPLUS || tok_eqb op TOK_MINUSMINUS then
        next_token fuel ;;
        t1 <- cur_type ;;
        (if negb (tok_eqb t1 TOK_IDENT) then error "Expected identifier after ++/--" []
         else ret tt) ;;
        c1 <- get ;;
        let var := AST_VAR (str (cur c1)) in
        next_token fuel ;;
        let one := AST_NUM 1 in
        let add := AST_BINOP (if tok_eqb op TOK_PLUSPLUS then TOK_PLUS else TOK_MINUS)
                             var one in
        let var2 := AST_VAR (str (cur c1)) in
        ret (AST_ASSIGN var2 add 0)
      else parse_primary
  end.

Fixpoint multiplicative_loop (n : nat) (left : AST) : M AST :=
  match n with
  | O => timeout
  | S k =>
      op <- cur_type ;;
      if tok_eqb op TOK_STAR || tok_eqb op TOK_SLASH || tok_eqb op TOK_PERCENT then
        next_token fuel ;;
        right <- parse_unary fuel ;;
        multiplicative_loop k (AST_BINOP op left right)
      else ret left
  end.

Definition parse_multiplicative : M AST :=
  left <- parse_unary fuel ;;
  multiplicative_loop fuel left.

Fixpoint additive_loop (n : nat) (left : AST) : M AST :=
  match n with
  | O => timeout
  | S k =>
      op <- cur_type ;;
      if tok_eqb op TOK_PLUS || tok_eqb op TOK_MINUS then
        next_token fuel ;;
        right <- parse_multiplicative ;;
        additive_loop k (AST_BINOP op left right)
      else ret left
  end.

Definition parse_additive : M AST :=
  left <- parse_multiplicative ;;
  additive_loop fuel left.

Fixpoint relational_loop (n : nat) (left : AST) : M AST :=
  match n with
  | O => timeout
  | S k =>
      op <- cur_type ;;
      if tok_eqb op TOK_LT || tok_eqb op TOK_GT || tok_eqb op TOK_LE || tok_eqb op TOK_GE then
        next_token fuel ;;
        right <- parse_additive ;;
        relational_loop k (AST_BINOP op left right)
      else ret left
  end.

Definition parse_relational : M AST :=
  left <- parse_additive ;;
  relational_loop fuel left.

Fixpoint equality_loop (n : nat) (left : AST) : M AST :=
  match n with
  | O => timeout
  | S k =>
      op <- cur_type ;;
      if tok_eqb op TOK_EQ || tok_eqb op TOK_NE then
        next_token fuel ;;
        right <- parse_relational ;;
        equality_loop k (AST_BINOP op left right)
      else ret left
  end.

Definition parse_equality : M AST :=
  left <- parse_relational ;;
  equality_loop fuel left.

Fixpoint logical_and_loop (n : nat) (left : AST) : M AST :=
  match n with
  | O => timeout
  | S k =>
      op <- cur_type ;;
      if tok_eqb op TOK_AND then
        next_token fuel ;;
        right <- parse_equality ;;
        logical_and_loop k (AST_BINOP TOK_AND left right)
      else ret left
  end.

Definition parse_logical_and : M AST :=
  left <- parse_equality ;;
  logical_and_loop fuel left.

Fixpoint logical_or_loop (n : nat) (left : AST) : M AST :=
  match n with
  | O => timeout
  | S k =>
      op <- cur_type ;;
      if tok_eqb op TOK_OR then
        next_token fuel ;;
        right <- parse_logical_and ;;
        logical_or_loop k (AST_BINOP TOK_OR left right)
      else ret left
  end.

Definition parse_logical_or : M AST :=
  left <- parse_logical_and ;;
  logical_or_loop fuel left.

Fixpoint parse_assignment (n : nat) : M AST :=
  match n with
  | O => timeout
  | S k =>
      left <- parse_logical_or ;;
      op <- cur_type ;;
      if tok_eqb op TOK_ASSIGN || tok_eqb op TOK_PLUSEQ || tok_eqb op TOK_MINUSEQ then
        next_token fuel ;;
        right <- parse_assignment k ;;
        ret (AST_ASSIGN left right
               (if tok_eqb op TOK_ASSIGN then OP_PLAIN
                else if tok_eqb op TOK_PLUSEQ then OP_PLUS else OP_MINUS))
      else ret left
  end.

End Levels.

Fixpoint parse_expr_depth (d : nat) : M AST :=
  match d with
  | O => timeout
  | S k => parse_assignment (parse_expr_depth k) fuel
  end.

Definition parse_expr : M AST := parse_expr_depth fuel.

(** The tail of a declaration after its name: [[ N ]], [= init]. *)
Definition parse_array_suffix : M (bool * Z) :=
  t <- cur_type ;;
  if tok_eqb t TOK_LBRACKET then
    next_token fuel ;;
    c <- get ;;
    expect TOK_NUM ;;
    expect TOK_RBRACKET ;;
    ret (true, num (cur c))
  else ret (false, 0).

Definition parse_initializer : M (option AST) :=
  t <- cur_type ;;
  if tok_eqb t TOK_ASSIGN then
    next_token fuel ;;
    e <- parse_expr ;;
    ret (Some e)
  else ret None.

Section Statements.

Variable parse_stmt : M AST.

(** The statement loop of a block; [stmts] was allocated for 256 pointers. *)
Fixpoint block_loop (n : nat) (stmts : list AST) : M (list AST) :=
  match n with
  | O => timeout
  | S k =>
      t <- cur_type ;;
      if negb (tok_eqb t TOK_RBRACE)
      then s <- parse_stmt ;;
           (if (256 <=? Z.of_nat (List.length stmts)) then raise_fault TableOverflow
            else ret tt) ;;
           block_loop k (stmts ++ [s])
      else ret stmts
  end.

Definition parse_block : M AST :=
  expect TOK_LBRACE ;;
  stmts <- block_loop fuel [] ;;
  expect TOK_RBRACE ;;
  ret (AST_BLOCK stmts).

Definition parse_stmt_body : M AST :=
  t <- cur_type ;;
  if tok_eqb t TOK_INT then
    next_token fuel ;;
    c <- get ;;
    let name := str (cur c) in
    expect TOK_IDENT ;;
    arr <- parse_array_suffix ;;
    ini <- parse_initializer ;;
    expect TOK_SEMI ;;
    ret (AST_VARDECL name ini (fst arr) (snd arr))
  else if tok_eqb t TOK_IF then
    next_token fuel ;;
    expect TOK_LPAREN ;;
    cond <- parse_expr ;;
    expect TOK_RPAREN ;;
    th <- parse_stmt ;;
    t1 <- cur_type ;;
    if tok_eqb t1 TOK_ELSE then
      next_token fuel ;;
      el <- parse_stmt ;;
      ret (AST_IF cond th (Some el))
    else ret (AST_IF cond th None)
  else if tok_eqb t TOK_WHILE then
    next_token fuel ;;
    expect TOK_LPAREN ;;
    cond <- parse_expr ;;
    expect TOK_RPAREN ;;
    body <- parse_stmt ;;
    ret (AST_WHILE cond body)
  else if tok_eqb t TOK_FOR then
    next_token fuel ;;
    expect TOK_LPAREN ;;
    t1 <- cur_type ;;
    ini <- (if tok_eqb t1 TOK_INT then
              next_token fuel ;;
              c <- get ;;
              let name := str (cur c) in
              expect TOK_IDENT ;;
              i <- parse_initializer ;;
              ret (Some (AST_VARDECL name i false 0))
            else if negb (tok_eqb t1 TOK_SEMI) then
              e <- parse_expr ;; ret (Some e)
            else ret None) ;;
    expect TOK_SEMI ;;
    t2 <- cur_type ;;
    cond <- (if negb (tok_eqb t2 TOK_SEMI) then e <- parse_expr ;; ret (Some e)
             else ret None) ;;
    expect TOK_SEMI ;;
    t3 <- cur_type ;;
    upd <- (if negb (tok_eqb t3 TOK_RPAREN) then e <- parse_expr ;; ret (Some e)
            else ret None) ;;
    expect TOK_RPAREN ;;
    body <- parse_stmt ;;
    ret (AST_FOR ini cond upd body)
  else if tok_eqb t TOK_RETURN then
    next_token fuel ;;
    t1 <- cur_type ;;
    v <- (if negb (tok_eqb t1 TOK_SEMI) then e <- parse_expr ;; ret (Some e)
          else ret None) ;;
    expect TOK_SEMI ;;
    ret (AST_RETURN v)
  else if tok_eqb t TOK_LBRACE then
    parse_block
  else
    e <- parse_expr ;;
    expect TOK_SEMI ;;
    ret e.

End Statements.

Fixpoint parse_stmt_depth (d : nat) : M AST :=
  match d with
  | O => timeout
  | S k => parse_stmt_body (parse_stmt_depth k)
  end.

Definition parse_stmt : M AST := parse_stmt_depth fuel.

(** The parameter loop of a function head; [params] holds 16 pointers. *)
Fixpoint params_loop (n : nat) (params : list string) : M (list string) :=
  match n with
  | O => timeout
  | S k =>
      t <- cur_type ;;
      if negb (tok_eqb t TOK_RPAREN)
      then t1 <- cur_type ;;
           (if tok_eqb t1 TOK_INT then next_token fuel else ret tt) ;;
           c <- get ;;
           (if (16 <=? Z.of_nat (List.length params)) then raise_fault TableOverflow
            else ret tt) ;;
           expect TOK_IDENT ;;
           t2 <- cur_type ;;
           (if negb (tok_eqb t2 TOK_RPAREN) then expect TOK_COMMA else ret tt) ;;
           params_loop k (params ++ [str (cur c)])
      else ret params
  end.

(** [do_parse_program], the top-level parser that [compile] and
    [parse_only] call; [funcs] and [globals] hold 64 pointers each. *)
Fixpoint program_loop (n : nat) (funcs globals : list AST) : M AST :=
  match n with
  | O => timeout
  | S k =>
      t <- cur_type ;;
      if negb (tok_eqb t TOK_EOF) then
        if tok_eqb t TOK_INT || tok_eqb t TOK_VOID then
          let is_void := tok_eqb t TOK_VOID in
          next_token fuel ;;
          c <- get ;;
          let name := str (cur c) in
          next_token fuel ;;
          t1 <- cur_type ;;
          if tok_eqb t1 TOK_LPAREN then
            expect TOK_LPAREN ;;
            params <- params_loop fuel [] ;;
            expect TOK_RPAREN ;;
            body <- parse_block parse_stmt ;;
            (if (64 <=? Z.of_nat (List.length funcs)) then raise_fault TableOverflow
             else ret tt) ;;
            program_loop k (funcs ++ [AST_FUNC name params body is_void]) globals
          else
            arr <- parse_array_suffix ;;
            ini <- parse_initializer ;;
            expect TOK_SEMI ;;
            (if (64 <=? Z.of_nat (List.length globals)) then raise_fault TableOverflow
             else ret tt) ;;
            program_loop k funcs (globals ++ [AST_VARDECL name ini (fst arr) (snd arr)])
        else error "Expected function or variable declaration" []
      else ret (AST_PROGRAM funcs globals)
  end.

Definition do_parse_program : M AST := program_loop fuel [] [].

End Parser.

(** The state [compile] and [parse_only] build from a zeroed [Compiler]
    before the first [next_token]. *)
Definition list_of_string (s : string) : list ascii := list_ascii_of_string s.

Definition init_compiler (source : string) (arm64 linux : bool) : Compiler :=
  mkCompiler (list_of_string source) 0 1 1 (mkToken TOK_EOF EmptyString 0 0 0)
             [] 0 [] 0 [] arm64 linux.

Definition parse_only (fuel : nat) (source : string) : result AST :=
  (next_token fuel ;; do_parse_program fuel) (init_compiler source false false).

Definition result_value {A} (r : result A) : option A :=
  match r with Done a _ => Some a | _ => None end.

(** ** Symbol table *)

(** Search from the most recent entry backward. *)
Fixpoint find_from_end (l : list Symbol) (name : string) : option Symbol :=
  match l with
  | [] => None
  | s :: tl => if String.eqb (sym_name s) name then Some s else find_from_end tl name
  end.

Definition find_symbol (name : string) : M (option Symbol) :=
  fun c => Done (find_from_end (rev (symbols c)) name) c.

(** [add_symbol] takes the slot [symbols[nsymbols++]] of a 256-entry array
    and returns a pointer to it, here the entry itself. *)
Definition add_symbol (name : string) (is_global is_param : bool) (param_index : Z)
  : M Symbol :=
  c <- get ;;
  if (256 <=? nsymbols c) then raise_fault TableOverflow
  else
    if negb is_global && negb is_param then
      let off := Int.add (stack_offset c) 8 in
      let s := mkSymbol name off is_global is_param param_index false 0 in
      modify (fun c => set_stack_offset off (set_symbols (symbols c ++ [s]) c)) ;;
      ret s
    else
      let s := mkSymbol name 0 is_global is_param param_index false 0 in
      modify (fun c => set_symbols (symbols c ++ [s]) c) ;;
      ret s.

(** Write through the pointer returned by the latest [add_symbol]. *)
Definition update_last_symbol (f : Symbol -> Symbol) : M unit :=
  modify (fun c =>
    match rev (symbols c) with
    | [] => c
    | s :: tl => set_symbols (rev tl ++ [f s]) c
    end).

Definition mark_array (size : Z) (s : Symbol) : Symbol :=
  mkSymbol (sym_name s) (offset s) (is_global s) (is_param s) (param_index s) true size.

Definition with_offset (off : Z) (s : Symbol) : Symbol :=
  mkSymbol (sym_name s) off (is_global s) (is_param s) (param_index s)
           (sym_is_array s) (sym_array_size s).

(** ** Code generation: shared helpers *)

Definition emit (f : string) (a : list fmt_arg) : M unit :=
  modify (fun c => set_out (out c ++ [mkLine f a]) c).

Definition new_label : M Z :=
  c <- get ;;
  modify (set_label_count (Int.add (label_count c) 1)) ;;
  ret (label_count c).

(** [c->string_literals[c->nstrings++] = s] on a 256-entry array. *)
Definition add_string (s : string) : M Z :=
  c <- get ;;
  if (256 <=? nstrings c) then raise_fault TableOverflow
  else modify (set_string_literals (string_literals c ++ [s])) ;;
       ret (nstrings c).

Fixpoint for_each {A} (f : A -> M unit) (l : list A) : M unit :=
  match l with
  | [] => ret tt
  | x :: tl => f x ;; for_each f tl
  end.

(** [for (int i = start; i < n; i++) f(i, l[i])] *)
Fixpoint for_each_from {A} (f : Z -> A -> M unit) (i : Z) (l : list A) : M unit :=
  match l with
  | [] => ret tt
  | x :: tl => f i x ;; for_each_from f (i + 1) tl
  end.

Definition when (b : bool) (m : M unit) : M unit := if b then m else ret tt.

Definition opt_iter {A} (f : A -> M unit) (o : option A) : M unit :=
  match o with Some x => f x | None => ret tt end.

(** [-(i + 1) * 8], the frame slot of parameter [i]. *)
Definition param_slot (i : Z) : Z := Int.mul (Int.neg (Int.add i 1)) 8.

(** The declaration part of [AST_VARDECL] in both [gen_stmt]s. *)
Definition declare_local (name : string) (is_array : bool) (array_size : Z) : M Symbol :=
  sym <- add_symbol name false false 0 ;;
  if is_array then
    c <- get ;;
    let off := Int.add (stack_offset c) (Int.mul (Int.sub array_size 1) 4) in
    modify (set_stack_offset off) ;;
    update_last_symbol (fun s => with_offset off (mark_array array_size s)) ;;
    ret (with_offset off (mark_array array_size sym))
  else ret sym.

(** The first loop of both [gen_program]s: enter the globals. *)
Definition declare_global (g : AST) : M unit :=
  match g with
  | AST_VARDECL name _ is_array array_size =>
      add_symbol name true false 0 ;;
      when is_array (update_last_symbol (mark_array array_size))
  | _ => raise_fault WrongNode
  end.

(** ** Code generation: AArch64 *)

Module Arm64.

Section Expr.

Variable gen_expr : AST -> M unit.

(** [for (int i = nargs - 1; i >= 0; i--)]; [k] is [i + 1]. *)
Fixpoint push_args (args : list AST) (k : nat) : M unit :=
  match k with
  | O => ret tt
  | S i =>
      match nth_error args i with
      | Some a => gen_expr a
      | None => raise_fault BadIndex
      end ;;
      emit "    str x0, [sp, #-16]!" [] ;;
      push_args args i
  end.

(** [for (int i = 0; i < nargs && i < 8; i++)] *)
Fixpoint pop_args (nargs : Z) (fuel : nat) (i : Z) : M unit :=
  match fuel with
  | O => ret tt
  | S k =>
      if (i <? nargs) && (i <? 8)
      then emit "    ldr x%d, [sp], #16" [FInt i] ;; pop_args nargs k (i + 1)
      else ret tt
  end.

Definition gen_binop_tail (op : TokenType) : M unit :=
  match op with
  | TOK_PLUS => emit "    add w0, w0, w1" []
  | TOK_MINUS => emit "    sub w0, w0, w1" []
  | TOK_STAR => emit "    mul w0, w0, w1" []
  | TOK_SLASH => emit "    sdiv w0, w0, w1" []
  | TOK_PERCENT =>
      emit "    sdiv w2, w0, w1" [] ;;
      emit "    msub w0, w2, w1, w0" []
  | TOK_EQ => emit "    cmp w0, w1" [] ;; emit "    cset w0, eq" []
  | TOK_NE => emit "    cmp w0, w1" [] ;; emit "    cset w0, ne" []
  | TOK_LT => emit "    cmp w0, w1" [] ;; emit "    cset w0, lt" []
  | TOK_GT => emit "    cmp w0, w1" [] ;; emit "    cset w0, gt" []
  | TOK_LE => emit "    cmp w0, w1" [] ;; emit "    cset w0, le" []
  | TOK_GE => emit "    cmp w0, w1" [] ;; emit "    cset w0, ge" []
  | TOK_AND =>
      lbl <- new_label ;;
      emit "    cbz w0, L%d" [FInt lbl] ;;
      emit "    mov w0, w1" [] ;;
      emit "L%d:" [FInt lbl] ;;
      emit "    cmp w0, #0" [] ;;
      emit "    cset w0, ne" []
  | TOK_OR =>
      lbl <- new_label ;;
      emit "    cbnz w0, L%d" [FInt lbl] ;;
      emit "    mov w0, w1" [] ;;
      emit "L%d:" [FInt lbl] ;;
      emit "    cmp w0, #0" [] ;;
      emit "    cset w0, ne" []
  | _ => ret tt
  end.

Definition gen_expr_body (node : AST) : M unit :=
  match node with
  | AST_NUM n =>
      if (0 <=? n) && (n <? 65536) then
        emit "    mov w0, #%d" [FInt n]
      else
        emit "    mov x0, #%d" [FInt (Z.land n 65535)] ;;
        when (65535 <? n)
             (emit "    movk x0, #%d, lsl #16" [FInt (Z.land (Z.shiftr n 16) 65535)])
  | AST_STR s =>
      idx <- add_string s ;;
      emit "    adrp x0, _str%d@PAGE" [FInt idx] ;;
      emit "    add x0, x0, _str%d@PAGEOFF" [FInt idx]
  | AST_VAR name =>
      o <- find_symbol name ;;
      match o with
      | None => error "Undefined variable: %s" [FStr name]
      | Some sym =>
          if is_global sym then
            emit "    adrp x0, _%s@PAGE" [FStr name] ;;
            emit "    add x0, x0, _%s@PAGEOFF" [FStr name] ;;
            when (negb (sym_is_array sym)) (emit "    ldr w0, [x0]" [])
          else if is_param sym then
            emit "    ldr w0, [x29, #%d]" [FInt (param_slot (param_index sym))]
          else
            emit "    ldr w0, [x29, #-%d]" [FInt (offset sym)]
      end
  | AST_ADDR name =>
      o <- find_symbol name ;;
      match o with
      | None => error "Undefined variable: %s" [FStr name]
      | Some sym =>
          if is_global sym then
            emit "    adrp x0, _%s@PAGE" [FStr name] ;;
            emit "    add x0, x0, _%s@PAGEOFF" [FStr name]
          else
            emit "    sub x0, x29, #%d" [FInt (offset sym)]
      end
  | AST_ARRAY_ACCESS name index =>
      o <- find_symbol name ;;
      match o with
      | None => error "Undefined variable: %s" [FStr name]
      | Some sym =>
          gen_expr index ;;
          emit "    str x0, [sp, #-16]!" [] ;;
          (if is_global sym then
             emit "    adrp x1, _%s@PAGE" [FStr name] ;;
             emit "    add x1, x1, _%s@PAGEOFF" [FStr name]
           else
             emit "    sub x1, x29, #%d" [FInt (offset sym)]) ;;
          emit "    ldr x0, [sp], #16" [] ;;
          emit "    ldr w0, [x1, x0, lsl #2]" []
      end
  | AST_BINOP op lhs rhs =>
      gen_expr lhs ;;
      emit "    str x0, [sp, #-16]!" [] ;;
      gen_expr rhs ;;
      emit "    mov x1, x0" [] ;;
      emit "    ldr x0, [sp], #16" [] ;;
      gen_binop_tail op
  | AST_UNOP op operand =>
      gen_expr operand ;;
      match op with
      | TOK_MINUS => emit "    neg w0, w0" []
      | TOK_NOT => emit "    cmp w0, #0" [] ;; emit "    cset w0, eq" []
      | _ => ret tt
      end
  | AST_ASSIGN lhs rhs op =>
      gen_expr rhs ;;
      match lhs with
      | AST_VAR name =>
          o <- find_symbol name ;;
          match o with
          | None => error "Undefined variable: %s" [FStr name]
          | Some sym =>
              when (negb (op =? 0))
                   (emit "    str x0, [sp, #-16]!" [] ;;
                    gen_expr lhs ;;
                    emit "    mov w1, w0" [] ;;
                    emit "    ldr x0, [sp], #16" [] ;;
                    if op =? OP_PLUS then emit "    add w0, w1, w0" []
                    else emit "    sub w0, w1, w0" []) ;;
              if is_global sym then
                emit "    adrp x1, _%s@PAGE" [FStr name] ;;
                emit "    add x1, x1, _%s@PAGEOFF" [FStr name] ;;
                emit "    str w0, [x1]" []
              else if is_param sym then
                emit "    str w0, [x29, #%d]" [FInt (param_slot (param_index sym))]
              else
                emit "    str w0, [x29, #-%d]" [FInt (offset sym)]
          end
      | AST_ARRAY_ACCESS name index =>
          emit "    str x0, [sp, #-16]!" [] ;;
          gen_expr index ;;
          emit "    str x0, [sp, #-16]!" [] ;;
          o <- find_symbol name ;;
          match o with
          | None => raise_fault (NullSymbol name)
          | Some sym =>
              (if is_global sym then
                 emit "    adrp x1, _%s@PAGE" [FStr name] ;;
                 emit "    add x1, x1, _%s@PAGEOFF" [FStr name]
               else
                 emit "    sub x1, x29, #%d" [FInt (offset sym)]) ;;
              emit "    ldr x0, [sp], #16" [] ;;
              emit "    ldr x2, [sp], #16" [] ;;
              emit "    str w2, [x1, x0, lsl #2]" [] ;;
              emit "    mov w0, w2" []
          end
      | _ => ret tt
      end
  | AST_CALL name args =>
      push_args args (List.length args) ;;
      pop_args (Z.of_nat (List.length args)) 8 0 ;;
      emit "    bl _%s" [FStr name]
  | _ => error "Cannot generate expression" []
  end.

End Expr.

Fixpoint gen_expr_arm64 (depth : nat) (node : AST) : M unit :=
  match depth with
  | O => timeout
  | S k => gen_expr_body (gen_expr_arm64 k) node
  end.

Section Stmt.

Variable depth : nat.
Variable gen_stmt : AST -> M unit.

Definition gen_stmt_body (node : AST) : M unit :=
  match node with
  | AST_VARDECL name init is_array array_size =>
      sym <- declare_local name is_array array_size ;;
      match init with
      | Some e =>
          gen_expr_arm64 depth e ;;
          emit "    str w0, [x29, #-%d]" [FInt (offset sym)]
      | None => ret tt
      end
  | AST_IF cond then_branch else_branch =>
      else_label <- new_label ;;
      end_label <- new_label ;;
      gen_expr_arm64 depth cond ;;
      emit "    cbz w0, L%d" [FInt else_label] ;;
      gen_stmt then_branch ;;
      emit "    b L%d" [FInt end_label] ;;
      emit "L%d:" [FInt else_label] ;;
      opt_iter gen_stmt else_branch ;;
      emit "L%d:" [FInt end_label]
  | AST_WHILE cond body =>
      start_label <- new_label ;;
      end_label <- new_label ;;
      emit "L%d:" [FInt start_label] ;;
      gen_expr_arm64 depth cond ;;
      emit "    cbz w0, L%d" [FInt end_label] ;;
      gen_stmt body ;;
      emit "    b L%d" [FInt start_label] ;;
      emit "L%d:" [FInt end_label]
  | AST_FOR init cond update body =>
      start_label <- new_label ;;
      end_label <- new_label ;;
      opt_iter gen_stmt init ;;
      emit "L%d:" [FInt start_label] ;;
      opt_iter (fun e => gen_expr_arm64 depth e ;;
                         emit "    cbz w0, L%d" [FInt end_label]) cond ;;
      gen_stmt body ;;
      opt_iter (gen_expr_arm64 depth) update ;;
      emit "    b L%d" [FInt start_label] ;;
      emit "L%d:" [FInt end_label]
  | AST_RETURN value =>
      opt_iter (gen_expr_arm64 depth) value ;;
      emit "    mov sp, x29" [] ;;
      emit "    ldp x29, x30, [sp], #16" [] ;;
      emit "    ret" []
  | AST_BLOCK stmts => for_each gen_stmt stmts
  | _ => gen_expr_arm64 depth node
  end.

End Stmt.

Fixpoint gen_stmt_depth (fuel : nat) (depth : nat) (node : AST) : M unit :=
  match depth with
  | O => timeout
  | S k => gen_stmt_body fuel (gen_stmt_depth fuel k) node
  end.

Definition gen_stmt_arm64 (fuel : nat) (node : AST) : M unit :=
  gen_stmt_depth fuel fuel node.

Definition gen_func_arm64 (fuel : nat) (node : AST) : M unit :=
  match node with
  | AST_FUNC name params body _ =>
      modify (set_stack_offset 0) ;;
      c0 <- get ;;
      let saved_nsymbols := List.length (symbols c0) in
      emit ".globl _%s" [FStr name] ;;
      emit ".p2align 2" [] ;;
      emit "_%s:" [FStr name] ;;
      emit "    stp x29, x30, [sp, #-16]!" [] ;;
      emit "    mov x29, sp" [] ;;
      emit "    sub sp, sp, #256" [] ;;
      for_each_from
        (fun i p => add_symbol p false true i ;;
                    emit "    str x%d, [x29, #%d]" [FInt i; FInt (param_slot i)])
        0 params ;;
      modify (set_stack_offset (Int.mul (Z.of_nat (List.length params)) 8)) ;;
      gen_stmt_arm64 fuel body ;;
      emit "    mov sp, x29" [] ;;
      emit "    ldp x29, x30, [sp], #16" [] ;;
      emit "    ret" [] ;;
      emit EmptyString [] ;;
      modify (fun c => set_symbols (firstn saved_nsymbols (symbols c)) c)
  | _ => raise_fault WrongNode
  end.

End Arm64.

(** The data and string sections, shared in shape by both back-ends;
    [align] is the [.p2align 2] line only AArch64 emits. *)
Definition sym_prefix : M string :=
  fun c => Done (if is_linux c then EmptyString else "_") c.

Definition gen_global_data (align : bool) (prefix : string) (g : AST) : M unit :=
  match g with
  | AST_VARDECL name init is_array array_size =>
      emit ".globl %s%s" [FStr prefix; FStr name] ;;
      when align (emit ".p2align 2" []) ;;
      emit "%s%s:" [FStr prefix; FStr name] ;;
      (if is_array then emit "    .zero %d" [FInt (Int.mul array_size 4)]
       else match init with
            | Some (AST_NUM n) => emit "    .long %d" [FInt n]
            | Some _ => raise_fault WrongNode
            | None => emit "    .long 0" []
            end) ;;
      emit EmptyString []
  | _ => raise_fault WrongNode
  end.

(** The format of a string-literal line: [.asciz], then [%s] between two
    double-quote characters. *)
Definition asciz_fmt : string :=
  "    .asciz " ++ String DQUOTE ("%s" ++ String DQUOTE EmptyString).

Definition gen_strings (prefix : string) : M unit :=
  c <- get ;;
  for_each_from
    (fun i s => emit "%sstr%d:" [FStr prefix; FInt i] ;;
                emit asciz_fmt [FStr s])
    0 (string_literals c).

Definition gen_program_arm64 (fuel : nat) (node : AST) : M unit :=
  match node with
  | AST_PROGRAM funcs globals =>
      for_each declare_global globals ;;
      c <- get ;;
      (if is_linux c then emit ".section .text" []
       else emit ".section __TEXT,__text" []) ;;
      emit EmptyString [] ;;
      for_each (Arm64.gen_func_arm64 fuel) funcs ;;
      (if is_linux c then emit ".section .data" []
       else emit ".section __DATA,__data" []) ;;
      prefix <- sym_prefix ;;
      for_each (gen_global_data true prefix) globals ;;
      (if is_linux c then emit ".section .rodata" []
       else emit ".section __TEXT,__cstring" []) ;;
      gen_strings prefix
  | _ => raise_fault WrongNode
  end.

(** ** Code generation: x86-64 *)

Module X64.

(** [regs[i]] of the SysV argument registers. *)
Definition regs : list string := ["rdi"; "rsi"; "rdx"; "rcx"; "r8"; "r9"].

Definition reg_name (i : Z) : string := nth (Z.to_nat i) regs EmptyString.

Section Expr.

Variable gen_expr : AST -> M unit.

(** [for (int i = nargs - 1; i >= 0; i--)]; [k] is [i + 1]. *)
Fixpoint push_args (args : list AST) (k : nat) : M unit :=
  match k with
  | O => ret tt
  | S i =>
      match nth_error args i with
      | Some a => gen_expr a
      | None => raise_fault BadIndex
      end ;;
      emit "    pushq %%rax" [] ;;
      push_args args i
  end.

(** [for (int i = 0; i < nargs && i < 6; i++)] *)
Fixpoint pop_args (nargs : Z) (fuel : nat) (i : Z) : M unit :=
  match fuel with
  | O => ret tt
  | S k =>
      if (i <? nargs) && (i <? 6)
      then emit "    popq %%%s" [FStr (reg_name i)] ;; pop_args nargs k (i + 1)
      else ret tt
  end.

Definition gen_setcc (cc : string) : M unit :=
  emit "    cmpl %%ecx, %%eax" [] ;;
  emit ("    set" ++ cc ++ " %%al") [] ;;
  emit "    movzbl %%al, %%eax" [].

Definition gen_binop_tail (op : TokenType) : M unit :=
  match op with
  | TOK_PLUS => emit "    addl %%ecx, %%eax" []
  | TOK_MINUS => emit "    subl %%ecx, %%eax" []
  | TOK_STAR => emit "    imull %%ecx, %%eax" []
  | TOK_SLASH =>
      emit "    cltd" [] ;;
      emit "    idivl %%ecx" []
  | TOK_PERCENT =>
      emit "    cltd" [] ;;
      emit "    idivl %%ecx" [] ;;
      emit "    movl %%edx, %%eax" []
  | TOK_EQ => gen_setcc "e"
  | TOK_NE => gen_setcc "ne"
  | TOK_LT => gen_setcc "l"
  | TOK_GT => gen_setcc "g"
  | TOK_LE => gen_setcc "le"
  | TOK_GE => gen_setcc "ge"
  | TOK_AND =>
      lbl <- new_label ;;
      emit "    testl %%eax, %%eax" [] ;;
      emit "    je L%d" [FInt lbl] ;;
      emit "    movl %%ecx, %%eax" [] ;;
      emit "L%d:" [FInt lbl] ;;
      emit "    testl %%eax, %%eax" [] ;;
      emit "    setne %%al" [] ;;
      emit "    movzbl %%al, %%eax" []
  | TOK_OR =>
      lbl <- new_label ;;
      emit "    testl %%eax, %%eax" [] ;;
      emit "    jne L%d" [FInt lbl] ;;
      emit "    movl %%ecx, %%eax" [] ;;
      emit "L%d:" [FInt lbl] ;;
      emit "    testl %%eax, %%eax" [] ;;
      emit "    setne %%al" [] ;;
      emit "    movzbl %%al, %%eax" []
  | _ => ret tt
  end.

Definition gen_expr_body (node : AST) : M unit :=
  match node with
  | AST_NUM n => emit "    movl $%d, %%eax" [FInt n]
  | AST_STR s =>
      idx <- add_string s ;;
      p <- sym_prefix ;;
      emit "    leaq %sstr%d(%%rip), %%rax" [FStr p; FInt idx]
  | AST_VAR name =>
      o <- find_symbol name ;;
      match o with
      | None => error "Undefined variable: %s" [FStr name]
      | Some sym =>
          p <- sym_prefix ;;
          if is_global sym then
            if sym_is_array sym then
              emit "    leaq %s%s(%%rip), %%rax" [FStr p; FStr name]
            else
              emit "    movl %s%s(%%rip), %%eax" [FStr p; FStr name]
          else if is_param sym then
            emit "    movl %d(%%rbp), %%eax" [FInt (param_slot (param_index sym))]
          else
            emit "    movl -%d(%%rbp), %%eax" [FInt (offset sym)]
      end
  | AST_ADDR name =>
      o <- find_symbol name ;;
      match o with
      | None => error "Undefined variable: %s" [FStr name]
      | Some sym =>
          p <- sym_prefix ;;
          if is_global sym then
            emit "    leaq %s%s(%%rip), %%rax" [FStr p; FStr name]
          else
            emit "    leaq -%d(%%rbp), %%rax" [FInt (offset sym)]
      end
  | AST_ARRAY_ACCESS name index =>
      o <- find_symbol name ;;
      match o with
      | None => error "Undefined variable: %s" [FStr name]
      | Some sym =>
          gen_expr index ;;
          emit "    pushq %%rax" [] ;;
          p <- sym_prefix ;;
          (if is_global sym then
             emit "    leaq %s%s(%%rip), %%rcx" [FStr p; FStr name]
           else
             emit "    leaq -%d(%%rbp), %%rcx" [FInt (offset sym)]) ;;
          emit "    popq %%rax" [] ;;
          emit "    movl (%%rcx,%%rax,4), %%eax" []
      end
  | AST_BINOP op lhs rhs =>
      gen_expr lhs ;;
      emit "    pushq %%rax" [] ;;
      gen_expr rhs ;;
      emit "    movl %%eax, %%ecx" [] ;;
      emit "    popq %%rax" [] ;;
      gen_binop_tail op
  | AST_UNOP op operand =>
      gen_expr operand ;;
      match op with
      | TOK_MINUS => emit "    negl %%eax" []
      | TOK_NOT =>
          emit "    testl %%eax, %%eax" [] ;;
          emit "    sete %%al" [] ;;
          emit "    movzbl %%al, %%eax" []
      | _ => ret tt
      end
  | AST_ASSIGN lhs rhs op =>
      gen_expr rhs ;;
      match lhs with
      | AST_VAR name =>
          o <- find_symbol name ;;
          match o with
          | None => error "Undefined variable: %s" [FStr name]
          | Some sym =>
              when (negb (op =? 0))
                   (emit "    pushq %%rax" [] ;;
                    gen_expr lhs ;;
                    emit "    movl %%eax, %%ecx" [] ;;
                    emit "    popq %%rax" [] ;;
                    if op =? OP_PLUS then emit "    addl %%ecx, %%eax" []
                    else emit ("    subl %%eax, %%ecx" ++ String LF "    movl %%ecx, %%eax") []) ;;
              p <- sym_prefix ;;
              if is_global sym then
                emit "    movl %%eax, %s%s(%%rip)" [FStr p; FStr name]
              else if is_param sym then
                emit "    movl %%eax, %d(%%rbp)" [FInt (param_slot (param_index sym))]
              else
                emit "    movl %%eax, -%d(%%rbp)" [FInt (offset sym)]
          end
      | AST_ARRAY_ACCESS name index =>
          emit "    pushq %%rax" [] ;;
          gen_expr index ;;
          emit "    pushq %%rax" [] ;;
          o <- find_symbol name ;;
          match o with
          | None => raise_fault (NullSymbol name)
          | Some sym =>
              p <- sym_prefix ;;
              (if is_global sym then
                 emit "    leaq %s%s(%%rip), %%rcx" [FStr p; FStr name]
               else
                 emit "    leaq -%d(%%rbp), %%rcx" [FInt (offset sym)]) ;;
              emit "    popq %%rax" [] ;;
              emit "    popq %%rdx" [] ;;
              emit "    movl %%edx, (%%rcx,%%rax,4)" [] ;;
              emit "    movl %%edx, %%eax" []
          end
      | _ => ret tt
      end
  | AST_CALL name args =>
      push_args args (List.length args) ;;
      pop_args (Z.of_nat (List.length args)) 6 0 ;;
      emit "    pushq %%rbx" [] ;;
      emit "    movq %%rsp, %%rbx" [] ;;
      emit "    andq $-16, %%rsp" [] ;;
      emit "    xorl %%eax, %%eax" [] ;;
      p <- sym_prefix ;;
      emit "    callq %s%s" [FStr p; FStr name] ;;
      emit "    movq %%rbx, %%rsp" [] ;;
      emit "    popq %%rbx" []
  | _ => error "Cannot generate expression" []
  end.

End Expr.

Fixpoint gen_expr_x64 (depth : nat) (node : AST) : M unit :=
  match depth with
  | O => timeout
  | S k => gen_expr_body (gen_expr_x64 k) node
  end.

Section Stmt.

Variable depth : nat.
Variable gen_stmt : AST -> M unit.

Definition gen_stmt_body (node : AST) : M unit :=
  match node with
  | AST_VARDECL name init is_array array_size =>
      sym <- declare_local name is_array array_size ;;
      match init with
      | Some e =>
          gen_expr_x64 depth e ;;
          emit "    movl %%eax, -%d(%%rbp)" [FInt (offset sym)]
      | None => ret tt
      end
  | AST_IF cond then_branch else_branch =>
      else_label <- new_label ;;
      end_label <- new_label ;;
      gen_expr_x64 depth cond ;;
      emit "    testl %%eax, %%eax" [] ;;
      emit "    je L%d" [FInt else_label] ;;
      gen_stmt then_branch ;;
      emit "    jmp L%d" [FInt end_label] ;;
      emit "L%d:" [FInt else_label] ;;
      opt_iter gen_stmt else_branch ;;
      emit "L%d:" [FInt end_label]
  | AST_WHILE cond body =>
      start_label <- new_label ;;
      end_label <- new_label ;;
      emit "L%d:" [FInt start_label] ;;
      gen_expr_x64 depth cond ;;
      emit "    testl %%eax, %%eax" [] ;;
      emit "    je L%d" [FInt end_label] ;;
      gen_stmt body ;;
      emit "    jmp L%d" [FInt start_label] ;;
      emit "L%d:" [FInt end_label]
  | AST_FOR init cond update body =>
      start_label <- new_label ;;
      end_label <- new_label ;;
      opt_iter gen_stmt init ;;
      emit "L%d:" [FInt start_label] ;;
      opt_iter (fun e => gen_expr_x64 depth e ;;
                         emit "    testl %%eax, %%eax" [] ;;
                         emit "    je L%d" [FInt end_label]) cond ;;
      gen_stmt body ;;
      opt_iter (gen_expr_x64 depth) update ;;
      emit "    jmp L%d" [FInt start_label] ;;
      emit "L%d:" [FInt end_label]
  | AST_RETURN value =>
      opt_iter (gen_expr_x64 depth) value ;;
      emit "    movq %%rbp, %%rsp" [] ;;
      emit "    popq %%rbp" [] ;;
      emit "    retq" []
  | AST_BLOCK stmts => for_each gen_stmt stmts
  | _ => gen_expr_x64 depth node
  end.

End Stmt.

Fixpoint gen_stmt_depth (fuel : nat) (depth : nat) (node : AST) : M unit :=
  match depth with
  | O => timeout
  | S k => gen_stmt_body fuel (gen_stmt_depth fuel k) node
  end.

Definition gen_stmt_x64 (fuel : nat) (node : AST) : M unit :=
  gen_stmt_depth fuel fuel node.

(** [for (int i = 0; i < nparams && i < 6; i++)] *)
Fixpoint save_params (i : Z) (params : list string) : M unit :=
  match params with
  | [] => ret tt
  | p :: tl =>
      if i <? 6 then
        add_symbol p false true i ;;
        emit "    movq %%%s, %d(%%rbp)" [FStr (reg_name i); FInt (param_slot i)] ;;
        save_params (i + 1) tl
      else ret tt
  end.

Definition gen_func_x64 (fuel : nat) (node : AST) : M unit :=
  match node with
  | AST_FUNC name params body _ =>
      modify (set_stack_offset 0) ;;
      c0 <- get ;;
      let saved_nsymbols := List.length (symbols c0) in
      prefix <- sym_prefix ;;
      emit ".globl %s%s" [FStr prefix; FStr name] ;;
      emit "%s%s:" [FStr prefix; FStr name] ;;
      emit "    pushq %%rbp" [] ;;
      emit "    movq %%rsp, %%rbp" [] ;;
      emit "    subq $256, %%rsp" [] ;;
      save_params 0 params ;;
      modify (set_stack_offset (Int.mul (Z.of_nat (List.length params)) 8)) ;;
      gen_stmt_x64 fuel body ;;
      emit "    movq %%rbp, %%rsp" [] ;;
      emit "    popq %%rbp" [] ;;
      emit "    retq" [] ;;
      emit EmptyString [] ;;
      modify (fun c => set_symbols (firstn saved_nsymbols (symbols c)) c)
  | _ => raise_fault WrongNode
  end.

End X64.

Definition gen_program_x64 (fuel : nat) (node : AST) : M unit :=
  match node with
  | AST_PROGRAM funcs globals =>
      for_each declare_global globals ;;
      c <- get ;;
      (if is_linux c then emit ".section .text" []
       else emit ".section __TEXT,__text" []) ;;
      emit EmptyString [] ;;
      for_each (X64.gen_func_x64 fuel) funcs ;;
      (if is_linux c then emit ".section .data" []
       else emit ".section __DATA,__data" []) ;;
      prefix <- sym_prefix ;;
      for_each (gen_global_data false prefix) globals ;;
      (if is_linux c then emit ".section .rodata" []
       else emit ".section __TEXT,__cstring" []) ;;
      gen_strings prefix
  | _ => raise_fault WrongNode
  end.

(** ** The driver *)

(** [compile]: reset the state, lex the first token, parse, and hand the
    program to the back-end selected when the compiler itself was built. *)
Definition compile (fuel : nat) (source : string) (arm64 linux : bool) : result unit :=
  (next_token fuel ;;
   program <- do_parse_program fuel ;;
   if arm64 then gen_program_arm64 fuel program
   else gen_program_x64 fuel program)
  (init_compiler source arm64 linux).

Definition result_state {A} (r : result A) : option Compiler :=
  match r with
  | Done _ c | Fatal _ c | Fault _ c => Some c
  | Timeout => None
  end.

Definition output_of {A} (r : result A) : list line :=
  match result_state r with Some c => out c | None => [] end.

(** ** Printing: what [vfprintf] writes for a format and its arguments *)

Definition string_of_Z (z : Z) : string := NilZero.string_of_int (Z.to_int z).

Definition render_arg (conv : ascii) (a : fmt_arg) : string :=
  match a with
  | FInt z => string_of_Z z
  | FStr s => s
  | FChar ch => String ch EmptyString
  end.

(** Conversions used by the compiler: [%d], [%s], [%c] and [%%]. *)
Fixpoint render (f : string) (a : list fmt_arg) : string :=
  match f with
  | EmptyString => EmptyString
  | String "%" (String "%" rest) => String "%" (render rest a)
  | String "%" (String conv rest) =>
      match a with
      | x :: a' => render_arg conv x ++ render rest a'
      | [] => render rest []
      end
  | String ch rest => String ch (render rest a)
  end.

Definition render_line (l : line) : string := render (fmt l) (fargs l).

(** What [error] writes to stderr. *)
Definition render_diagnostic (d : diagnostic) : string :=
  render "Error at line %d, col %d: " [FInt (dline d); FInt (dcol d)]
  ++ render_line (dmsg d) ++ String LF EmptyString.

Definition assembly_text (l : list line) : string :=
  String.concat EmptyString (map (fun x => render_line x ++ String LF EmptyString) l).

(** ** A reference semantics for the emitted instructions

    Only the instructions the properties below execute are given a meaning;
    any other line stops the machine ([None]).  A line is recognised by the
    format string it was emitted with.  Registers hold 64-bit values, the
    [w] and [e] names are their low 32 bits, and a write to a 32-bit name
    clears the upper half.  The expression stack is the list of pushed
    64-bit slots; frame memory maps a byte address to the 32-bit word
    stored there. *)

Definition two32 : Z := 4294967296.
Definition two64 : Z := 18446744073709551616.
Definition low32 (x : Z) : Z := x mod two32.

Definition is_label_def (n : Z) (l : line) : bool :=
  String.eqb (fmt l) "L%d:" &&
  match fargs l with [FInt m] => m =? n | _ => false end.

(** Index of the first definition of label [n]. *)
Fixpoint find_label (n : Z) (prog : list line) : option nat :=
  match prog with
  | [] => None
  | l :: tl => if is_label_def n l then Some O
               else option_map S (find_label n tl)
  end.

Module A64M.

Record machine : Type := mkMachine {
  x0 : Z; x1 : Z; x2 : Z;
  x29 : Z;
  zflag : bool;
  stack : list Z;
  mem : Z -> Z
}.

Definition set_x0 (v : Z) (m : machine) : machine :=
  mkMachine v (x1 m) (x2 m) (x29 m) (zflag m) (stack m) (mem m).
Definition set_x1 (v : Z) (m : machine) : machine :=
  mkMachine (x0 m) v (x2 m) (x29 m) (zflag m) (stack m) (mem m).
Definition set_x2 (v : Z) (m : machine) : machine :=
  mkMachine (x0 m) (x1 m) v (x29 m) (zflag m) (stack m) (mem m).
Definition set_zflag (v : bool) (m : machine) : machine :=
  mkMachine (x0 m) (x1 m) (x2 m) (x29 m) v (stack m) (mem m).
Definition set_stack (v : list Z) (m : machine) : machine :=
  mkMachine (x0 m) (x1 m) (x2 m) (x29 m) (zflag m) v (mem m).
Definition store (a v : Z) (m : machine) : machine :=
  mkMachine (x0 m) (x1 m) (x2 m) (x29 m) (zflag m) (stack m)
            (fun a' => if a' =? a then v else mem m a').

Definition w0 (m : machine) : Z := low32 (x0 m).
Definition w1 (m : machine) : Z := low32 (x1 m).
Definition w2 (m : machine) : Z := low32 (x2 m).

Definition pop (k : Z -> machine -> machine) (m : machine) : option machine :=
  match stack m with
  | v :: tl => Some (k v (set_stack tl m))
  | [] => None
  end.

(** Where control goes after an instruction. *)
Inductive next : Type :=
| Fall (m : machine)
| Jump (label : Z) (m : machine).

Definition step (l : line) (m : machine) : option next :=
  let f := fmt l in
  let fall := fun m' => Some (Fall m') in
  match fargs l with
  | [] =>
      if String.eqb f "    str x0, [sp, #-16]!" then fall (set_stack (x0 m :: stack m) m)
      else if String.eqb f "    ldr x0, [sp], #16" then option_map Fall (pop set_x0 m)
      else if String.eqb f "    ldr x2, [sp], #16" then option_map Fall (pop set_x2 m)
      else if String.eqb f "    mov x1, x0" then fall (set_x1 (x0 m) m)
      else if String.eqb f "    mov w0, w1" then fall (set_x0 (w1 m) m)
      else if String.eqb f "    mov w1, w0" then fall (set_x1 (w0 m) m)
      else if String.eqb f "    mov w0, w2" then fall (set_x0 (w2 m) m)
      else if String.eqb f "    cmp w0, #0" then fall (set_zflag (w0 m =? 0) m)
      else if String.eqb f "    cset w0, ne" then fall (set_x0 (if zflag m then 0 else 1) m)
      else if String.eqb f "    cset w0, eq" then fall (set_x0 (if zflag m then 1 else 0) m)
      else if String.eqb f "    add w0, w0, w1" then fall (set_x0 (low32 (w0 m + w1 m)) m)
      else if String.eqb f "    sub w0, w0, w1" then fall (set_x0 (low32 (w0 m - w1 m)) m)
      else if String.eqb f "    add w0, w1, w0" then fall (set_x0 (low32 (w1 m + w0 m)) m)
      else if String.eqb f "    sub w0, w1, w0" then fall (set_x0 (low32 (w1 m - w0 m)) m)
      else if String.eqb f "    str w2, [x1, x0, lsl #2]"
           then fall (store (x1 m + 4 * x0 m) (w2 m) m)
      else if String.eqb f "    ldr w0, [x1, x0, lsl #2]"
           then fall (set_x0 (low32 (mem m (x1 m + 4 * x0 m))) m)
      else None
  | [FInt n] =>
      if String.eqb f "    mov w0, #%d" then fall (set_x0 (low32 n) m)
      else if String.eqb f "    mov x0, #%d" then fall (set_x0 (n mod two64) m)
      else if String.eqb f "    movk x0, #%d, lsl #16"
           then fall (set_x0 (Z.lor (Z.land (x0 m) (Z.lnot (Z.shiftl 65535 16) mod two64))
                                    (Z.shiftl (Z.land n 65535) 16)) m)
      else if String.eqb f "    cbz w0, L%d"
           then Some (if w0 m =? 0 then Jump n m else Fall m)
      else if String.eqb f "    cbnz w0, L%d"
           then Some (if w0 m =? 0 then Fall m else Jump n m)
      else if String.eqb f "L%d:" then fall m
      else if String.eqb f "    sub x1, x29, #%d" then fall (set_x1 ((x29 m - n) mod two64) m)
      else if String.eqb f "    str w0, [x29, #-%d]" then fall (store (x29 m - n) (w0 m) m)
      else if String.eqb f "    ldr w0, [x29, #-%d]" then fall (set_x0 (low32 (mem m (x29 m - n))) m)
      else None
  | _ => None
  end.

(** Run [prog] from line [pc] until control falls off its end. *)
Fixpoint run (fuel : nat) (prog : list line) (pc : nat) (m : machine) : option machine :=
  match fuel with
  | O => None
  | S k =>
      match nth_error prog pc with
      | None => if Nat.eqb pc (List.length prog) then Some m else None
      | Some l =>
          match step l m with
          | None => None
          | Some (Fall m') => run k prog (S pc) m'
          | Some (Jump lbl m') =>
              match find_label lbl prog with
              | Some target => run k prog target m'
              | None => None
              end
          end
      end
  end.

Definition exec (prog : list line) (m : machine) : option machine :=
  run (S (List.length prog)) prog 0 m.

End A64M.

Module X64M.

Record machine : Type := mkMachine {
  rax : Z; rcx : Z; rdx : Z;
  rbp : Z;
  zflag : bool;
  stack : list Z;
  mem : Z -> Z
}.

Definition set_rax (v : Z) (m : machine) : machine :=
  mkMachine v (rcx m) (rdx m) (rbp m) (zflag m) (stack m) (mem m).
Definition set_rcx (v : Z) (m : machine) : machine :=
  mkMachine (rax m) v (rdx m) (rbp m) (zflag m) (stack m) (mem m).
Definition set_rdx (v : Z) (m : machine) : machine :=
  mkMachine (rax m) (rcx m) v (rbp m) (zflag m) (stack m) (mem m).
Definition set_zflag (v : bool) (m : machine) : machine :=
  mkMachine (rax m) (rcx m) (rdx m) (rbp m) v (stack m) (mem m).
Definition set_stack (v : list Z) (m : machine) : machine :=
  mkMachine (rax m) (rcx m) (rdx m) (rbp m) (zflag m) v (mem m).
Definition store (a v : Z) (m : machine) : machine :=
  mkMachine (rax m) (rcx m) (rdx m) (rbp m) (zflag m) (stack m)
            (fun a' => if a' =? a then v else mem m a').

Definition eax (m : machine) : Z := low32 (rax m).
Definition ecx (m : machine) : Z := low32 (rcx m).
Definition edx (m : machine) : Z := low32 (rdx m).

Definition pop (k : Z -> machine -> machine) (m : machine) : option machine :=
  match stack m with
  | v :: tl => Some (k v (set_stack tl m))
  | [] => None
  end.

Inductive next : Type :=
| Fall (m : machine)
| Jump (label : Z) (m : machine).

Definition step (l : line) (m : machine) : option next :=
  let f := fmt l in
  let fall := fun m' => Some (Fall m') in
  match fargs l with
  | [] =>
      if String.eqb f "    pushq %%rax" then fall (set_stack (rax m :: stack m) m)
      else if String.eqb f "    popq %%rax" then option_map Fall (pop set_rax m)
      else if String.eqb f "    popq %%rdx" then option_map Fall (pop set_rdx m)
      else if String.eqb f "    movl %%eax, %%ecx" then fall (set_rcx (eax m) m)
      else if String.eqb f "    movl %%ecx, %%eax" then fall (set_rax (ecx m) m)
      else if String.eqb f "    movl %%edx, %%eax" then fall (set_rax (edx m) m)
      else if String.eqb f "    testl %%eax, %%eax" then fall (set_zflag (eax m =? 0) m)
      else if String.eqb f "    setne %%al"
           then fall (set_rax (rax m - rax m mod 256 + (if zflag m then 0 else 1)) m)
      else if String.eqb f "    sete %%al"
           then fall (set_rax (rax m - rax m mod 256 + (if zflag m then 1 else 0)) m)
      else if String.eqb f "    movzbl %%al, %%eax" then fall (set_rax (rax m mod 256) m)
      else if String.eqb f "    addl %%ecx, %%eax" then fall (set_rax (low32 (eax m + ecx m)) m)
      else if String.eqb f "    subl %%ecx, %%eax" then fall (set_rax (low32 (eax m - ecx m)) m)
      else if String.eqb f "    movl %%edx, (%%rcx,%%rax,4)"
           then fall (store (rcx m + 4 * rax m) (edx m) m)
      else if String.eqb f "    movl (%%rcx,%%rax,4), %%eax"
           then fall (set_rax (low32 (mem m (rcx m + 4 * rax m))) m)
      else None
  | [FInt n] =>
      if String.eqb f "    movl $%d, %%eax" then fall (set_rax (low32 n) m)
      else if String.eqb f "    je L%d" then Some (if zflag m then Jump n m else Fall m)
      else if String.eqb f "    jne L%d" then Some (if zflag m then Fall m else Jump n m)
      else if String.eqb f "L%d:" then fall m
      else if String.eqb f "    leaq -%d(%%rbp), %%rcx" then fall (set_rcx ((rbp m - n) mod two64) m)
      else if String.eqb f "    movl %%eax, -%d(%%rbp)" then fall (store (rbp m - n) (eax m) m)
      else if String.eqb f "    movl -%d(%%rbp), %%eax" then fall (set_rax (low32 (mem m (rbp m - n))) m)
      else None
  | _ => None
  end.

Fixpoint run (fuel : nat) (prog : list line) (pc : nat) (m : machine) : option machine :=
  match fuel with
  | O => None
  | S k =>
      match nth_error prog pc with
      | None => if Nat.eqb pc (List.length prog) then Some m else None
      | Some l =>
          match step l m with
          | None => None
          | Some (Fall m') => run k prog (S pc) m'
          | Some (Jump lbl m') =>
              match find_label lbl prog with
              | Some target => run k prog target m'
              | None => None
              end
          end
      end
  end.

Definition exec (prog : list line) (m : machine) : option machine :=
  run (S (List.length prog)) prog 0 m.

End X64M.

(** ** The JSON dump of the syntax tree ([--dump-ast])

    The dump functions only write to their [FILE *]; each is the string
    it writes.  The tag of a node is its constructor. *)

Definition ast_type_name (node : AST) : string :=
  match node with
  | AST_NUM _ => "NumLiteral"
  | AST_STR _ => "StringLiteral"
  | AST_VAR _ => "Variable"
  | AST_BINOP _ _ _ => "BinaryOp"
  | AST_UNOP _ _ => "UnaryOp"
  | AST_ASSIGN _ _ _ => "Assignment"
  | AST_CALL _ _ => "FunctionCall"
  | AST_IF _ _ _ => "IfStatement"
  | AST_WHILE _ _ => "WhileLoop"
  | AST_FOR _ _ _ _ => "ForLoop"
  | AST_RETURN _ => "ReturnStatement"
  | AST_BLOCK _ => "Block"
  | AST_FUNC _ _ _ _ => "FunctionDecl"
  | AST_VARDECL _ _ _ _ => "VarDecl"
  | AST_PROGRAM _ _ => "Program"
  | AST_ARRAY_ACCESS _ _ => "ArrayAccess"
  | AST_ADDR _ => "AddressOf"
  end.

Definition op_to_string (op : TokenType) : string :=
  match op with
  | TOK_PLUS => "+"
  | TOK_MINUS => "-"
  | TOK_STAR => "*"
  | TOK_SLASH => "/"
  | TOK_PERCENT => "%"
  | TOK_EQ => "=="
  | TOK_NE => "!="
  | TOK_LT => "<"
  | TOK_GT => ">"
  | TOK_LE => "<="
  | TOK_GE => ">="
  | TOK_AND => "&&"
  | TOK_OR => "||"
  | TOK_NOT => "!"
  | _ => "?"
  end.

(** [for (int i = 0; i < indent; i++) fprintf(out, "  ");] *)
Fixpoint print_indent (indent : nat) : string :=
  match indent with
  | O => EmptyString
  | S k => "  " ++ print_indent k
  end.

Definition quote : string := String DQUOTE EmptyString.
Definition newline : string := String LF EmptyString.

(** One byte of [print_json_string]'s [switch]. *)
Definition json_escape (ch : ascii) : string :=
  if is_char ch DQUOTE then String BACKSLASH quote
  else if is_char ch BACKSLASH then String BACKSLASH (String BACKSLASH EmptyString)
  else if is_char ch LF then String BACKSLASH "n"
  else if is_char ch CR then String BACKSLASH "r"
  else if is_char ch TAB then String BACKSLASH "t"
  else String ch EmptyString.

Fixpoint json_escape_all (s : string) : string :=
  match s with
  | EmptyString => EmptyString
  | String ch rest => json_escape ch ++ json_escape_all rest
  end.

Definition print_json_string (s : string) : string :=
  quote ++ json_escape_all s ++ quote.

(** [fprintf(out, "\"%s\"", s)]: a name between quotes, not escaped. *)
Definition quoted_name (s : string) : string := quote ++ s ++ quote.

(** [",\n"], the indentation, and the key with its colon. *)
Definition json_field (indent : nat) (key : string) : string :=
  "," ++ newline ++ print_indent (indent + 1) ++ quoted_name key ++ ": ".

(** A field after one that ended in [",\n"] already. *)
Definition json_next_field (indent : nat) (key : string) : string :=
  print_indent (indent + 1) ++ quoted_name key ++ ": ".

Section JsonArray.

Variable A : Type.
Variable item : A -> string.
Variable indent : nat.

(** The body of the loops over children: indentation, the item, a comma
    after all but the last, a newline. *)
Fixpoint json_items (l : list A) : string :=
  match l with
  | [] => EmptyString
  | x :: tl =>
      print_indent (indent + 2) ++ item x
      ++ (match tl with [] => EmptyString | _ => "," end)
      ++ newline ++ json_items tl
  end.

Definition json_array (l : list A) : string :=
  "["
  ++ (match l with
      | [] => EmptyString
      | _ => newline ++ json_items l ++ print_indent (indent + 1)
      end)
  ++ "]".

End JsonArray.

Arguments json_items {A} item indent l.
Arguments json_array {A} item indent l.

Fixpoint ast_to_json (node : AST) (indent : nat) : string :=
  let child := fun (o : option AST) =>
                 match o with
                 | Some x => ast_to_json x (indent + 1)
                 | None => "null"
                 end in
  "{" ++ newline ++ print_indent (indent + 1)
  ++ quoted_name "type" ++ ": " ++ quoted_name (ast_type_name node)
  ++ (match node with
      | AST_NUM n =>
          json_field indent "value" ++ string_of_Z n
      | AST_STR s =>
          json_field indent "value" ++ print_json_string s
      | AST_VAR name =>
          json_field indent "name" ++ quoted_name name
      | AST_BINOP op lhs rhs =>
          json_field indent "operator" ++ quoted_name (op_to_string op) ++ "," ++ newline
          ++ json_next_field indent "left" ++ ast_to_json lhs (indent + 1)
          ++ json_field indent "right" ++ ast_to_json rhs (indent + 1)
      | AST_UNOP op operand =>
          json_field indent "operator" ++ quoted_name (op_to_string op) ++ "," ++ newline
          ++ json_next_field indent "operand" ++ ast_to_json operand (indent + 1)
      | AST_ASSIGN lhs rhs op =>
          let assign_op := if op =? OP_PLUS then "+="
                           else if op =? OP_MINUS then "-=" else "=" in
          json_field indent "operator" ++ quoted_name assign_op ++ "," ++ newline
          ++ json_next_field indent "left" ++ ast_to_json lhs (indent + 1)
          ++ json_field indent "right" ++ ast_to_json rhs (indent + 1)
      | AST_CALL name args =>
          json_field indent "name" ++ quoted_name name ++ "," ++ newline
          ++ json_next_field indent "arguments"
          ++ json_array (fun a => ast_to_json a (indent + 2)) indent args
      | AST_IF cond then_branch else_branch =>
          json_field indent "condition" ++ ast_to_json cond (indent + 1)
          ++ json_field indent "then" ++ ast_to_json then_branch (indent + 1)
          ++ json_field indent "else" ++ child else_branch
      | AST_WHILE cond body =>
          json_field indent "condition" ++ ast_to_json cond (indent + 1)
          ++ json_field indent "body" ++ ast_to_json body (indent + 1)
      | AST_FOR init cond update body =>
          json_field indent "init" ++ child init
          ++ json_field indent "condition" ++ child cond
          ++ json_field indent "update" ++ child update
          ++ json_field indent "body" ++ ast_to_json body (indent + 1)
      | AST_RETURN value =>
          json_field indent "value" ++ child value
      | AST_BLOCK stmts =>
          json_field indent "statements"
          ++ json_array (fun a => ast_to_json a (indent + 2)) indent stmts
      | AST_FUNC name params body is_void =>
          json_field indent "name" ++ quoted_name name ++ "," ++ newline
          ++ json_next_field indent "returnType"
          ++ quoted_name (if is_void then "void" else "int") ++ "," ++ newline
          ++ json_next_field indent "parameters"
          ++ json_array quoted_name indent params ++ "," ++ newline
          ++ json_next_field indent "body" ++ ast_to_json body (indent + 1)
      | AST_VARDECL name init is_array array_size =>
          json_field indent "name" ++ quoted_name name ++ "," ++ newline
          ++ json_next_field indent "isArray" ++ (if is_array then "true" else "false")
          ++ (if is_array then json_field indent "arraySize" ++ string_of_Z array_size
              else EmptyString)
          ++ json_field indent "initializer" ++ child init
      | AST_PROGRAM funcs globals =>
          json_field indent "globals"
          ++ json_array (fun a => ast_to_json a (indent + 2)) indent globals
          ++ "," ++ newline
          ++ json_next_field indent "functions"
          ++ json_array (fun a => ast_to_json a (indent + 2)) indent funcs
      | AST_ARRAY_ACCESS name index =>
          json_field indent "name" ++ quoted_name name ++ "," ++ newline
          ++ json_next_field indent "index" ++ ast_to_json index (indent + 1)
      | AST_ADDR name =>
          json_field indent "name" ++ quoted_name name
      end)
  ++ newline ++ print_indent indent ++ "}".

(** What [main] writes for [--dump-ast]: the tree of [parse_only], then a
    newline; nothing when the parser exits. *)
Definition dump_ast (fuel : nat) (source : string) : option string :=
  match parse_only fuel source with
  | Done program _ => Some (ast_to_json program 0 ++ newline)
  | _ => None
  end.

(** ** The command line

    [main] up to the point where it opens its files: the scan of the
    arguments and the choice of the file names.  Arguments are C strings;
    [asm_file] and [exec_file] are 256-byte buffers, [cmd] a 512-byte one. *)

Module Main.

Record options : Type := mkOptions {
  input_file : option string;
  output_file : option string;
  asm_only : bool;
  dump_ast : bool
}.

Definition no_options : options := mkOptions None None false false.

Definition set_input_file (v : string) (o : options) : options :=
  mkOptions (Some v) (output_file o) (asm_only o) (dump_ast o).
Definition set_output_file (v : string) (o : options) : options :=
  mkOptions (input_file o) (Some v) (asm_only o) (dump_ast o).
Definition set_asm_only (o : options) : options :=
  mkOptions (input_file o) (output_file o) true (dump_ast o).
Definition set_dump_ast (o : options) : options :=
  mkOptions (input_file o) (output_file o) (asm_only o) true.

(** [for (int i = 1; i < argc; i++)] over [argv[1..]]. *)
Fixpoint scan_args (args : list string) (o : options) : options :=
  match args with
  | [] => o
  | a :: rest =>
      let other :=
        if String.eqb a "-S" then scan_args rest (set_asm_only o)
        else if String.eqb a "--dump-ast" then scan_args rest (set_dump_ast o)
        else scan_args rest (set_input_file a o) in
      if String.eqb a "-o"
      then match rest with
           | v :: rest' => scan_args rest' (set_output_file v o)
           | [] => other
           end
      else other
  end.

(** [strrchr(s, '.')], as an index. *)
Fixpoint strrchr_dot (s : string) : option nat :=
  match s with
  | EmptyString => None
  | String ch rest =>
      match strrchr_dot rest with
      | Some i => Some (S i)
      | None => if Ascii.eqb ch "." then Some O else None
      end
  end.

(** [strcpy] into a 256-byte buffer stays inside it. *)
Definition fits (s : string) : bool := (String.length s <? 256)%nat.

(** [snprintf(buf, size, ...)] keeps the first [size - 1] bytes. *)
Definition snprintf (size : nat) (f : string) (a : list fmt_arg) : string :=
  substring 0 (size - 1) (render f a).

(** The names [main] settles on: the assembly file and, where it is
    assigned, the executable.  [None] when a copy overruns its buffer. *)
Definition file_names (o : options) (input : string) : option (string * option string) :=
  match output_file o with
  | Some output =>
      if asm_only o then
        if fits output then Some (output, None) else None
      else
        if fits output then Some (snprintf 256 "%s.s" [FStr output], Some output)
        else None
  | None =>
      if fits input then
        let stem := match strrchr_dot input with
                    | Some i => substring 0 i input
                    | None => input
                    end in
        if fits (stem ++ ".s") then Some (stem ++ ".s", Some stem) else None
      else None
  end.

(** What [main] goes on to do. *)
Inductive job : Type :=
| Usage                                   (* [argc < 2]: usage text, status 1 *)
| NoInput                                 (* "No input file specified", status 1 *)
| Overrun                                 (* a name does not fit its buffer *)
| DumpAst (input : string) (target : option string)
| Assemble (input asm : string)
| Build (input asm exec cmd : string).

Definition main (argv : list string) : job :=
  match argv with
  | [] | [_] => Usage
  | _ :: args =>
      let o := scan_args args no_options in
      match input_file o with
      | None => NoInput
      | Some input =>
          match file_names o input with
          | None => Overrun
          | Some (asm, exec) =>
              if dump_ast o then DumpAst input (output_file o)
              else match asm_only o, exec with
                   | false, Some e =>
                       Build input asm e
                             (snprintf 512 "cc -o %s %s -lc 2>&1" [FStr e; FStr asm])
                   | _, _ => Assemble input asm
                   end
          end
      end
  end.

End Main.

(** ** Notions used in the statements *)

Definition result_fault {A} (r : result A) : option fault :=
  match r with Fault f _ => Some f | _ => None end.

Definition result_diagnostic {A} (r : result A) : option diagnostic :=
  match r with Fatal d _ => Some d | _ => None end.

Definition is_done {A} (r : result A) : bool :=
  match r with Done _ _ => true | _ => false end.

(** The body of the first function of a parsed program. *)
Definition first_body (prog : AST) : option AST :=
  match prog with
  | AST_PROGRAM (AST_FUNC _ _ body _ :: _) _ => Some body
  | _ => None
  end.

(** The outcome of generating the statements of the first function of
    [source], from the state in which a function without parameters and
    without globals starts its body. *)
Definition gen_body (fuel : nat) (source : string) (arm64 : bool) : result unit :=
  match parse_only fuel source with
  | Done prog _ =>
      match first_body prog with
      | Some body =>
          (if arm64 then Arm64.gen_stmt_arm64 fuel body else X64.gen_stmt_x64 fuel body)
            (init_compiler source arm64 false)
      | None => Timeout
      end
  | _ => Timeout
  end.

Definition body_lines (fuel : nat) (source : string) (arm64 : bool) : list line :=
  output_of (gen_body fuel source arm64).

(** A frame at address 4096, empty expression stack, zeroed memory. *)
Definition a64_start : A64M.machine :=
  A64M.mkMachine 0 0 0 4096 false [] (fun _ => 0).
Definition x64_start : X64M.machine :=
  X64M.mkMachine 0 0 0 4096 false [] (fun _ => 0).

(** The lines one AArch64 number literal is claimed to produce. *)
Definition a64_literal_lines (v : Z) : list line :=
  if v <=? 65535
  then [mkLine "    mov w0, #%d" [FInt v]]
  else [mkLine "    mov x0, #%d" [FInt (v mod 65536)];
        mkLine "    movk x0, #%d, lsl #16" [FInt ((v / 65536) mod 65536)]].

(** Sources of the failing inputs. *)
Definition src_quote_backslash : string := String DQUOTE (String BACKSLASH EmptyString).
Definition src_array_compound : string := "int main() { int a[2]; a[0] = 1; a[0] += 5; }".
Definition src_undefined_array : string := "int main() { a[0] = 1; }".
Definition src_big_literal : string := "int main() { return 4294967295; }".

(** A call as a sequence: the arguments are generated in the order
    [order args], each followed by a push; then the first registers are
    popped in index order; then the call itself.  The claim's order is
    [args] as written, left to right. *)
Definition call_sequence_arm64 (gen : AST -> M unit) (order : list AST -> list AST)
           (name : string) (args : list AST) : M unit :=
  for_each (fun a => gen a ;; emit "    str x0, [sp, #-16]!" []) (order args) ;;
  for_each_from (fun i (_ : AST) => emit "    ldr x%d, [sp], #16" [FInt i]) 0 (firstn 8 args) ;;
  emit "    bl _%s" [FStr name].

Definition call_sequence_x64 (gen : AST -> M unit) (order : list AST -> list AST)
           (name : string) (args : list AST) : M unit :=
  for_each (fun a => gen a ;; emit "    pushq %%rax" []) (order args) ;;
  for_each_from (fun i (_ : AST) => emit "    popq %%%s" [FStr (X64.reg_name i)]) 0 (firstn 6 args) ;;
  emit "    pushq %%rbx" [] ;;
  emit "    movq %%rsp, %%rbx" [] ;;
  emit "    andq $-16, %%rsp" [] ;;
  emit "    xorl %%eax, %%eax" [] ;;
  p <- sym_prefix ;;
  emit "    callq %s%s" [FStr p; FStr name] ;;
  emit "    movq %%rbx, %%rsp" [] ;;
  emit "    popq %%rbx" [].

Definition left_to_right (args : list AST) : list AST := args.
Definition right_to_left (args : list AST) : list AST := rev args.

Definition nine_literals : list AST :=
  map AST_NUM [1; 2; 3; 4; 5; 6; 7; 8; 9].

(** The lines after the two operands of [&&] ([is_or = false]) and [||]
    ([is_or = true]), for label number [lbl]. *)
Definition logic_op (is_or : bool) : TokenType := if is_or then TOK_OR else TOK_AND.

Definition a64_logic_tail (is_or : bool) (lbl : Z) : list line :=
  [mkLine "    mov x1, x0" [];
   mkLine "    ldr x0, [sp], #16" [];
   mkLine (if is_or then "    cbnz w0, L%d" else "    cbz w0, L%d") [FInt lbl];
   mkLine "    mov w0, w1" [];
   mkLine "L%d:" [FInt lbl];
   mkLine "    cmp w0, #0" [];
   mkLine "    cset w0, ne" []].

Definition x64_logic_tail (is_or : bool) (lbl : Z) : list line :=
  [mkLine "    movl %%eax, %%ecx" [];
   mkLine "    popq %%rax" [];
   mkLine "    testl %%eax, %%eax" [];
   mkLine (if is_or then "    jne L%d" else "    je L%d") [FInt lbl];
   mkLine "    movl %%ecx, %%eax" [];
   mkLine "L%d:" [FInt lbl];
   mkLine "    testl %%eax, %%eax" [];
   mkLine "    setne %%al" [];
   mkLine "    movzbl %%al, %%eax" []].

(** An operand counts as true when its 32-bit value is not zero. *)
Definition truth (v : Z) : bool := negb (low32 v =? 0).

Definition logic_value (is_or : bool) (a b : Z) : Z :=
  if (if is_or then truth a || truth b else truth a && truth b) then 1 else 0.

Definition push_a64 : line := mkLine "    str x0, [sp, #-16]!" [].
Definition push_x64 : line := mkLine "    pushq %%rax" [].

Definition add_line (l : line) (c : Compiler) : Compiler := set_out (out c ++ [l]) c.

(** Two operands with a side effect each: [(x = 0) && (y = 5)] after
    [x = 7; y = 7;], and the [||] twin with a true left operand. *)
Definition src_and_side_effects : string :=
  "int main() { int x; int y; x = 7; y = 7; (x = 0) && (y = 5); }".
Definition src_or_side_effects : string :=
  "int main() { int x; int y; x = 7; y = 7; (x = 3) || (y = 5); }".

(** The compiler is at byte [length pre] of a source that reads
    [pre ++ rest], short enough for [pos] not to overflow. *)
Definition at_pos (c : Compiler) (pre rest : list ascii) : Prop :=
  src c = (pre ++ rest)%list
  /\ pos c = Z.of_nat (List.length pre)
  /\ Z.of_nat (List.length (pre ++ rest)%list) < Int.max_signed.

Definition is_space (ch : ascii) : bool :=
  is_char ch " " || is_char ch TAB || is_char ch LF || is_char ch CR.

(** What may follow skipped blanks: the end, or a byte that starts
    neither a blank nor a comment. *)
Definition plain_start (rest : list ascii) : Prop :=
  match rest with
  | [] => True
  | ch :: _ => is_space ch = false /\ is_char ch "/" = false
  end.

Definition digit_end (rest : list ascii) : Prop :=
  match rest with
  | [] => True
  | ch :: _ => isdigit ch = false
  end.

(** An integer literal is a nonempty run of decimal digits; its value is
    what the lexer's 32-bit accumulator holds after the run. *)
Definition is_literal (ds : list ascii) : Prop :=
  ds <> [] /\ Forall (fun d => isdigit d = true) ds.

Definition literal_value (acc : Z) (ds : list ascii) : Z :=
  fold_left (fun v d => Int.add (Int.mul v 10) (Z.of_nat (nat_of_ascii d) - 48)) ds acc.

(** The source [a o1 b o2 c] with one blank around each operator. *)
Definition three_operands (a : list ascii) (o1 : ascii) (b : list ascii) (o2 : ascii)
           (c : list ascii) : list ascii :=
  (a ++ " "%char :: o1 :: " "%char :: b ++ " "%char :: o2 :: " "%char :: c)%list.

(** Lex the first token of [source] and parse one expression. *)
Definition parse_expr_of (fuel : nat) (source : list ascii) : result AST :=
  (next_token fuel ;; parse_expr fuel)
    (init_compiler (string_of_list_ascii source) false false).

(** The single-byte operators used in the precedence statements and the
    token each lexes to when a blank follows. *)
Definition operator_token (o : ascii) : option TokenType :=
  if is_char o "+" then Some TOK_PLUS
  else if is_char o "-" then Some TOK_MINUS
  else if is_char o "*" then Some TOK_STAR
  else if is_char o "%" then Some TOK_PERCENT
  else if is_char o "=" then Some TOK_ASSIGN
  else None.

(** The operator classes of the expression levels. *)
Definition is_mul_op (t : TokenType) : bool :=
  tok_eqb t TOK_STAR || tok_eqb t TOK_SLASH || tok_eqb t TOK_PERCENT.
Definition is_add_op (t : TokenType) : bool :=
  tok_eqb t TOK_PLUS || tok_eqb t TOK_MINUS.
Definition is_rel_op (t : TokenType) : bool :=
  tok_eqb t TOK_LT || tok_eqb t TOK_GT || tok_eqb t TOK_LE || tok_eqb t TOK_GE.
Definition is_eq_op (t : TokenType) : bool :=
  tok_eqb t TOK_EQ || tok_eqb t TOK_NE.
Definition is_assign_op (t : TokenType) : bool :=
  tok_eqb t TOK_ASSIGN || tok_eqb t TOK_PLUSEQ || tok_eqb t TOK_MINUSEQ.


(** The only l-values: variable reference and array access. *)
Definition is_lvalue (a : AST) : bool :=
  match a with
  | AST_VAR _ | AST_ARRAY_ACCESS _ _ => true
  | _ => false
  end.

(** The nine expression forms, as opposed to statements and declarations. *)
Definition is_expr_node (a : AST) : bool :=
  match a with
  | AST_NUM _ | AST_STR _ | AST_VAR _ | AST_BINOP _ _ _ | AST_UNOP _ _
  | AST_ASSIGN _ _ _ | AST_CALL _ _ | AST_ARRAY_ACCESS _ _ | AST_ADDR _ => true
  | _ => false
  end.

(** [p] holds of the left child of every assignment node of the tree. *)
Fixpoint all_assign_targets (p : AST -> bool) (a : AST) : bool :=
  match a with
  | AST_NUM _ | AST_STR _ | AST_VAR _ | AST_ADDR _ => true
  | AST_BINOP _ l r => all_assign_targets p l && all_assign_targets p r
  | AST_UNOP _ e => all_assign_targets p e
  | AST_ASSIGN l r _ => p l && all_assign_targets p l && all_assign_targets p r
  | AST_CALL _ args => forallb (all_assign_targets p) args
  | AST_IF c t e =>
      all_assign_targets p c && all_assign_targets p t
      && match e with Some x => all_assign_targets p x | None => true end
  | AST_WHILE c b => all_assign_targets p c && all_assign_targets p b
  | AST_FOR i c u b =>
      match i with Some x => all_assign_targets p x | None => true end
      && match c with Some x => all_assign_targets p x | None => true end
      && match u with Some x => all_assign_targets p x | None => true end
      && all_assign_targets p b
  | AST_RETURN v => match v with Some x => all_assign_targets p x | None => true end
  | AST_BLOCK ss => forallb (all_assign_targets p) ss
  | AST_FUNC _ _ body _ => all_assign_targets p body
  | AST_VARDECL _ ini _ _ =>
      match ini with Some x => all_assign_targets p x | None => true end
  | AST_PROGRAM fs gs =>
      forallb (all_assign_targets p) fs && forallb (all_assign_targets p) gs
  | AST_ARRAY_ACCESS _ idx => all_assign_targets p idx
  end.

(** An expression tree whose assignment targets are all expressions. *)
Definition good_expr (a : AST) : Prop :=
  is_expr_node a = true /\ all_assign_targets is_expr_node a = true.

Definition good_tree (a : AST) : Prop :=
  all_assign_targets is_expr_node a = true.

Definition good_opt (o : option AST) : Prop :=
  match o with Some x => good_expr x | None => True end.

(** Whatever [m] returns satisfies [Q]. *)
Definition returns {A} (m : M A) (Q : A -> Prop) : Prop :=
  forall c a c', m c = Done a c' -> Q a.

Definition src_assign_to_literal : string := "int main() { int x; x = 1; 2 = x; }".

Definition good_opt_tree (o : option AST) : Prop :=
  match o with Some x => good_tree x | None => True end.

Definition good_list (l : list AST) : Prop :=
  forallb (all_assign_targets is_expr_node) l = true.

(** Outcome specifications: from a state satisfying [P], a normal return
    satisfies [Q], and an exit through [error] or a fault leaves a state
    satisfying [E]. *)
Definition triple {A} (P : Compiler -> Prop) (m : M A)
           (Q : A -> Compiler -> Prop) (E : Compiler -> Prop) : Prop :=
  forall c, P c ->
            match m c with
            | Done a c' => Q a c'
            | Fatal _ c' => E c'
            | Fault _ c' => E c'
            | Timeout => True
            end.

(** The numbers of the label definitions [L<n>:] among output lines. *)
Definition label_of (l : line) : list Z :=
  if String.eqb (fmt l) "L%d:"
  then match fargs l with [FInt n] => [n] | _ => [] end
  else [].

Definition labels_of (l : list line) : list Z := flat_map label_of l.

(** How many labels the generators draw for a tree, at most. *)
Fixpoint labels_needed (a : AST) : Z :=
  match a with
  | AST_NUM _ | AST_STR _ | AST_VAR _ | AST_ADDR _ => 0
  | AST_BINOP op l r =>
      labels_needed l + labels_needed r
      + (if tok_eqb op TOK_AND || tok_eqb op TOK_OR then 1 else 0)
  | AST_UNOP _ e => labels_needed e
  | AST_ASSIGN l r _ => labels_needed r + labels_needed l
  | AST_CALL _ args => fold_right Z.add 0 (map labels_needed args)
  | AST_IF c t e =>
      2 + labels_needed c + labels_needed t
      + match e with Some x => labels_needed x | None => 0 end
  | AST_WHILE c b => 2 + labels_needed c + labels_needed b
  | AST_FOR i c u b =>
      2 + match i with Some x => labels_needed x | None => 0 end
      + match c with Some x => labels_needed x | None => 0 end
      + match u with Some x => labels_needed x | None => 0 end
      + labels_needed b
  | AST_RETURN v => match v with Some x => labels_needed x | None => 0 end
  | AST_BLOCK ss => fold_right Z.add 0 (map labels_needed ss)
  | AST_FUNC _ _ body _ => labels_needed body
  | AST_VARDECL _ ini _ _ => match ini with Some x => labels_needed x | None => 0 end
  | AST_PROGRAM fs _ => fold_right Z.add 0 (map labels_needed fs)
  | AST_ARRAY_ACCESS _ idx => labels_needed idx
  end.

(** The label invariant: the labels defined so far and the labels drawn but
    not yet defined ([pending]) are pairwise distinct and all below the
    counter, which is at most [bound]. *)
Definition label_inv (pending : list Z) (bound : Z) (c : Compiler) : Prop :=
  NoDup (pending ++ labels_of (out c))%list
  /\ Forall (fun x => x < label_count c) (pending ++ labels_of (out c))%list
  /\ Int.min_signed <= label_count c <= bound
  /\ bound <= Int.max_signed.

Definition distinct_labels (c : Compiler) : Prop := NoDup (labels_of (out c)).

(** Structural induction on the AST, through its child lists and optional
    children. *)
Section ASTInduction.

Variable P : AST -> Prop.

Definition P_opt (o : option AST) : Prop :=
  match o with Some x => P x | None => True end.

Hypothesis H_num : forall n, P (AST_NUM n).
Hypothesis H_str : forall s, P (AST_STR s).
Hypothesis H_var : forall s, P (AST_VAR s).
Hypothesis H_binop : forall op l r, P l -> P r -> P (AST_BINOP op l r).
Hypothesis H_unop : forall op e, P e -> P (AST_UNOP op e).
Hypothesis H_assign : forall l r op, P l -> P r -> P (AST_ASSIGN l r op).
Hypothesis H_call : forall name args, Forall P args -> P (AST_CALL name args).
Hypothesis H_if : forall c t e, P c -> P t -> P_opt e -> P (AST_IF c t e).
Hypothesis H_while : forall c b, P c -> P b -> P (AST_WHILE c b).
Hypothesis H_for : forall i c u b,
    P_opt i -> P_opt c -> P_opt u -> P b -> P (AST_FOR i c u b).
Hypothesis H_return : forall v, P_opt v -> P (AST_RETURN v).
Hypothesis H_block : forall ss, Forall P ss -> P (AST_BLOCK ss).
Hypothesis H_func : forall name params body v, P body -> P (AST_FUNC name params body v).
Hypothesis H_vardecl : forall name ini a n, P_opt ini -> P (AST_VARDECL name ini a n).
Hypothesis H_program : forall fs gs, Forall P fs -> Forall P gs -> P (AST_PROGRAM fs gs).
Hypothesis H_array : forall name idx, P idx -> P (AST_ARRAY_ACCESS name idx).
Hypothesis H_addr : forall name, P (AST_ADDR name).

Fixpoint AST_induction (a : AST) : P a :=
  let all := fix all (l : list AST) : Forall P l :=
               match l with
               | [] => Forall_nil P
               | x :: tl => Forall_cons x (AST_induction x) (all tl)
               end in
  let opt := fun o : option AST =>
               match o return P_opt o with
               | Some x => AST_induction x
               | None => I
               end in
  match a with
  | AST_NUM n => H_num n
  | AST_STR s => H_str s
  | AST_VAR s => H_var s
  | AST_BINOP op l r => H_binop op l r (AST_induction l) (AST_induction r)
  | AST_UNOP op e => H_unop op e (AST_induction e)
  | AST_ASSIGN l r op => H_assign l r op (AST_induction l) (AST_induction r)
  | AST_CALL name args => H_call name args (all args)
  | AST_IF c t e => H_if c t e (AST_induction c) (AST_induction t) (opt e)
  | AST_WHILE c b => H_while c b (AST_induction c) (AST_induction b)
  | AST_FOR i c u b => H_for i c u b (opt i) (opt c) (opt u) (AST_induction b)
  | AST_RETURN v => H_return v (opt v)
  | AST_BLOCK ss => H_block ss (all ss)
  | AST_FUNC name params body v => H_func name params body v (AST_induction body)
  | AST_VARDECL name ini a n => H_vardecl name ini a n (opt ini)
  | AST_PROGRAM fs gs => H_program fs gs (all fs) (all gs)
  | AST_ARRAY_ACCESS name idx => H_array name idx (AST_induction idx)
  | AST_ADDR name => H_addr name
  end.

End ASTInduction.

(** [m] leaves the output and the label counter as they are, however it
    ends: the lexer and the parser only move the cursor and the token. *)
Definition same_output (c c' : Compiler) : Prop :=
  out c' = out c /\ label_count c' = label_count c.

Definition keeps {A} (m : M A) : Prop :=
  forall c, match m c with
            | Done _ c' => same_output c c'
            | Fatal _ c' => same_output c c'
            | Fault _ c' => same_output c c'
            | Timeout => True
            end.

Definition src_two_functions : string :=
  "int f(int a) { if (a && 1) { return 1; } return 0; } int main() { while (f(1) || 0) { } return 0; }".

(** The program the parser hands to the back-end, when it gets that far. *)
Definition parsed_program (fuel : nat) (source : string) (arm64 linux : bool)
  : option AST :=
  result_value ((next_token fuel ;; do_parse_program fuel)
                  (init_compiler source arm64 linux)).

(** The number of labels its code generation draws, at most. *)
Definition labels_drawn (fuel : nat) (source : string) (arm64 linux : bool) : Z :=
  match parsed_program fuel source arm64 linux with
  | Some program => labels_needed program
  | None => 0
  end.

(** What the label definition [L<n>:] looks like in the assembly file. *)
Definition label_name (n : Z) : string := render "L%d:" [FInt n].

(** ** Notions for the properties beyond the claims *)

Definition src_missing_paren : string := "int main( { return 0; }".

(** The names of a symbol table, oldest first. *)
Definition symbol_names (c : Compiler) : list string := map sym_name (symbols c).

Definition empty_table : Compiler := init_compiler EmptyString true false.

(** The decimal digits [printf] writes for [n]. *)
Definition decimal (n : Z) : list ascii := list_of_string (string_of_Z n).

Definition src_number_semicolon : string := "2147483647;".

(** A block-comment body that contains the closing star-slash. *)
Fixpoint closes (body : list ascii) : bool :=
  match body with
  | [] => false
  | ch :: tl =>
      match tl with
      | nx :: _ => (is_char ch "*" && is_char nx "/") || closes tl
      | [] => false
      end
  end.

Definition no_nul (s : list ascii) : bool := forallb (fun ch => negb (is_char ch NUL)) s.

(** The source that opens a block comment and never closes it. *)
Definition open_comment (body : list ascii) : list ascii :=
  ("/"%char :: "*"%char :: body)%list.

(** The bytes on which [next_token] does not end in its [default:] case,
    after blanks are skipped. *)
Definition is_token_start (ch : ascii) : bool :=
  is_char ch NUL || is_space ch || isalpha ch || is_char ch "_" || isdigit ch
  || is_char ch DQUOTE
  || existsb (is_char ch) (list_of_string "+-*/%=!<>&|(){}[];,").

(** The text between the quotes of a string literal: no NUL and no bare
    double quote; a backslash takes the byte after it along, also a
    double quote. *)
Fixpoint literal_body (body : list ascii) : bool :=
  match body with
  | [] => true
  | ch :: tl =>
      if is_char ch NUL || is_char ch DQUOTE then false
      else if is_char ch BACKSLASH then
        match tl with
        | nx :: tl' => negb (is_char nx NUL) && literal_body tl'
        | [] => false
        end
      else literal_body tl
  end.

Definition quoted (body rest : list ascii) : list ascii :=
  (DQUOTE :: body ++ DQUOTE :: rest)%list.

(** Identifiers: a letter or an underscore, then letters, digits and
    underscores, up to a byte that is none of these. *)
Definition is_ident_char (ch : ascii) : bool := isalnum ch || is_char ch "_".

Definition is_word (w : list ascii) : Prop :=
  match w with
  | [] => False
  | ch :: tl => (isalpha ch || is_char ch "_") = true
                /\ forallb is_ident_char tl = true
  end.

Definition word_end (rest : list ascii) : Prop :=
  match rest with
  | [] => True
  | ch :: _ => is_ident_char ch = false
  end.

(** [m] relates the state it starts from to the state it ends in by [R],
    however it ends; and a diagnostic carries the line and the column the
    state holds when [error] is called. *)
Definition preserves {A} (R : Compiler -> Compiler -> Prop) (m : M A) : Prop :=
  forall c, match m c with
            | Done _ c' => R c c'
            | Fatal d c' => R c c' /\ dline d = cline c' /\ dcol d = col c'
            | Fault _ c' => R c c'
            | Timeout => True
            end.

Class Frame (R : Compiler -> Compiler -> Prop) : Prop := {
  frame_refl : forall c, R c c;
  frame_trans : forall c1 c2 c3, R c1 c2 -> R c2 c3 -> R c1 c3
}.

(** Nothing but the cursor ([pos], [line], [col]) and the current token
    differs. *)
Definition same_but_cursor (c c' : Compiler) : Prop :=
  src c' = src c /\ symbols c' = symbols c /\ stack_offset c' = stack_offset c
  /\ out c' = out c /\ label_count c' = label_count c
  /\ string_literals c' = string_literals c
  /\ is_arm64 c' = is_arm64 c /\ is_linux c' = is_linux c.

(** The source, the cursor, the current token and the target flags are
    the same. *)
Definition same_front (c c' : Compiler) : Prop :=
  src c' = src c /\ pos c' = pos c /\ cline c' = cline c /\ col c' = col c
  /\ cur c' = cur c /\ is_arm64 c' = is_arm64 c /\ is_linux c' = is_linux c.

(** The symbol table and the frame counter are the same. *)
Definition same_frame (c c' : Compiler) : Prop :=
  symbols c' = symbols c /\ stack_offset c' = stack_offset c.

(** What code generation may do to the state: append output lines and
    string literals, and change symbol table, frame counter and label
    counter; the rest stays. *)
Definition codegen_frame (c c' : Compiler) : Prop :=
  same_front c c'
  /\ (exists lines, out c' = (out c ++ lines)%list)
  /\ (exists strs, string_literals c' = (string_literals c ++ strs)%list).

Definition src_undefined_variable : string := "int main() {
  return x;
}
".

(** The symbol table still begins with the entries it had. *)
Definition table_grows (c c' : Compiler) : Prop :=
  exists added, symbols c' = (symbols c ++ added)%list.

Definition src_two_scopes : string :=
  "int g; int f(int a) { int x; int y[3]; return a; } int main() { int z; return f(z); }".

(** The label a branch line jumps to, on either target. *)
Definition is_branch (f : string) : bool :=
  existsb (String.eqb f)
          ["    cbz w0, L%d"; "    cbnz w0, L%d"; "    b L%d";
           "    je L%d"; "    jne L%d"; "    jmp L%d"].

Definition ref_of (l : line) : list Z :=
  if is_branch (fmt l)
  then match fargs l with [FInt n] => [n] | _ => [] end
  else [].

Definition refs_of (l : list line) : list Z := flat_map ref_of l.

(** Every branch of the lines targets a label the same lines define. *)
Definition no_dangling (chunk : list line) : Prop :=
  incl (refs_of chunk) (labels_of chunk).

(** The state while a chunk of lines is being written after the lines
    [before]: the branches written so far target labels of [S] or labels
    the chunk has defined, and the chunk has defined the labels [D]. *)
Definition closed_inv (before : list line) (S D : list Z) (c : Compiler) : Prop :=
  exists chunk,
    out c = (before ++ chunk)%list
    /\ incl (refs_of chunk) (S ++ labels_of chunk)%list
    /\ incl D (labels_of chunk).

(** [m], when it returns, has kept that invariant, whatever the lines
    before and the sets are. *)
Definition closed {A} (m : M A) : Prop :=
  forall before S D,
    triple (closed_inv before S D) m (fun _ => closed_inv before S D) (fun _ => True).

Definition src_nested_loops : string :=
  "int main() { int i; for (i = 0; i < 3; i = i + 1) { while (i && 1) { if (i) { return 1; } else { i = 0; } } } return 0; }".

(** *** The frame layout of locals

    A local is read and written through [x29 - offset] (AArch64) or
    [-offset(%rbp)] (x86-64); element [k] of an array lies [4 k] bytes
    above.  So a local with [cells] 4-byte cells occupies the frame depths
    in [(slot_bottom, offset]], counted in bytes below the frame pointer. *)
Definition is_local (s : Symbol) : bool := negb (is_global s) && negb (is_param s).

Definition locals (c : Compiler) : list Symbol := filter is_local (symbols c).

Definition cells (s : Symbol) : Z := if sym_is_array s then sym_array_size s else 1.

Definition slot_bottom (s : Symbol) : Z := offset s - 4 * cells s.

(** The slots of [l], in the order of declaration, lie one after the other
    between the depths [lo] and [hi]; each is nonempty and ends at a
    multiple of 4. *)
Fixpoint stacked (lo : Z) (l : list Symbol) (hi : Z) : Prop :=
  match l with
  | [] => lo <= hi
  | s :: tl =>
      lo <= slot_bottom s /\ slot_bottom s < offset s /\ offset s mod 4 = 0
      /\ stacked (offset s) tl hi
  end.

(** The locals of the table are stacked between [lo], where the slots of
    the parameters end, and the frame counter. *)
Definition laid_out (lo : Z) (c : Compiler) : Prop :=
  0 <= lo /\ lo mod 4 = 0 /\ stack_offset c mod 4 = 0
  /\ stacked lo (locals c) (stack_offset c).

Definition opt_need (f : AST -> Z) (o : option AST) : Z :=
  match o with Some x => f x | None => 0 end.

(** The bytes of frame the declarations of a statement take. *)
Fixpoint frame_need (a : AST) : Z :=
  match a with
  | AST_VARDECL _ _ is_array size => if is_array then 4 + 4 * size else 8
  | AST_IF _ t e => frame_need t + opt_need frame_need e
  | AST_WHILE _ b => frame_need b
  | AST_FOR i _ _ b => opt_need frame_need i + frame_need b
  | AST_BLOCK ss => fold_right Z.add 0 (map frame_need ss)
  | _ => 0
  end.

Definition opt_all (f : AST -> bool) (o : option AST) : bool :=
  match o with Some x => f x | None => true end.

(** Every array declared by the statement has at least one element. *)
Fixpoint arrays_nonempty (a : AST) : bool :=
  match a with
  | AST_VARDECL _ _ is_array size => if is_array then 1 <=? size else true
  | AST_IF _ t e => arrays_nonempty t && opt_all arrays_nonempty e
  | AST_WHILE _ b => arrays_nonempty b
  | AST_FOR i _ _ b => opt_all arrays_nonempty i && arrays_nonempty b
  | AST_BLOCK ss => forallb arrays_nonempty ss
  | _ => true
  end.

(** From [c] to [c'] the layout is kept and the frame counter grows by at
    most [n], when [n] more bytes do not overflow it. *)
Definition grows_frame (lo n : Z) (c c' : Compiler) : Prop :=
  laid_out lo c -> stack_offset c + n <= Int.max_signed ->
  laid_out lo c' /\ stack_offset c <= stack_offset c' <= stack_offset c + n.

Definition allots {A} (lo n : Z) (m : M A) : Prop :=
  forall c, match m c with
            | Done _ c' | Fatal _ c' | Fault _ c' => grows_frame lo n c c'
            | Timeout => True
            end.

(** Each local's slot ends where a later local's slot begins, or before. *)
Definition slots_disjoint (l : list Symbol) : Prop :=
  ForallOrdPairs (fun s t => offset s <= slot_bottom t) l.

(** The slot of [s] lies between the depths [lo] and [hi], is not empty,
    and its offset is a positive multiple of 4 when [lo] is not negative. *)
Definition slot_within (lo hi : Z) (s : Symbol) : Prop :=
  lo <= slot_bottom s /\ slot_bottom s < offset s /\ offset s <= hi
  /\ offset s mod 4 = 0.

Definition body_big_array : AST :=
  AST_BLOCK [AST_VARDECL "x" None false 0;
             AST_VARDECL "a" None true 100;
             AST_VARDECL "y" (Some (AST_NUM 1)) false 0].

(** *** JSON string tokens

    The grammar of a JSON string after its opening quote, byte by byte: a
    backslash with one of the escape letters, or a byte that is no quote,
    no backslash and no control byte; then the closing quote and nothing
    more. *)
Fixpoint json_body (s : string) : bool :=
  match s with
  | EmptyString => false
  | String ch rest =>
      if is_char ch DQUOTE
      then match rest with EmptyString => true | _ => false end
      else if is_char ch BACKSLASH
      then match rest with
           | String e rest' =>
               existsb (is_char e) [DQUOTE; BACKSLASH; "n"%char; "r"%char; "t"%char]
               && json_body rest'
           | EmptyString => false
           end
      else (32 <=? nat_of_ascii ch)%nat && json_body rest
  end.

Definition json_string_token (s : string) : bool :=
  match s with
  | String ch rest => is_char ch DQUOTE && json_body rest
  | EmptyString => false
  end.

(** No control byte but newline, carriage return and tab. *)
Definition json_safe_char (ch : ascii) : bool :=
  (32 <=? nat_of_ascii ch)%nat || is_char ch LF || is_char ch CR || is_char ch TAB.

Fixpoint json_safe (s : string) : bool :=
  match s with
  | EmptyString => true
  | String ch rest => json_safe_char ch && json_safe rest
  end.

(** *** The trees the parser builds *)

Definition is_binary_op (op : TokenType) : bool :=
  is_mul_op op || is_add_op op || is_rel_op op || is_eq_op op
  || tok_eqb op TOK_AND || tok_eqb op TOK_OR.

Definition is_unary_op (op : TokenType) : bool :=
  tok_eqb op TOK_MINUS || tok_eqb op TOK_NOT.

Definition is_assign_marker (op : Z) : bool :=
  (op =? OP_PLAIN) || (op =? OP_PLUS) || (op =? OP_MINUS).

(** An expression: operands are expressions, a binary node carries one of
    the thirteen binary operators, a unary node [-] or [!], an assignment
    one of the three markers, and a call at most 16 arguments. *)
Fixpoint expr_shape (a : AST) : bool :=
  match a with
  | AST_NUM _ | AST_STR _ | AST_VAR _ | AST_ADDR _ => true
  | AST_BINOP op l r => is_binary_op op && expr_shape l && expr_shape r
  | AST_UNOP op e => is_unary_op op && expr_shape e
  | AST_ASSIGN l r op => is_assign_marker op && expr_shape l && expr_shape r
  | AST_CALL _ args => (Nat.leb (List.length args) 16) && forallb expr_shape args
  | AST_ARRAY_ACCESS _ idx => expr_shape idx
  | _ => false
  end.

(** A statement: a declaration, a control statement over statements and
    expressions, a block of at most 256 statements, or an expression. *)
Fixpoint stmt_shape (a : AST) : bool :=
  match a with
  | AST_VARDECL _ init _ _ => opt_all expr_shape init
  | AST_IF c t e => expr_shape c && stmt_shape t && opt_all stmt_shape e
  | AST_WHILE c b => expr_shape c && stmt_shape b
  | AST_FOR i c u b =>
      opt_all stmt_shape i && opt_all expr_shape c && opt_all expr_shape u
      && stmt_shape b
  | AST_RETURN v => opt_all expr_shape v
  | AST_BLOCK ss => (Nat.leb (List.length ss) 256) && forallb stmt_shape ss
  | AST_FUNC _ _ _ _ | AST_PROGRAM _ _ => false
  | _ => expr_shape a
  end.

Definition is_block (a : AST) : bool :=
  match a with AST_BLOCK _ => true | _ => false end.

(** A function has a block as its body and at most 16 parameters; a
    global is a declaration. *)
Definition func_shape (a : AST) : bool :=
  match a with
  | AST_FUNC _ params body _ =>
      (Nat.leb (List.length params) 16) && is_block body && stmt_shape body
  | _ => false
  end.

Definition global_shape (a : AST) : bool :=
  match a with
  | AST_VARDECL _ init _ _ => opt_all expr_shape init
  | _ => false
  end.

Definition program_shape (a : AST) : bool :=
  match a with
  | AST_PROGRAM funcs globals =>
      (Nat.leb (List.length funcs) 64) && forallb func_shape funcs
      && (Nat.leb (List.length globals) 64) && forallb global_shape globals
  | _ => false
  end.

Definition src_all_forms : string :=
  "int g[3]; int h = 7; void p(int x) { return; } int main() { int i; for (i = 0; i < 3; ++i) { g[i] += -i * 2; } while (!(h == 1) || h >= 2 && h != 3) { if (p(&h, 1)) h = h % 2; else { --h; } } return g[0]; }".

(** *** The cursor and the text it has passed *)

Definition buffer (c : Compiler) : list ascii := (src c ++ [NUL])%list.

(** The bytes of the buffer before the read position. *)
Definition consumed (c : Compiler) : list ascii :=
  firstn (Z.to_nat (pos c)) (buffer c).

Definition is_newline (ch : ascii) : bool := is_char ch LF.

Definition newlines (l : list ascii) : nat := List.length (filter is_newline l).

Fixpoint until_newline (l : list ascii) : list ascii :=
  match l with
  | [] => []
  | ch :: tl => if is_newline ch then [] else ch :: until_newline tl
  end.

(** The bytes after the last newline of [l]. *)
Definition last_line (l : list ascii) : list ascii := rev (until_newline (rev l)).

(** [line] and [col] are the line and the column, counted from 1, of the
    read position in the text; the buffer is short enough for the counters
    not to overflow. *)
Definition tracks (c : Compiler) : Prop :=
  0 <= pos c <= Z.of_nat (List.length (buffer c))
  /\ Z.of_nat (List.length (buffer c)) < Int.max_signed
  /\ cline c = 1 + Z.of_nat (newlines (consumed c))
  /\ col c = 1 + Z.of_nat (List.length (last_line (consumed c))).

Definition keeps_track (c c' : Compiler) : Prop :=
  src c' = src c /\ (tracks c -> tracks c').

(** The state [advance] leaves after reading [ch]. *)
Definition advanced (ch : ascii) (c : Compiler) : Compiler :=
  let c1 := set_pos (Int.add (pos c) 1) c in
  if is_char ch LF then set_col 1 (set_line (Int.add (cline c1) 1) c1)
  else set_col (Int.add (col c1) 1) c1.

Definition src_error_on_line_3 : string :=
  String LF (String LF "int main( { }").

(** *** Pushes and pops in expression code *)

Definition is_push (f : string) : bool :=
  existsb (String.eqb f)
          ["    str x0, [sp, #-16]!"; "    pushq %%rax"; "    pushq %%rbx"].

Definition is_pop (f : string) : bool :=
  existsb (String.eqb f)
          ["    ldr x0, [sp], #16"; "    ldr x2, [sp], #16"; "    ldr x%d, [sp], #16";
           "    popq %%rax"; "    popq %%rdx"; "    popq %%%s"; "    popq %%rbx"].

(** What a line does to the number of words on the stack. *)
Definition effect (l : line) : Z :=
  if is_push (fmt l) then 1 else if is_pop (fmt l) then -1 else 0.

(** The number of words on the stack after the lines [l], from [h] words;
    [None] when a line pops from an empty stack. *)
Fixpoint level (h : Z) (l : list line) : option Z :=
  match l with
  | [] => Some h
  | x :: tl => let h' := h + effect x in
               if h' <? 0 then None else level h' tl
  end.

(** The words an expression leaves on the stack: a call pops at most
    [limit] of the arguments it has pushed. *)
Fixpoint surplus (limit : Z) (e : AST) : Z :=
  match e with
  | AST_BINOP _ l r => surplus limit l + surplus limit r
  | AST_UNOP _ x => surplus limit x
  | AST_ARRAY_ACCESS _ idx => surplus limit idx
  | AST_ASSIGN lhs rhs _ =>
      surplus limit rhs
      + match lhs with
        | AST_ARRAY_ACCESS _ idx => surplus limit idx
        | _ => 0
        end
  | AST_CALL _ args =>
      Z.max 0 (Z.of_nat (List.length args) - limit)
      + fold_right Z.add 0 (map (surplus limit) args)
  | _ => 0
  end.

Definition at_level (before : list line) (h : Z) (c : Compiler) : Prop :=
  exists chunk, out c = (before ++ chunk)%list /\ level 0 chunk = Some h.

Definition never_below (before : list line) (c : Compiler) : Prop :=
  exists h, at_level before h c.

(** From [h] words on the stack, [m] leaves [h + k] and never pops from an
    empty stack, also when it stops early. *)
Definition moves {A} (k : Z) (m : M A) : Prop :=
  forall before h,
    0 <= h ->
    triple (at_level before h) m (fun _ => at_level before (h + k)) (never_below before).

Definition same_out (c c' : Compiler) : Prop := out c' = out c.

Definition call_nine : AST :=
  AST_CALL "f" [AST_NUM 1; AST_NUM 2; AST_NUM 3; AST_NUM 4; AST_NUM 5;
                AST_NUM 6; AST_NUM 7; AST_NUM 8; AST_NUM 9].

(** *** String literals: references and definitions

    A reference or a definition is identified by the prefix and the number
    its line is printed with: [<prefix>str<number>]. *)

Definition is_str_ref (f : string) : bool :=
  existsb (String.eqb f)
          ["    adrp x0, _str%d@PAGE"; "    add x0, x0, _str%d@PAGEOFF";
           "    leaq %sstr%d(%%rip), %%rax"].

Definition str_ref_of (l : line) : list (string * Z) :=
  if is_str_ref (fmt l)
  then match fargs l with
       | [FInt i] => [("_", i)]
       | [FStr p; FInt i] => [(p, i)]
       | _ => []
       end
  else [].

Definition str_def_of (l : line) : list (string * Z) :=
  if String.eqb (fmt l) "%sstr%d:"
  then match fargs l with
       | [FStr p; FInt i] => [(p, i)]
       | _ => []
       end
  else [].

Definition str_refs (l : list line) : list (string * Z) := flat_map str_ref_of l.
Definition str_defs (l : list line) : list (string * Z) := flat_map str_def_of l.

(** The text of the definitions, in the order of the [.asciz] lines. *)
Definition str_text_of (l : line) : list string :=
  if String.eqb (fmt l) asciz_fmt
  then match fargs l with [FStr s] => [s] | _ => [] end
  else [].

Definition str_texts (l : list line) : list string := flat_map str_text_of l.

Definition platform_prefix (linux : bool) : string :=
  if linux then EmptyString else "_".

(** The prefix the back-end writes in a reference. *)
Definition ref_prefix (arm linux : bool) : string :=
  if arm then "_" else platform_prefix linux.

Definition numbered (p : string) (from : Z) (n : nat) : list (string * Z) :=
  map (fun i => (p, from + Z.of_nat i)) (seq 0 n).

(** The references to the first [n] literals: AArch64 names each literal
    in two lines, x86-64 in one. *)
Definition refs_expected (arm linux : bool) (n : nat) : list (string * Z) :=
  flat_map (fun r => if arm then [r; r] else [r]) (numbered (ref_prefix arm linux) 0 n).

(** The state of the code generator [arm] before the string table is
    written. *)
Definition str_inv (arm linux : bool) (c : Compiler) : Prop :=
  is_linux c = linux
  /\ str_defs (out c) = []
  /\ str_texts (out c) = []
  /\ str_refs (out c) = refs_expected arm linux (List.length (string_literals c)).

Definition tidy {A} (arm linux : bool) (m : M A) : Prop :=
  triple (str_inv arm linux) m (fun _ => str_inv arm linux) (fun _ => True).

Definition src_two_strings : string :=
  "int main() { puts(" ++ String DQUOTE ("a" ++ String DQUOTE ("); puts(" ++ String DQUOTE ("a" ++ String DQUOTE "); return 0; }"))).

(** The output once the first [done] literals of the table are written. *)
Definition table_inv (arm linux : bool) (done : list string) (c : Compiler) : Prop :=
  is_linux c = linux
  /\ str_defs (out c) = numbered (platform_prefix linux) 0 (List.length done)
  /\ str_texts (out c) = done
  /\ str_refs (out c) = refs_expected arm linux (List.length (string_literals c)).

Definition table_written (arm linux : bool) (c : Compiler) : Prop :=
  table_inv arm linux (string_literals c) c.

(** *** The command line *)

Definition is_flag (a : string) : bool :=
  String.eqb a "-S" || String.eqb a "--dump-ast".

Definition has_no_dash_o (args : list string) : bool :=
  negb (existsb (String.eqb "-o") args).

(** The last argument that is not one of the two flags. *)
Fixpoint last_plain (args : list string) : option string :=
  match args with
  | [] => None
  | a :: rest =>
      match last_plain rest with
      | Some x => Some x
      | None => if is_flag a then None else Some a
      end
  end.

Definition has_flag (f : string) (args : list string) : bool :=
  existsb (String.eqb f) args.

Fixpoint no_dot (s : string) : bool :=
  match s with
  | EmptyString => true
  | String ch rest => negb (Ascii.eqb ch ".") && no_dot rest
  end.

Definition or_else {A} (x y : option A) : option A :=
  match x with Some _ => x | None => y end.

Definition argv_dot_slash : list string := ["minicc"; "./prog"].

(** *** The grammar of JSON texts

    Values as RFC 8259 gives them, restricted to integer numbers: a text
    is read as blanks, tokens and nested values. *)

Inductive blank : string -> Prop :=
| blank_empty : blank EmptyString
| blank_space s : blank s -> blank (String " " s)
| blank_newline s : blank s -> blank (String LF s)
| blank_return s : blank s -> blank (String CR s)
| blank_tab s : blank s -> blank (String TAB s).

Fixpoint digits_only (s : string) : bool :=
  match s with
  | EmptyString => true
  | String ch rest => isdigit ch && digits_only rest
  end.

(** [0], or a digit other than 0 followed by digits. *)
Definition json_natural (s : string) : bool :=
  match s with
  | EmptyString => false
  | String ch rest =>
      if is_char ch "0" then match rest with EmptyString => true | _ => false end
      else isdigit ch && digits_only rest
  end.

Definition json_int (s : string) : bool :=
  match s with
  | EmptyString => false
  | String ch rest => if is_char ch "-" then json_natural rest else json_natural s
  end.

Inductive wf_value : string -> Prop :=
| wf_null : wf_value "null"
| wf_true : wf_value "true"
| wf_false : wf_value "false"
| wf_number s : json_int s = true -> wf_value s
| wf_string s : json_string_token s = true -> wf_value s
| wf_empty_array b : blank b -> wf_value ("[" ++ b ++ "]")
| wf_array es : wf_elements es -> wf_value ("[" ++ es ++ "]")
| wf_empty_object b : blank b -> wf_value ("{" ++ b ++ "}")
| wf_object ms : wf_members ms -> wf_value ("{" ++ ms ++ "}")
with wf_elements : string -> Prop :=
| wf_last_element b1 v b2 :
    blank b1 -> wf_value v -> blank b2 -> wf_elements (b1 ++ v ++ b2)
| wf_more_elements b1 v b2 es :
    blank b1 -> wf_value v -> blank b2 -> wf_elements es ->
    wf_elements (b1 ++ v ++ b2 ++ "," ++ es)
with wf_members : string -> Prop :=
| wf_last_member b1 k b2 b3 v b4 :
    blank b1 -> json_string_token k = true -> blank b2 -> blank b3 ->
    wf_value v -> blank b4 ->
    wf_members (b1 ++ k ++ b2 ++ ":" ++ b3 ++ v ++ b4)
| wf_more_members b1 k b2 b3 v b4 ms :
    blank b1 -> json_string_token k = true -> blank b2 -> blank b3 ->
    wf_value v -> blank b4 -> wf_members ms ->
    wf_members (b1 ++ k ++ b2 ++ ":" ++ b3 ++ v ++ b4 ++ "," ++ ms).

(** A name that can stand between quotes as it is: no quote, no
    backslash, no control byte. *)
Definition plain_char (ch : ascii) : bool :=
  (32 <=? nat_of_ascii ch)%nat && negb (is_char ch DQUOTE) && negb (is_char ch BACKSLASH).

Fixpoint plain_name (s : string) : bool :=
  match s with
  | EmptyString => true
  | String ch rest => plain_char ch && plain_name rest
  end.

(** The names of the tree are plain and its string literals have no
    control byte other than newline, carriage return and tab. *)
Fixpoint dumpable (a : AST) : bool :=
  match a with
  | AST_NUM _ => true
  | AST_STR s => json_safe s
  | AST_VAR name | AST_ADDR name => plain_name name
  | AST_BINOP _ l r => dumpable l && dumpable r
  | AST_UNOP _ e => dumpable e
  | AST_ASSIGN l r _ => dumpable l && dumpable r
  | AST_CALL name args => plain_name name && forallb dumpable args
  | AST_IF c t e => dumpable c && dumpable t && opt_all dumpable e
  | AST_WHILE c b => dumpable c && dumpable b
  | AST_FOR i c u b =>
      opt_all dumpable i && opt_all dumpable c && opt_all dumpable u && dumpable b
  | AST_RETURN v => opt_all dumpable v
  | AST_BLOCK ss => forallb dumpable ss
  | AST_FUNC name params body _ =>
      plain_name name && forallb plain_name params && dumpable body
  | AST_VARDECL name init _ _ => plain_name name && opt_all dumpable init
  | AST_PROGRAM fs gs => forallb dumpable fs && forallb dumpable gs
  | AST_ARRAY_ACCESS name idx => plain_name name && dumpable idx
  end.

(** The fields of an object after its first one, each with its comma. *)
Inductive wf_fields : string -> Prop :=
| wf_no_field : wf_fields EmptyString
| wf_field b1 k b3 v rest :
    blank b1 -> json_string_token k = true -> blank b3 -> wf_value v ->
    wf_fields rest ->
    wf_fields ("," ++ b1 ++ k ++ ":" ++ b3 ++ v ++ rest).

Definition tree_two_globals : AST :=
  AST_PROGRAM [AST_FUNC "main" ["argc"] (AST_BLOCK [AST_RETURN (Some (AST_STR "a"))]) false]
              [AST_VARDECL "g" None true 3; AST_VARDECL "h" (Some (AST_NUM (-7))) false 0].

Definition src_string_as_name : string :=
  "int " ++ String DQUOTE ("a" ++ String BACKSLASH ("qb" ++ String DQUOTE "; int main() { return 0; }")).

Definition global_names (prog : AST) : list string :=
  match prog with
  | AST_PROGRAM _ globals =>
      flat_map (fun g => match g with AST_VARDECL name _ _ _ => [name] | _ => [] end) globals
  | _ => []
  end.

(** *** Parameters *)

Definition param_entry (i : Z) (p : string) : Symbol :=
  mkSymbol p 0 false true i false 0.

Fixpoint param_entries (i : Z) (params : list string) : list Symbol :=
  match params with
  | [] => []
  | p :: tl => param_entry i p :: param_entries (i + 1) tl
  end.

(** The parameter loop of [gen_func_arm64]. *)
Definition save_params_arm64 (params : list string) : M unit :=
  for_each_from
    (fun i p => add_symbol p false true i ;;
                emit "    str x%d, [x29, #%d]" [FInt i; FInt (param_slot i)])
    0 params.

Definition lookup (name : string) (c : Compiler) : option Symbol :=
  find_from_end (rev (symbols c)) name.

Definition src_seven_params : string :=
  "int f(int a, int b, int c, int d, int e, int g, int h) { return h; }".

(** *** Termination

    The bytes of the buffer not yet read, and the measure of the parser:
    twice that number, plus one while the current token is not the end of
    the input. *)

Definition unread (c : Compiler) : Z := Z.of_nat (List.length (buffer c)) - pos c.

Definition pending (c : Compiler) : Z :=
  if tok_eqb (type (cur c)) TOK_EOF then 0 else 1.

Definition tokens_left (c : Compiler) : Z := 2 * unread c + pending c.

(** The byte at the read position. *)
Definition here (c : Compiler) : option ascii :=
  if pos c <? 0 then None else nth_error (buffer c) (Z.to_nat (pos c)).

(** From a state that satisfies [P] and has measure at most [b], [f] does
    not run out of fuel; when it returns, the state satisfies [Q] and the
    measure has gone down by at least [d]. *)
Definition halts {A} (mu : Compiler -> Z) (b d : Z) (P : Compiler -> Prop) (f : M A)
           (Q : A -> Compiler -> Prop) : Prop :=
  forall c, tracks c -> P c -> mu c <= b ->
            match f c with
            | Timeout => False
            | Done a c' => tracks c' /\ Q a c' /\ mu c' + d <= mu c
            | Fatal _ _ | Fault _ _ => True
            end.

Definition anything (c : Compiler) : Prop := True.
Definition any_result {A} (a : A) (c : Compiler) : Prop := True.

(** [f] lexes one token: it does not run out of fuel, and when it returns
    it has read at least one byte unless the token is the end of the
    input. *)
Definition lexes {A} (b : Z) (P : Compiler -> Prop) (f : M A) : Prop :=
  forall c, tracks c -> P c -> unread c <= b ->
            match f c with
            | Timeout => False
            | Done _ c' => tracks c' /\ unread c' + pending c' <= unread c
            | Fatal _ _ | Fault _ _ => True
            end.

(** * Properties *)

(** ** The monad *)

Lemma bind_Done {A B} (m : M A) (k : A -> M B) c b c' :
  bind m k c = Done b c' ->
  exists a c1, m c = Done a c1 /\ k a c1 = Done b c'.
Proof.
  unfold bind. destruct (m c) as [a c1| | |]; try discriminate.
  intros H. exists a, c1. split; [reflexivity | exact H].
Qed.

Lemma bind_of_Done {A B} (m : M A) (k : A -> M B) c a c1 :
  m c = Done a c1 -> bind m k c = k a c1.
Proof. intros H. unfold bind. rewrite H. reflexivity. Qed.

(** ** C9: the string-literal loop steps over the terminating NUL *)

(** C9 (fails on the code).  The claim: for every input the lexer never reads
    a byte past the NUL terminator, also when the input ends with a backslash
    inside an unterminated string literal.  On the two-byte input made of a
    double quote and a backslash, the very first [next_token] skips the
    backslash together with the NUL after it and then reads [src[3]], one
    byte beyond the NUL at index 2; this holds for every amount of fuel that
    lets the lexer get that far, on both back-ends. *)
Theorem C9_backslash_before_end_reads_past_nul :
  forall (n : nat) (arm64 linux : bool),
    result_fault (compile (3 + n) src_quote_backslash arm64 linux)
    = Some (ReadPastEnd 3)
    /\ Z.of_nat (List.length (list_of_string src_quote_backslash)) = 2.
Proof.
  intros n arm64 linux. split; [|reflexivity].
  unfold compile. simpl. reflexivity.
Qed.

(** The other two unterminated constructs end at the NUL without a
    diagnostic: a block comment that is never closed lexes to end of
    input, a string that is never closed holds the text up to the end. *)
Example unterminated_comment_and_string :
  option_map (fun c => (type (cur c), pos c))
             (result_state (next_token 20 (init_compiler "/* abc" true false)))
  = Some (TOK_EOF, 6)
  /\ option_map (fun c => (type (cur c), str (cur c), pos c))
                (result_state (next_token 20 (init_compiler (String DQUOTE "abc") true false)))
     = Some (TOK_STR, "abc", 4).
Proof. split; vm_compute; reflexivity. Qed.

(** ** C1: compound assignment to an array element *)

Lemma array_assign_ignores_marker_arm64 (d : nat) (name : string) (idx rhs : AST) (op : Z) :
  Arm64.gen_expr_arm64 d (AST_ASSIGN (AST_ARRAY_ACCESS name idx) rhs op)
  = Arm64.gen_expr_arm64 d (AST_ASSIGN (AST_ARRAY_ACCESS name idx) rhs OP_PLAIN).
Proof. destruct d; reflexivity. Qed.

Lemma array_assign_ignores_marker_x64 (d : nat) (name : string) (idx rhs : AST) (op : Z) :
  X64.gen_expr_x64 d (AST_ASSIGN (AST_ARRAY_ACCESS name idx) rhs op)
  = X64.gen_expr_x64 d (AST_ASSIGN (AST_ARRAY_ACCESS name idx) rhs OP_PLAIN).
Proof. destruct d; reflexivity. Qed.

(** C1 (fails on the code).  The claim: for [a[i] += e] and [a[i] -= e] both
    generators store the old value of [a[i]] combined with [e].  Both
    generators emit for an array target the same lines whatever the
    compound-op marker is, so [a[0] += 5] is compiled as [a[0] = 5]: running
    the code of [int a[2]; a[0] = 1; a[0] += 5;] leaves 5, not 6, in [a[0]]
    (frame offset 12) and in the accumulator, on AArch64 and on x86-64. *)
Theorem C1_array_compound_assign_stores_rhs_only :
  (forall d name idx rhs op,
      Arm64.gen_expr_arm64 d (AST_ASSIGN (AST_ARRAY_ACCESS name idx) rhs op)
      = Arm64.gen_expr_arm64 d (AST_ASSIGN (AST_ARRAY_ACCESS name idx) rhs OP_PLAIN))
  /\ (forall d name idx rhs op,
      X64.gen_expr_x64 d (AST_ASSIGN (AST_ARRAY_ACCESS name idx) rhs op)
      = X64.gen_expr_x64 d (AST_ASSIGN (AST_ARRAY_ACCESS name idx) rhs OP_PLAIN))
  /\ option_map (fun m => (A64M.mem m (4096 - 12), A64M.w0 m))
                (A64M.exec (body_lines 40 src_array_compound true) a64_start)
     = Some (5, 5)
  /\ option_map (fun m => (X64M.mem m (4096 - 12), X64M.eax m))
                (X64M.exec (body_lines 40 src_array_compound false) x64_start)
     = Some (5, 5).
Proof.
  split; [exact array_assign_ignores_marker_arm64|].
  split; [exact array_assign_ignores_marker_x64|].
  split; vm_compute; reflexivity.
Qed.

(** ** C5: references to undefined names *)

(** Reads, address-of and indexed reads of an undefined name, and plain or
    compound assignment to an undefined variable, end in [error]. *)
Lemma undefined_name_is_fatal (d : nat) (name : string) (c : Compiler) :
  find_from_end (rev (symbols c)) name = None ->
  let diag := Some (mkDiag (cline c) (col c) (mkLine "Undefined variable: %s" [FStr name])) in
  result_diagnostic (Arm64.gen_expr_arm64 (S d) (AST_VAR name) c) = diag
  /\ result_diagnostic (Arm64.gen_expr_arm64 (S d) (AST_ADDR name) c) = diag
  /\ (forall idx, result_diagnostic
                    (Arm64.gen_expr_arm64 (S d) (AST_ARRAY_ACCESS name idx) c) = diag)
  /\ result_diagnostic (X64.gen_expr_x64 (S d) (AST_VAR name) c) = diag
  /\ result_diagnostic (X64.gen_expr_x64 (S d) (AST_ADDR name) c) = diag
  /\ (forall idx, result_diagnostic
                    (X64.gen_expr_x64 (S d) (AST_ARRAY_ACCESS name idx) c) = diag).
Proof.
  intros H. cbn -[String.eqb]. unfold find_symbol, bind, error. rewrite H.
  repeat split; reflexivity.
Qed.

(** The missing check: once the right-hand side and the index are
    generated, an array store looks the name up and reads [sym->is_global]
    through the result without testing it. *)
Lemma undefined_array_store_faults_arm64
      (d : nat) (name : string) (idx rhs : AST) (op : Z) (c c1 c2 : Compiler) :
  Arm64.gen_expr_arm64 d rhs c = Done tt c1 ->
  Arm64.gen_expr_arm64 d idx (set_out (out c1 ++ [mkLine "    str x0, [sp, #-16]!" []]) c1)
  = Done tt c2 ->
  find_from_end (rev (symbols c2)) name = None ->
  result_fault (Arm64.gen_expr_arm64 (S d) (AST_ASSIGN (AST_ARRAY_ACCESS name idx) rhs op) c)
  = Some (NullSymbol name).
Proof.
  intros H1 H2 H3. cbn -[String.eqb].
  rewrite (bind_of_Done _ _ _ _ _ H1).
  unfold emit at 1, modify at 1. unfold bind at 1.
  rewrite (bind_of_Done _ _ _ _ _ H2).
  unfold emit at 1, modify at 1. unfold bind at 1.
  unfold find_symbol, bind. cbn. rewrite H3. reflexivity.
Qed.

(** C5 (fails on the code).  The claim: every reference to a name without a
    symbol-table entry, also as the left side of an assignment, yields the
    diagnostic line and a nonzero exit.  For [int main() { a[0] = 1; }] both
    generators reach the array-store branch of [AST_ASSIGN], where the
    result of [find_symbol] is dereferenced unchecked: the run ends in a
    NULL read, no diagnostic is written.  The same name read as [a[0]]
    does give the diagnostic. *)
Theorem C5_undefined_array_target_null_deref :
  (forall arm64 linux,
      result_fault (compile 30 src_undefined_array arm64 linux) = Some (NullSymbol "a")
      /\ result_diagnostic (compile 30 src_undefined_array arm64 linux) = None)
  /\ (forall arm64 linux,
      option_map render_diagnostic
        (result_diagnostic (compile 30 "int main() { a[0]; }" arm64 linux))
      = Some ("Error at line 1, col 21: Undefined variable: a" ++ String LF EmptyString)).
Proof.
  split; intros [|] [|]; vm_compute; repeat split.
Qed.

(** ** C8: materialising a number literal on AArch64 *)

Lemma land_low16 (v : Z) : Z.land v 65535 = v mod 65536.
Proof. change 65535 with (Z.ones 16). rewrite Z.land_ones by lia. reflexivity. Qed.

Lemma shiftr16 (v : Z) : Z.shiftr v 16 = v / 65536.
Proof. rewrite Z.shiftr_div_pow2 by lia. reflexivity. Qed.

(** [movk] into bits 16..31 of a register that holds a 16-bit value. *)
Lemma movk_combine (lo h : Z) :
  0 <= lo < 65536 -> 0 <= h < 65536 ->
  Z.lor (Z.land lo (Z.lnot (Z.shiftl 65535 16) mod two64))
        (Z.shiftl (Z.land h 65535) 16) = lo + h * 65536.
Proof.
  intros Hlo Hh.
  rewrite (land_low16 h), (Z.mod_small h) by lia.
  assert (E1 : Z.land lo (Z.lnot (Z.shiftl 65535 16) mod two64) = lo).
  { rewrite <- (Z.mod_small lo 65536) at 1 by lia.
    rewrite <- land_low16, <- Z.land_assoc.
    change (Z.land 65535 (Z.lnot (Z.shiftl 65535 16) mod two64)) with 65535.
    rewrite land_low16. apply Z.mod_small; lia. }
  rewrite E1.
  rewrite Z.shiftl_mul_pow2 by lia. change (2 ^ 16) with 65536.
  assert (E2 : Z.land lo (h * 65536) = 0).
  { apply Z.bits_inj'. intros n Hn. rewrite Z.land_spec, Z.bits_0.
    destruct (Z.ltb_spec n 16).
    - replace (h * 65536) with (h * 2 ^ 16) by reflexivity.
      rewrite (Z.mul_pow2_bits_low h 16 n) by lia. apply andb_false_r.
    - replace lo with (lo mod 2 ^ 16) by (apply Z.mod_small; change (2^16) with 65536; lia).
      rewrite Z.mod_pow2_bits_high by lia. reflexivity. }
  rewrite Z.add_nocarry_lxor by exact E2.
  rewrite Z.lxor_lor by exact E2. reflexivity.
Qed.

Lemma gen_num_arm64_lines (v : Z) (d : nat) (c : Compiler) :
  0 <= v <= Int.max_signed ->
  Arm64.gen_expr_arm64 (S d) (AST_NUM v) c
  = Done tt (set_out (out c ++ a64_literal_lines v) c).
Proof.
  intros Hv. unfold Int.max_signed in Hv. cbn -[Z.land Z.shiftr].
  unfold a64_literal_lines.
  destruct (Z.leb_spec v 65535) as [Hs|Hs].
  - replace (0 <=? v) with true by (symmetry; apply Z.leb_le; lia).
    replace (v <? 65536) with true by (symmetry; apply Z.ltb_lt; lia).
    reflexivity.
  - replace (v <? 65536) with false by (symmetry; apply Z.ltb_ge; lia).
    rewrite andb_false_r.
    unfold when. replace (65535 <? v) with true by (symmetry; apply Z.ltb_lt; lia).
    unfold bind, emit, modify. cbn -[Z.land Z.shiftr].
    rewrite <- app_assoc. rewrite land_low16, land_low16, shiftr16. reflexivity.
Qed.

Lemma literal_lines_materialise (v : Z) (m : A64M.machine) :
  0 <= v <= Int.max_signed ->
  option_map A64M.x0 (A64M.exec (a64_literal_lines v) m) = Some v.
Proof.
  intros Hv. unfold Int.max_signed in Hv. unfold a64_literal_lines.
  destruct (Z.leb_spec v 65535) as [Hs|Hs].
  - cbn. unfold low32, two32. rewrite Z.mod_small by lia. reflexivity.
  - cbn -[Z.land Z.lor Z.shiftl Z.lnot Z.modulo Z.div]. f_equal.
    assert (Hlo : 0 <= v mod 65536 < 65536) by (apply Z.mod_pos_bound; lia).
    assert (Hhi : 0 <= (v / 65536) mod 65536 < 65536) by (apply Z.mod_pos_bound; lia).
    rewrite (Z.mod_small (v mod 65536) two64) by (unfold two64; lia).
    rewrite movk_combine by assumption.
    rewrite (Z.mod_small (v / 65536) 65536).
    + pose proof (Z.div_mod v 65536). lia.
    + split; [apply Z.div_pos; lia | apply Z.div_lt_upper_bound; lia].
Qed.

(** C8 (as amended).  For every number-literal node whose value [v] lies in
    [0 .. 2^31 - 1], the range of non-negative values of the [int] that
    holds it, the AArch64 generator emits exactly one [mov w0, #v] when
    [v <= 65535], and otherwise a [mov] of [v mod 2^16] followed by a [movk]
    of [(v / 2^16) mod 2^16] shifted left by 16; executing these lines
    leaves [v] in the register, whatever the machine state before. *)
Theorem C8_literal_materialised_below_2_31 :
  forall (v : Z) (d : nat) (c : Compiler) (m : A64M.machine),
    0 <= v <= Int.max_signed ->
    Arm64.gen_expr_arm64 (S d) (AST_NUM v) c
    = Done tt (set_out (out c ++ a64_literal_lines v) c)
    /\ (v <= 65535 -> a64_literal_lines v = [mkLine "    mov w0, #%d" [FInt v]])
    /\ option_map A64M.x0 (A64M.exec (a64_literal_lines v) m) = Some v.
Proof.
  intros v d c m Hv. split; [apply gen_num_arm64_lines; exact Hv|].
  split; [|apply literal_lines_materialise; exact Hv].
  intros Hs. unfold a64_literal_lines.
  replace (v <=? 65535) with true by (symmetry; apply Z.leb_le; lia). reflexivity.
Qed.

Lemma C8_literal_materialised_below_2_31_witness :
  0 <= 70000 <= Int.max_signed
  /\ Arm64.gen_expr_arm64 1 (AST_NUM 70000) (init_compiler EmptyString true false)
     = Done tt (set_out (out (init_compiler EmptyString true false) ++ a64_literal_lines 70000)
                        (init_compiler EmptyString true false))
  /\ (70000 <= 65535 -> a64_literal_lines 70000 = [mkLine "    mov w0, #%d" [FInt 70000]])
  /\ option_map A64M.x0 (A64M.exec (a64_literal_lines 70000) a64_start) = Some 70000.
Proof.
  assert (H : 0 <= 70000 <= Int.max_signed) by (unfold Int.max_signed; lia).
  split; [exact H|].
  exact (C8_literal_materialised_below_2_31 70000 0 (init_compiler EmptyString true false)
                                            a64_start H).
Defined.

(** C8, the claim as stated, fails at [v = 4294967295], which lies in
    [0 .. 2^32 - 1]: the lexer's 32-bit accumulator holds the literal as
    [-1], the generator takes the second branch and emits the low half only
    (no [movk], since [-1 > 65535] is false), and the register ends up with
    65535. *)
Lemma C8_literal_4294967295_loses_high_half :
  0 <= 4294967295 <= 4294967295
  /\ option_map first_body (result_value (parse_only 40 src_big_literal))
     = Some (Some (AST_BLOCK [AST_RETURN (Some (AST_NUM (Int.wrap 4294967295)))]))
  /\ output_of (Arm64.gen_expr_arm64 1 (AST_NUM (Int.wrap 4294967295))
                                     (init_compiler src_big_literal true false))
     = [mkLine "    mov x0, #%d" [FInt 65535]]
  /\ a64_literal_lines 4294967295 <> [mkLine "    mov x0, #%d" [FInt 65535]]
  /\ option_map A64M.w0 (A64M.exec [mkLine "    mov x0, #%d" [FInt 65535]] a64_start)
     = Some 65535
  /\ 65535 <> 4294967295.
Proof.
  split; [lia|]. split; [vm_compute; reflexivity|].
  split; [vm_compute; reflexivity|].
  split; [vm_compute; discriminate|].
  split; [vm_compute; reflexivity | lia].
Qed.

(** ** C2: the order in which call arguments are evaluated *)

Lemma bind_assoc {A B C} (m : M A) (k : A -> M B) (h : B -> M C) (c : Compiler) :
  bind (bind m k) h c = bind m (fun a => bind (k a) h) c.
Proof. unfold bind. destruct (m c); reflexivity. Qed.

Lemma bind_ext {A B} (m : M A) (k k' : A -> M B) (c : Compiler) :
  (forall a c1, k a c1 = k' a c1) -> bind m k c = bind m k' c.
Proof. intros H. unfold bind. destruct (m c); auto. Qed.

Lemma bind_cong {A B} (m m' : M A) (k k' : A -> M B) (c : Compiler) :
  (forall c0, m c0 = m' c0) -> (forall a c1, k a c1 = k' a c1) ->
  bind m k c = bind m' k' c.
Proof. intros Hm Hk. unfold bind. rewrite Hm. destruct (m' c); auto. Qed.

Lemma for_each_app {A} (f : A -> M unit) (l1 l2 : list A) (c : Compiler) :
  for_each f (l1 ++ l2) c = (for_each f l1 ;; for_each f l2) c.
Proof.
  revert c. induction l1 as [|x l1 IH]; intros c; simpl.
  - reflexivity.
  - rewrite bind_assoc. apply bind_ext. intros _ c1. apply IH.
Qed.

Lemma firstn_succ_nth {A} (l : list A) (i : nat) (a : A) :
  nth_error l i = Some a -> firstn (S i) l = (firstn i l ++ [a])%list.
Proof.
  revert i. induction l as [|x l IH]; intros [|i] H; simpl in *; try discriminate.
  - injection H as ->. reflexivity.
  - f_equal. apply IH. exact H.
Qed.

Section PushOrder.

Variable gen : AST -> M unit.
Variable push : M unit.

(** The descending index loop visits [args[k-1]], ..., [args[0]]. *)
Fixpoint push_loop (args : list AST) (k : nat) : M unit :=
  match k with
  | O => ret tt
  | S i =>
      match nth_error args i with
      | Some a => gen a
      | None => raise_fault BadIndex
      end ;; push ;; push_loop args i
  end.

Lemma push_loop_rev (args : list AST) (k : nat) (c : Compiler) :
  (k <= List.length args)%nat ->
  push_loop args k c = for_each (fun a => gen a ;; push) (rev (firstn k args)) c.
Proof.
  revert c. induction k as [|i IH]; intros c Hk.
  - reflexivity.
  - destruct (nth_error args i) as [a|] eqn:E.
    2:{ apply nth_error_None in E. lia. }
    rewrite (firstn_succ_nth _ _ _ E), rev_app_distr. simpl. rewrite E.
    rewrite bind_assoc. apply bind_ext. intros _ c1.
    apply bind_ext. intros _ c2. apply IH. lia.
Qed.

End PushOrder.

Lemma push_args_arm64_rev (gen : AST -> M unit) (args : list AST) (c : Compiler) :
  Arm64.push_args gen args (List.length args) c
  = for_each (fun a => gen a ;; emit "    str x0, [sp, #-16]!" []) (rev args) c.
Proof.
  rewrite <- (firstn_all args) at 3.
  rewrite <- (push_loop_rev gen (emit "    str x0, [sp, #-16]!" []) args) by lia.
  generalize (List.length args). intros k. revert c.
  induction k as [|i IH]; intros c; simpl; [reflexivity|].
  apply bind_ext. intros _ c1. apply bind_ext. intros _ c2. apply IH.
Qed.

Lemma push_args_x64_rev (gen : AST -> M unit) (args : list AST) (c : Compiler) :
  X64.push_args gen args (List.length args) c
  = for_each (fun a => gen a ;; emit "    pushq %%rax" []) (rev args) c.
Proof.
  rewrite <- (firstn_all args) at 3.
  rewrite <- (push_loop_rev gen (emit "    pushq %%rax" []) args) by lia.
  generalize (List.length args). intros k. revert c.
  induction k as [|i IH]; intros c; simpl; [reflexivity|].
  apply bind_ext. intros _ c1. apply bind_ext. intros _ c2. apply IH.
Qed.

(** The ascending register loop pops [min nargs limit] registers. *)
Lemma pop_args_arm64_firstn (l : list AST) (fuel : nat) (i : Z) (c : Compiler) :
  0 <= i -> 8 - i <= Z.of_nat fuel ->
  Arm64.pop_args (i + Z.of_nat (List.length l)) fuel i c
  = for_each_from (fun j (_ : AST) => emit "    ldr x%d, [sp], #16" [FInt j]) i
                  (firstn (Z.to_nat (8 - i)) l) c.
Proof.
  revert fuel i c. induction l as [|x l IH]; intros fuel i c Hi Hf.
  - simpl List.length. rewrite firstn_nil. destruct fuel; simpl; [reflexivity|].
    replace (i <? i + 0) with false by (symmetry; apply Z.ltb_ge; lia). reflexivity.
  - destruct (Z.ltb_spec i 8) as [H8|H8].
    + destruct fuel as [|fuel]; [lia|].
      replace (Z.to_nat (8 - i)) with (S (Z.to_nat (8 - (i + 1)))) by lia.
      cbn [Arm64.pop_args firstn for_each_from].
      replace (i <? i + Z.of_nat (List.length (x :: l))) with true
        by (symmetry; apply Z.ltb_lt; simpl List.length; lia).
      replace (i <? 8) with true by (symmetry; apply Z.ltb_lt; lia).
      cbn [andb]. apply bind_ext. intros _ c1.
      replace (i + Z.of_nat (List.length (x :: l)))
        with ((i + 1) + Z.of_nat (List.length l)) by (simpl List.length; lia).
      apply IH; lia.
    + replace (Z.to_nat (8 - i)) with O by lia. simpl firstn.
      destruct fuel; simpl; [reflexivity|].
      replace (i <? 8) with false by (symmetry; apply Z.ltb_ge; lia).
      rewrite andb_false_r. reflexivity.
Qed.

Lemma pop_args_x64_firstn (l : list AST) (fuel : nat) (i : Z) (c : Compiler) :
  0 <= i -> 6 - i <= Z.of_nat fuel ->
  X64.pop_args (i + Z.of_nat (List.length l)) fuel i c
  = for_each_from (fun j (_ : AST) => emit "    popq %%%s" [FStr (X64.reg_name j)]) i
                  (firstn (Z.to_nat (6 - i)) l) c.
Proof.
  revert fuel i c. induction l as [|x l IH]; intros fuel i c Hi Hf.
  - simpl List.length. rewrite firstn_nil. destruct fuel; simpl; [reflexivity|].
    replace (i <? i + 0) with false by (symmetry; apply Z.ltb_ge; lia). reflexivity.
  - destruct (Z.ltb_spec i 6) as [H6|H6].
    + destruct fuel as [|fuel]; [lia|].
      replace (Z.to_nat (6 - i)) with (S (Z.to_nat (6 - (i + 1)))) by lia.
      cbn [X64.pop_args firstn for_each_from].
      replace (i <? i + Z.of_nat (List.length (x :: l))) with true
        by (symmetry; apply Z.ltb_lt; simpl List.length; lia).
      replace (i <? 6) with true by (symmetry; apply Z.ltb_lt; lia).
      cbn [andb]. apply bind_ext. intros _ c1.
      replace (i + Z.of_nat (List.length (x :: l)))
        with ((i + 1) + Z.of_nat (List.length l)) by (simpl List.length; lia).
      apply IH; lia.
    + replace (Z.to_nat (6 - i)) with O by lia. simpl firstn.
      destruct fuel; simpl; [reflexivity|].
      replace (i <? 6) with false by (symmetry; apply Z.ltb_ge; lia).
      rewrite andb_false_r. reflexivity.
Qed.

(** C2 (as amended).  For every call with arguments [e1 .. en], both
    generators evaluate the arguments right to left ([en] first, [e1] last),
    pushing each result; they then pop the first [min n 8] (AArch64) or
    [min n 6] (x86-64) argument registers in index order, so that [e1]
    lands in the first argument register, and emit the call. *)
Theorem C2_call_arguments_right_to_left :
  forall (d : nat) (name : string) (args : list AST) (c : Compiler),
    Arm64.gen_expr_arm64 (S d) (AST_CALL name args) c
    = call_sequence_arm64 (Arm64.gen_expr_arm64 d) right_to_left name args c
    /\ X64.gen_expr_x64 (S d) (AST_CALL name args) c
       = call_sequence_x64 (X64.gen_expr_x64 d) right_to_left name args c.
Proof.
  intros d name args c. split.
  - cbn [Arm64.gen_expr_arm64 Arm64.gen_expr_body].
    unfold call_sequence_arm64, right_to_left.
    apply bind_cong; [intros c0; apply push_args_arm64_rev|].
    intros _ c1. apply bind_cong; [|reflexivity].
    intros c0. exact (pop_args_arm64_firstn args 8 0 c0 ltac:(lia) ltac:(lia)).
  - cbn [X64.gen_expr_x64 X64.gen_expr_body].
    unfold call_sequence_x64, right_to_left.
    apply bind_cong; [intros c0; apply push_args_x64_rev|].
    intros _ c1. apply bind_cong; [|reflexivity].
    intros c0. exact (pop_args_x64_firstn args 6 0 c0 ltac:(lia) ltac:(lia)).
Qed.

(** C2, the claim as stated, fails for [f(1, 2, 3, 4, 5, 6, 7, 8, 9)]: the
    generated code is not the left-to-right sequence; its first line loads
    the last argument, 9, and the first argument register is popped from
    the slot pushed last, which holds the first argument.  On AArch64 nine
    slots are pushed and eight popped. *)
Lemma C2_call_not_left_to_right :
  let c := init_compiler EmptyString true false in
  let cx := init_compiler EmptyString false false in
  Arm64.gen_expr_arm64 2 (AST_CALL "f" nine_literals) c
  <> call_sequence_arm64 (Arm64.gen_expr_arm64 1) left_to_right "f" nine_literals c
  /\ X64.gen_expr_x64 2 (AST_CALL "f" nine_literals) cx
     <> call_sequence_x64 (X64.gen_expr_x64 1) left_to_right "f" nine_literals cx
  /\ hd_error (output_of (Arm64.gen_expr_arm64 2 (AST_CALL "f" nine_literals) c))
     = Some (mkLine "    mov w0, #%d" [FInt 9])
  /\ hd_error (output_of (X64.gen_expr_x64 2 (AST_CALL "f" nine_literals) cx))
     = Some (mkLine "    movl $%d, %%eax" [FInt 9])
  /\ hd_error (output_of (call_sequence_arm64 (Arm64.gen_expr_arm64 1) left_to_right
                                              "f" nine_literals c))
     = Some (mkLine "    mov w0, #%d" [FInt 1])
  /\ List.length (filter (fun l => String.eqb (fmt l) "    str x0, [sp, #-16]!")
                         (output_of (Arm64.gen_expr_arm64 2 (AST_CALL "f" nine_literals) c)))
     = 9%nat
  /\ List.length (filter (fun l => String.eqb (fmt l) "    ldr x%d, [sp], #16")
                         (output_of (Arm64.gen_expr_arm64 2 (AST_CALL "f" nine_literals) c)))
     = 8%nat.
Proof.
  cbv zeta.
  split; [vm_compute; discriminate|].
  split; [vm_compute; discriminate|].
  repeat split; vm_compute; reflexivity.
Qed.

(** ** C3: the value and the evaluation scheme of [&&] and [||] *)

Lemma bind_emit {B} (f : string) (a : list fmt_arg) (k : unit -> M B) (c : Compiler) :
  bind (emit f a) k c = k tt (set_out (out c ++ [mkLine f a]) c).
Proof. reflexivity. Qed.

Lemma low32_idem (v : Z) : low32 (low32 v) = low32 v.
Proof. unfold low32. apply Z.mod_mod. unfold two32; lia. Qed.

Lemma setcc_then_movzbl (x b : Z) :
  0 <= b < 256 -> (x - x mod 256 + b) mod 256 = b.
Proof.
  intros Hb. pose proof (Z.div_mod x 256).
  replace (x - x mod 256 + b) with (b + (x / 256) * 256) by lia.
  rewrite Z.mod_add by lia. apply Z.mod_small. exact Hb.
Qed.

(** Run from a state whose accumulator holds the right operand and whose
    stack top holds the left one, the tail leaves the 0/1 truth value. *)
Lemma a64_tail_value (is_or : bool) (lbl a : Z) (m : A64M.machine) (s : list Z) :
  A64M.stack m = a :: s ->
  exists m', A64M.exec (a64_logic_tail is_or lbl) m = Some m'
    /\ A64M.x0 m' = logic_value is_or a (A64M.x0 m)
    /\ A64M.stack m' = s /\ A64M.mem m' = A64M.mem m.
Proof.
  intros Hs. destruct m as [r0 r1 r2 fp zf st me]. simpl in Hs. subst st.
  unfold logic_value, truth.
  destruct is_or; cbn -[low32 Z.eqb]; unfold A64M.w0, A64M.w1; cbn -[low32 Z.eqb].
  - destruct (low32 a =? 0) eqn:Ea; cbn -[low32 Z.eqb].
    + rewrite low32_idem. destruct (low32 r0 =? 0) eqn:Eb; cbn -[low32 Z.eqb];
        eexists; repeat split.
    + rewrite Z.eqb_refl. cbn -[low32 Z.eqb]. unfold A64M.w0; cbn -[low32 Z.eqb].
      rewrite Ea. eexists; repeat split.
  - destruct (low32 a =? 0) eqn:Ea; cbn -[low32 Z.eqb].
    + rewrite Z.eqb_refl. cbn -[low32 Z.eqb]. unfold A64M.w0; cbn -[low32 Z.eqb].
      rewrite Ea. eexists; repeat split.
    + rewrite low32_idem. destruct (low32 r0 =? 0) eqn:Eb; cbn -[low32 Z.eqb];
        eexists; repeat split.
Qed.

Lemma x64_tail_value (is_or : bool) (lbl a : Z) (m : X64M.machine) (s : list Z) :
  X64M.stack m = a :: s ->
  exists m', X64M.exec (x64_logic_tail is_or lbl) m = Some m'
    /\ X64M.rax m' = logic_value is_or a (X64M.rax m)
    /\ X64M.stack m' = s /\ X64M.mem m' = X64M.mem m.
Proof.
  intros Hs. destruct m as [r0 r1 r2 fp zf st me]. simpl in Hs. subst st.
  unfold logic_value, truth.
  destruct is_or; destruct (low32 a =? 0) eqn:Ea; destruct (low32 r0 =? 0) eqn:Eb;
    repeat (progress (cbn -[low32 Z.eqb Z.modulo Z.sub Z.add];
                      unfold X64M.eax, X64M.ecx;
                      rewrite ?low32_idem, ?Ea, ?Eb, ?Z.eqb_refl));
    eexists; (split; [reflexivity|]); cbn -[low32 Z.eqb Z.modulo Z.sub Z.add];
    (split; [apply setcc_then_movzbl; lia | split; reflexivity]).
Qed.

Lemma logic_value_01 (is_or : bool) (a b : Z) :
  logic_value is_or a b = 0 \/ logic_value is_or a b = 1.
Proof.
  unfold logic_value.
  destruct (if is_or then truth a || truth b else truth a && truth b); auto.
Qed.

(** Both operands are generated, left then right, before the tail. *)
Lemma gen_logic_arm64 (is_or : bool) (d : nat) (l r : AST) (c c1 c2 : Compiler) :
  Arm64.gen_expr_arm64 d l c = Done tt c1 ->
  Arm64.gen_expr_arm64 d r (add_line push_a64 c1) = Done tt c2 ->
  exists c3,
    Arm64.gen_expr_arm64 (S d) (AST_BINOP (logic_op is_or) l r) c = Done tt c3
    /\ out c3 = (out c2 ++ a64_logic_tail is_or (label_count c2))%list
    /\ label_count c3 = Int.add (label_count c2) 1.
Proof.
  intros H1 H2.
  cbn [Arm64.gen_expr_arm64 Arm64.gen_expr_body].
  rewrite (bind_of_Done _ _ _ _ _ H1), bind_emit.
  fold (add_line push_a64 c1).
  rewrite (bind_of_Done _ _ _ _ _ H2).
  destruct is_or; cbn; eexists; (split; [reflexivity|]); cbn;
    (split; [|reflexivity]); repeat rewrite <- app_assoc; reflexivity.
Qed.

Lemma gen_logic_x64 (is_or : bool) (d : nat) (l r : AST) (c c1 c2 : Compiler) :
  X64.gen_expr_x64 d l c = Done tt c1 ->
  X64.gen_expr_x64 d r (add_line push_x64 c1) = Done tt c2 ->
  exists c3,
    X64.gen_expr_x64 (S d) (AST_BINOP (logic_op is_or) l r) c = Done tt c3
    /\ out c3 = (out c2 ++ x64_logic_tail is_or (label_count c2))%list
    /\ label_count c3 = Int.add (label_count c2) 1.
Proof.
  intros H1 H2.
  cbn [X64.gen_expr_x64 X64.gen_expr_body].
  rewrite (bind_of_Done _ _ _ _ _ H1), bind_emit.
  fold (add_line push_x64 c1).
  rewrite (bind_of_Done _ _ _ _ _ H2).
  destruct is_or; cbn; eexists; (split; [reflexivity|]); cbn;
    (split; [|reflexivity]); repeat rewrite <- app_assoc; reflexivity.
Qed.



(** ** C4: precedence and associativity in the parser *)

Lemma wrap_small x : Int.min_signed <= x <= Int.max_signed -> Int.wrap x = x.
Proof.
  unfold Int.wrap, Int.min_signed, Int.max_signed, Int.modulus, Int.half_modulus.
  intros H. destruct (Z.ltb_spec (x mod 4294967296) 2147483648) as [L|L].
  - destruct (Z_lt_le_dec x 0) as [N|N].
    + exfalso. rewrite <- (Z.mod_add x 1 4294967296) in L by lia.
      rewrite Z.mod_small in L by lia. lia.
    + apply Z.mod_small. lia.
  - destruct (Z_lt_le_dec x 0) as [N|N].
    + rewrite <- (Z.mod_add x 1 4294967296) by lia. rewrite Z.mod_small by lia. lia.
    + rewrite Z.mod_small in L by lia. lia.
Qed.

Lemma bind_get {B} (k : Compiler -> M B) c : bind get k c = k c c.
Proof. reflexivity. Qed.
Lemma bind_modify {B} f (k : unit -> M B) c : bind (modify f) k c = k tt (f c).
Proof. reflexivity. Qed.
Lemma bind_ret {A B} (a : A) (k : A -> M B) c : bind (ret a) k c = k a c.
Proof. reflexivity. Qed.

Lemma src_at_here c pre ch rest :
  at_pos c pre (ch :: rest) -> src_at (pos c) c = Done ch c.
Proof.
  intros (Hs & Hp & Hl). unfold src_at. rewrite Hp, Hs.
  replace (Z.of_nat (List.length pre) <? 0) with false by (symmetry; apply Z.ltb_ge; lia).
  rewrite Nat2Z.id, nth_error_app2 by lia. rewrite Nat.sub_diag. reflexivity.
Qed.

Lemma src_at_end c pre :
  at_pos c pre [] -> src_at (pos c) c = Done NUL c.
Proof.
  intros (Hs & Hp & Hl). unfold src_at. rewrite Hp, Hs.
  replace (Z.of_nat (List.length pre) <? 0) with false by (symmetry; apply Z.ltb_ge; lia).
  rewrite Nat2Z.id, app_nil_r.
  replace (nth_error pre (List.length pre)) with (@None ascii)
    by (symmetry; apply nth_error_None; lia).
  rewrite Z.eqb_refl. reflexivity.
Qed.

Lemma advance_spec c pre ch rest :
  at_pos c pre (ch :: rest) ->
  exists c', advance c = Done ch c' /\ at_pos c' (pre ++ [ch]) rest /\ cur c' = cur c.
Proof.
  intros H. pose proof (src_at_here _ _ _ _ H) as Hr. destruct H as (Hs & Hp & Hl).
  unfold advance. rewrite bind_get, (bind_of_Done _ _ _ _ _ Hr), bind_modify.
  destruct (is_char ch LF); rewrite bind_modify; unfold ret;
    eexists; (split; [reflexivity|]); (split; [|reflexivity]);
    unfold at_pos; cbn; rewrite <- app_assoc; cbn; (split; [exact Hs|]); (split; [|exact Hl]);
    rewrite Hp, length_app; cbn;
    unfold Int.add; rewrite wrap_small;
    rewrite ?length_app in *; cbn in *; unfold Int.min_signed, Int.max_signed in *; lia.
Qed.

Lemma at_pos_set_cur (t : Token) (c : Compiler) (pre rest : list ascii) :
  at_pos c pre rest -> at_pos (set_cur t c) pre rest.
Proof. intros H. exact H. Qed.

Lemma digit_facts (ch : ascii) :
  isdigit ch = true ->
  is_char ch NUL = false /\ isalpha ch = false /\ is_char ch "_" = false
  /\ is_space ch = false /\ is_char ch "/" = false.
Proof.
  destruct ch as [[] [] [] [] [] [] [] []]; cbn; intros H;
    try discriminate H; repeat split.
Qed.

Lemma operator_facts (o : ascii) (t : TokenType) :
  operator_token o = Some t ->
  is_char o NUL = false /\ isalpha o = false /\ is_char o "_" = false
  /\ is_space o = false /\ is_char o "/" = false /\ isdigit o = false
  /\ is_char o DQUOTE = false.
Proof.
  destruct o as [[] [] [] [] [] [] [] []]; cbn; intros H;
    try discriminate H; repeat split.
Qed.

Lemma peek_here c pre ch rest :
  at_pos c pre (ch :: rest) -> peek c = Done ch c.
Proof. apply src_at_here. Qed.

Lemma peek_end c pre :
  at_pos c pre [] -> peek c = Done NUL c.
Proof. apply src_at_end. Qed.

Lemma skip_whitespace_plain (n : nat) c pre rest :
  at_pos c pre rest -> plain_start rest -> skip_whitespace (S n) c = Done tt c.
Proof.
  intros H P. cbn [skip_whitespace]. destruct rest as [|ch rest].
  - rewrite (bind_of_Done _ _ _ _ _ (peek_end _ _ H)). reflexivity.
  - rewrite (bind_of_Done _ _ _ _ _ (peek_here _ _ _ _ H)).
    destruct P as [P1 P2]. unfold is_space in P1. rewrite P1, P2. reflexivity.
Qed.

Lemma skip_whitespace_blank (n : nat) c pre rest :
  at_pos c pre (" "%char :: rest) -> plain_start rest ->
  exists c', skip_whitespace (S (S n)) c = Done tt c'
             /\ at_pos c' (pre ++ [" "%char]) rest /\ cur c' = cur c.
Proof.
  intros H P. destruct (advance_spec _ _ _ _ H) as (c' & Ha & Hp & Hc).
  exists c'. split; [|split; assumption].
  change (skip_whitespace (S (S n))) with
    (ch <- peek ;;
     if is_char ch " " || is_char ch TAB || is_char ch LF || is_char ch CR
     then advance ;; skip_whitespace (S n)
     else if is_char ch "/"
     then c <- get ;;
          nx <- src_at (Int.add (pos c) 1) ;;
          if is_char nx "/"
          then skip_line_comment (S n) ;; skip_whitespace (S n)
          else if is_char nx "*"
          then advance ;; advance ;;
               skip_block_comment (S n) ;;
               ch' <- peek ;;
               (if negb (is_char ch' NUL) then advance ;; advance ;; ret tt else ret tt) ;;
               skip_whitespace (S n)
          else ret tt
     else ret tt).
  rewrite (bind_of_Done _ _ _ _ _ (peek_here _ _ _ _ H)).
  change (is_char " " " " || is_char " " TAB || is_char " " LF || is_char " " CR) with true.
  cbv iota. rewrite (bind_of_Done _ _ _ _ _ Ha).
  apply (skip_whitespace_plain n c' _ _ Hp P).
Qed.

Lemma literal_value_cons (acc : Z) (d : ascii) (ds : list ascii) :
  literal_value acc (d :: ds)
  = literal_value (Int.add (Int.mul acc 10) (Z.of_nat (nat_of_ascii d) - 48)) ds.
Proof. reflexivity. Qed.

Lemma lex_number_loop_spec (ds : list ascii) :
  forall (n : nat) c pre rest,
    Forall (fun d => isdigit d = true) ds -> digit_end rest ->
    at_pos c pre (ds ++ rest) -> (List.length ds < n)%nat ->
    exists c', lex_number_loop n c = Done tt c'
               /\ at_pos c' (pre ++ ds) rest
               /\ num (cur c') = literal_value (num (cur c)) ds
               /\ type (cur c') = type (cur c).
Proof.
  induction ds as [|d ds IH]; intros n c pre rest Hd He Hp Hn.
  - destruct n as [|n]; [simpl in Hn; lia|]. exists c.
    rewrite app_nil_r. simpl app in Hp.
    split; [|split; [exact Hp | split; reflexivity]].
    cbn [lex_number_loop]. destruct rest as [|ch rest].
    + rewrite (bind_of_Done _ _ _ _ _ (peek_end _ _ Hp)). reflexivity.
    + rewrite (bind_of_Done _ _ _ _ _ (peek_here _ _ _ _ Hp)).
      simpl in He. rewrite He. reflexivity.
  - destruct n as [|n]; [simpl in Hn; lia|].
    inversion Hd as [|? ? Hd1 Hd2]; subst.
    simpl app in Hp.
    destruct (advance_spec _ _ _ _ Hp) as (c1 & Ha & Hp1 & Hc1).
    set (c2 := set_num (Int.add (Int.mul (num (cur c)) 10)
                                (Z.of_nat (nat_of_ascii d) - 48)) c1).
    destruct (IH n c2 (pre ++ [d])%list rest Hd2 He Hp1 ltac:(simpl in Hn; lia))
      as (c' & Hl & Hp' & Hv & Ht).
    exists c'. rewrite <- app_assoc in Hp'. simpl app in Hp'.
    split; [|split; [exact Hp'|split]].
    + cbn [lex_number_loop].
      rewrite (bind_of_Done _ _ _ _ _ (peek_here _ _ _ _ Hp)), Hd1.
      rewrite bind_get, (bind_of_Done _ _ _ _ _ Ha), bind_modify. exact Hl.
    + rewrite Hv, literal_value_cons. reflexivity.
    + rewrite Ht. unfold c2. cbn. rewrite Hc1. reflexivity.
Qed.

Lemma skip_whitespace_lead (fuel : nat) c pre lead rest :
  lead = [] \/ lead = [" "%char] ->
  at_pos c pre (lead ++ rest) -> plain_start rest -> (2 <= fuel)%nat ->
  exists c', skip_whitespace fuel c = Done tt c'
             /\ at_pos c' (pre ++ lead) rest /\ cur c' = cur c.
Proof.
  intros Hl Hp P Hf.
  destruct fuel as [|[|n]]; [lia | lia |].
  destruct Hl as [-> | ->].
  - exists c. rewrite app_nil_r. simpl app in Hp.
    split; [exact (skip_whitespace_plain _ _ _ _ Hp P) | split; [exact Hp | reflexivity]].
  - simpl app in Hp. exact (skip_whitespace_blank n _ _ _ Hp P).
Qed.

Lemma next_token_number (fuel : nat) c pre lead ds rest :
  lead = [] \/ lead = [" "%char] ->
  is_literal ds -> digit_end rest ->
  at_pos c pre (lead ++ ds ++ rest) ->
  (List.length ds + 2 <= fuel)%nat ->
  exists c', next_token fuel c = Done tt c'
             /\ at_pos c' (pre ++ lead ++ ds) rest
             /\ type (cur c') = TOK_NUM
             /\ num (cur c') = literal_value 0 ds.
Proof.
  intros Hl [Hne Hd] He Hp Hf.
  destruct ds as [|d ds]; [congruence|].
  inversion Hd as [|? ? Hd1 Hd2]; subst.
  destruct (digit_facts d Hd1) as (F1 & F2 & F3 & F4 & F5).
  destruct (skip_whitespace_lead fuel c pre lead ((d :: ds) ++ rest) Hl Hp
              (conj F4 F5) ltac:(lia)) as (c1 & Hs & Hp1 & Hc1).
  set (c2 := set_num 0 (set_tok_pos (cline c1) (col c1) c1)).
  destruct (lex_number_loop_spec (d :: ds) fuel c2 (pre ++ lead)%list rest Hd He Hp1
              ltac:(simpl List.length in *; lia)) as (c3 & Hn & Hp3 & Hv & Ht).
  exists (set_type TOK_NUM c3).
  split; [|split; [|split]].
  - unfold next_token.
    rewrite (bind_of_Done _ _ _ _ _ Hs), bind_modify.
    rewrite (bind_of_Done _ _ _ _ _
               (peek_here (set_tok_pos (cline c1) (col c1) c1) _ _ _ Hp1)).
    rewrite F1, F2, F3, Hd1. cbn [orb]. rewrite bind_modify.
    fold c2. rewrite (bind_of_Done _ _ _ _ _ Hn). reflexivity.
  - rewrite <- app_assoc in Hp3. exact Hp3.
  - reflexivity.
  - cbn. rewrite Hv. reflexivity.
Qed.

Lemma next_token_operator (fuel : nat) c pre o t rest :
  operator_token o = Some t ->
  at_pos c pre (" "%char :: o :: " "%char :: rest) ->
  (2 <= fuel)%nat ->
  exists c', next_token fuel c = Done tt c'
             /\ at_pos c' (pre ++ [" "%char; o]) (" "%char :: rest)
             /\ type (cur c') = t
             /\ num (cur c') = num (cur c).
Proof.
  intros Ho Hp Hf.
  destruct (operator_facts o t Ho) as (F1 & F2 & F3 & F4 & F5 & F6 & F7).
  destruct (skip_whitespace_lead fuel c pre [" "%char] (o :: " "%char :: rest)
              (or_intror eq_refl) Hp (conj F4 F5) Hf) as (c1 & Hs & Hp1 & Hc1).
  set (c2 := set_tok_pos (cline c1) (col c1) c1).
  destruct (advance_spec c2 _ _ _ Hp1) as (c3 & Ha & Hp3 & Hc3).
  rewrite <- app_assoc in Hp3. simpl app in Hp3.
  pose proof (peek_here _ _ _ _ Hp3) as Hk.
  exists (set_type t c3).
  split; [|split; [exact Hp3 | split; [reflexivity|]]].
  - unfold next_token.
    rewrite (bind_of_Done _ _ _ _ _ Hs), bind_modify. fold c2.
    rewrite (bind_of_Done _ _ _ _ _ (peek_here c2 _ _ _ Hp1)).
    rewrite F1, F2, F3, F6, F7. cbn [orb].
    rewrite (bind_of_Done _ _ _ _ _ Ha).
    unfold operator_token in Ho.
    destruct (is_char o "+") eqn:E1.
    { injection Ho as <-. rewrite (bind_of_Done _ _ _ _ _ Hk). reflexivity. }
    destruct (is_char o "-") eqn:E2.
    { injection Ho as <-. rewrite (bind_of_Done _ _ _ _ _ Hk). reflexivity. }
    destruct (is_char o "*") eqn:E3.
    { injection Ho as <-. reflexivity. }
    rewrite F5.
    destruct (is_char o "%") eqn:E4.
    { injection Ho as <-. reflexivity. }
    destruct (is_char o "=") eqn:E5; [|discriminate Ho].
    injection Ho as <-. unfold two_char.
    rewrite (bind_of_Done _ _ _ _ _ Hk). reflexivity.
  - cbn. rewrite Hc3. unfold c2. cbn. rewrite Hc1. reflexivity.
Qed.

Lemma next_token_eof (fuel : nat) c pre :
  at_pos c pre [] -> (1 <= fuel)%nat ->
  exists c', next_token fuel c = Done tt c' /\ type (cur c') = TOK_EOF.
Proof.
  intros Hp Hf. destruct fuel as [|n]; [lia|].
  eexists. split.
  - unfold next_token.
    rewrite (bind_of_Done _ _ _ _ _ (skip_whitespace_plain n _ _ _ Hp I)), bind_modify.
    rewrite (bind_of_Done _ _ _ _ _
               (peek_end (set_tok_pos (cline c) (col c) c) _ Hp)).
    reflexivity.
  - reflexivity.
Qed.

(** *** One step of each expression level *)

Lemma bind_cur_type {B} (k : TokenType -> M B) c :
  bind cur_type k c = k (type (cur c)) c.
Proof. reflexivity. Qed.

Section LevelSteps.

Variable fuel : nat.
Variable pe : M AST.

Lemma parse_primary_num c c' :
  type (cur c) = TOK_NUM -> next_token fuel c = Done tt c' ->
  parse_primary fuel pe c = Done (AST_NUM (num (cur c))) c'.
Proof.
  intros Ht Hn. unfold parse_primary. rewrite bind_get, Ht.
  change (tok_eqb TOK_NUM TOK_NUM) with true. cbv iota.
  rewrite (bind_of_Done _ _ _ _ _ Hn). reflexivity.
Qed.

Lemma parse_unary_num (n : nat) c c' :
  type (cur c) = TOK_NUM -> next_token fuel c = Done tt c' ->
  parse_unary fuel pe (S n) c = Done (AST_NUM (num (cur c))) c'.
Proof.
  intros Ht Hn. cbn [parse_unary]. rewrite bind_cur_type, Ht.
  change (tok_eqb TOK_NUM TOK_MINUS || tok_eqb TOK_NUM TOK_NOT) with false.
  change (tok_eqb TOK_NUM TOK_PLUSPLUS || tok_eqb TOK_NUM TOK_MINUSMINUS) with false.
  cbv iota. apply parse_primary_num; assumption.
Qed.

Lemma multiplicative_loop_exit (n : nat) (e : AST) c :
  is_mul_op (type (cur c)) = false ->
  multiplicative_loop fuel pe (S n) e c = Done e c.
Proof.
  intros H. cbn [multiplicative_loop]. rewrite bind_cur_type.
  unfold is_mul_op in H. rewrite H. reflexivity.
Qed.

Lemma multiplicative_loop_step (n : nat) (e r : AST) c c1 c2 :
  is_mul_op (type (cur c)) = true ->
  next_token fuel c = Done tt c1 ->
  parse_unary fuel pe fuel c1 = Done r c2 ->
  multiplicative_loop fuel pe (S n) e c
  = multiplicative_loop fuel pe n (AST_BINOP (type (cur c)) e r) c2.
Proof.
  intros H Hn Hu. cbn [multiplicative_loop]. rewrite bind_cur_type.
  unfold is_mul_op in H. rewrite H.
  rewrite (bind_of_Done _ _ _ _ _ Hn), (bind_of_Done _ _ _ _ _ Hu). reflexivity.
Qed.

Lemma additive_loop_exit (n : nat) (e : AST) c :
  is_add_op (type (cur c)) = false ->
  additive_loop fuel pe (S n) e c = Done e c.
Proof.
  intros H. cbn [additive_loop]. rewrite bind_cur_type.
  unfold is_add_op in H. rewrite H. reflexivity.
Qed.

Lemma additive_loop_step (n : nat) (e r : AST) c c1 c2 :
  is_add_op (type (cur c)) = true ->
  next_token fuel c = Done tt c1 ->
  parse_multiplicative fuel pe c1 = Done r c2 ->
  additive_loop fuel pe (S n) e c
  = additive_loop fuel pe n (AST_BINOP (type (cur c)) e r) c2.
Proof.
  intros H Hn Hu. cbn [additive_loop]. rewrite bind_cur_type.
  unfold is_add_op in H. rewrite H.
  rewrite (bind_of_Done _ _ _ _ _ Hn), (bind_of_Done _ _ _ _ _ Hu). reflexivity.
Qed.

(** The four levels between additive and assignment pass a result through
    when the next token is none of their operators. *)
Lemma parse_logical_or_passes (n : nat) (e : AST) c c' :
  fuel = S n ->
  parse_additive fuel pe c = Done e c' ->
  is_rel_op (type (cur c')) = false ->
  is_eq_op (type (cur c')) = false ->
  tok_eqb (type (cur c')) TOK_AND = false ->
  tok_eqb (type (cur c')) TOK_OR = false ->
  parse_logical_or fuel pe c = Done e c'.
Proof.
  intros Hf Ha H1 H2 H3 H4.
  unfold parse_logical_or, parse_logical_and, parse_equality, parse_relational.
  repeat rewrite bind_assoc.
  rewrite (bind_of_Done _ _ _ _ _ Ha). rewrite Hf.
  cbn [relational_loop]. rewrite bind_assoc, bind_cur_type.
  unfold is_rel_op in H1. rewrite H1, bind_ret.
  cbn [equality_loop]. rewrite bind_assoc, bind_cur_type.
  unfold is_eq_op in H2. rewrite H2, bind_ret.
  cbn [logical_and_loop]. rewrite bind_assoc, bind_cur_type, H3, bind_ret.
  cbn [logical_or_loop]. rewrite bind_cur_type, H4.
  reflexivity.
Qed.

Lemma parse_assignment_exit (n : nat) (e : AST) c c' :
  parse_logical_or fuel pe c = Done e c' ->
  is_assign_op (type (cur c')) = false ->
  parse_assignment fuel pe (S n) c = Done e c'.
Proof.
  intros Hl H. cbn [parse_assignment].
  rewrite (bind_of_Done _ _ _ _ _ Hl), bind_cur_type.
  unfold is_assign_op in H. rewrite H. reflexivity.
Qed.

Lemma parse_assignment_plain (n : nat) (e r : AST) c c1 c2 c3 :
  parse_logical_or fuel pe c = Done e c1 ->
  type (cur c1) = TOK_ASSIGN ->
  next_token fuel c1 = Done tt c2 ->
  parse_assignment fuel pe n c2 = Done r c3 ->
  parse_assignment fuel pe (S n) c = Done (AST_ASSIGN e r OP_PLAIN) c3.
Proof.
  intros Hl Ht Hn Hr. cbn [parse_assignment].
  rewrite (bind_of_Done _ _ _ _ _ Hl), bind_cur_type, Ht.
  change (tok_eqb TOK_ASSIGN TOK_ASSIGN || tok_eqb TOK_ASSIGN TOK_PLUSEQ
          || tok_eqb TOK_ASSIGN TOK_MINUSEQ) with true. cbv iota.
  rewrite (bind_of_Done _ _ _ _ _ Hn), (bind_of_Done _ _ _ _ _ Hr). reflexivity.
Qed.

End LevelSteps.

(** *** Three operands and two operators, as a chain of tokens *)

Section ThreeOperands.

Variables (n : nat) (pe : M AST).
Local Abbreviation fuel := (S (S (S n))).

Variables (c0 c1 c2 c3 c4 c5 : Compiler) (t1 t2 : TokenType).

Hypothesis T0 : type (cur c0) = TOK_NUM.
Hypothesis N0 : next_token fuel c0 = Done tt c1.
Hypothesis T1 : type (cur c1) = t1.
Hypothesis N1 : next_token fuel c1 = Done tt c2.
Hypothesis T2 : type (cur c2) = TOK_NUM.
Hypothesis N2 : next_token fuel c2 = Done tt c3.
Hypothesis T3 : type (cur c3) = t2.
Hypothesis N3 : next_token fuel c3 = Done tt c4.
Hypothesis T4 : type (cur c4) = TOK_NUM.
Hypothesis N4 : next_token fuel c4 = Done tt c5.
Hypothesis T5 : type (cur c5) = TOK_EOF.

Let va : AST := AST_NUM (num (cur c0)).
Let vb : AST := AST_NUM (num (cur c2)).
Let vc : AST := AST_NUM (num (cur c4)).

Lemma unary_a : parse_unary fuel pe fuel c0 = Done va c1.
Proof. apply parse_unary_num; assumption. Qed.

Lemma unary_b : parse_unary fuel pe fuel c2 = Done vb c3.
Proof. apply parse_unary_num; assumption. Qed.

Lemma unary_c : parse_unary fuel pe fuel c4 = Done vc c5.
Proof. apply parse_unary_num; assumption. Qed.

Lemma last_operand : parse_multiplicative fuel pe c4 = Done vc c5.
Proof.
  unfold parse_multiplicative. rewrite (bind_of_Done _ _ _ _ _ unary_c).
  apply multiplicative_loop_exit. rewrite T5. reflexivity.
Qed.

(** [a + b * c]: the additive loop takes [b * c] as its right operand. *)
Lemma tree_add_then_mul :
  is_add_op t1 = true -> is_mul_op t2 = true ->
  parse_additive fuel pe c0 = Done (AST_BINOP t1 va (AST_BINOP t2 vb vc)) c5.
Proof.
  intros A M.
  assert (M1 : is_mul_op t1 = false) by (destruct t1; try discriminate A; reflexivity).
  unfold parse_additive, parse_multiplicative. rewrite bind_assoc.
  rewrite (bind_of_Done _ _ _ _ _ unary_a).
  rewrite (bind_of_Done _ _ _ _ _
             (multiplicative_loop_exit fuel pe _ va c1 ltac:(rewrite T1; exact M1))).
  assert (R : parse_multiplicative fuel pe c2 = Done (AST_BINOP t2 vb vc) c5).
  { unfold parse_multiplicative. rewrite (bind_of_Done _ _ _ _ _ unary_b).
    rewrite (multiplicative_loop_step fuel pe _ vb vc c3 c4 c5
               ltac:(rewrite T3; exact M) N3 unary_c).
    rewrite T3. apply multiplicative_loop_exit. rewrite T5. reflexivity. }
  rewrite (additive_loop_step fuel pe _ va _ c1 c2 c5 ltac:(rewrite T1; exact A) N1 R).
  rewrite T1. apply additive_loop_exit. rewrite T5. reflexivity.
Qed.

(** [a * b * c] and [a * b + c]: the first product is complete before the
    second operator is looked at. *)
Lemma tree_mul_first :
  is_mul_op t1 = true -> is_mul_op t2 = true \/ is_add_op t2 = true ->
  parse_additive fuel pe c0 = Done (AST_BINOP t2 (AST_BINOP t1 va vb) vc) c5.
Proof.
  intros M1 H2.
  unfold parse_additive, parse_multiplicative. rewrite bind_assoc.
  rewrite (bind_of_Done _ _ _ _ _ unary_a).
  destruct H2 as [M2|A2].
  - assert (P : multiplicative_loop fuel pe fuel va c1
                = Done (AST_BINOP t2 (AST_BINOP t1 va vb) vc) c5).
    { rewrite (multiplicative_loop_step fuel pe _ va vb c1 c2 c3
                 ltac:(rewrite T1; exact M1) N1 unary_b).
      rewrite (multiplicative_loop_step fuel pe _ _ vc c3 c4 c5
                 ltac:(rewrite T3; exact M2) N3 unary_c).
      rewrite T1, T3. apply multiplicative_loop_exit. rewrite T5. reflexivity. }
    rewrite (bind_of_Done _ _ _ _ _ P).
    apply additive_loop_exit. rewrite T5. reflexivity.
  - assert (M2 : is_mul_op t2 = false) by (destruct t2; try discriminate A2; reflexivity).
    assert (P : multiplicative_loop fuel pe fuel va c1 = Done (AST_BINOP t1 va vb) c3).
    { rewrite (multiplicative_loop_step fuel pe _ va vb c1 c2 c3
                 ltac:(rewrite T1; exact M1) N1 unary_b).
      rewrite T1. apply multiplicative_loop_exit. rewrite T3. exact M2. }
    rewrite (bind_of_Done _ _ _ _ _ P).
    rewrite (additive_loop_step fuel pe _ _ vc c3 c4 c5
               ltac:(rewrite T3; exact A2) N3 last_operand).
    rewrite T3. apply additive_loop_exit. rewrite T5. reflexivity.
Qed.

(** [a + b - c]: the additive loop folds to the left. *)
Lemma tree_add_then_add :
  is_add_op t1 = true -> is_add_op t2 = true ->
  parse_additive fuel pe c0 = Done (AST_BINOP t2 (AST_BINOP t1 va vb) vc) c5.
Proof.
  intros A1 A2.
  assert (M1 : is_mul_op t1 = false) by (destruct t1; try discriminate A1; reflexivity).
  assert (M2 : is_mul_op t2 = false) by (destruct t2; try discriminate A2; reflexivity).
  unfold parse_additive, parse_multiplicative. rewrite bind_assoc.
  rewrite (bind_of_Done _ _ _ _ _ unary_a).
  rewrite (bind_of_Done _ _ _ _ _
             (multiplicative_loop_exit fuel pe _ va c1 ltac:(rewrite T1; exact M1))).
  assert (R : parse_multiplicative fuel pe c2 = Done vb c3).
  { unfold parse_multiplicative. rewrite (bind_of_Done _ _ _ _ _ unary_b).
    apply multiplicative_loop_exit. rewrite T3. exact M2. }
  rewrite (additive_loop_step fuel pe _ va _ c1 c2 c3 ltac:(rewrite T1; exact A1) N1 R).
  rewrite (additive_loop_step fuel pe _ _ vc c3 c4 c5
             ltac:(rewrite T3; exact A2) N3 last_operand).
  rewrite T1, T3. apply additive_loop_exit. rewrite T5. reflexivity.
Qed.

(** One operand followed by a token that no level below assignment takes. *)
Lemma operand_alone (c c' : Compiler) :
  type (cur c) = TOK_NUM -> next_token fuel c = Done tt c' ->
  type (cur c') = TOK_ASSIGN \/ type (cur c') = TOK_EOF ->
  parse_logical_or fuel pe c = Done (AST_NUM (num (cur c))) c'.
Proof.
  intros Ht Hn Hx.
  assert (E : forall f : TokenType -> bool,
             f TOK_ASSIGN = false -> f TOK_EOF = false -> f (type (cur c')) = false)
    by (intros f Fa Fe; destruct Hx as [-> | ->]; assumption).
  apply (parse_logical_or_passes fuel pe (S (S n))); try reflexivity;
    try (apply (E (fun t => _ t)); reflexivity).
  - unfold parse_additive, parse_multiplicative. rewrite bind_assoc.
    rewrite (bind_of_Done _ _ _ _ _ (parse_unary_num fuel pe _ c c' Ht Hn)).
    rewrite (bind_of_Done _ _ _ _ _
               (multiplicative_loop_exit fuel pe _ _ c'
                  ltac:(apply (E is_mul_op); reflexivity))).
    apply additive_loop_exit. apply (E is_add_op); reflexivity.
  - apply (E (fun t => tok_eqb t TOK_AND)); reflexivity.
  - apply (E (fun t => tok_eqb t TOK_OR)); reflexivity.
Qed.

(** [a = b = c]: the right-hand side of the first [=] is the whole
    assignment [b = c]. *)
Lemma tree_assign_assign :
  t1 = TOK_ASSIGN -> t2 = TOK_ASSIGN ->
  parse_assignment fuel pe fuel c0
  = Done (AST_ASSIGN va (AST_ASSIGN vb vc OP_PLAIN) OP_PLAIN) c5.
Proof.
  intros E1 E2. pose proof T1 as T1'. pose proof T3 as T3'.
  rewrite E1 in T1'. rewrite E2 in T3'.
  apply (parse_assignment_plain fuel pe _ va _ c0 c1 c2 c5
           (operand_alone c0 c1 T0 N0 (or_introl T1')) T1' N1).
  apply (parse_assignment_plain fuel pe _ vb _ c2 c3 c4 c5
           (operand_alone c2 c3 T2 N2 (or_introl T3')) T3' N3).
  apply (parse_assignment_exit fuel pe _ vc c4 c5
           (operand_alone c4 c5 T4 N4 (or_intror T5))).
  rewrite T5. reflexivity.
Qed.

(** An arithmetic tree that ends at end of input passes the upper levels. *)
Lemma arithmetic_to_assignment (e : AST) :
  parse_additive fuel pe c0 = Done e c5 ->
  parse_assignment fuel pe fuel c0 = Done e c5.
Proof.
  intros H. apply parse_assignment_exit.
  - apply (parse_logical_or_passes fuel pe (S (S n)) e c0 c5 eq_refl H);
      rewrite T5; reflexivity.
  - rewrite T5. reflexivity.
Qed.

End ThreeOperands.

(** *** From the source text to the chain of tokens *)

Lemma init_at_pos (l : list ascii) (arm64 linux : bool) :
  Z.of_nat (List.length l) < Int.max_signed ->
  at_pos (init_compiler (string_of_list_ascii l) arm64 linux) [] l.
Proof.
  intros H. unfold at_pos, init_compiler, list_of_string. cbn [src pos].
  rewrite list_ascii_of_string_of_list_ascii. repeat split. exact H.
Qed.

Lemma three_operands_length (a : list ascii) (o1 : ascii) (b : list ascii) (o2 : ascii)
      (c : list ascii) :
  List.length (three_operands a o1 b o2 c)
  = (List.length a + List.length b + List.length c + 6)%nat.
Proof.
  unfold three_operands. rewrite length_app. cbn [List.length].
  rewrite length_app. cbn [List.length]. lia.
Qed.

Lemma lex_three_operands (n : nat) (a b c : list ascii) (o1 o2 : ascii) (t1 t2 : TokenType) :
  is_literal a -> is_literal b -> is_literal c ->
  operator_token o1 = Some t1 -> operator_token o2 = Some t2 ->
  (List.length a <= n)%nat -> (List.length b <= n)%nat -> (List.length c <= n)%nat ->
  Z.of_nat (List.length a + List.length b + List.length c) + 6 < Int.max_signed ->
  exists c0 c1 c2 c3 c4 c5,
    next_token (S (S (S n)))
               (init_compiler (string_of_list_ascii (three_operands a o1 b o2 c)) false false)
    = Done tt c0
    /\ (type (cur c0) = TOK_NUM /\ num (cur c0) = literal_value 0 a)
    /\ next_token (S (S (S n))) c0 = Done tt c1 /\ type (cur c1) = t1
    /\ next_token (S (S (S n))) c1 = Done tt c2
    /\ (type (cur c2) = TOK_NUM /\ num (cur c2) = literal_value 0 b)
    /\ next_token (S (S (S n))) c2 = Done tt c3 /\ type (cur c3) = t2
    /\ next_token (S (S (S n))) c3 = Done tt c4
    /\ (type (cur c4) = TOK_NUM /\ num (cur c4) = literal_value 0 c)
    /\ next_token (S (S (S n))) c4 = Done tt c5 /\ type (cur c5) = TOK_EOF.
Proof.
  intros La Lb Lc O1 O2 Ha Hb Hc Hlen.
  assert (Hinit : at_pos (init_compiler (string_of_list_ascii (three_operands a o1 b o2 c))
                                        false false) [] (three_operands a o1 b o2 c)).
  { apply init_at_pos. rewrite three_operands_length. lia. }
  unfold three_operands in Hinit.
  assert (Sp : forall r : list ascii, digit_end (" "%char :: r)) by (intros r; reflexivity).
  destruct (next_token_number (S (S (S n))) _ [] [] a _ (or_introl eq_refl) La (Sp _)
              Hinit ltac:(lia)) as (c0 & N & P0 & T0 & V0).
  cbn [app] in P0.
  destruct (next_token_operator (S (S (S n))) c0 a o1 t1 _ O1 P0 ltac:(lia))
    as (c1 & N0 & P1 & T1 & _).
  destruct (next_token_number (S (S (S n))) c1 _ [" "%char] b _ (or_intror eq_refl) Lb
              (Sp _) P1 ltac:(lia)) as (c2 & N1 & P2 & T2 & V2).
  destruct (next_token_operator (S (S (S n))) c2 _ o2 t2 _ O2 P2 ltac:(lia))
    as (c3 & N2 & P3 & T3 & _).
  assert (P3' : at_pos c3 (((a ++ [" "%char; o1]) ++ [" "%char] ++ b) ++ [" "%char; o2])
                       ([" "%char] ++ c ++ [])) by (rewrite app_nil_r; exact P3).
  destruct (next_token_number (S (S (S n))) c3 _ [" "%char] c [] (or_intror eq_refl) Lc I
              P3' ltac:(lia)) as (c4 & N3 & P4 & T4 & V4).
  destruct (next_token_eof (S (S (S n))) c4 _ P4 ltac:(lia)) as (c5 & N4 & T5).
  exists c0, c1, c2, c3, c4, c5. repeat split; assumption.
Qed.

(** The token a parse starts from carries the value of the first literal. *)
Lemma parse_expr_unfold (n : nat) (c : Compiler) :
  parse_expr (S n) c = parse_assignment (S n) (parse_expr_depth (S n) n) (S n) c.
Proof. reflexivity. Qed.

Section Trees.

Variables (n : nat) (a b c : list ascii).
Hypothesis La : is_literal a.
Hypothesis Lb : is_literal b.
Hypothesis Lc : is_literal c.
Hypothesis Ha : (List.length a <= n)%nat.
Hypothesis Hb : (List.length b <= n)%nat.
Hypothesis Hc : (List.length c <= n)%nat.
Hypothesis Hlen : Z.of_nat (List.length a + List.length b + List.length c) + 6 < Int.max_signed.

Let va : AST := AST_NUM (literal_value 0 a).
Let vb : AST := AST_NUM (literal_value 0 b).
Let vc : AST := AST_NUM (literal_value 0 c).

Lemma parse_arithmetic (o1 o2 : ascii) (t1 t2 : TokenType) :
  operator_token o1 = Some t1 -> operator_token o2 = Some t2 ->
  (is_add_op t1 = true \/ is_mul_op t1 = true) ->
  (is_add_op t2 = true \/ is_mul_op t2 = true) ->
  result_value (parse_expr_of (S (S (S n))) (three_operands a o1 b o2 c))
  = Some (if is_add_op t1 && is_mul_op t2
          then AST_BINOP t1 va (AST_BINOP t2 vb vc)
          else AST_BINOP t2 (AST_BINOP t1 va vb) vc).
Proof.
  intros O1 O2 K1 K2.
  destruct (lex_three_operands n a b c o1 o2 t1 t2 La Lb Lc O1 O2 Ha Hb Hc Hlen)
    as (c0 & c1 & c2 & c3 & c4 & c5 & N & [T0 V0] & N0 & T1 & N1 & [T2 V2] & N2 & T3
        & N3 & [T4 V4] & N4 & T5).
  unfold parse_expr_of. rewrite (bind_of_Done _ _ _ _ _ N), parse_expr_unfold.
  unfold va, vb, vc. rewrite <- V0, <- V2, <- V4.
  rewrite (arithmetic_to_assignment n _ c0 c5 T5
             (if is_add_op t1 && is_mul_op t2
              then AST_BINOP t1 (AST_NUM (num (cur c0)))
                             (AST_BINOP t2 (AST_NUM (num (cur c2))) (AST_NUM (num (cur c4))))
              else AST_BINOP t2 (AST_BINOP t1 (AST_NUM (num (cur c0)))
                                           (AST_NUM (num (cur c2))))
                             (AST_NUM (num (cur c4))))); [reflexivity|].
  destruct K1 as [A1|M1].
  - assert (M1 : is_mul_op t1 = false) by (destruct t1; try discriminate A1; reflexivity).
    destruct K2 as [A2|M2].
    + assert (M2 : is_mul_op t2 = false) by (destruct t2; try discriminate A2; reflexivity).
      rewrite A1, M2. cbn [andb].
      exact (tree_add_then_add n _ c0 c1 c2 c3 c4 c5 t1 t2
               T0 N0 T1 N1 T2 N2 T3 N3 T4 N4 T5 A1 A2).
    + rewrite A1, M2. cbn [andb].
      exact (tree_add_then_mul n _ c0 c1 c2 c3 c4 c5 t1 t2
               T0 N0 T1 N1 T2 N2 T3 N3 T4 N4 T5 A1 M2).
  - assert (A1 : is_add_op t1 = false) by (destruct t1; try discriminate M1; reflexivity).
    rewrite A1. cbn [andb].
    exact (tree_mul_first n _ c0 c1 c2 c3 c4 c5 t1 t2
             T0 N0 T1 N1 T2 N2 T3 N3 T4 N4 T5 M1
             ltac:(destruct K2; [right | left]; assumption)).
Qed.

Lemma parse_assign_chain :
  result_value (parse_expr_of (S (S (S n))) (three_operands a "=" b "=" c))
  = Some (AST_ASSIGN va (AST_ASSIGN vb vc OP_PLAIN) OP_PLAIN).
Proof.
  destruct (lex_three_operands n a b c "=" "=" TOK_ASSIGN TOK_ASSIGN
              La Lb Lc eq_refl eq_refl Ha Hb Hc Hlen)
    as (c0 & c1 & c2 & c3 & c4 & c5 & N & [T0 V0] & N0 & T1 & N1 & [T2 V2] & N2 & T3
        & N3 & [T4 V4] & N4 & T5).
  unfold parse_expr_of. rewrite (bind_of_Done _ _ _ _ _ N), parse_expr_unfold.
  unfold va, vb, vc. rewrite <- V0, <- V2, <- V4.
  rewrite (tree_assign_assign n _ c0 c1 c2 c3 c4 c5 TOK_ASSIGN TOK_ASSIGN
             T0 N0 T1 N1 T2 N2 T3 N3 T4 N4 T5 eq_refl eq_refl).
  reflexivity.
Qed.

End Trees.

(** C4.  For all integer literals [a], [b], [c] (nonempty digit strings;
    the value of a literal is what the lexer accumulates for it), the
    parser builds [a + b * c] as [a + (b * c)] and [a = b = c] as
    [a = (b = c)]; a product on the left is complete before a following
    [+] is taken ([a * b + c] is [(a * b) + c]), and within a level the
    tree grows to the left ([a + b - c] is [(a + b) - c], [a * b % c] is
    [(a * b) % c]).  The fuel must cover the longest literal, and the source
    must be shorter than [INT_MAX] bytes. *)
Theorem C4_precedence_and_associativity :
  forall (fuel : nat) (a b c : list ascii),
    is_literal a -> is_literal b -> is_literal c ->
    (List.length a + 3 <= fuel)%nat ->
    (List.length b + 3 <= fuel)%nat ->
    (List.length c + 3 <= fuel)%nat ->
    Z.of_nat (List.length a + List.length b + List.length c) + 6 < Int.max_signed ->
    let va := AST_NUM (literal_value 0 a) in
    let vb := AST_NUM (literal_value 0 b) in
    let vc := AST_NUM (literal_value 0 c) in
    result_value (parse_expr_of fuel (three_operands a "+" b "*" c))
    = Some (AST_BINOP TOK_PLUS va (AST_BINOP TOK_STAR vb vc))
    /\ result_value (parse_expr_of fuel (three_operands a "=" b "=" c))
       = Some (AST_ASSIGN va (AST_ASSIGN vb vc OP_PLAIN) OP_PLAIN)
    /\ result_value (parse_expr_of fuel (three_operands a "*" b "+" c))
       = Some (AST_BINOP TOK_PLUS (AST_BINOP TOK_STAR va vb) vc)
    /\ result_value (parse_expr_of fuel (three_operands a "+" b "-" c))
       = Some (AST_BINOP TOK_MINUS (AST_BINOP TOK_PLUS va vb) vc)
    /\ result_value (parse_expr_of fuel (three_operands a "*" b "%" c))
       = Some (AST_BINOP TOK_PERCENT (AST_BINOP TOK_STAR va vb) vc).
Proof.
  intros fuel a b c La Lb Lc Ha Hb Hc Hlen va vb vc.
  destruct fuel as [|[|[|n]]]; try lia.
  assert (Ha' : (List.length a <= n)%nat) by lia.
  assert (Hb' : (List.length b <= n)%nat) by lia.
  assert (Hc' : (List.length c <= n)%nat) by lia.
  split.
  { exact (parse_arithmetic n a b c La Lb Lc Ha' Hb' Hc' Hlen "+" "*" TOK_PLUS TOK_STAR
             eq_refl eq_refl (or_introl eq_refl) (or_intror eq_refl)). }
  split.
  { exact (parse_assign_chain n a b c La Lb Lc Ha' Hb' Hc' Hlen). }
  split.
  { exact (parse_arithmetic n a b c La Lb Lc Ha' Hb' Hc' Hlen "*" "+" TOK_STAR TOK_PLUS
             eq_refl eq_refl (or_intror eq_refl) (or_introl eq_refl)). }
  split.
  { exact (parse_arithmetic n a b c La Lb Lc Ha' Hb' Hc' Hlen "+" "-" TOK_PLUS TOK_MINUS
             eq_refl eq_refl (or_introl eq_refl) (or_introl eq_refl)). }
  { exact (parse_arithmetic n a b c La Lb Lc Ha' Hb' Hc' Hlen "*" "%" TOK_STAR TOK_PERCENT
             eq_refl eq_refl (or_intror eq_refl) (or_intror eq_refl)). }
Qed.

Lemma literal_12 : is_literal ["1"%char; "2"%char].
Proof. split; [discriminate | repeat constructor]. Qed.

Lemma literal_3 : is_literal ["3"%char].
Proof. split; [discriminate | repeat constructor]. Qed.

Lemma literal_40 : is_literal ["4"%char; "0"%char].
Proof. split; [discriminate | repeat constructor]. Qed.

Lemma C4_precedence_and_associativity_witness :
  result_value (parse_expr_of 8 (list_of_string "12 + 3 * 40"))
  = Some (AST_BINOP TOK_PLUS (AST_NUM 12) (AST_BINOP TOK_STAR (AST_NUM 3) (AST_NUM 40)))
  /\ result_value (parse_expr_of 8 (list_of_string "12 = 3 = 40"))
     = Some (AST_ASSIGN (AST_NUM 12) (AST_ASSIGN (AST_NUM 3) (AST_NUM 40) 0) 0).
Proof.
  assert (H1 : (List.length ["1"%char; "2"%char] + 3 <= 8)%nat) by (simpl; lia).
  assert (H2 : (List.length ["3"%char] + 3 <= 8)%nat) by (simpl; lia).
  assert (H3 : (List.length ["4"%char; "0"%char] + 3 <= 8)%nat) by (simpl; lia).
  assert (H4 : Z.of_nat (List.length ["1"%char; "2"%char] + List.length ["3"%char]
                         + List.length ["4"%char; "0"%char]) + 6 < Int.max_signed)
    by (unfold Int.max_signed; simpl; lia).
  destruct (C4_precedence_and_associativity 8 _ _ _ literal_12 literal_3 literal_40
              H1 H2 H3 H4) as [A [B _]].
  split; [exact A | exact B].
Defined.

(** ** C7: what the parser accepts on the left of an assignment *)

Lemma returns_ret {A} (a : A) (Q : A -> Prop) : Q a -> returns (ret a) Q.
Proof. intros H c a' c' E. injection E as <- _. exact H. Qed.

Lemma returns_error {A} (f : string) (l : list fmt_arg) (Q : A -> Prop) :
  returns (error f l) Q.
Proof. intros c a c' E. discriminate E. Qed.

Lemma returns_fault {A} (f : fault) (Q : A -> Prop) : returns (raise_fault f) Q.
Proof. intros c a c' E. discriminate E. Qed.

Lemma returns_timeout {A} (Q : A -> Prop) : returns (@timeout A) Q.
Proof. intros c a c' E. discriminate E. Qed.

Lemma returns_bind {A B} (m : M A) (k : A -> M B) (P : A -> Prop) (Q : B -> Prop) :
  returns m P -> (forall a, P a -> returns (k a) Q) -> returns (bind m k) Q.
Proof.
  intros Hm Hk c b c' E. apply bind_Done in E. destruct E as (a & c1 & E1 & E2).
  exact (Hk a (Hm _ _ _ E1) _ _ _ E2).
Qed.

Lemma returns_bind_any {A B} (m : M A) (k : A -> M B) (Q : B -> Prop) :
  (forall a, returns (k a) Q) -> returns (bind m k) Q.
Proof.
  intros Hk. apply (returns_bind m k (fun _ => True)); [intros c a c' _; exact I|].
  intros a _. apply Hk.
Qed.

Lemma good_expr_tree (a : AST) : good_expr a -> good_tree a.
Proof. intros [_ H]. exact H. Qed.

Lemma forallb_snoc {A} (f : A -> bool) (l : list A) (x : A) :
  forallb f l = true -> f x = true -> forallb f (l ++ [x]) = true.
Proof. intros Hl Hx. rewrite forallb_app, Hl. simpl. rewrite Hx. reflexivity. Qed.

(** One syntax-directed step: a [ret] closes the branch, a failure is
    vacuous, a bind asks the hint base for what its first half returns and
    falls back to ignoring it, a conditional is split. *)
Create HintDb parse discriminated.

Ltac parse_step :=
  match goal with
  | |- returns (let _ := _ in _) _ => cbv zeta
  | |- returns (ret _) _ => apply returns_ret
  | |- returns (error _ _) _ => apply returns_error
  | |- returns (raise_fault _) _ => apply returns_fault
  | |- returns timeout _ => apply returns_timeout
  | |- returns (bind _ _) _ =>
      first [ eapply returns_bind; [solve [eauto with parse] | intros ? ?]
            | apply returns_bind_any; intros ? ]
  | |- returns (if ?b then _ else _) _ => destruct b eqn:?
  | |- returns (match ?x with _ => _ end) _ => destruct x eqn:?
  | |- returns _ _ => solve [eauto with parse]
  end.

Ltac good_node :=
  repeat progress (unfold good_expr, good_tree, good_opt, good_opt_tree, good_list in *;
                   cbn in *);
  repeat match goal with
         | H : _ /\ _ |- _ => destruct H
         end;
  repeat match goal with
         | H : _ = true |- _ => rewrite H
         end;
  repeat split; auto.

Section GoodLevels.

Variable fuel : nat.
Variable pe : M AST.
Hypothesis Hpe : returns pe good_expr.

Hint Resolve Hpe : parse.

Lemma call_args_loop_good (n : nat) :
  forall args, forallb (all_assign_targets is_expr_node) args = true ->
               returns (call_args_loop fuel pe n args)
                       (fun l => forallb (all_assign_targets is_expr_node) l = true).
Proof.
  induction n as [|n IH]; intros args Hargs; cbn [call_args_loop].
  - apply returns_timeout.
  - repeat parse_step; try assumption.
    all: apply IH; apply forallb_snoc; [assumption | good_node].
Qed.

Hint Resolve call_args_loop_good : parse.

Lemma parse_primary_good : returns (parse_primary fuel pe) good_expr.
Proof.
  unfold parse_primary.
  repeat parse_step; good_node.
Qed.

Hint Resolve parse_primary_good : parse.

Lemma parse_unary_good (n : nat) : returns (parse_unary fuel pe n) good_expr.
Proof.
  induction n as [|n IH]; cbn [parse_unary].
  - apply returns_timeout.
  - repeat parse_step; try (good_node; fail); auto with parse.
Qed.

Hint Resolve parse_unary_good : parse.

Lemma multiplicative_loop_good (n : nat) :
  forall e, good_expr e -> returns (multiplicative_loop fuel pe n e) good_expr.
Proof.
  induction n as [|n IH]; intros e He; cbn [multiplicative_loop].
  - apply returns_timeout.
  - repeat parse_step; try assumption. apply IH. good_node.
Qed.

Lemma parse_multiplicative_good : returns (parse_multiplicative fuel pe) good_expr.
Proof.
  unfold parse_multiplicative. eapply returns_bind; [apply parse_unary_good|].
  intros e He. apply multiplicative_loop_good. exact He.
Qed.

Hint Resolve parse_multiplicative_good : parse.

Lemma additive_loop_good (n : nat) :
  forall e, good_expr e -> returns (additive_loop fuel pe n e) good_expr.
Proof.
  induction n as [|n IH]; intros e He; cbn [additive_loop].
  - apply returns_timeout.
  - repeat parse_step; try assumption. apply IH. good_node.
Qed.

Lemma parse_additive_good : returns (parse_additive fuel pe) good_expr.
Proof.
  unfold parse_additive. eapply returns_bind; [apply parse_multiplicative_good|].
  intros e He. apply additive_loop_good. exact He.
Qed.

Hint Resolve parse_additive_good : parse.

Lemma relational_loop_good (n : nat) :
  forall e, good_expr e -> returns (relational_loop fuel pe n e) good_expr.
Proof.
  induction n as [|n IH]; intros e He; cbn [relational_loop].
  - apply returns_timeout.
  - repeat parse_step; try assumption. apply IH. good_node.
Qed.

Lemma parse_relational_good : returns (parse_relational fuel pe) good_expr.
Proof.
  unfold parse_relational. eapply returns_bind; [apply parse_additive_good|].
  intros e He. apply relational_loop_good. exact He.
Qed.

Hint Resolve parse_relational_good : parse.

Lemma equality_loop_good (n : nat) :
  forall e, good_expr e -> returns (equality_loop fuel pe n e) good_expr.
Proof.
  induction n as [|n IH]; intros e He; cbn [equality_loop].
  - apply returns_timeout.
  - repeat parse_step; try assumption. apply IH. good_node.
Qed.

Lemma parse_equality_good : returns (parse_equality fuel pe) good_expr.
Proof.
  unfold parse_equality. eapply returns_bind; [apply parse_relational_good|].
  intros e He. apply equality_loop_good. exact He.
Qed.

Hint Resolve parse_equality_good : parse.

Lemma logical_and_loop_good (n : nat) :
  forall e, good_expr e -> returns (logical_and_loop fuel pe n e) good_expr.
Proof.
  induction n as [|n IH]; intros e He; cbn [logical_and_loop].
  - apply returns_timeout.
  - repeat parse_step; try assumption. apply IH. good_node.
Qed.

Lemma parse_logical_and_good : returns (parse_logical_and fuel pe) good_expr.
Proof.
  unfold parse_logical_and. eapply returns_bind; [apply parse_equality_good|].
  intros e He. apply logical_and_loop_good. exact He.
Qed.

Hint Resolve parse_logical_and_good : parse.

Lemma logical_or_loop_good (n : nat) :
  forall e, good_expr e -> returns (logical_or_loop fuel pe n e) good_expr.
Proof.
  induction n as [|n IH]; intros e He; cbn [logical_or_loop].
  - apply returns_timeout.
  - repeat parse_step; try assumption. apply IH. good_node.
Qed.

Lemma parse_logical_or_good : returns (parse_logical_or fuel pe) good_expr.
Proof.
  unfold parse_logical_or. eapply returns_bind; [apply parse_logical_and_good|].
  intros e He. apply logical_or_loop_good. exact He.
Qed.

Hint Resolve parse_logical_or_good : parse.

(** The target of [=], [+=] and [-=] is whatever the logical-or level
    returned: an expression, with no test that it is an l-value. *)
Lemma parse_assignment_good (n : nat) : returns (parse_assignment fuel pe n) good_expr.
Proof.
  induction n as [|n IH]; cbn [parse_assignment].
  - apply returns_timeout.
  - eapply returns_bind; [apply parse_logical_or_good|].
    intros l Hl. repeat parse_step; try assumption; good_node.
Qed.

End GoodLevels.

Lemma parse_expr_depth_good (fuel d : nat) : returns (parse_expr_depth fuel d) good_expr.
Proof.
  induction d as [|d IH]; cbn [parse_expr_depth].
  - apply returns_timeout.
  - apply parse_assignment_good. exact IH.
Qed.

Lemma parse_expr_good (fuel : nat) : returns (parse_expr fuel) good_expr.
Proof. apply parse_expr_depth_good. Qed.

#[local] Hint Resolve parse_expr_good : parse.

Lemma parse_initializer_good (fuel : nat) : returns (parse_initializer fuel) good_opt.
Proof. unfold parse_initializer. repeat parse_step; good_node. Qed.

#[local] Hint Resolve parse_initializer_good : parse.

Lemma optional_expr_good (fuel : nat) (b : bool) :
  returns (if b then e <- parse_expr fuel ;; ret (Some e) else ret None) good_opt.
Proof. repeat parse_step; good_node. Qed.

#[local] Hint Resolve optional_expr_good : parse.

Lemma for_init_good (fuel : nat) (t1 : TokenType) :
  returns (if tok_eqb t1 TOK_INT then
             next_token fuel ;;
             c <- get ;;
             let name := str (cur c) in
             expect fuel TOK_IDENT ;;
             i <- parse_initializer fuel ;;
             ret (Some (AST_VARDECL name i false 0))
           else if negb (tok_eqb t1 TOK_SEMI) then
             e <- parse_expr fuel ;; ret (Some e)
           else ret None) good_opt_tree.
Proof.
  repeat parse_step;
    repeat match goal with
           | o : option AST |- _ => destruct o
           end; unfold good_opt_tree; good_node.
Qed.

#[local] Hint Resolve for_init_good : parse.

Section GoodStatements.

Variable fuel : nat.
Variable ps : M AST.
Hypothesis Hps : returns ps good_tree.

Hint Resolve Hps : parse.

Lemma block_loop_good (n : nat) :
  forall stmts, good_list stmts -> returns (block_loop ps n stmts) good_list.
Proof.
  induction n as [|n IH]; intros stmts Hs; cbn [block_loop].
  - apply returns_timeout.
  - repeat parse_step; try assumption.
    all: apply IH; apply forallb_snoc; assumption.
Qed.

Lemma parse_block_good : returns (parse_block fuel ps) good_tree.
Proof.
  unfold parse_block. apply returns_bind_any. intros _.
  eapply returns_bind; [apply (block_loop_good fuel []); reflexivity|].
  intros stmts Hs. repeat parse_step. exact Hs.
Qed.

Hint Resolve parse_block_good : parse.

Lemma parse_stmt_body_good : returns (parse_stmt_body fuel ps) good_tree.
Proof.
  unfold parse_stmt_body.
  repeat parse_step;
    repeat match goal with
           | o : option AST |- _ => destruct o
           end; unfold good_opt_tree in *; good_node.
Qed.

End GoodStatements.

Lemma parse_stmt_depth_good (fuel d : nat) : returns (parse_stmt_depth fuel d) good_tree.
Proof.
  induction d as [|d IH]; cbn [parse_stmt_depth].
  - apply returns_timeout.
  - apply parse_stmt_body_good. exact IH.
Qed.

Lemma parse_stmt_good (fuel : nat) : returns (parse_stmt fuel) good_tree.
Proof. apply parse_stmt_depth_good. Qed.

Lemma program_loop_good (fuel n : nat) :
  forall funcs globals,
    good_list funcs -> good_list globals ->
    returns (program_loop fuel n funcs globals) good_tree.
Proof.
  induction n as [|n IH]; intros funcs globals Hf Hg; cbn [program_loop].
  - apply returns_timeout.
  - pose proof (parse_block_good fuel (parse_stmt fuel) (parse_stmt_good fuel)) as Hb.
    repeat parse_step;
      repeat match goal with
             | o : option AST |- _ => destruct o
             end;
      try (apply IH; try assumption; apply forallb_snoc; try assumption);
      good_node.
Qed.

Lemma parse_only_good (fuel : nat) (source : string) (prog : AST) (c : Compiler) :
  parse_only fuel source = Done prog c -> good_tree prog.
Proof.
  unfold parse_only. intros H. apply bind_Done in H. destruct H as (_ & c1 & _ & H).
  exact (program_loop_good fuel fuel [] [] eq_refl eq_refl _ _ _ H).
Qed.

(** The generators store only into a variable or an array element: for any
    other target the assignment node yields the code of its right-hand side
    and nothing else. *)
Lemma assign_to_non_lvalue_arm64 (d : nat) (l r : AST) (op : Z) (c : Compiler) :
  is_lvalue l = false ->
  Arm64.gen_expr_arm64 (S d) (AST_ASSIGN l r op) c
  = (Arm64.gen_expr_arm64 d r ;; ret tt) c.
Proof. intros H. destruct l; try discriminate H; reflexivity. Qed.

Lemma assign_to_non_lvalue_x64 (d : nat) (l r : AST) (op : Z) (c : Compiler) :
  is_lvalue l = false ->
  X64.gen_expr_x64 (S d) (AST_ASSIGN l r op) c
  = (X64.gen_expr_x64 d r ;; ret tt) c.
Proof. intros H. destruct l; try discriminate H; reflexivity. Qed.

(** C7 (as amended).  For every program accepted by the parser, the left
    child of every assignment node is an expression node, of any of the
    nine expression forms and not only a variable reference or an array
    access: the parser takes whatever the logical-or level returned as the
    target of [=], [+=] and [-=] and makes no l-value test.  The generators
    store only into a variable or an array element; for any other target
    they emit the code of the right-hand side and no store. *)
Theorem C7_assignment_targets_are_expressions :
  (forall (fuel : nat) (source : string) (prog : AST) (c : Compiler),
      parse_only fuel source = Done prog c ->
      all_assign_targets is_expr_node prog = true)
  /\ (forall (d : nat) (l r : AST) (op : Z) (c : Compiler),
         is_lvalue l = false ->
         Arm64.gen_expr_arm64 (S d) (AST_ASSIGN l r op) c
         = (Arm64.gen_expr_arm64 d r ;; ret tt) c
         /\ X64.gen_expr_x64 (S d) (AST_ASSIGN l r op) c
            = (X64.gen_expr_x64 d r ;; ret tt) c).
Proof.
  split.
  - intros fuel source prog c H. exact (parse_only_good fuel source prog c H).
  - intros d l r op c H. split.
    + apply assign_to_non_lvalue_arm64. exact H.
    + apply assign_to_non_lvalue_x64. exact H.
Qed.

Lemma C7_assignment_targets_are_expressions_witness :
  option_map (all_assign_targets is_expr_node)
             (result_value (parse_only 40 src_assign_to_literal)) = Some true
  /\ Arm64.gen_expr_arm64 2 (AST_ASSIGN (AST_NUM 2) (AST_NUM 7) 0)
                          (init_compiler EmptyString true false)
     = (Arm64.gen_expr_arm64 1 (AST_NUM 7) ;; ret tt) (init_compiler EmptyString true false).
Proof.
  destruct C7_assignment_targets_are_expressions as [A B].
  split.
  - destruct (parse_only 40 src_assign_to_literal) as [prog c| | |] eqn:E;
      [ | vm_compute in E; discriminate E ..].
    simpl. rewrite (A _ _ _ _ E). reflexivity.
  - exact (proj1 (B 1%nat (AST_NUM 2) (AST_NUM 7) 0 (init_compiler EmptyString true false)
                    eq_refl)).
Defined.

(** C7, the claim as stated, fails for [int main() { int x; x = 1; 2 = x; }]:
    the program is accepted by the parser, and by both code generators, and
    its last statement is an assignment node whose left child is the number
    literal 2. *)
Lemma C7_literal_as_assignment_target :
  option_map first_body (result_value (parse_only 40 src_assign_to_literal))
  = Some (Some (AST_BLOCK [AST_VARDECL "x" None false 0;
                           AST_ASSIGN (AST_VAR "x") (AST_NUM 1) 0;
                           AST_ASSIGN (AST_NUM 2) (AST_VAR "x") 0]))
  /\ option_map (all_assign_targets is_lvalue)
                (result_value (parse_only 40 src_assign_to_literal)) = Some false
  /\ is_done (compile 40 src_assign_to_literal true false) = true
  /\ is_done (compile 40 src_assign_to_literal false false) = true.
Proof. repeat split; vm_compute; reflexivity. Qed.

(** ** Specifications of monadic code *)

Lemma triple_ret {A} (P : Compiler -> Prop) (a : A) (Q : A -> Compiler -> Prop) E :
  (forall c, P c -> Q a c) -> triple P (ret a) Q E.
Proof. intros H c Hc. apply H. exact Hc. Qed.

Lemma triple_bind {A B} (P : Compiler -> Prop) (m : M A) (k : A -> M B)
      (R : A -> Compiler -> Prop) (Q : B -> Compiler -> Prop) E :
  triple P m R E -> (forall a, triple (R a) (k a) Q E) -> triple P (bind m k) Q E.
Proof.
  intros Hm Hk c Hc. specialize (Hm c Hc). unfold bind.
  destruct (m c) as [a c1| | |]; try exact Hm. apply Hk. exact Hm.
Qed.

Lemma triple_modify (P : Compiler -> Prop) (f : Compiler -> Compiler)
      (Q : unit -> Compiler -> Prop) E :
  (forall c, P c -> Q tt (f c)) -> triple P (modify f) Q E.
Proof. intros H c Hc. apply H. exact Hc. Qed.

Lemma triple_get (P : Compiler -> Prop) (Q : Compiler -> Compiler -> Prop) E :
  (forall c, P c -> Q c c) -> triple P get Q E.
Proof. intros H c Hc. apply H. exact Hc. Qed.

Lemma triple_error {A} (P : Compiler -> Prop) f l (Q : A -> Compiler -> Prop)
      (E : Compiler -> Prop) :
  (forall c, P c -> E c) -> triple P (error f l) Q E.
Proof. intros H c Hc. apply H. exact Hc. Qed.

Lemma triple_fault {A} (P : Compiler -> Prop) f (Q : A -> Compiler -> Prop)
      (E : Compiler -> Prop) :
  (forall c, P c -> E c) -> triple P (raise_fault f) Q E.
Proof. intros H c Hc. apply H. exact Hc. Qed.

Lemma triple_timeout {A} (P : Compiler -> Prop) (Q : A -> Compiler -> Prop) E :
  triple P (@timeout A) Q E.
Proof. intros c Hc. exact I. Qed.

Lemma triple_post {A} (P : Compiler -> Prop) (m : M A)
      (Q Q' : A -> Compiler -> Prop) E :
  triple P m Q E -> (forall a c, Q a c -> Q' a c) -> triple P m Q' E.
Proof.
  intros H HQ c Hc. specialize (H c Hc).
  destruct (m c); auto.
Qed.

Lemma triple_pre {A} (P P' : Compiler -> Prop) (m : M A)
      (Q : A -> Compiler -> Prop) E :
  triple P m Q E -> (forall c, P' c -> P c) -> triple P' m Q E.
Proof. intros H HP c Hc. apply H. apply HP. exact Hc. Qed.

(** ** C10: label numbers *)

Lemma labels_of_app (l1 l2 : list line) :
  labels_of (l1 ++ l2) = (labels_of l1 ++ labels_of l2)%list.
Proof. unfold labels_of. apply flat_map_app. Qed.

Lemma labels_of_snoc (l : list line) (x : line) :
  labels_of (l ++ [x]) = (labels_of l ++ label_of x)%list.
Proof. rewrite labels_of_app. unfold labels_of at 2. cbn. rewrite app_nil_r. reflexivity. Qed.

Lemma label_of_plain (f : string) (a : list fmt_arg) :
  String.eqb f "L%d:" = false -> label_of (mkLine f a) = [].
Proof. intros H. unfold label_of. cbn [fmt]. rewrite H. reflexivity. Qed.

Lemma label_inv_distinct (P : list Z) (b : Z) (c : Compiler) :
  label_inv P b c -> distinct_labels c.
Proof.
  intros (H & _). unfold distinct_labels.
  apply NoDup_app_remove_l in H. exact H.
Qed.

Lemma label_inv_weaken (P : list Z) (b b' : Z) (c : Compiler) :
  label_inv P b c -> b <= b' -> b' <= Int.max_signed -> label_inv P b' c.
Proof.
  intros (H1 & H2 & H3 & H4) Hb Hm.
  split; [exact H1|]. split; [exact H2|]. split; lia.
Qed.

(** A line that is not a label definition. *)
Lemma label_inv_plain (P : list Z) (b : Z) (c : Compiler) (f : string) (a : list fmt_arg) :
  String.eqb f "L%d:" = false ->
  label_inv P b c -> label_inv P b (set_out (out c ++ [mkLine f a]) c).
Proof.
  intros Hf (H1 & H2 & H3 & H4). unfold label_inv. cbn [out label_count set_out].
  rewrite labels_of_snoc, (label_of_plain f a Hf), app_nil_r.
  exact (conj H1 (conj H2 (conj H3 H4))).
Qed.

(** The definition of a pending label. *)
Lemma label_inv_define (P1 P2 : list Z) (n b : Z) (c : Compiler) :
  label_inv (P1 ++ n :: P2) b c ->
  label_inv (P1 ++ P2) b (set_out (out c ++ [mkLine "L%d:" [FInt n]]) c).
Proof.
  intros (H1 & H2 & H3 & H4). unfold label_inv. cbn [out label_count set_out].
  rewrite labels_of_snoc. change (label_of (mkLine "L%d:" [FInt n])) with [n].
  assert (Perm : Permutation
                   ((P1 ++ n :: P2) ++ labels_of (out c))
                   ((P1 ++ P2) ++ labels_of (out c) ++ [n])).
  { rewrite <- !app_assoc. apply Permutation_app_head.
    cbn [app]. rewrite (app_assoc P2).
    apply Permutation_cons_append. }
  split; [exact (Permutation_NoDup Perm H1)|].
  split; [exact (Permutation_Forall Perm H2)|].
  exact (conj H3 H4).
Qed.

(** Drawing a label. *)
Lemma label_inv_new (P : list Z) (b : Z) (c : Compiler) :
  b + 1 <= Int.max_signed ->
  label_inv P b c ->
  label_inv (label_count c :: P) (b + 1)
            (set_label_count (Int.add (label_count c) 1) c).
Proof.
  intros Hb (H1 & H2 & H3 & H4). unfold label_inv. cbn [out label_count set_label_count].
  unfold Int.add. rewrite wrap_small by lia.
  split; [|split; [|split; lia]].
  - cbn [app]. constructor; [|exact H1].
    intros Hin. rewrite Forall_forall in H2. specialize (H2 _ Hin). lia.
  - cbn [app]. constructor; [lia|].
    eapply Forall_impl; [|exact H2]. cbn. intros x Hx. lia.
Qed.

Lemma sum_nonneg (f : AST -> Z) (l : list AST) :
  Forall (fun a => 0 <= f a) l -> 0 <= fold_right Z.add 0 (map f l).
Proof. induction 1; cbn; lia. Qed.

Lemma labels_needed_nonneg (a : AST) : 0 <= labels_needed a.
Proof.
  induction a using AST_induction; cbn [labels_needed];
    repeat match goal with
           | H : P_opt _ ?o |- _ => destruct o; cbn [P_opt] in H
           | H : Forall _ _ |- _ => apply (sum_nonneg labels_needed) in H
           | |- context [if ?b then _ else _] => destruct b
           end; lia.
Qed.

(** *** The primitives of the generators under the label invariant *)

Create HintDb labels discriminated.

Section LabelPrimitives.

Variables (P : list Z) (b : Z).

Lemma emit_plain_ok (f : string) (a : list fmt_arg) :
  String.eqb f "L%d:" = false ->
  triple (label_inv P b) (emit f a) (fun _ => label_inv P b) distinct_labels.
Proof. intros Hf. apply triple_modify. intros c Hc. apply label_inv_plain; assumption. Qed.

Lemma emit_define_head (n : Z) :
  triple (label_inv (n :: P) b) (emit "L%d:" [FInt n]) (fun _ => label_inv P b)
         distinct_labels.
Proof. apply triple_modify. intros c Hc. exact (label_inv_define [] P n b c Hc). Qed.

Lemma emit_define_second (m n : Z) :
  triple (label_inv (m :: n :: P) b) (emit "L%d:" [FInt n]) (fun _ => label_inv (m :: P) b)
         distinct_labels.
Proof. apply triple_modify. intros c Hc. exact (label_inv_define [m] P n b c Hc). Qed.

Lemma new_label_ok :
  b + 1 <= Int.max_signed ->
  triple (label_inv P b) new_label (fun n => label_inv (n :: P) (b + 1)) distinct_labels.
Proof. intros Hb c Hc. cbn. apply label_inv_new; assumption. Qed.

Lemma error_ok {A} (f : string) (l : list fmt_arg) (Q : A -> Compiler -> Prop) :
  triple (label_inv P b) (error f l) Q distinct_labels.
Proof. apply triple_error. intros c Hc. exact (label_inv_distinct _ _ _ Hc). Qed.

Lemma fault_ok {A} (f : fault) (Q : A -> Compiler -> Prop) :
  triple (label_inv P b) (raise_fault f) Q distinct_labels.
Proof. apply triple_fault. intros c Hc. exact (label_inv_distinct _ _ _ Hc). Qed.

Lemma ret_ok {A} (a : A) :
  triple (label_inv P b) (ret a) (fun _ => label_inv P b) distinct_labels.
Proof. apply triple_ret. auto. Qed.

Lemma get_ok :
  triple (label_inv P b) get (fun _ => label_inv P b) distinct_labels.
Proof. apply triple_get. auto. Qed.

Lemma find_symbol_ok (name : string) :
  triple (label_inv P b) (find_symbol name) (fun _ => label_inv P b) distinct_labels.
Proof. intros c Hc. exact Hc. Qed.

Lemma sym_prefix_ok :
  triple (label_inv P b) sym_prefix (fun _ => label_inv P b) distinct_labels.
Proof. intros c Hc. exact Hc. Qed.

Lemma add_string_ok (s : string) :
  triple (label_inv P b) (add_string s) (fun _ => label_inv P b) distinct_labels.
Proof.
  intros c Hc. unfold add_string. rewrite bind_get.
  destruct (256 <=? nstrings c); [exact (label_inv_distinct _ _ _ Hc) | exact Hc].
Qed.

Lemma add_symbol_ok (name : string) (g p : bool) (i : Z) :
  triple (label_inv P b) (add_symbol name g p i) (fun _ => label_inv P b) distinct_labels.
Proof.
  intros c Hc. unfold add_symbol. rewrite bind_get.
  destruct (256 <=? nsymbols c); [exact (label_inv_distinct _ _ _ Hc)|].
  destruct (negb g && negb p); exact Hc.
Qed.

Lemma update_last_symbol_ok (f : Symbol -> Symbol) :
  triple (label_inv P b) (update_last_symbol f) (fun _ => label_inv P b) distinct_labels.
Proof.
  intros c Hc. unfold update_last_symbol, modify.
  destruct (rev (symbols c)); exact Hc.
Qed.

Lemma declare_local_ok (name : string) (is_array : bool) (size : Z) :
  triple (label_inv P b) (declare_local name is_array size) (fun _ => label_inv P b)
         distinct_labels.
Proof.
  unfold declare_local. eapply triple_bind; [apply add_symbol_ok|]. intros sym.
  destruct is_array; [|apply ret_ok].
  intros c Hc. rewrite bind_get, bind_modify.
  pose proof (update_last_symbol_ok
                (fun s => with_offset
                            (Int.add (stack_offset c) (Int.mul (Int.sub size 1) 4))
                            (mark_array size s))
                (set_stack_offset (Int.add (stack_offset c) (Int.mul (Int.sub size 1) 4)) c)
                Hc) as H.
  unfold bind.
  destruct (update_last_symbol _ _) as [[] c1| | |]; exact H.
Qed.

Lemma declare_global_ok (g : AST) :
  triple (label_inv P b) (declare_global g) (fun _ => label_inv P b) distinct_labels.
Proof.
  destruct g; try apply fault_ok. cbn [declare_global].
  eapply triple_bind; [apply add_symbol_ok|]. intros ?.
  destruct is_array; cbn [when]; [apply update_last_symbol_ok | apply ret_ok].
Qed.

Lemma modify_frame_ok (f : Compiler -> Compiler) :
  (forall c, out (f c) = out c /\ label_count (f c) = label_count c) ->
  triple (label_inv P b) (modify f) (fun _ => label_inv P b) distinct_labels.
Proof.
  intros Hf. apply triple_modify. intros c Hc. destruct (Hf c) as [Ho Hl].
  unfold label_inv in *. rewrite Ho, Hl. exact Hc.
Qed.

End LabelPrimitives.

#[local] Hint Resolve emit_plain_ok emit_define_head emit_define_second new_label_ok
  error_ok fault_ok ret_ok get_ok find_symbol_ok sym_prefix_ok add_string_ok
  add_symbol_ok update_last_symbol_ok declare_local_ok declare_global_ok : labels.
#[local] Hint Extern 0 (String.eqb _ _ = false) => reflexivity : labels.
#[local] Hint Extern 1 (_ <= _) => cbn [labels_needed] in *; lia : labels.

Lemma fault_bind_ok {A B} (P : list Z) (b : Z) (f : fault) (k : A -> M B)
      (Q : B -> Compiler -> Prop) :
  triple (label_inv P b) (bind (raise_fault f) k) Q distinct_labels.
Proof. intros c Hc. exact (label_inv_distinct _ _ _ Hc). Qed.

Lemma error_bind_ok {A B} (P : list Z) (b : Z) f l (k : A -> M B)
      (Q : B -> Compiler -> Prop) :
  triple (label_inv P b) (bind (error f l) k) Q distinct_labels.
Proof. intros c Hc. exact (label_inv_distinct _ _ _ Hc). Qed.

Lemma triple_assoc {A B C} (P : Compiler -> Prop) (m : M A) (k : A -> M B) (h : B -> M C)
      (Q : C -> Compiler -> Prop) E :
  triple P (bind m (fun a => bind (k a) h)) Q E -> triple P (bind (bind m k) h) Q E.
Proof. intros H c Hc. rewrite bind_assoc. apply H. exact Hc. Qed.

(** The final bound follows from any smaller one. *)
Lemma label_post (P : list Z) (b b' : Z) {A} (m : M A) (Pre : Compiler -> Prop) :
  b <= b' -> b' <= Int.max_signed ->
  triple Pre m (fun _ => label_inv P b) distinct_labels ->
  triple Pre m (fun _ => label_inv P b') distinct_labels.
Proof.
  intros Hb Hm H. eapply triple_post; [exact H|].
  intros a c Hc. exact (label_inv_weaken _ _ _ _ Hc Hb Hm).
Qed.

(** One step through generator code: conditionals are split, a bind takes
    the specification of its first half from the hint base, and the last
    command is closed by weakening the bound. *)
Ltac label_step :=
  match goal with
  | |- triple _ (bind (raise_fault _) _) _ _ => apply fault_bind_ok
  | |- triple _ (bind (error _ _) _) _ _ => apply error_bind_ok
  | |- triple _ (bind (bind _ _) _) _ _ => apply triple_assoc
  | |- triple _ (bind (if ?x then _ else _) _) _ _ => destruct x eqn:?
  | |- triple _ (bind (when ?x _) _) _ _ => unfold when at 1; destruct x eqn:?
  | |- triple _ (bind (opt_iter _ (Some _)) _) _ _ => cbn [opt_iter]; cbv beta
  | |- triple _ (bind (opt_iter _ None) _) _ _ => cbn [opt_iter]
  | |- triple _ (bind (opt_iter _ ?o) _) _ _ => destruct o; cbn [opt_iter]; cbv beta
  | |- triple _ (bind (match ?x with _ => _ end) _) _ _ => destruct x eqn:?
  | |- triple _ (bind _ _) _ _ =>
      eapply triple_bind; [solve [eauto 4 with labels] | intros ?; cbv beta]
  | |- triple _ (if ?x then _ else _) _ _ => destruct x eqn:?
  | |- triple _ (when ?x _) _ _ => unfold when at 1; destruct x eqn:?
  | |- triple _ (opt_iter _ (Some _)) _ _ => cbn [opt_iter]; cbv beta
  | |- triple _ (opt_iter _ None) _ _ => cbn [opt_iter]
  | |- triple _ (opt_iter _ ?o) _ _ => destruct o; cbn [opt_iter]; cbv beta
  | |- triple _ (match ?x with _ => _ end) _ _ => destruct x eqn:?
  | |- triple _ timeout _ _ => apply triple_timeout
  | |- triple _ (error _ _) _ _ => apply error_ok
  | |- triple _ (raise_fault _) _ _ => apply fault_ok
  | |- triple _ _ _ _ =>
      first [ solve [eauto 4 with labels]
            | eapply label_post; [| |solve [eauto 4 with labels]];
              [cbn [labels_needed] in *; lia | cbn [labels_needed] in *; lia] ]
  end.

Ltac needs_nonneg :=
  repeat match goal with
         | a : AST |- _ =>
             lazymatch goal with
             | H : 0 <= labels_needed a |- _ => fail
             | _ => pose proof (labels_needed_nonneg a)
             end
         end.

Lemma sum_snoc (l : list Z) (x : Z) :
  fold_right Z.add 0 (l ++ [x]) = fold_right Z.add 0 l + x.
Proof. induction l as [|y l IH]; cbn; lia. Qed.

Lemma needs_firstn_le (args : list AST) (k : nat) :
  fold_right Z.add 0 (map labels_needed (firstn k args))
  <= fold_right Z.add 0 (map labels_needed args).
Proof.
  revert k. induction args as [|a args IH]; intros [|k]; cbn; try lia.
  - pose proof (labels_needed_nonneg a).
    pose proof (sum_nonneg labels_needed args
                  (proj2 (Forall_forall _ _) (fun x _ => labels_needed_nonneg x))). lia.
  - specialize (IH k). lia.
Qed.

Section LabelLoops.

Variable gen : AST -> M unit.
Hypothesis gen_ok :
  forall node P b,
    b + labels_needed node <= Int.max_signed ->
    triple (label_inv P b) (gen node)
           (fun _ => label_inv P (b + labels_needed node)) distinct_labels.

Lemma push_loop_labels (push_fmt : string) (args : list AST) (k : nat) :
  String.eqb push_fmt "L%d:" = false ->
  forall P b,
    b + fold_right Z.add 0 (map labels_needed (firstn k args)) <= Int.max_signed ->
    triple (label_inv P b) (push_loop gen (emit push_fmt []) args k)
           (fun _ => label_inv P (b + fold_right Z.add 0 (map labels_needed (firstn k args))))
           distinct_labels.
Proof.
  intros Hf. induction k as [|i IH]; intros P b Hb.
  - cbn in *. eapply label_post; [| |apply ret_ok]; lia.
  - cbn [push_loop]. destruct (nth_error args i) as [a|] eqn:E.
    2:{ apply fault_bind_ok. }
    rewrite (firstn_succ_nth _ _ _ E), map_app in Hb. cbn [map] in Hb.
    rewrite sum_snoc in Hb.
    rewrite (firstn_succ_nth _ _ _ E), map_app. cbn [map]. rewrite sum_snoc.
    pose proof (labels_needed_nonneg a).
    pose proof (sum_nonneg labels_needed (firstn i args)
                  (proj2 (Forall_forall _ _) (fun x _ => labels_needed_nonneg x))).
    eapply triple_bind; [apply (gen_ok a P b); lia|]. intros ?.
    eapply triple_bind; [apply emit_plain_ok; exact Hf|]. intros ?.
    eapply label_post; [| |apply IH]; lia.
Qed.

Lemma for_each_labels (l : list AST) :
  forall P b,
    b + fold_right Z.add 0 (map labels_needed l) <= Int.max_signed ->
    triple (label_inv P b) (for_each gen l)
           (fun _ => label_inv P (b + fold_right Z.add 0 (map labels_needed l)))
           distinct_labels.
Proof.
  induction l as [|a l IH]; intros P b Hb; cbn [for_each map fold_right] in *.
  - eapply label_post; [| |apply ret_ok]; lia.
  - pose proof (labels_needed_nonneg a).
    pose proof (sum_nonneg labels_needed l
                  (proj2 (Forall_forall _ _) (fun x _ => labels_needed_nonneg x))).
    eapply triple_bind; [apply (gen_ok a P b); lia|]. intros ?.
    eapply label_post; [| |apply IH]; lia.
Qed.

End LabelLoops.

Lemma push_args_arm64_is_loop (gen : AST -> M unit) (args : list AST) (k : nat) :
  Arm64.push_args gen args k = push_loop gen (emit "    str x0, [sp, #-16]!" []) args k.
Proof. induction k as [|i IH]; cbn; [reflexivity | rewrite IH; reflexivity]. Qed.

Lemma push_args_x64_is_loop (gen : AST -> M unit) (args : list AST) (k : nat) :
  X64.push_args gen args k = push_loop gen (emit "    pushq %%rax" []) args k.
Proof. induction k as [|i IH]; cbn; [reflexivity | rewrite IH; reflexivity]. Qed.

Lemma pop_args_arm64_labels (P : list Z) (b nargs : Z) (fuel : nat) :
  forall i, triple (label_inv P b) (Arm64.pop_args nargs fuel i) (fun _ => label_inv P b)
                   distinct_labels.
Proof.
  induction fuel as [|n IH]; intros i; cbn [Arm64.pop_args]; [apply ret_ok|].
  destruct ((i <? nargs) && (i <? 8)); [|apply ret_ok].
  eapply triple_bind; [apply emit_plain_ok; reflexivity|]. intros ?. apply IH.
Qed.

Lemma pop_args_x64_labels (P : list Z) (b nargs : Z) (fuel : nat) :
  forall i, triple (label_inv P b) (X64.pop_args nargs fuel i) (fun _ => label_inv P b)
                   distinct_labels.
Proof.
  induction fuel as [|n IH]; intros i; cbn [X64.pop_args]; [apply ret_ok|].
  destruct ((i <? nargs) && (i <? 6)); [|apply ret_ok].
  eapply triple_bind; [apply emit_plain_ok; reflexivity|]. intros ?. apply IH.
Qed.

#[local] Hint Resolve pop_args_arm64_labels pop_args_x64_labels : labels.

Lemma gen_expr_arm64_labels (d : nat) :
  forall node P b,
    b + labels_needed node <= Int.max_signed ->
    triple (label_inv P b) (Arm64.gen_expr_arm64 d node)
           (fun _ => label_inv P (b + labels_needed node)) distinct_labels.
Proof.
  induction d as [|d IH]; intros node P b Hb; [apply triple_timeout|].
  cbn [Arm64.gen_expr_arm64].
  destruct node; cbn [Arm64.gen_expr_body labels_needed] in *; needs_nonneg;
    try (repeat label_step; fail).
  - (* binary operators *)
    remember (if tok_eqb op TOK_AND || tok_eqb op TOK_OR then 1 else 0) as extra eqn:Hx.
    destruct op; cbn in Hx; cbn [Arm64.gen_binop_tail]; repeat label_step.
  - (* calls *)
    rewrite push_args_arm64_is_loop.
    pose proof (needs_firstn_le args (List.length args)) as Hle.
    eapply triple_bind.
    { apply (push_loop_labels _ IH "    str x0, [sp, #-16]!" args (List.length args)
                              eq_refl P b). lia. }
    intros ?. rewrite firstn_all. repeat label_step.
Qed.

Lemma gen_setcc_ok (P : list Z) (b : Z) (cc : string) :
  triple (label_inv P b) (X64.gen_setcc cc) (fun _ => label_inv P b) distinct_labels.
Proof.
  unfold X64.gen_setcc.
  eapply triple_bind; [apply emit_plain_ok; reflexivity|]. intros ?.
  eapply triple_bind; [apply emit_plain_ok; reflexivity|]. intros ?.
  apply emit_plain_ok; reflexivity.
Qed.

#[local] Hint Resolve gen_setcc_ok : labels.

Lemma gen_expr_x64_labels (d : nat) :
  forall node P b,
    b + labels_needed node <= Int.max_signed ->
    triple (label_inv P b) (X64.gen_expr_x64 d node)
           (fun _ => label_inv P (b + labels_needed node)) distinct_labels.
Proof.
  induction d as [|d IH]; intros node P b Hb; [apply triple_timeout|].
  cbn [X64.gen_expr_x64].
  destruct node; cbn [X64.gen_expr_body labels_needed] in *; needs_nonneg;
    try (repeat label_step; fail).
  - (* binary operators *)
    remember (if tok_eqb op TOK_AND || tok_eqb op TOK_OR then 1 else 0) as extra eqn:Hx.
    destruct op; cbn in Hx; cbn [X64.gen_binop_tail]; repeat label_step.
  - (* calls *)
    rewrite push_args_x64_is_loop.
    pose proof (needs_firstn_le args (List.length args)) as Hle.
    eapply triple_bind.
    { apply (push_loop_labels _ IH "    pushq %%rax" args (List.length args)
                              eq_refl P b). lia. }
    intros ?. rewrite firstn_all. repeat label_step.
Qed.

#[local] Hint Resolve gen_expr_arm64_labels gen_expr_x64_labels : labels.

#[local] Hint Extern 1 (triple _ (modify _) _ _) =>
  apply modify_frame_ok; intros; split; reflexivity : labels.

Lemma gen_stmt_arm64_labels (fuel d : nat) :
  forall node P b,
    b + labels_needed node <= Int.max_signed ->
    triple (label_inv P b) (Arm64.gen_stmt_depth fuel d node)
           (fun _ => label_inv P (b + labels_needed node)) distinct_labels.
Proof.
  induction d as [|d IH]; intros node P b Hb; [apply triple_timeout|].
  cbn [Arm64.gen_stmt_depth].
  destruct node;
    try (cbn [Arm64.gen_stmt_body]; apply gen_expr_arm64_labels; exact Hb);
    cbn [Arm64.gen_stmt_body labels_needed] in *; needs_nonneg;
    try (repeat label_step; fail).
  - destruct else_branch; needs_nonneg; repeat label_step.
  - destruct init, cond, update; needs_nonneg; repeat label_step.
  - apply (for_each_labels _ IH). exact Hb.
Qed.

Lemma gen_stmt_x64_labels (fuel d : nat) :
  forall node P b,
    b + labels_needed node <= Int.max_signed ->
    triple (label_inv P b) (X64.gen_stmt_depth fuel d node)
           (fun _ => label_inv P (b + labels_needed node)) distinct_labels.
Proof.
  induction d as [|d IH]; intros node P b Hb; [apply triple_timeout|].
  cbn [X64.gen_stmt_depth].
  destruct node;
    try (cbn [X64.gen_stmt_body]; apply gen_expr_x64_labels; exact Hb);
    cbn [X64.gen_stmt_body labels_needed] in *; needs_nonneg;
    try (repeat label_step; fail).
  - destruct else_branch; needs_nonneg; repeat label_step.
  - destruct init, cond, update; needs_nonneg; repeat label_step.
  - apply (for_each_labels _ IH). exact Hb.
Qed.

(** *** Function and program level *)

Section InvariantLoops.

Variables (P : list Z) (b : Z).

Lemma for_each_inv {A} (f : A -> M unit) (l : list A) :
  (forall x, triple (label_inv P b) (f x) (fun _ => label_inv P b) distinct_labels) ->
  triple (label_inv P b) (for_each f l) (fun _ => label_inv P b) distinct_labels.
Proof.
  intros Hf. induction l as [|x l IH]; cbn [for_each]; [apply ret_ok|].
  eapply triple_bind; [apply Hf|]. intros ?. exact IH.
Qed.

Lemma for_each_from_inv {A} (f : Z -> A -> M unit) (l : list A) :
  (forall i x, triple (label_inv P b) (f i x) (fun _ => label_inv P b) distinct_labels) ->
  forall i, triple (label_inv P b) (for_each_from f i l) (fun _ => label_inv P b)
                   distinct_labels.
Proof.
  intros Hf. induction l as [|x l IH]; intros i; cbn [for_each_from]; [apply ret_ok|].
  eapply triple_bind; [apply Hf|]. intros ?. apply IH.
Qed.

Lemma save_params_labels (params : list string) :
  forall i, triple (label_inv P b) (X64.save_params i params) (fun _ => label_inv P b)
                   distinct_labels.
Proof.
  induction params as [|p params IH]; intros i; cbn [X64.save_params]; [apply ret_ok|].
  destruct (i <? 6); [|apply ret_ok].
  eapply triple_bind; [apply add_symbol_ok|]. intros ?.
  eapply triple_bind; [apply emit_plain_ok; reflexivity|]. intros ?. apply IH.
Qed.

Lemma store_params_labels (params : list string) (i : Z) :
  triple (label_inv P b)
         (for_each_from
            (fun i p => add_symbol p false true i ;;
                        emit "    str x%d, [x29, #%d]" [FInt i; FInt (param_slot i)])
            i params)
         (fun _ => label_inv P b) distinct_labels.
Proof.
  apply for_each_from_inv. intros j p.
  eapply triple_bind; [apply add_symbol_ok|]. intros ?.
  apply emit_plain_ok; reflexivity.
Qed.

Lemma gen_global_data_labels (align : bool) (prefix : string) (g : AST) :
  triple (label_inv P b) (gen_global_data align prefix g) (fun _ => label_inv P b)
         distinct_labels.
Proof.
  destruct g; try apply fault_ok. cbn [gen_global_data].
  repeat label_step.
Qed.

Lemma gen_strings_labels (prefix : string) :
  triple (label_inv P b) (gen_strings prefix) (fun _ => label_inv P b) distinct_labels.
Proof.
  unfold gen_strings. eapply triple_bind; [apply get_ok|]. intros c0.
  apply for_each_from_inv. intros i s.
  eapply triple_bind; [apply emit_plain_ok; reflexivity|]. intros ?.
  apply emit_plain_ok; reflexivity.
Qed.

End InvariantLoops.

#[local] Hint Resolve save_params_labels store_params_labels gen_global_data_labels
  gen_strings_labels : labels.

Lemma gen_func_arm64_labels (fuel : nat) :
  forall node P b,
    b + labels_needed node <= Int.max_signed ->
    triple (label_inv P b) (Arm64.gen_func_arm64 fuel node)
           (fun _ => label_inv P (b + labels_needed node)) distinct_labels.
Proof.
  intros node P b Hb. destruct node; try apply fault_ok.
  cbn [Arm64.gen_func_arm64 labels_needed] in *. needs_nonneg.
  pose proof (gen_stmt_arm64_labels fuel fuel) as Hbody.
  unfold Arm64.gen_stmt_arm64. repeat label_step.
Qed.

Lemma gen_func_x64_labels (fuel : nat) :
  forall node P b,
    b + labels_needed node <= Int.max_signed ->
    triple (label_inv P b) (X64.gen_func_x64 fuel node)
           (fun _ => label_inv P (b + labels_needed node)) distinct_labels.
Proof.
  intros node P b Hb. destruct node; try apply fault_ok.
  cbn [X64.gen_func_x64 labels_needed] in *. needs_nonneg.
  pose proof (gen_stmt_x64_labels fuel fuel) as Hbody.
  unfold X64.gen_stmt_x64. repeat label_step.
Qed.

Lemma gen_program_arm64_labels (fuel : nat) (node : AST) (P : list Z) (b : Z) :
  b + labels_needed node <= Int.max_signed ->
  triple (label_inv P b) (gen_program_arm64 fuel node)
         (fun _ => label_inv P (b + labels_needed node)) distinct_labels.
Proof.
  intros Hb. destruct node; try apply fault_ok.
  cbn [gen_program_arm64 labels_needed] in *.
  pose proof (sum_nonneg labels_needed funcs
                (proj2 (Forall_forall _ _) (fun x _ => labels_needed_nonneg x))) as Hn.
  pose proof (fun P b => for_each_inv P b declare_global globals
                           (declare_global_ok P b)) as Hglobals.
  pose proof (fun P b prefix => for_each_inv P b (gen_global_data true prefix) globals
                                  (gen_global_data_labels P b true prefix)) as Hdata.
  pose proof (for_each_labels _ (gen_func_arm64_labels fuel) funcs) as Hfuncs.
  repeat label_step.
Qed.

Lemma gen_program_x64_labels (fuel : nat) (node : AST) (P : list Z) (b : Z) :
  b + labels_needed node <= Int.max_signed ->
  triple (label_inv P b) (gen_program_x64 fuel node)
         (fun _ => label_inv P (b + labels_needed node)) distinct_labels.
Proof.
  intros Hb. destruct node; try apply fault_ok.
  cbn [gen_program_x64 labels_needed] in *.
  pose proof (sum_nonneg labels_needed funcs
                (proj2 (Forall_forall _ _) (fun x _ => labels_needed_nonneg x))) as Hn.
  pose proof (fun P b => for_each_inv P b declare_global globals
                           (declare_global_ok P b)) as Hglobals.
  pose proof (fun P b prefix => for_each_inv P b (gen_global_data false prefix) globals
                                  (gen_global_data_labels P b false prefix)) as Hdata.
  pose proof (for_each_labels _ (gen_func_x64_labels fuel) funcs) as Hfuncs.
  repeat label_step.
Qed.

(** *** The lexer and the parser leave output and label counter alone *)

Lemma same_output_refl (c : Compiler) : same_output c c.
Proof. split; reflexivity. Qed.

Lemma same_output_trans (c1 c2 c3 : Compiler) :
  same_output c1 c2 -> same_output c2 c3 -> same_output c1 c3.
Proof. intros [A1 A2] [B1 B2]. split; congruence. Qed.

Lemma keeps_ret {A} (a : A) : keeps (ret a).
Proof. intros c. apply same_output_refl. Qed.

Lemma keeps_get : keeps get.
Proof. intros c. apply same_output_refl. Qed.

Lemma keeps_error {A} f l : keeps (@error A f l).
Proof. intros c. apply same_output_refl. Qed.

Lemma keeps_fault {A} f : keeps (@raise_fault A f).
Proof. intros c. apply same_output_refl. Qed.

Lemma keeps_timeout {A} : keeps (@timeout A).
Proof. intros c. exact I. Qed.

Lemma keeps_modify (f : Compiler -> Compiler) :
  (forall c, same_output c (f c)) -> keeps (modify f).
Proof. intros H c. apply H. Qed.

Lemma keeps_bind {A B} (m : M A) (k : A -> M B) :
  keeps m -> (forall a, keeps (k a)) -> keeps (bind m k).
Proof.
  intros Hm Hk c. specialize (Hm c). unfold bind.
  destruct (m c) as [a c1| | |]; try exact Hm.
  specialize (Hk a c1). destruct (k a c1); try exact I;
    exact (same_output_trans _ _ _ Hm Hk).
Qed.

Lemma keeps_src_at (i : Z) : keeps (src_at i).
Proof.
  intros c. unfold src_at.
  destruct (i <? 0); [apply same_output_refl|].
  destruct (nth_error (src c) (Z.to_nat i)); [apply same_output_refl|].
  destruct (i =? Z.of_nat (List.length (src c))); apply same_output_refl.
Qed.

Lemma keeps_peek : keeps peek.
Proof. intros c. apply keeps_src_at. Qed.

Lemma keeps_is_tok (t : TokenType) : keeps (is_tok t).
Proof. intros c. apply same_output_refl. Qed.

Lemma keeps_cur_type : keeps cur_type.
Proof. intros c. apply same_output_refl. Qed.

Create HintDb frame discriminated.

#[local] Hint Resolve keeps_ret keeps_get keeps_error keeps_fault keeps_timeout
  keeps_src_at keeps_peek keeps_is_tok keeps_cur_type : frame.
#[local] Hint Extern 1 (keeps (modify _)) =>
  apply keeps_modify; intros; split; reflexivity : frame.

Ltac keeps_step :=
  match goal with
  | |- keeps (let _ := _ in _) => cbv zeta
  | |- keeps (bind _ _) => apply keeps_bind; [|intros ?]
  | |- keeps (if ?b then _ else _) => destruct b
  | |- keeps (match ?x with _ => _ end) => destruct x
  | |- keeps _ => solve [eauto with frame]
  end.

Lemma keeps_advance : keeps advance.
Proof. unfold advance. repeat keeps_step. Qed.

#[local] Hint Resolve keeps_advance : frame.

Lemma keeps_skip_line_comment (n : nat) : keeps (skip_line_comment n).
Proof. induction n; cbn [skip_line_comment]; repeat keeps_step. Qed.

Lemma keeps_skip_block_comment (n : nat) : keeps (skip_block_comment n).
Proof. induction n; cbn [skip_block_comment]; repeat keeps_step. Qed.

#[local] Hint Resolve keeps_skip_line_comment keeps_skip_block_comment : frame.

Lemma keeps_skip_whitespace (n : nat) : keeps (skip_whitespace n).
Proof. induction n; cbn [skip_whitespace]; repeat keeps_step. Qed.

Lemma keeps_lex_ident_loop (n : nat) : keeps (lex_ident_loop n).
Proof. induction n; cbn [lex_ident_loop]; repeat keeps_step. Qed.

Lemma keeps_lex_number_loop (n : nat) : keeps (lex_number_loop n).
Proof. induction n; cbn [lex_number_loop]; repeat keeps_step. Qed.

Lemma keeps_lex_string_loop (n : nat) : keeps (lex_string_loop n).
Proof. induction n; cbn [lex_string_loop]; repeat keeps_step. Qed.

Lemma keeps_two_char (x : ascii) (yes no : TokenType) : keeps (two_char x yes no).
Proof. unfold two_char. repeat keeps_step. Qed.

#[local] Hint Resolve keeps_skip_whitespace keeps_lex_ident_loop keeps_lex_number_loop
  keeps_lex_string_loop keeps_two_char : frame.

Lemma keeps_next_token (fuel : nat) : keeps (next_token fuel).
Proof. unfold next_token. repeat keeps_step. Qed.

#[local] Hint Resolve keeps_next_token : frame.

Lemma keeps_accept (fuel : nat) (t : TokenType) : keeps (accept fuel t).
Proof. unfold accept. repeat keeps_step. Qed.

#[local] Hint Resolve keeps_accept : frame.

Lemma keeps_expect (fuel : nat) (t : TokenType) : keeps (expect fuel t).
Proof. unfold expect. repeat keeps_step. Qed.

#[local] Hint Resolve keeps_expect : frame.

Section KeepsLevels.

Variable fuel : nat.
Variable pe : M AST.
Hypothesis Hpe : keeps pe.

Hint Resolve Hpe : frame.

Lemma keeps_call_args_loop (n : nat) : forall args, keeps (call_args_loop fuel pe n args).
Proof. induction n; intros args; cbn [call_args_loop]; repeat keeps_step. Qed.

Hint Resolve keeps_call_args_loop : frame.

Lemma keeps_parse_primary : keeps (parse_primary fuel pe).
Proof. unfold parse_primary. repeat keeps_step. Qed.

Hint Resolve keeps_parse_primary : frame.

Lemma keeps_parse_unary (n : nat) : keeps (parse_unary fuel pe n).
Proof. induction n; cbn [parse_unary]; repeat keeps_step. Qed.

Hint Resolve keeps_parse_unary : frame.

Lemma keeps_multiplicative_loop (n : nat) : forall e, keeps (multiplicative_loop fuel pe n e).
Proof. induction n; intros e; cbn [multiplicative_loop]; repeat keeps_step. Qed.

Hint Resolve keeps_multiplicative_loop : frame.

Lemma keeps_parse_multiplicative : keeps (parse_multiplicative fuel pe).
Proof. unfold parse_multiplicative. repeat keeps_step. Qed.

Hint Resolve keeps_parse_multiplicative : frame.

Lemma keeps_additive_loop (n : nat) : forall e, keeps (additive_loop fuel pe n e).
Proof. induction n; intros e; cbn [additive_loop]; repeat keeps_step. Qed.

Hint Resolve keeps_additive_loop : frame.

Lemma keeps_parse_additive : keeps (parse_additive fuel pe).
Proof. unfold parse_additive. repeat keeps_step. Qed.

Hint Resolve keeps_parse_additive : frame.

Lemma keeps_relational_loop (n : nat) : forall e, keeps (relational_loop fuel pe n e).
Proof. induction n; intros e; cbn [relational_loop]; repeat keeps_step. Qed.

Hint Resolve keeps_relational_loop : frame.

Lemma keeps_parse_relational : keeps (parse_relational fuel pe).
Proof. unfold parse_relational. repeat keeps_step. Qed.

Hint Resolve keeps_parse_relational : frame.

Lemma keeps_equality_loop (n : nat) : forall e, keeps (equality_loop fuel pe n e).
Proof. induction n; intros e; cbn [equality_loop]; repeat keeps_step. Qed.

Hint Resolve keeps_equality_loop : frame.

Lemma keeps_parse_equality : keeps (parse_equality fuel pe).
Proof. unfold parse_equality. repeat keeps_step. Qed.

Hint Resolve keeps_parse_equality : frame.

Lemma keeps_logical_and_loop (n : nat) : forall e, keeps (logical_and_loop fuel pe n e).
Proof. induction n; intros e; cbn [logical_and_loop]; repeat keeps_step. Qed.

Hint Resolve keeps_logical_and_loop : frame.

Lemma keeps_parse_logical_and : keeps (parse_logical_and fuel pe).
Proof. unfold parse_logical_and. repeat keeps_step. Qed.

Hint Resolve keeps_parse_logical_and : frame.

Lemma keeps_logical_or_loop (n : nat) : forall e, keeps (logical_or_loop fuel pe n e).
Proof. induction n; intros e; cbn [logical_or_loop]; repeat keeps_step. Qed.

Hint Resolve keeps_logical_or_loop : frame.

Lemma keeps_parse_logical_or : keeps (parse_logical_or fuel pe).
Proof. unfold parse_logical_or. repeat keeps_step. Qed.

Hint Resolve keeps_parse_logical_or : frame.

Lemma keeps_parse_assignment (n : nat) : keeps (parse_assignment fuel pe n).
Proof. induction n; cbn [parse_assignment]; repeat keeps_step. Qed.

End KeepsLevels.

Lemma keeps_parse_expr_depth (fuel d : nat) : keeps (parse_expr_depth fuel d).
Proof.
  induction d as [|d IH]; cbn [parse_expr_depth]; [apply keeps_timeout|].
  apply keeps_parse_assignment. exact IH.
Qed.

Lemma keeps_parse_expr (fuel : nat) : keeps (parse_expr fuel).
Proof. apply keeps_parse_expr_depth. Qed.

#[local] Hint Resolve keeps_parse_expr : frame.

Lemma keeps_parse_array_suffix (fuel : nat) : keeps (parse_array_suffix fuel).
Proof. unfold parse_array_suffix. repeat keeps_step. Qed.

Lemma keeps_parse_initializer (fuel : nat) : keeps (parse_initializer fuel).
Proof. unfold parse_initializer. repeat keeps_step. Qed.

#[local] Hint Resolve keeps_parse_array_suffix keeps_parse_initializer : frame.

Section KeepsStatements.

Variable fuel : nat.
Variable ps : M AST.
Hypothesis Hps : keeps ps.

Hint Resolve Hps : frame.

Lemma keeps_block_loop (n : nat) : forall stmts, keeps (block_loop ps n stmts).
Proof. induction n; intros stmts; cbn [block_loop]; repeat keeps_step. Qed.

Hint Resolve keeps_block_loop : frame.

Lemma keeps_parse_block : keeps (parse_block fuel ps).
Proof. unfold parse_block. repeat keeps_step. Qed.

Hint Resolve keeps_parse_block : frame.

Lemma keeps_parse_stmt_body : keeps (parse_stmt_body fuel ps).
Proof. unfold parse_stmt_body. repeat keeps_step. Qed.

End KeepsStatements.

Lemma keeps_parse_stmt_depth (fuel d : nat) : keeps (parse_stmt_depth fuel d).
Proof.
  induction d as [|d IH]; cbn [parse_stmt_depth]; [apply keeps_timeout|].
  apply keeps_parse_stmt_body. exact IH.
Qed.

Lemma keeps_parse_stmt (fuel : nat) : keeps (parse_stmt fuel).
Proof. apply keeps_parse_stmt_depth. Qed.

Lemma keeps_params_loop (fuel n : nat) : forall params, keeps (params_loop fuel n params).
Proof. induction n; intros params; cbn [params_loop]; repeat keeps_step. Qed.

Lemma keeps_program_loop (fuel n : nat) :
  forall funcs globals, keeps (program_loop fuel n funcs globals).
Proof.
  pose proof (keeps_parse_block fuel _ (keeps_parse_stmt fuel)) as Hb.
  pose proof (keeps_params_loop fuel fuel) as Hp.
  induction n; intros funcs globals; cbn [program_loop]; repeat keeps_step.
Qed.

Lemma keeps_parse (fuel : nat) : keeps (next_token fuel ;; do_parse_program fuel).
Proof.
  apply keeps_bind; [apply keeps_next_token|]. intros ?.
  apply keeps_program_loop.
Qed.

(** *** Printed label names *)

Lemma to_int_proper (z : Z) :
  Z.to_int z <> Decimal.Pos Decimal.Nil /\ Z.to_int z <> Decimal.Neg Decimal.Nil.
Proof.
  destruct z as [|p|p]; cbn [Z.to_int]; split; try discriminate;
    intros H; injection H as H; exact (DecimalPos.Unsigned.to_uint_nonnil p H).
Qed.

Lemma string_of_Z_inj (x y : Z) : string_of_Z x = string_of_Z y -> x = y.
Proof.
  unfold string_of_Z. intros H.
  apply (f_equal NilZero.int_of_string) in H.
  rewrite !NilZero.isi in H by apply to_int_proper.
  injection H as H.
  apply (f_equal Z.of_int) in H.
  rewrite !DecimalZ.of_to in H. exact H.
Qed.

Lemma append_colon_inj (s t : string) : s ++ ":" = t ++ ":" -> s = t.
Proof.
  revert t. induction s as [|a s IH]; intros [|b t] H; cbn in H.
  - reflexivity.
  - injection H as _ H. destruct t; discriminate.
  - injection H as _ H. destruct s; discriminate.
  - injection H as Ha H. f_equal; auto.
Qed.

Lemma label_name_inj (x y : Z) : label_name x = label_name y -> x = y.
Proof.
  unfold label_name. cbn [render render_arg]. intros H.
  injection H as H. apply string_of_Z_inj, append_colon_inj. exact H.
Qed.

Lemma NoDup_label_names (l : list Z) : NoDup l -> NoDup (map label_name l).
Proof.
  induction 1 as [|x l Hx Hl IH]; cbn [map]; constructor; auto.
  intros Hin. apply in_map_iff in Hin. destruct Hin as (y & Hy & Hin).
  apply label_name_inj in Hy. subst y. contradiction.
Qed.

(** *** The whole compilation *)

Lemma label_inv_init (source : string) (arm64 linux : bool) (c : Compiler) :
  same_output (init_compiler source arm64 linux) c -> label_inv [] 0 c.
Proof.
  intros [Ho Hl]. unfold label_inv. rewrite Ho, Hl. cbn.
  split; [constructor|]. split; [constructor|].
  unfold Int.min_signed, Int.max_signed. lia.
Qed.

Lemma compile_regroup (fuel : nat) (source : string) (arm64 linux : bool) :
  compile fuel source arm64 linux =
  bind (next_token fuel ;; do_parse_program fuel)
       (fun program => if arm64 then gen_program_arm64 fuel program
                       else gen_program_x64 fuel program)
       (init_compiler source arm64 linux).
Proof. unfold compile. rewrite bind_assoc. reflexivity. Qed.

Lemma compile_distinct_labels (fuel : nat) (source : string) (arm64 linux : bool) :
  labels_drawn fuel source arm64 linux <= Int.max_signed ->
  NoDup (labels_of (output_of (compile fuel source arm64 linux))).
Proof.
  intros Hb. rewrite compile_regroup.
  unfold labels_drawn, parsed_program in Hb.
  pose proof (keeps_parse fuel (init_compiler source arm64 linux)) as Hk.
  unfold bind at 1.
  destruct ((next_token fuel ;; do_parse_program fuel) (init_compiler source arm64 linux))
    as [program c1|d c1|f c1|].
  - cbn [result_value] in Hb.
    apply label_inv_init in Hk.
    assert (Ht : triple (label_inv [] 0)
                   (if arm64 then gen_program_arm64 fuel program
                    else gen_program_x64 fuel program)
                   (fun _ => label_inv [] (0 + labels_needed program)) distinct_labels).
    { destruct arm64;
        [apply gen_program_arm64_labels | apply gen_program_x64_labels]; lia. }
    specialize (Ht c1 Hk).
    destruct ((if arm64 then gen_program_arm64 fuel program
               else gen_program_x64 fuel program) c1) as [u c2|d c2|f c2|];
      unfold output_of; cbn [result_state].
    + eapply label_inv_distinct; exact Ht.
    + exact Ht.
    + exact Ht.
    + constructor.
  - destruct Hk as [Ho _]. unfold output_of. cbn [result_state]. rewrite Ho. constructor.
  - destruct Hk as [Ho _]. unfold output_of. cbn [result_state]. rewrite Ho. constructor.
  - constructor.
Qed.



(** On a source with two functions the second function continues the
    numbering of the first, on both back-ends. *)
Example two_functions_share_the_counter :
  labels_of (output_of (compile 200 src_two_functions true false)) = [2; 0; 1; 3; 5; 4]
  /\ labels_of (output_of (compile 200 src_two_functions false true)) = [2; 0; 1; 3; 5; 4].
Proof. split; vm_compute; reflexivity. Qed.

(** * Properties beyond the claims *)

(** ** A source the parser rejects produces no assembly *)



(** ** The symbol table: lookup after insertion *)

Lemma find_from_end_none (l : list Symbol) (name : string) :
  find_from_end l name = None <-> ~ In name (map sym_name l).
Proof.
  induction l as [|s l IH]; cbn [find_from_end map In].
  - split; [intros _ []| reflexivity].
  - destruct (String.eqb (sym_name s) name) eqn:E.
    + apply String.eqb_eq in E. split; [discriminate|]. intros H. exfalso. auto.
    + apply String.eqb_neq in E. rewrite IH. tauto.
Qed.

Lemma find_from_end_some (l : list Symbol) (name : string) (s : Symbol) :
  find_from_end l name = Some s ->
  exists newer older,
    l = (newer ++ s :: older)%list /\ sym_name s = name
    /\ ~ In name (map sym_name newer).
Proof.
  induction l as [|x l IH]; cbn [find_from_end]; [discriminate|].
  destruct (String.eqb (sym_name x) name) eqn:E.
  - intros H. injection H as ->. apply String.eqb_eq in E.
    exists [], l. repeat split; auto.
  - intros H. destruct (IH H) as (newer & older & -> & Hn & Hnot).
    apply String.eqb_neq in E.
    exists (x :: newer), older. repeat split; auto.
    cbn [map In]. tauto.
Qed.



(** [find_symbol] never fails and never changes the state.  It returns
    NULL exactly when no entry has the name, and otherwise the most recent
    entry with that name: every entry added after it has another name. *)
Theorem find_symbol_most_recent (name : string) (c : Compiler) :
  exists o,
    find_symbol name c = Done o c
    /\ (o = None <-> ~ In name (symbol_names c))
    /\ (forall s, o = Some s ->
          exists older newer,
            symbols c = (older ++ s :: newer)%list /\ sym_name s = name
            /\ ~ In name (map sym_name newer)).
Proof.
  exists (find_from_end (rev (symbols c)) name). split; [reflexivity|]. split.
  - rewrite find_from_end_none. unfold symbol_names. rewrite map_rev.
    split; intros H Hin; apply H; [apply in_rev in Hin|apply in_rev]; exact Hin.
  - intros s H. apply find_from_end_some in H.
    destruct H as (newer & older & Hl & Hn & Hnot).
    exists (rev older), (rev newer). split; [|split; [exact Hn|]].
    + apply (f_equal (@rev Symbol)) in Hl. rewrite rev_involutive in Hl.
      rewrite Hl, rev_app_distr. cbn [rev]. rewrite <- app_assoc. reflexivity.
    + rewrite map_rev. intros Hin. apply Hnot. apply in_rev. exact Hin.
Qed.

(** ** The lexer reads back the decimal numbers [printf] writes *)

Lemma uint_digits (d : Decimal.uint) :
  Forall (fun ch => isdigit ch = true) (list_of_string (NilEmpty.string_of_uint d)).
Proof. induction d; cbn; constructor; auto. Qed.

Lemma of_uint_acc_ge (d : Decimal.uint) :
  forall acc, (acc <= Pos.of_uint_acc d acc)%positive.
Proof.
  induction d; intros acc; cbn [Pos.of_uint_acc]; [lia|..];
    match goal with
    | |- (_ <= Pos.of_uint_acc _ ?a)%positive => specialize (IHd a); lia
    end.
Qed.

Lemma digit_step (acc : Z) (k : Z) :
  0 <= acc -> 0 <= k <= 9 -> acc * 10 + k <= Int.max_signed ->
  Int.add (Int.mul acc 10) k = acc * 10 + k.
Proof.
  intros Ha Hk Hb. unfold Int.add, Int.mul.
  rewrite (wrap_small (acc * 10)) by (unfold Int.min_signed, Int.max_signed in *; lia).
  apply wrap_small. unfold Int.min_signed, Int.max_signed in *. lia.
Qed.

Lemma literal_value_acc (d : Decimal.uint) :
  forall acc : positive,
    Z.pos (Pos.of_uint_acc d acc) <= Int.max_signed ->
    literal_value (Z.pos acc) (list_of_string (NilEmpty.string_of_uint d))
    = Z.pos (Pos.of_uint_acc d acc).
Proof.
  induction d; intros acc Hb; cbn [Pos.of_uint_acc NilEmpty.string_of_uint] in *;
    [reflexivity|..].
  all: unfold list_of_string; cbn [list_ascii_of_string]; rewrite literal_value_cons.
  all: match type of Hb with
       | Z.pos (Pos.of_uint_acc _ ?a) <= _ =>
           pose proof (of_uint_acc_ge d a) as Hge;
           rewrite <- (IHd a Hb); f_equal
       end.
  all: match goal with
       | |- context [Z.of_nat (nat_of_ascii ?ch) - 48] =>
           let v := eval vm_compute in (Z.of_nat (nat_of_ascii ch) - 48) in
           change (Z.of_nat (nat_of_ascii ch) - 48) with v
       end.
  all: rewrite digit_step by (unfold Int.max_signed in *; lia); lia.
Qed.

Lemma literal_value_uint (d : Decimal.uint) :
  Z.of_N (Pos.of_uint d) <= Int.max_signed ->
  literal_value 0 (list_of_string (NilEmpty.string_of_uint d)) = Z.of_N (Pos.of_uint d).
Proof.
  induction d; intros Hb; cbn [Pos.of_uint NilEmpty.string_of_uint] in *; [reflexivity|..].
  all: unfold list_of_string; cbn [list_ascii_of_string]; rewrite literal_value_cons.
  - exact (IHd Hb).
  - exact (literal_value_acc d 1 Hb).
  - exact (literal_value_acc d 2 Hb).
  - exact (literal_value_acc d 3 Hb).
  - exact (literal_value_acc d 4 Hb).
  - exact (literal_value_acc d 5 Hb).
  - exact (literal_value_acc d 6 Hb).
  - exact (literal_value_acc d 7 Hb).
  - exact (literal_value_acc d 8 Hb).
  - exact (literal_value_acc d 9 Hb).
Qed.

Lemma decimal_is_literal (n : Z) : 0 <= n -> is_literal (decimal n).
Proof.
  intros Hn. unfold decimal, string_of_Z. destruct n as [|p|p]; [| |lia].
  - split; [discriminate|]. repeat constructor.
  - cbn [Z.to_int NilZero.string_of_int]. unfold NilZero.string_of_uint.
    pose proof (DecimalPos.Unsigned.to_uint_nonnil p) as Hnn.
    pose proof (uint_digits (Pos.to_uint p)) as Hd.
    destruct (Pos.to_uint p) eqn:E; try congruence; split; try exact Hd; discriminate.
Qed.

Lemma decimal_value (n : Z) :
  0 <= n <= Int.max_signed -> literal_value 0 (decimal n) = n.
Proof.
  intros [Hn Hb]. unfold decimal, string_of_Z. destruct n as [|p|p]; [reflexivity| |lia].
  cbn [Z.to_int NilZero.string_of_int]. unfold NilZero.string_of_uint.
  pose proof (DecimalPos.Unsigned.to_uint_nonnil p) as Hnn.
  pose proof (DecimalPos.Unsigned.of_to p) as Hot.
  pose proof (literal_value_uint (Pos.to_uint p)) as Hv.
  rewrite Hot in Hv. specialize (Hv Hb). cbn [Z.of_N] in Hv.
  destruct (Pos.to_uint p) eqn:E; try congruence; exact Hv.
Qed.

(** Printing then lexing a number gives the number back: for every [n] in
    [0 .. INT_MAX], on a source that starts with the decimal digits of [n]
    followed by the end of the text or by a byte that is not a digit, the
    first token is a number token whose value is [n], and the lexer stops
    right after the digits. *)
Theorem lex_printed_number
  (fuel : nat) (n : Z) (rest : list ascii) (arm64 linux : bool) :
  0 <= n <= Int.max_signed ->
  digit_end rest ->
  (List.length (decimal n) + 2 <= fuel)%nat ->
  Z.of_nat (List.length (decimal n ++ rest)%list) < Int.max_signed ->
  exists c',
    next_token fuel
      (init_compiler (string_of_list_ascii (decimal n ++ rest)%list) arm64 linux)
    = Done tt c'
    /\ type (cur c') = TOK_NUM
    /\ num (cur c') = n
    /\ pos c' = Z.of_nat (List.length (decimal n)).
Proof.
  intros Hn He Hf Hl.
  pose proof (init_at_pos (decimal n ++ rest)%list arm64 linux Hl) as Hp.
  destruct (next_token_number fuel _ [] [] (decimal n) rest (or_introl eq_refl)
              (decimal_is_literal n (proj1 Hn)) He Hp Hf)
    as (c' & Hr & Hp' & Ht & Hv).
  exists c'. split; [exact Hr|]. split; [exact Ht|]. split.
  - rewrite Hv. apply decimal_value. exact Hn.
  - destruct Hp' as (_ & Hpos & _). exact Hpos.
Qed.

Lemma lex_printed_number_witness :
  exists c',
    next_token 12 (init_compiler src_number_semicolon false true) = Done tt c'
    /\ type (cur c') = TOK_NUM
    /\ num (cur c') = 2147483647
    /\ pos c' = 10.
Proof.
  refine (lex_printed_number 12 2147483647 [";"%char] false true _ _ _ _).
  - unfold Int.max_signed. lia.
  - reflexivity.
  - vm_compute. lia.
  - vm_compute. reflexivity.
Defined.

(** ** An unterminated block comment *)

Lemma pos_succ c pre ch rest :
  at_pos c pre (ch :: rest) -> Int.add (pos c) 1 = Z.of_nat (List.length pre) + 1.
Proof.
  intros (Hs & Hp & Hl). rewrite Hp. unfold Int.add. apply wrap_small.
  rewrite length_app in Hl. cbn [List.length] in Hl.
  unfold Int.min_signed, Int.max_signed in *. lia.
Qed.

(** The byte after the current one, as [c->src[c->pos + 1]] reads it. *)
Lemma src_at_next c pre ch rest :
  at_pos c pre (ch :: rest) ->
  src_at (Int.add (pos c) 1) c = Done (match rest with nx :: _ => nx | [] => NUL end) c.
Proof.
  intros H. rewrite (pos_succ _ _ _ _ H). destruct H as (Hs & Hp & Hl).
  unfold src_at. rewrite Hs.
  replace (Z.of_nat (List.length pre) + 1 <? 0) with false by (symmetry; apply Z.ltb_ge; lia).
  replace (Z.to_nat (Z.of_nat (List.length pre) + 1)) with (S (List.length pre)) by lia.
  destruct rest as [|nx rest].
  - replace (nth_error (pre ++ [ch]) (S (List.length pre))) with (@None ascii)
      by (symmetry; apply nth_error_None; rewrite length_app; cbn; lia).
    rewrite length_app. cbn [List.length].
    replace (Z.of_nat (List.length pre) + 1 =? Z.of_nat (List.length pre + 1)) with true
      by (symmetry; apply Z.eqb_eq; lia).
    reflexivity.
  - replace (pre ++ ch :: nx :: rest)%list with ((pre ++ [ch]) ++ nx :: rest)%list
      by (rewrite <- app_assoc; reflexivity).
    rewrite nth_error_app2 by (rewrite length_app; cbn [List.length]; lia).
    replace (S (List.length pre) - List.length (pre ++ [ch]))%nat with O
      by (rewrite length_app; cbn [List.length]; lia).
    reflexivity.
Qed.

Lemma skip_block_comment_open (body : list ascii) :
  forall (n : nat) c pre,
    at_pos c pre body -> closes body = false -> no_nul body = true ->
    (List.length body < n)%nat ->
    exists c', skip_block_comment n c = Done tt c'
               /\ at_pos c' (pre ++ body) [] /\ cur c' = cur c.
Proof.
  induction body as [|ch body IH]; intros n c pre Hp Hc Hn Hf.
  - destruct n as [|n]; [cbn in Hf; lia|]. exists c. rewrite app_nil_r.
    split; [|split; [exact Hp|reflexivity]].
    cbn [skip_block_comment]. rewrite (bind_of_Done _ _ _ _ _ (peek_end _ _ Hp)).
    reflexivity.
  - destruct n as [|n]; [cbn in Hf; lia|].
    cbn [no_nul forallb] in Hn. apply andb_prop in Hn. destruct Hn as [Hn1 Hn2].
    apply negb_true_iff in Hn1.
    destruct (advance_spec _ _ _ _ Hp) as (c1 & Ha & Hp1 & Hc1).
    assert (Hc' : closes body = false).
    { cbn [closes] in Hc. destruct body as [|nx tl]; [reflexivity|].
      apply orb_false_elim in Hc. exact (proj2 Hc). }
    destruct (IH n c1 (pre ++ [ch])%list Hp1 Hc' Hn2 ltac:(cbn in Hf; lia))
      as (c' & Hr & Hp' & Hcur).
    rewrite <- app_assoc in Hp'. cbn [app] in Hp'.
    exists c'. split; [|split; [exact Hp'|congruence]].
    cbn [skip_block_comment].
    rewrite (bind_of_Done _ _ _ _ _ (peek_here _ _ _ _ Hp)), Hn1.
    destruct (is_char ch "*") eqn:Es.
    + rewrite bind_get, (bind_of_Done _ _ _ _ _ (src_at_next _ _ _ _ Hp)).
      assert (Hnx : is_char (match body with nx :: _ => nx | [] => NUL end) "/" = false).
      { cbn [closes] in Hc. destruct body as [|nx tl]; [reflexivity|].
        apply orb_false_elim in Hc. destruct Hc as [Hc _]. rewrite Es in Hc. exact Hc. }
      rewrite Hnx. rewrite (bind_of_Done _ _ _ _ _ Ha). exact Hr.
    + rewrite (bind_of_Done _ _ _ _ _ Ha). exact Hr.
Qed.

(** A block comment that is never closed ends the input without any
    diagnostic: on a source that opens a comment whose body holds no
    star-slash, the first token is the end-of-file token, the parser
    returns the empty program, and the compilation ends normally. *)
Theorem unterminated_block_comment_is_end_of_input
  (fuel : nat) (body : list ascii) (arm64 linux : bool) :
  closes body = false -> no_nul body = true ->
  (List.length body + 3 <= fuel)%nat ->
  Z.of_nat (List.length body) + 2 < Int.max_signed ->
  let source := string_of_list_ascii (open_comment body) in
  (exists c', next_token fuel (init_compiler source arm64 linux) = Done tt c'
              /\ type (cur c') = TOK_EOF)
  /\ parsed_program fuel source arm64 linux = Some (AST_PROGRAM [] []).
Proof.
  intros Hc Hn Hf Hl source.
  assert (Hp0 : at_pos (init_compiler source arm64 linux) [] (open_comment body)).
  { apply init_at_pos. unfold open_comment. cbn [List.length]. lia. }
  set (c0 := init_compiler source arm64 linux) in *.
  destruct (advance_spec _ _ _ _ Hp0) as (c1 & Ha1 & Hp1 & Hc1).
  destruct (advance_spec _ _ _ _ Hp1) as (c2 & Ha2 & Hp2 & Hc2).
  destruct fuel as [|[|n]]; [lia|lia|].
  destruct (skip_block_comment_open body (S n) c2 _ Hp2 Hc Hn ltac:(lia))
    as (c3 & Hb & Hp3 & Hc3).
  assert (Hs : skip_whitespace (S (S n)) c0 = Done tt c3).
  { change (skip_whitespace (S (S n))) with
      (ch <- peek ;;
       if is_char ch " " || is_char ch TAB || is_char ch LF || is_char ch CR
       then advance ;; skip_whitespace (S n)
       else if is_char ch "/"
       then c <- get ;;
            nx <- src_at (Int.add (pos c) 1) ;;
            if is_char nx "/"
            then skip_line_comment (S n) ;; skip_whitespace (S n)
            else if is_char nx "*"
            then advance ;; advance ;;
                 skip_block_comment (S n) ;;
                 ch' <- peek ;;
                 (if negb (is_char ch' NUL) then advance ;; advance ;; ret tt else ret tt) ;;
                 skip_whitespace (S n)
            else ret tt
       else ret tt).
    rewrite (bind_of_Done _ _ _ _ _ (peek_here _ _ _ _ Hp0)).
    change (is_char "/" " " || is_char "/" TAB || is_char "/" LF || is_char "/" CR)
      with false.
    change (is_char "/" "/") with true. cbv iota.
    rewrite bind_get, (bind_of_Done _ _ _ _ _ (src_at_next _ _ _ _ Hp0)).
    change (is_char "*" "/") with false. change (is_char "*" "*") with true. cbv iota.
    rewrite (bind_of_Done _ _ _ _ _ Ha1), (bind_of_Done _ _ _ _ _ Ha2).
    rewrite (bind_of_Done _ _ _ _ _ Hb).
    rewrite (bind_of_Done _ _ _ _ _ (peek_end _ _ Hp3)).
    change (negb (is_char NUL NUL)) with false. cbv iota. rewrite bind_ret.
    exact (skip_whitespace_plain n _ _ _ Hp3 I). }
  assert (Ht : next_token (S (S n)) c0
               = Done tt (set_type TOK_EOF (set_tok_pos (cline c3) (col c3) c3))).
  { unfold next_token. rewrite (bind_of_Done _ _ _ _ _ Hs), bind_modify.
    rewrite (bind_of_Done _ _ _ _ _
               (peek_end (set_tok_pos (cline c3) (col c3) c3) _ Hp3)).
    reflexivity. }
  split.
  - eexists. split; [exact Ht|reflexivity].
  - unfold parsed_program. fold c0. rewrite (bind_of_Done _ _ _ _ _ Ht).
    reflexivity.
Qed.

Lemma unterminated_block_comment_is_end_of_input_witness :
  (exists c', next_token 20 (init_compiler "/* int main() *" true false) = Done tt c'
              /\ type (cur c') = TOK_EOF)
  /\ parsed_program 20 "/* int main() *" true false = Some (AST_PROGRAM [] []).
Proof.
  refine (unterminated_block_comment_is_end_of_input
            20 (list_of_string " int main() *") true false _ _ _ _).
  - reflexivity.
  - reflexivity.
  - vm_compute. lia.
  - vm_compute. reflexivity.
Defined.

(** ** A byte that starts no token *)

(** A source whose first byte starts no token -- it is not a blank, a
    letter, an underscore, a digit, a double quote or one of the operator
    and punctuation bytes -- is rejected with the diagnostic
    [Unexpected character: '<byte>'].  The position reported is line 1,
    column 2: the column just after the byte, since the lexer has consumed
    it.  Nothing is written to the assembly output. *)
Theorem unexpected_character_is_reported
  (fuel : nat) (ch : ascii) (rest : string) (arm64 linux : bool) :
  is_token_start ch = false ->
  result_diagnostic (compile (S fuel) (String ch rest) arm64 linux)
  = Some (mkDiag 1 2 (mkLine "Unexpected character: '%c'" [FChar ch]))
  /\ output_of (compile (S fuel) (String ch rest) arm64 linux) = [].
Proof.
  intros H.
  destruct ch as [[] [] [] [] [] [] [] []]; cbv in H; try discriminate H.
  all: split; vm_compute; reflexivity.
Qed.

Lemma unexpected_character_is_reported_witness :
  option_map render_diagnostic
             (result_diagnostic (compile 1 "@ int main() { }" true false))
  = Some ("Error at line 1, col 2: Unexpected character: '@'" ++ String LF EmptyString)
  /\ output_of (compile 1 "@ int main() { }" true false) = [].
Proof.
  destruct (unexpected_character_is_reported 0 "@" " int main() { }" true false eq_refl)
    as [Hd Ho].
  split; [rewrite Hd; vm_compute; reflexivity | exact Ho].
Defined.

(** ** String literals and identifiers keep their text *)

Lemma take_chars_app (s rest : list ascii) :
  no_nul s = true ->
  take_chars (s ++ rest) (List.length s) = string_of_list_ascii s.
Proof.
  induction s as [|ch s IH]; intros H; [destruct rest; reflexivity|].
  cbn [no_nul forallb] in H. apply andb_prop in H. destruct H as [H1 H2].
  apply negb_true_iff in H1. cbn [app List.length take_chars string_of_list_ascii].
  rewrite H1, (IH H2). reflexivity.
Qed.

Lemma src_substring_spec (c0 c1 : Compiler) (pre s rest : list ascii) :
  at_pos c0 pre (s ++ rest) -> at_pos c1 (pre ++ s) rest -> no_nul s = true ->
  src_substring c1 (pos c0) (Int.sub (pos c1) (pos c0)) = string_of_list_ascii s.
Proof.
  intros (Hs0 & Hp0 & Hl0) (Hs1 & Hp1 & Hl1) Hn.
  unfold src_substring. rewrite Hs1, Hp0, Hp1.
  unfold Int.sub. rewrite wrap_small.
  - rewrite length_app.
    replace (Z.to_nat (Z.of_nat (List.length pre + List.length s)
                       - Z.of_nat (List.length pre))) with (List.length s) by lia.
    rewrite Nat2Z.id, <- app_assoc, skipn_app, Nat.sub_diag, skipn_all. cbn [skipn app].
    apply take_chars_app. exact Hn.
  - rewrite !length_app in *. unfold Int.min_signed, Int.max_signed in *. lia.
Qed.

Lemma literal_body_no_nul (n : nat) :
  forall body, (List.length body < n)%nat -> literal_body body = true -> no_nul body = true.
Proof.
  induction n as [|n IH]; intros body Hl H; [lia|].
  destruct body as [|ch tl]; [reflexivity|].
  cbn [literal_body] in H. cbn [no_nul forallb].
  destruct (is_char ch NUL) eqn:E1; [discriminate H|]. cbn [orb negb andb] in *.
  destruct (is_char ch DQUOTE); [discriminate H|].
  destruct (is_char ch BACKSLASH).
  - destruct tl as [|nx tl']; [discriminate H|].
    apply andb_prop in H. destruct H as [H1 H2].
    cbn [forallb]. rewrite H1. cbn [andb].
    apply (IH tl'); [cbn [List.length] in Hl; lia | exact H2].
  - apply (IH tl); [cbn [List.length] in Hl; lia | exact H].
Qed.

Lemma lex_string_loop_spec (n : nat) :
  forall body c pre rest,
    at_pos c pre (body ++ DQUOTE :: rest) -> literal_body body = true ->
    (List.length body < n)%nat ->
    exists c', lex_string_loop n c = Done tt c'
               /\ at_pos c' (pre ++ body) (DQUOTE :: rest) /\ cur c' = cur c.
Proof.
  induction n as [|n IH]; intros body c pre rest Hp Hb Hl; [lia|].
  destruct body as [|ch tl].
  - exists c. rewrite app_nil_r. cbn [app] in Hp.
    split; [|split; [exact Hp|reflexivity]].
    cbn [lex_string_loop]. rewrite (bind_of_Done _ _ _ _ _ (peek_here _ _ _ _ Hp)).
    reflexivity.
  - cbn [literal_body] in Hb. cbn [app] in Hp.
    destruct (is_char ch NUL) eqn:E1; [discriminate Hb|].
    destruct (is_char ch DQUOTE) eqn:E2; [discriminate Hb|]. cbn [orb] in Hb.
    destruct (advance_spec _ _ _ _ Hp) as (c1 & Ha1 & Hp1 & Hc1).
    cbn [lex_string_loop]. rewrite (bind_of_Done _ _ _ _ _ (peek_here _ _ _ _ Hp)).
    rewrite E1, E2. cbn [negb andb].
    destruct (is_char ch BACKSLASH) eqn:E3.
    + destruct tl as [|nx tl']; [discriminate Hb|].
      apply andb_prop in Hb. destruct Hb as [_ Hb]. cbn [app] in Hp1.
      destruct (advance_spec _ _ _ _ Hp1) as (c2 & Ha2 & Hp2 & Hc2).
      destruct (IH tl' c2 _ rest Hp2 Hb ltac:(cbn [List.length] in Hl; lia))
        as (c' & Hr & Hp' & Hc').
      exists c'. rewrite <- !app_assoc in Hp'. cbn [app] in Hp'.
      split; [|split; [exact Hp'|congruence]].
      rewrite bind_assoc, (bind_of_Done _ _ _ _ _ Ha1), bind_ret.
      rewrite (bind_of_Done _ _ _ _ _ Ha2). exact Hr.
    + destruct (IH tl c1 _ rest Hp1 Hb ltac:(cbn [List.length] in Hl; lia))
        as (c' & Hr & Hp' & Hc').
      exists c'. rewrite <- !app_assoc in Hp'. cbn [app] in Hp'.
      split; [|split; [exact Hp'|congruence]].
      rewrite bind_ret, (bind_of_Done _ _ _ _ _ Ha1). exact Hr.
Qed.

(** A string literal lexes to a string token that carries the bytes between
    the quotes exactly as written: escape sequences are not decoded, and a
    backslash keeps the byte after it -- also a double quote -- inside the
    literal.  The lexer stops right after the closing quote. *)
Theorem lex_string_literal_verbatim
  (fuel : nat) (body rest : list ascii) (arm64 linux : bool) :
  literal_body body = true ->
  (List.length body + 2 <= fuel)%nat ->
  Z.of_nat (List.length (quoted body rest)) < Int.max_signed ->
  exists c',
    next_token fuel (init_compiler (string_of_list_ascii (quoted body rest)) arm64 linux)
    = Done tt c'
    /\ type (cur c') = TOK_STR
    /\ str (cur c') = string_of_list_ascii body
    /\ pos c' = Z.of_nat (List.length body) + 2.
Proof.
  intros Hb Hf Hl.
  pose proof (init_at_pos (quoted body rest) arm64 linux Hl) as Hp0.
  set (c0 := init_compiler (string_of_list_ascii (quoted body rest)) arm64 linux) in *.
  destruct fuel as [|fuel]; [lia|].
  assert (Hs : skip_whitespace (S fuel) c0 = Done tt c0).
  { apply (skip_whitespace_plain fuel c0 [] _ Hp0). split; reflexivity. }
  set (c1 := set_tok_pos (cline c0) (col c0) c0).
  assert (Hp1 : at_pos c1 [] (quoted body rest)) by exact Hp0.
  unfold quoted in Hp1.
  destruct (advance_spec _ _ _ _ Hp1) as (c2 & Ha & Hp2 & Hc2). cbn [app] in Hp2.
  destruct (lex_string_loop_spec (S fuel) body c2 _ rest Hp2 Hb ltac:(lia))
    as (c3 & Hloop & Hp3 & Hc3).
  pose proof (src_substring_spec c2 c3 [DQUOTE] body (DQUOTE :: rest) Hp2 Hp3
                (literal_body_no_nul (S (List.length body)) body ltac:(lia) Hb)) as Hsub.
  set (c4 := set_str (string_of_list_ascii body) c3).
  assert (Hp4 : at_pos c4 ([DQUOTE] ++ body) (DQUOTE :: rest)) by exact Hp3.
  destruct (advance_spec _ _ _ _ Hp4) as (c5 & Ha5 & Hp5 & Hc5).
  exists (set_type TOK_STR c5).
  split; [|split; [reflexivity|split]].
  - unfold next_token. rewrite (bind_of_Done _ _ _ _ _ Hs), bind_modify. fold c1.
    rewrite (bind_of_Done _ _ _ _ _ (peek_here _ _ _ _ Hp1)).
    change (is_char DQUOTE NUL) with false.
    change (isalpha DQUOTE || is_char DQUOTE "_") with false.
    change (isdigit DQUOTE) with false.
    change (is_char DQUOTE DQUOTE) with true. cbv iota.
    rewrite (bind_of_Done _ _ _ _ _ Ha), bind_get.
    rewrite (bind_of_Done _ _ _ _ _ Hloop), bind_get.
    rewrite Hsub, bind_modify. fold c4.
    rewrite (bind_of_Done _ _ _ _ _ (peek_here _ _ _ _ Hp4)).
    change (is_char DQUOTE DQUOTE) with true. cbv iota.
    rewrite bind_assoc, (bind_of_Done _ _ _ _ _ Ha5), bind_ret. reflexivity.
  - cbn. rewrite Hc5. reflexivity.
  - destruct Hp5 as (_ & Hpos & _). cbn. rewrite Hpos, !length_app. cbn [List.length]. lia.
Qed.

Lemma lex_string_literal_verbatim_witness :
  exists c',
    next_token 12 (init_compiler
                     (string_of_list_ascii
                        (quoted [BACKSLASH; DQUOTE; "h"%char; "i"%char; BACKSLASH; "n"%char]
                                [";"%char])) true false)
    = Done tt c'
    /\ type (cur c') = TOK_STR
    /\ str (cur c')
       = string_of_list_ascii [BACKSLASH; DQUOTE; "h"%char; "i"%char; BACKSLASH; "n"%char]
    /\ pos c' = 8.
Proof.
  refine (lex_string_literal_verbatim
            12 [BACKSLASH; DQUOTE; "h"%char; "i"%char; BACKSLASH; "n"%char]
            [";"%char] true false _ _ _).
  - reflexivity.
  - vm_compute. lia.
  - vm_compute. reflexivity.
Defined.

Lemma ident_char_facts (ch : ascii) :
  is_ident_char ch = true ->
  is_char ch NUL = false /\ is_space ch = false /\ is_char ch "/" = false.
Proof.
  destruct ch as [[] [] [] [] [] [] [] []]; cbn; intros H;
    try discriminate H; repeat split.
Qed.

Lemma ident_chars_no_nul (w : list ascii) :
  forallb is_ident_char w = true -> no_nul w = true.
Proof.
  induction w as [|ch w IH]; [reflexivity|]. cbn [forallb no_nul]. intros H.
  apply andb_prop in H. destruct H as [H1 H2].
  destruct (ident_char_facts ch H1) as (F & _). rewrite F. cbn [negb andb].
  exact (IH H2).
Qed.

Lemma lex_ident_loop_spec (w : list ascii) :
  forall (n : nat) c pre rest,
    at_pos c pre (w ++ rest) -> forallb is_ident_char w = true -> word_end rest ->
    (List.length w < n)%nat ->
    exists c', lex_ident_loop n c = Done tt c'
               /\ at_pos c' (pre ++ w) rest /\ cur c' = cur c.
Proof.
  induction w as [|ch w IH]; intros n c pre rest Hp Hw He Hn.
  - destruct n as [|n]; [cbn in Hn; lia|]. exists c. rewrite app_nil_r. cbn [app] in Hp.
    split; [|split; [exact Hp|reflexivity]].
    cbn [lex_ident_loop]. destruct rest as [|x rest].
    + rewrite (bind_of_Done _ _ _ _ _ (peek_end _ _ Hp)). reflexivity.
    + rewrite (bind_of_Done _ _ _ _ _ (peek_here _ _ _ _ Hp)).
      cbn [word_end] in He. unfold is_ident_char in He. rewrite He. reflexivity.
  - destruct n as [|n]; [cbn in Hn; lia|].
    cbn [forallb] in Hw. apply andb_prop in Hw. destruct Hw as [Hw1 Hw2].
    cbn [app] in Hp.
    destruct (advance_spec _ _ _ _ Hp) as (c1 & Ha & Hp1 & Hc1).
    destruct (IH n c1 _ rest Hp1 Hw2 He ltac:(cbn [List.length] in Hn; lia))
      as (c' & Hr & Hp' & Hc').
    exists c'. rewrite <- app_assoc in Hp'. cbn [app] in Hp'.
    split; [|split; [exact Hp'|congruence]].
    cbn [lex_ident_loop]. rewrite (bind_of_Done _ _ _ _ _ (peek_here _ _ _ _ Hp)).
    unfold is_ident_char in Hw1. rewrite Hw1.
    rewrite (bind_of_Done _ _ _ _ _ Ha). exact Hr.
Qed.

(** A word -- a letter or an underscore followed by letters, digits and
    underscores, up to the first byte that is none of these -- lexes as one
    token that carries the whole word: its type is the keyword's when the
    word is exactly one of [int void if else while for return], and the
    identifier type otherwise, also when a keyword is only its prefix. *)
Theorem lex_word_is_one_token
  (fuel : nat) (w rest : list ascii) (arm64 linux : bool) :
  is_word w -> word_end rest ->
  (List.length w + 1 <= fuel)%nat ->
  Z.of_nat (List.length (w ++ rest)%list) < Int.max_signed ->
  exists c',
    next_token fuel (init_compiler (string_of_list_ascii (w ++ rest)%list) arm64 linux)
    = Done tt c'
    /\ str (cur c') = string_of_list_ascii w
    /\ type (cur c') = keyword_type (string_of_list_ascii w)
    /\ pos c' = Z.of_nat (List.length w).
Proof.
  intros Hw He Hf Hl.
  pose proof (init_at_pos (w ++ rest)%list arm64 linux Hl) as Hp0.
  set (c0 := init_compiler (string_of_list_ascii (w ++ rest)%list) arm64 linux) in *.
  destruct w as [|ch w]; [destruct Hw|]. destruct Hw as [Hw1 Hw2].
  assert (Hall : forallb is_ident_char (ch :: w) = true).
  { cbn [forallb]. rewrite Hw2, andb_true_r. unfold is_ident_char, isalnum.
    apply orb_prop in Hw1. destruct Hw1 as [-> | ->]; [reflexivity|].
    apply orb_true_r. }
  assert (Hich : is_ident_char ch = true).
  { cbn [forallb] in Hall. apply andb_prop in Hall. exact (proj1 Hall). }
  destruct (ident_char_facts ch Hich) as (F1 & F2 & F3).
  destruct fuel as [|fuel]; [lia|].
  assert (Hs : skip_whitespace (S fuel) c0 = Done tt c0).
  { apply (skip_whitespace_plain fuel c0 [] _ Hp0). cbn [app]. split; assumption. }
  set (c1 := set_tok_pos (cline c0) (col c0) c0).
  assert (Hp1 : at_pos c1 [] ((ch :: w) ++ rest)) by exact Hp0.
  destruct (lex_ident_loop_spec (ch :: w) (S fuel) c1 [] rest Hp1 Hall He
              ltac:(cbn [List.length] in *; lia)) as (c2 & Hloop & Hp2 & Hc2).
  pose proof (src_substring_spec c1 c2 [] (ch :: w) rest Hp1 Hp2
                (ident_chars_no_nul _ Hall)) as Hsub.
  eexists. split; [|split; [|split]].
  - unfold next_token. rewrite (bind_of_Done _ _ _ _ _ Hs), bind_modify. fold c1.
    cbn [app] in Hp1.
    rewrite (bind_of_Done _ _ _ _ _ (peek_here _ _ _ _ Hp1)).
    rewrite F1, Hw1. rewrite bind_get, (bind_of_Done _ _ _ _ _ Hloop), bind_get.
    cbv zeta. rewrite Hsub, !bind_modify. reflexivity.
  - reflexivity.
  - reflexivity.
  - destruct Hp2 as (_ & Hpos & _). cbn. exact Hpos.
Qed.

Lemma lex_word_is_one_token_witness :
  exists c',
    next_token 8 (init_compiler "integer x;" false false) = Done tt c'
    /\ str (cur c') = "integer"
    /\ type (cur c') = TOK_IDENT
    /\ pos c' = 7.
Proof.
  refine (lex_word_is_one_token 8 (list_of_string "integer") (list_of_string " x;")
                                false false _ _ _ _).
  - split; reflexivity.
  - reflexivity.
  - vm_compute. lia.
  - vm_compute. reflexivity.
Defined.

(** ** What each phase leaves alone *)

Section PreservesRules.

Context {R : Compiler -> Compiler -> Prop} {FR : Frame R}.

Lemma preserves_ret {A} (a : A) : preserves R (ret a).
Proof. intros c. apply frame_refl. Qed.

Lemma preserves_get : preserves R get.
Proof. intros c. apply frame_refl. Qed.

Lemma preserves_error {A} f l : preserves R (@error A f l).
Proof. intros c. split; [apply frame_refl|split; reflexivity]. Qed.

Lemma preserves_fault {A} f : preserves R (@raise_fault A f).
Proof. intros c. apply frame_refl. Qed.

Lemma preserves_timeout {A} : preserves R (@timeout A).
Proof. intros c. exact I. Qed.

Lemma preserves_modify (f : Compiler -> Compiler) :
  (forall c, R c (f c)) -> preserves R (modify f).
Proof. intros H c. apply H. Qed.

Lemma preserves_bind {A B} (m : M A) (k : A -> M B) :
  preserves R m -> (forall a, preserves R (k a)) -> preserves R (bind m k).
Proof.
  intros Hm Hk c. specialize (Hm c). unfold bind.
  destruct (m c) as [a c1| | |]; try exact Hm.
  specialize (Hk a c1). destruct (k a c1) as [b c2|d c2|f c2|]; try exact I.
  - exact (frame_trans _ _ _ Hm Hk).
  - destruct Hk as (Hk & Hd). split; [exact (frame_trans _ _ _ Hm Hk)|exact Hd].
  - exact (frame_trans _ _ _ Hm Hk).
Qed.

Lemma preserves_src_at (i : Z) : preserves R (src_at i).
Proof.
  intros c. unfold src_at.
  destruct (i <? 0); [apply frame_refl|].
  destruct (nth_error (src c) (Z.to_nat i)); [apply frame_refl|].
  destruct (i =? Z.of_nat (List.length (src c))); apply frame_refl.
Qed.

Lemma preserves_peek : preserves R peek.
Proof. intros c. apply preserves_src_at. Qed.

Lemma preserves_is_tok (t : TokenType) : preserves R (is_tok t).
Proof. intros c. apply frame_refl. Qed.

Lemma preserves_cur_type : preserves R cur_type.
Proof. intros c. apply frame_refl. Qed.

Lemma preserves_find_symbol (name : string) : preserves R (find_symbol name).
Proof. intros c. apply frame_refl. Qed.

Lemma preserves_sym_prefix : preserves R sym_prefix.
Proof. intros c. apply frame_refl. Qed.

Lemma preserves_for_each {A} (f : A -> M unit) (l : list A) :
  (forall a, preserves R (f a)) -> preserves R (for_each f l).
Proof.
  intros H. induction l as [|x l IH]; cbn [for_each];
    [apply preserves_ret | apply preserves_bind; auto].
Qed.

Lemma preserves_for_each_from {A} (f : Z -> A -> M unit) (l : list A) :
  (forall i a, preserves R (f i a)) -> forall i, preserves R (for_each_from f i l).
Proof.
  intros H. induction l as [|x l IH]; intros i; cbn [for_each_from];
    [apply preserves_ret | apply preserves_bind; auto].
Qed.

Lemma preserves_when (b : bool) (m : M unit) :
  preserves R m -> preserves R (when b m).
Proof. intros H. destruct b; [exact H | apply preserves_ret]. Qed.

Lemma preserves_opt_iter {A} (f : A -> M unit) (o : option A) :
  (forall a, preserves R (f a)) -> preserves R (opt_iter f o).
Proof. intros H. destruct o; [apply H | apply preserves_ret]. Qed.

End PreservesRules.

Create HintDb preserves discriminated.

#[local] Hint Resolve preserves_ret preserves_get preserves_error preserves_fault
  preserves_timeout preserves_src_at preserves_peek preserves_is_tok
  preserves_cur_type preserves_find_symbol preserves_sym_prefix : preserves.

Ltac frame_step :=
  match goal with
  | |- preserves _ (let _ := _ in _) => cbv zeta
  | |- preserves _ (bind _ _) => apply preserves_bind; [|intros ?]
  | |- preserves _ (for_each _ _) => apply preserves_for_each; intros ?
  | |- preserves _ (for_each_from _ _ _) => apply preserves_for_each_from; intros ? ?
  | |- preserves _ (when _ _) => apply preserves_when
  | |- preserves _ (opt_iter _ _) => apply preserves_opt_iter; intros ?
  | |- preserves _ (if ?b then _ else _) => destruct b
  | |- preserves _ (match ?x with _ => _ end) => destruct x
  | |- preserves _ _ => solve [eauto with preserves]
  end.

(** *** The lexer *)

Section LexerLoops.

Context {R : Compiler -> Compiler -> Prop} {FR : Frame R}.
Hypothesis H_adv : preserves R advance.
Hypothesis H_type : forall v c, R c (set_type v c).
Hypothesis H_str : forall v c, R c (set_str v c).
Hypothesis H_num : forall v c, R c (set_num v c).
Hypothesis H_tok_pos : forall l k c, R c (set_tok_pos l k c).

Hint Resolve H_adv : preserves.
Hint Extern 1 (preserves _ (modify (set_type _))) =>
  apply preserves_modify; intros; apply H_type : preserves.
Hint Extern 1 (preserves _ (modify (set_str _))) =>
  apply preserves_modify; intros; apply H_str : preserves.
Hint Extern 1 (preserves _ (modify (set_num _))) =>
  apply preserves_modify; intros; apply H_num : preserves.

Lemma preserves_skip_line_comment (n : nat) : preserves R (skip_line_comment n).
Proof. induction n; cbn [skip_line_comment]; repeat frame_step. Qed.

Lemma preserves_skip_block_comment (n : nat) : preserves R (skip_block_comment n).
Proof. induction n; cbn [skip_block_comment]; repeat frame_step. Qed.

Hint Resolve preserves_skip_line_comment preserves_skip_block_comment : preserves.

Lemma preserves_skip_whitespace (n : nat) : preserves R (skip_whitespace n).
Proof. induction n; cbn [skip_whitespace]; repeat frame_step. Qed.

Lemma preserves_lex_ident_loop (n : nat) : preserves R (lex_ident_loop n).
Proof. induction n; cbn [lex_ident_loop]; repeat frame_step. Qed.

Lemma preserves_lex_number_loop (n : nat) : preserves R (lex_number_loop n).
Proof. induction n; cbn [lex_number_loop]; repeat frame_step. Qed.

Lemma preserves_lex_string_loop (n : nat) : preserves R (lex_string_loop n).
Proof. induction n; cbn [lex_string_loop]; repeat frame_step. Qed.

Lemma preserves_two_char (x : ascii) (yes no : TokenType) :
  preserves R (two_char x yes no).
Proof. unfold two_char. repeat frame_step. Qed.

Hint Resolve preserves_skip_whitespace preserves_lex_ident_loop
  preserves_lex_number_loop preserves_lex_string_loop preserves_two_char : preserves.

Lemma next_token_from_advance (fuel : nat) : preserves R (next_token fuel).
Proof.
  unfold next_token. repeat frame_step.
  apply preserves_modify. intros c. apply H_tok_pos.
Qed.

End LexerLoops.

Section LexerFrame.

Context {R : Compiler -> Compiler -> Prop} {FR : Frame R}.
Hypothesis H_pos : forall v c, R c (set_pos v c).
Hypothesis H_line : forall v c, R c (set_line v c).
Hypothesis H_col : forall v c, R c (set_col v c).
Hypothesis H_type : forall v c, R c (set_type v c).
Hypothesis H_str : forall v c, R c (set_str v c).
Hypothesis H_num : forall v c, R c (set_num v c).
Hypothesis H_tok_pos : forall l k c, R c (set_tok_pos l k c).

Lemma preserves_advance : preserves R advance.
Proof.
  unfold advance. repeat frame_step.
  - apply preserves_modify. intros c. apply H_pos.
  - apply preserves_modify. intros c.
    exact (frame_trans _ _ _ (H_line _ c) (H_col _ _)).
  - apply preserves_modify. intros c. apply H_col.
Qed.

Lemma preserves_next_token (fuel : nat) : preserves R (next_token fuel).
Proof.
  apply next_token_from_advance;
    auto using preserves_advance, H_type, H_str, H_num, H_tok_pos.
Qed.

End LexerFrame.

(** *** The parser, given what [next_token] preserves *)

Section ParserFrame.

Context {R : Compiler -> Compiler -> Prop} {FR : Frame R}.
Variable fuel : nat.
Hypothesis H_next : preserves R (next_token fuel).

Hint Resolve H_next : preserves.

Lemma preserves_accept (t : TokenType) : preserves R (accept fuel t).
Proof. unfold accept. repeat frame_step. Qed.

Hint Resolve preserves_accept : preserves.

Lemma preserves_expect (t : TokenType) : preserves R (expect fuel t).
Proof. unfold expect. repeat frame_step. Qed.

Hint Resolve preserves_expect : preserves.

Section Levels.

Variable pe : M AST.
Hypothesis Hpe : preserves R pe.

Hint Resolve Hpe : preserves.

Lemma preserves_call_args_loop (n : nat) :
  forall args, preserves R (call_args_loop fuel pe n args).
Proof. induction n; intros args; cbn [call_args_loop]; repeat frame_step. Qed.

Hint Resolve preserves_call_args_loop : preserves.

Lemma preserves_parse_primary : preserves R (parse_primary fuel pe).
Proof. unfold parse_primary. repeat frame_step. Qed.

Hint Resolve preserves_parse_primary : preserves.

Lemma preserves_parse_unary (n : nat) : preserves R (parse_unary fuel pe n).
Proof. induction n; cbn [parse_unary]; repeat frame_step. Qed.

Hint Resolve preserves_parse_unary : preserves.

Lemma preserves_multiplicative_loop (n : nat) :
  forall e, preserves R (multiplicative_loop fuel pe n e).
Proof. induction n; intros e; cbn [multiplicative_loop]; repeat frame_step. Qed.

Hint Resolve preserves_multiplicative_loop : preserves.

Lemma preserves_parse_multiplicative : preserves R (parse_multiplicative fuel pe).
Proof. unfold parse_multiplicative. repeat frame_step. Qed.

Hint Resolve preserves_parse_multiplicative : preserves.

Lemma preserves_additive_loop (n : nat) :
  forall e, preserves R (additive_loop fuel pe n e).
Proof. induction n; intros e; cbn [additive_loop]; repeat frame_step. Qed.

Hint Resolve preserves_additive_loop : preserves.

Lemma preserves_parse_additive : preserves R (parse_additive fuel pe).
Proof. unfold parse_additive. repeat frame_step. Qed.

Hint Resolve preserves_parse_additive : preserves.

Lemma preserves_relational_loop (n : nat) :
  forall e, preserves R (relational_loop fuel pe n e).
Proof. induction n; intros e; cbn [relational_loop]; repeat frame_step. Qed.

Hint Resolve preserves_relational_loop : preserves.

Lemma preserves_parse_relational : preserves R (parse_relational fuel pe).
Proof. unfold parse_relational. repeat frame_step. Qed.

Hint Resolve preserves_parse_relational : preserves.

Lemma preserves_equality_loop (n : nat) :
  forall e, preserves R (equality_loop fuel pe n e).
Proof. induction n; intros e; cbn [equality_loop]; repeat frame_step. Qed.

Hint Resolve preserves_equality_loop : preserves.

Lemma preserves_parse_equality : preserves R (parse_equality fuel pe).
Proof. unfold parse_equality. repeat frame_step. Qed.

Hint Resolve preserves_parse_equality : preserves.

Lemma preserves_logical_and_loop (n : nat) :
  forall e, preserves R (logical_and_loop fuel pe n e).
Proof. induction n; intros e; cbn [logical_and_loop]; repeat frame_step. Qed.

Hint Resolve preserves_logical_and_loop : preserves.

Lemma preserves_parse_logical_and : preserves R (parse_logical_and fuel pe).
Proof. unfold parse_logical_and. repeat frame_step. Qed.

Hint Resolve preserves_parse_logical_and : preserves.

Lemma preserves_logical_or_loop (n : nat) :
  forall e, preserves R (logical_or_loop fuel pe n e).
Proof. induction n; intros e; cbn [logical_or_loop]; repeat frame_step. Qed.

Hint Resolve preserves_logical_or_loop : preserves.

Lemma preserves_parse_logical_or : preserves R (parse_logical_or fuel pe).
Proof. unfold parse_logical_or. repeat frame_step. Qed.

Hint Resolve preserves_parse_logical_or : preserves.

Lemma preserves_parse_assignment (n : nat) : preserves R (parse_assignment fuel pe n).
Proof. induction n; cbn [parse_assignment]; repeat frame_step. Qed.

End Levels.

Lemma preserves_parse_expr_depth (d : nat) : preserves R (parse_expr_depth fuel d).
Proof.
  induction d as [|d IH]; cbn [parse_expr_depth]; [apply preserves_timeout|].
  apply preserves_parse_assignment. exact IH.
Qed.

Lemma preserves_parse_expr : preserves R (parse_expr fuel).
Proof. apply preserves_parse_expr_depth. Qed.

Hint Resolve preserves_parse_expr : preserves.

Lemma preserves_parse_array_suffix : preserves R (parse_array_suffix fuel).
Proof. unfold parse_array_suffix. repeat frame_step. Qed.

Lemma preserves_parse_initializer : preserves R (parse_initializer fuel).
Proof. unfold parse_initializer. repeat frame_step. Qed.

Hint Resolve preserves_parse_array_suffix preserves_parse_initializer : preserves.

Section Statements.

Variable ps : M AST.
Hypothesis Hps : preserves R ps.

Hint Resolve Hps : preserves.

Lemma preserves_block_loop (n : nat) :
  forall stmts, preserves R (block_loop ps n stmts).
Proof. induction n; intros stmts; cbn [block_loop]; repeat frame_step. Qed.

Hint Resolve preserves_block_loop : preserves.

Lemma preserves_parse_block : preserves R (parse_block fuel ps).
Proof. unfold parse_block. repeat frame_step. Qed.

Hint Resolve preserves_parse_block : preserves.

Lemma preserves_parse_stmt_body : preserves R (parse_stmt_body fuel ps).
Proof. unfold parse_stmt_body. repeat frame_step. Qed.

End Statements.

Lemma preserves_parse_stmt_depth (d : nat) : preserves R (parse_stmt_depth fuel d).
Proof.
  induction d as [|d IH]; cbn [parse_stmt_depth]; [apply preserves_timeout|].
  apply preserves_parse_stmt_body. exact IH.
Qed.

Lemma preserves_parse_stmt : preserves R (parse_stmt fuel).
Proof. apply preserves_parse_stmt_depth. Qed.

Lemma preserves_params_loop (n : nat) :
  forall params, preserves R (params_loop fuel n params).
Proof. induction n; intros params; cbn [params_loop]; repeat frame_step. Qed.

Lemma preserves_program_loop (n : nat) :
  forall funcs globals, preserves R (program_loop fuel n funcs globals).
Proof.
  pose proof (preserves_parse_block _ preserves_parse_stmt) as Hb.
  pose proof (preserves_params_loop fuel) as Hp.
  induction n; intros funcs globals; cbn [program_loop]; repeat frame_step.
Qed.

Lemma preserves_parse : preserves R (next_token fuel ;; do_parse_program fuel).
Proof.
  apply preserves_bind; [exact H_next|]. intros ?. apply preserves_program_loop.
Qed.

End ParserFrame.

(** *** The expression generators, given what their primitives preserve *)

Section ExprFrame.

Context {R : Compiler -> Compiler -> Prop} {FR : Frame R}.
Hypothesis H_emit : forall f a, preserves R (emit f a).
Hypothesis H_label : preserves R new_label.
Hypothesis H_string : forall s, preserves R (add_string s).

Hint Resolve H_emit H_label H_string : preserves.

Lemma preserves_push_args_arm64 (g : AST -> M unit) (args : list AST) :
  (forall a, preserves R (g a)) -> forall k, preserves R (Arm64.push_args g args k).
Proof. intros Hg. induction k; cbn [Arm64.push_args]; repeat frame_step. Qed.

Lemma preserves_pop_args_arm64 (nargs : Z) (n : nat) :
  forall i, preserves R (Arm64.pop_args nargs n i).
Proof. induction n; intros i; cbn [Arm64.pop_args]; repeat frame_step. Qed.

Lemma preserves_gen_binop_tail_arm64 (op : TokenType) :
  preserves R (Arm64.gen_binop_tail op).
Proof. unfold Arm64.gen_binop_tail. repeat frame_step. Qed.

Hint Resolve preserves_push_args_arm64 preserves_pop_args_arm64
  preserves_gen_binop_tail_arm64 : preserves.

Lemma preserves_gen_expr_arm64 (depth : nat) :
  forall node, preserves R (Arm64.gen_expr_arm64 depth node).
Proof.
  induction depth as [|d IH]; intros node; cbn [Arm64.gen_expr_arm64];
    [apply preserves_timeout|].
  unfold Arm64.gen_expr_body. repeat frame_step.
Qed.

Lemma preserves_push_args_x64 (g : AST -> M unit) (args : list AST) :
  (forall a, preserves R (g a)) -> forall k, preserves R (X64.push_args g args k).
Proof. intros Hg. induction k; cbn [X64.push_args]; repeat frame_step. Qed.

Lemma preserves_pop_args_x64 (nargs : Z) (n : nat) :
  forall i, preserves R (X64.pop_args nargs n i).
Proof. induction n; intros i; cbn [X64.pop_args]; repeat frame_step. Qed.

Lemma preserves_gen_setcc (cc : string) : preserves R (X64.gen_setcc cc).
Proof. unfold X64.gen_setcc. repeat frame_step. Qed.

Hint Resolve preserves_gen_setcc : preserves.

Lemma preserves_gen_binop_tail_x64 (op : TokenType) :
  preserves R (X64.gen_binop_tail op).
Proof. unfold X64.gen_binop_tail. repeat frame_step. Qed.

Hint Resolve preserves_push_args_x64 preserves_pop_args_x64
  preserves_gen_binop_tail_x64 : preserves.

Lemma preserves_gen_expr_x64 (depth : nat) :
  forall node, preserves R (X64.gen_expr_x64 depth node).
Proof.
  induction depth as [|d IH]; intros node; cbn [X64.gen_expr_x64];
    [apply preserves_timeout|].
  unfold X64.gen_expr_body. repeat frame_step.
Qed.

Hint Resolve preserves_gen_expr_arm64 preserves_gen_expr_x64 : preserves.

(** *** The statement generators *)

Hypothesis H_declare : forall name a n, preserves R (declare_local name a n).

Hint Resolve H_declare : preserves.

Lemma preserves_gen_stmt_depth_arm64 (fuel depth : nat) :
  forall node, preserves R (Arm64.gen_stmt_depth fuel depth node).
Proof.
  induction depth as [|d IH]; intros node; cbn [Arm64.gen_stmt_depth];
    [apply preserves_timeout|].
  unfold Arm64.gen_stmt_body. repeat frame_step.
Qed.

Lemma preserves_gen_stmt_depth_x64 (fuel depth : nat) :
  forall node, preserves R (X64.gen_stmt_depth fuel depth node).
Proof.
  induction depth as [|d IH]; intros node; cbn [X64.gen_stmt_depth];
    [apply preserves_timeout|].
  unfold X64.gen_stmt_body. repeat frame_step.
Qed.

Lemma preserves_gen_stmt_arm64 (fuel : nat) (node : AST) :
  preserves R (Arm64.gen_stmt_arm64 fuel node).
Proof. apply preserves_gen_stmt_depth_arm64. Qed.

Lemma preserves_gen_stmt_x64 (fuel : nat) (node : AST) :
  preserves R (X64.gen_stmt_x64 fuel node).
Proof. apply preserves_gen_stmt_depth_x64. Qed.

Hint Resolve preserves_gen_stmt_arm64 preserves_gen_stmt_x64 : preserves.

(** *** Functions and programs *)

Hypothesis H_offset : forall v c, R c (set_stack_offset v c).
Hypothesis H_symbols : forall v c, R c (set_symbols v c).

Lemma preserves_add_symbol (name : string) (g p : bool) (i : Z) :
  preserves R (add_symbol name g p i).
Proof.
  unfold add_symbol. repeat frame_step.
  - apply preserves_modify. intros c.
    exact (frame_trans _ _ _ (H_symbols _ c) (H_offset _ _)).
  - apply preserves_modify. intros c. apply H_symbols.
Qed.

Lemma preserves_update_last_symbol (f : Symbol -> Symbol) :
  preserves R (update_last_symbol f).
Proof.
  apply preserves_modify. intros c.
  destruct (rev (symbols c)); [apply frame_refl | apply H_symbols].
Qed.

Hint Resolve preserves_add_symbol preserves_update_last_symbol : preserves.
Hint Extern 1 (preserves _ (modify (set_stack_offset _))) =>
  apply preserves_modify; intros; apply H_offset : preserves.
Hint Extern 1 (preserves _ (modify (fun c => set_symbols _ c))) =>
  apply preserves_modify; intros; apply H_symbols : preserves.

Lemma preserves_declare_global (g : AST) : preserves R (declare_global g).
Proof. unfold declare_global. repeat frame_step. Qed.

Lemma preserves_gen_func_arm64 (fuel : nat) (node : AST) :
  preserves R (Arm64.gen_func_arm64 fuel node).
Proof. unfold Arm64.gen_func_arm64. repeat frame_step. Qed.

Lemma preserves_save_params (params : list string) :
  forall i, preserves R (X64.save_params i params).
Proof. induction params; intros i; cbn [X64.save_params]; repeat frame_step. Qed.

Hint Resolve preserves_save_params : preserves.

Lemma preserves_gen_func_x64 (fuel : nat) (node : AST) :
  preserves R (X64.gen_func_x64 fuel node).
Proof. unfold X64.gen_func_x64. repeat frame_step. Qed.

Lemma preserves_gen_global_data (align : bool) (prefix : string) (g : AST) :
  preserves R (gen_global_data align prefix g).
Proof. unfold gen_global_data. repeat frame_step. Qed.

Lemma preserves_gen_strings (prefix : string) : preserves R (gen_strings prefix).
Proof. unfold gen_strings. repeat frame_step. Qed.

Hint Resolve preserves_declare_global preserves_gen_func_arm64 preserves_gen_func_x64
  preserves_gen_global_data preserves_gen_strings : preserves.

Lemma preserves_gen_program_arm64 (fuel : nat) (node : AST) :
  preserves R (gen_program_arm64 fuel node).
Proof. unfold gen_program_arm64. repeat frame_step. Qed.

Lemma preserves_gen_program_x64 (fuel : nat) (node : AST) :
  preserves R (gen_program_x64 fuel node).
Proof. unfold gen_program_x64. repeat frame_step. Qed.

End ExprFrame.

(** *** Instances *)

#[local] Instance same_but_cursor_frame : Frame same_but_cursor.
Proof.
  split.
  - intros c. repeat split.
  - intros c1 c2 c3 (A1 & A2 & A3 & A4 & A5 & A6 & A7 & A8)
           (B1 & B2 & B3 & B4 & B5 & B6 & B7 & B8).
    repeat split; congruence.
Qed.

#[local] Instance same_frame_frame : Frame same_frame.
Proof.
  split.
  - intros c. split; reflexivity.
  - intros c1 c2 c3 [A1 A2] [B1 B2]. split; congruence.
Qed.

#[local] Instance codegen_frame_frame : Frame codegen_frame.
Proof.
  split.
  - intros c. split; [repeat split|].
    split; exists []; symmetry; apply app_nil_r.
  - intros c1 c2 c3 ((A1 & A2 & A3 & A4 & A5 & A6 & A7) & (l1 & Al) & (s1 & As))
           ((B1 & B2 & B3 & B4 & B5 & B6 & B7) & (l2 & Bl) & (s2 & Bs)).
    split; [repeat split; congruence|]. split.
    + exists (l1 ++ l2)%list. rewrite Bl, Al, app_assoc. reflexivity.
    + exists (s1 ++ s2)%list. rewrite Bs, As, app_assoc. reflexivity.
Qed.

#[local] Hint Resolve same_but_cursor_frame same_frame_frame codegen_frame_frame
  : preserves.

(** While it lexes and parses, the compiler changes nothing of its state
    but the cursor ([pos], [line], [col]) and the current token: the source,
    the symbol table, the frame counter, the output, the label counter, the
    string table and the target flags are what they were, whether the parser
    returns a program, calls [error] or leaves defined behaviour.  A
    diagnostic of the lexer or the parser carries the line and the column
    the cursor has at that moment. *)
Theorem parser_changes_only_cursor_and_token (fuel : nat) :
  preserves same_but_cursor (next_token fuel ;; do_parse_program fuel).
Proof.
  apply preserves_parse.
  apply preserves_next_token; intros; repeat split.
Qed.

Lemma emit_same_frame (f : string) (a : list fmt_arg) : preserves same_frame (emit f a).
Proof. apply preserves_modify. intros c. split; reflexivity. Qed.

Lemma new_label_same_frame : preserves same_frame new_label.
Proof. intros c. split; reflexivity. Qed.

Lemma add_string_same_frame (s : string) : preserves same_frame (add_string s).
Proof.
  intros c. unfold add_string. rewrite bind_get.
  destruct (256 <=? nstrings c); split; reflexivity.
Qed.

Lemma gen_expr_arm64_same_frame (depth : nat) (node : AST) :
  preserves same_frame (Arm64.gen_expr_arm64 depth node).
Proof.
  apply preserves_gen_expr_arm64;
    auto using emit_same_frame, new_label_same_frame, add_string_same_frame.
Qed.

Lemma gen_expr_x64_same_frame (depth : nat) (node : AST) :
  preserves same_frame (X64.gen_expr_x64 depth node).
Proof.
  apply preserves_gen_expr_x64;
    auto using emit_same_frame, new_label_same_frame, add_string_same_frame.
Qed.

(** Generating an expression declares nothing: on both back-ends, for every
    expression tree and from every state, the symbol table and the frame
    counter are the same afterwards, however the generation ends. *)
Theorem expressions_declare_nothing (depth : nat) (node : AST) :
  preserves same_frame (Arm64.gen_expr_arm64 depth node)
  /\ preserves same_frame (X64.gen_expr_x64 depth node).
Proof.
  split.
  - apply gen_expr_arm64_same_frame.
  - apply gen_expr_x64_same_frame.
Qed.

Lemma codegen_frame_fields (c c' : Compiler) :
  src c' = src c -> pos c' = pos c -> cline c' = cline c -> col c' = col c ->
  cur c' = cur c -> is_arm64 c' = is_arm64 c -> is_linux c' = is_linux c ->
  (exists lines, out c' = (out c ++ lines)%list) ->
  (exists strs, string_literals c' = (string_literals c ++ strs)%list) ->
  codegen_frame c c'.
Proof. intros. split; [repeat split; assumption|split; assumption]. Qed.

Ltac codegen_fields :=
  apply codegen_frame_fields;
  first [ reflexivity
        | exists []; symmetry; apply app_nil_r
        | eexists; reflexivity ].

Lemma emit_codegen_frame (f : string) (a : list fmt_arg) :
  preserves codegen_frame (emit f a).
Proof. apply preserves_modify. intros c. codegen_fields. Qed.

Lemma new_label_codegen_frame : preserves codegen_frame new_label.
Proof. intros c. cbn. codegen_fields. Qed.

Lemma add_string_codegen_frame (s : string) : preserves codegen_frame (add_string s).
Proof.
  intros c. unfold add_string. rewrite bind_get.
  destruct (256 <=? nstrings c); cbn; codegen_fields.
Qed.

Lemma set_stack_offset_codegen_frame (v : Z) (c : Compiler) :
  codegen_frame c (set_stack_offset v c).
Proof. codegen_fields. Qed.

Lemma set_symbols_codegen_frame (v : list Symbol) (c : Compiler) :
  codegen_frame c (set_symbols v c).
Proof. codegen_fields. Qed.

Lemma declare_local_codegen_frame (name : string) (a : bool) (n : Z) :
  preserves codegen_frame (declare_local name a n).
Proof.
  unfold declare_local.
  pose proof (@preserves_add_symbol _ _ set_stack_offset_codegen_frame
                                    set_symbols_codegen_frame) as Ha.
  pose proof (@preserves_update_last_symbol _ _ set_symbols_codegen_frame) as Hu.
  repeat frame_step.
  apply preserves_modify. intros c. apply set_stack_offset_codegen_frame.
Qed.

Lemma gen_program_codegen_frame (fuel : nat) (node : AST) (arm64 : bool) :
  preserves codegen_frame
            (if arm64 then gen_program_arm64 fuel node else gen_program_x64 fuel node).
Proof.
  destruct arm64.
  - apply preserves_gen_program_arm64;
      auto using emit_codegen_frame, new_label_codegen_frame, add_string_codegen_frame,
        declare_local_codegen_frame, set_stack_offset_codegen_frame,
        set_symbols_codegen_frame.
  - apply preserves_gen_program_x64;
      auto using emit_codegen_frame, new_label_codegen_frame, add_string_codegen_frame,
        declare_local_codegen_frame, set_stack_offset_codegen_frame,
        set_symbols_codegen_frame.
Qed.


(** *** Diagnostics of the code generators *)

Lemma program_loop_ends_at_eof (fuel n : nat) :
  forall funcs globals c a c',
    program_loop fuel n funcs globals c = Done a c' -> type (cur c') = TOK_EOF.
Proof.
  induction n as [|n IH]; intros funcs globals c a c' H; [discriminate H|].
  cbn [program_loop] in H. rewrite bind_cur_type in H.
  destruct (negb (tok_eqb (type (cur c)) TOK_EOF)) eqn:E.
  - destruct (tok_eqb (type (cur c)) TOK_INT || tok_eqb (type (cur c)) TOK_VOID);
      [|discriminate H].
    cbv zeta in H.
    apply bind_Done in H. destruct H as (? & c1 & _ & H).
    rewrite bind_get in H.
    apply bind_Done in H. destruct H as (? & c2 & _ & H).
    rewrite bind_cur_type in H.
    destruct (tok_eqb (type (cur c2)) TOK_LPAREN).
    + apply bind_Done in H. destruct H as (? & c3 & _ & H).
      apply bind_Done in H. destruct H as (? & c4 & _ & H).
      apply bind_Done in H. destruct H as (? & c5 & _ & H).
      apply bind_Done in H. destruct H as (? & c6 & _ & H).
      apply bind_Done in H. destruct H as (? & c7 & _ & H).
      exact (IH _ _ _ _ _ H).
    + apply bind_Done in H. destruct H as (? & c3 & _ & H).
      apply bind_Done in H. destruct H as (? & c4 & _ & H).
      apply bind_Done in H. destruct H as (? & c5 & _ & H).
      apply bind_Done in H. destruct H as (? & c6 & _ & H).
      exact (IH _ _ _ _ _ H).
  - injection H as _ <-. apply negb_false_iff in E. unfold tok_eqb in E.
    destruct (TokenType_eq_dec (type (cur c)) TOK_EOF); [assumption|discriminate E].
Qed.

(** A diagnostic raised during code generation -- [Undefined variable],
    [Cannot generate expression] -- never points at the place of the error:
    the parser has consumed the whole input by then, the current token is
    the end-of-file token, and the line and column printed are those where
    the lexer stopped at the end of the source. *)
Theorem codegen_diagnostics_point_at_end_of_input
  (fuel : nat) (source : string) (arm64 linux : bool)
  (prog : AST) (c1 c2 : Compiler) (d : diagnostic) :
  (next_token fuel ;; do_parse_program fuel) (init_compiler source arm64 linux)
  = Done prog c1 ->
  compile fuel source arm64 linux = Fatal d c2 ->
  type (cur c1) = TOK_EOF /\ dline d = cline c1 /\ dcol d = col c1.
Proof.
  intros Hp Hc. split.
  - apply bind_Done in Hp. destruct Hp as (? & c0 & _ & Hp).
    exact (program_loop_ends_at_eof _ _ _ _ _ _ _ Hp).
  - rewrite compile_regroup, (bind_of_Done _ _ _ _ _ Hp) in Hc.
    pose proof (gen_program_codegen_frame fuel prog arm64 c1) as H.
    rewrite Hc in H. destruct H as (((_ & _ & Hl & Hk & _) & _) & Hdl & Hdc).
    split; congruence.
Qed.

Lemma codegen_diagnostics_point_at_end_of_input_witness :
  match (next_token 40 ;; do_parse_program 40)
          (init_compiler src_undefined_variable true false),
        compile 40 src_undefined_variable true false with
  | Done _ c1, Fatal d _ =>
      (type (cur c1) = TOK_EOF /\ dline d = cline c1 /\ dcol d = col c1)
      /\ d = mkDiag 4 1 (mkLine "Undefined variable: %s" [FStr "x"])
  | _, _ => False
  end.
Proof.
  destruct ((next_token 40 ;; do_parse_program 40)
              (init_compiler src_undefined_variable true false))
    as [prog c1| | |] eqn:Ep; [|vm_compute in Ep; discriminate Ep ..].
  destruct (compile 40 src_undefined_variable true false)
    as [u c2|d c2|f c2|] eqn:Ec;
    [vm_compute in Ec; discriminate Ec| |vm_compute in Ec; discriminate Ec ..].
  split.
  - exact (codegen_diagnostics_point_at_end_of_input _ _ _ _ _ _ _ _ Ep Ec).
  - vm_compute in Ec. injection Ec as Hd _. symmetry. exact Hd.
Defined.

(** *** Function scope *)

#[local] Instance table_grows_frame : Frame table_grows.
Proof.
  split.
  - intros c. exists []. symmetry. apply app_nil_r.
  - intros c1 c2 c3 [l1 H1] [l2 H2]. exists (l1 ++ l2)%list.
    rewrite H2, H1, app_assoc. reflexivity.
Qed.

#[local] Hint Resolve table_grows_frame : preserves.

Lemma table_grows_same (c c' : Compiler) : symbols c' = symbols c -> table_grows c c'.
Proof. intros H. exists []. rewrite H. symmetry. apply app_nil_r. Qed.

Lemma emit_grows (f : string) (a : list fmt_arg) : preserves table_grows (emit f a).
Proof. apply preserves_modify. intros c. apply table_grows_same. reflexivity. Qed.

Lemma new_label_grows : preserves table_grows new_label.
Proof. intros c. apply table_grows_same. reflexivity. Qed.

Lemma add_string_grows (s : string) : preserves table_grows (add_string s).
Proof.
  intros c. unfold add_string. rewrite bind_get.
  destruct (256 <=? nstrings c); apply table_grows_same; reflexivity.
Qed.

Lemma add_symbol_grows (name : string) (g p : bool) (i : Z) :
  preserves table_grows (add_symbol name g p i).
Proof.
  intros c. unfold add_symbol. rewrite bind_get.
  destruct (256 <=? nsymbols c); [apply table_grows_same; reflexivity|].
  destruct (negb g && negb p); cbn; eexists; reflexivity.
Qed.

Lemma declare_local_grows (name : string) (a : bool) (n : Z) :
  preserves table_grows (declare_local name a n).
Proof.
  intros c. unfold declare_local, add_symbol. rewrite bind_assoc, bind_get.
  destruct (256 <=? nsymbols c); [apply table_grows_same; reflexivity|].
  destruct a; cbn.
  - rewrite rev_app_distr. cbn. rewrite rev_involutive. eexists. reflexivity.
  - eexists. reflexivity.
Qed.

Lemma preserves_triple {A} (R : Compiler -> Compiler -> Prop) {FR : Frame R}
      (m : M A) (c0 : Compiler) :
  preserves R m -> triple (R c0) m (fun _ => R c0) (R c0).
Proof.
  intros H c Hc. specialize (H c). destruct (m c) as [a c'|d c'|f c'|]; auto.
  - exact (frame_trans _ _ _ Hc H).
  - exact (frame_trans _ _ _ Hc (proj1 H)).
  - exact (frame_trans _ _ _ Hc H).
Qed.

Lemma save_params_grows (params : list string) :
  forall i, preserves table_grows (X64.save_params i params).
Proof.
  induction params as [|p tl IH]; intros i; cbn [X64.save_params];
    [apply preserves_ret|].
  destruct (i <? 6); [|apply preserves_ret].
  apply preserves_bind; [apply add_symbol_grows|]. intros ?.
  apply preserves_bind; [apply emit_grows|]. intros ?. apply IH.
Qed.

Lemma restore_symbols (c0 : Compiler) :
  triple (table_grows c0)
         (modify (fun c => set_symbols (firstn (List.length (symbols c0)) (symbols c)) c))
         (fun _ c' => symbols c' = symbols c0) (table_grows c0).
Proof.
  apply triple_modify. intros c [added H]. cbn. rewrite H.
  rewrite firstn_app, Nat.sub_diag, firstn_all. cbn. apply app_nil_r.
Qed.

Ltac scope_step :=
  first [ eapply triple_bind;
          [ apply (preserves_triple table_grows);
            first [ apply emit_grows | apply preserves_sym_prefix ]
          | intros ? ]
        | apply restore_symbols ].

Lemma gen_func_arm64_rest (fuel : nat) (name : string) (params : list string)
      (body : AST) (c0 : Compiler) :
  triple (table_grows c0)
         (emit ".globl _%s" [FStr name] ;;
          emit ".p2align 2" [] ;;
          emit "_%s:" [FStr name] ;;
          emit "    stp x29, x30, [sp, #-16]!" [] ;;
          emit "    mov x29, sp" [] ;;
          emit "    sub sp, sp, #256" [] ;;
          for_each_from
            (fun i p => add_symbol p false true i ;;
                        emit "    str x%d, [x29, #%d]" [FInt i; FInt (param_slot i)])
            0 params ;;
          modify (set_stack_offset (Int.mul (Z.of_nat (List.length params)) 8)) ;;
          Arm64.gen_stmt_arm64 fuel body ;;
          emit "    mov sp, x29" [] ;;
          emit "    ldp x29, x30, [sp], #16" [] ;;
          emit "    ret" [] ;;
          emit EmptyString [] ;;
          modify (fun c => set_symbols (firstn (List.length (symbols c0)) (symbols c)) c))
         (fun _ c' => symbols c' = symbols c0) (table_grows c0).
Proof.
  do 6 scope_step.
  eapply triple_bind.
  { apply (preserves_triple table_grows). apply preserves_for_each_from. intros i p.
    apply preserves_bind; [apply add_symbol_grows|intros ?; apply emit_grows]. }
  intros ?. eapply triple_bind.
  { apply (preserves_triple table_grows). apply preserves_modify. intros x.
    apply table_grows_same. reflexivity. }
  intros ?. eapply triple_bind.
  { apply (preserves_triple table_grows).
    apply preserves_gen_stmt_arm64;
      auto using emit_grows, new_label_grows, add_string_grows, declare_local_grows. }
  intros ?. do 5 scope_step.
Qed.

Lemma gen_func_x64_rest (fuel : nat) (name : string) (params : list string)
      (body : AST) (c0 : Compiler) :
  triple (table_grows c0)
         (prefix <- sym_prefix ;;
          emit ".globl %s%s" [FStr prefix; FStr name] ;;
          emit "%s%s:" [FStr prefix; FStr name] ;;
          emit "    pushq %%rbp" [] ;;
          emit "    movq %%rsp, %%rbp" [] ;;
          emit "    subq $256, %%rsp" [] ;;
          X64.save_params 0 params ;;
          modify (set_stack_offset (Int.mul (Z.of_nat (List.length params)) 8)) ;;
          X64.gen_stmt_x64 fuel body ;;
          emit "    movq %%rbp, %%rsp" [] ;;
          emit "    popq %%rbp" [] ;;
          emit "    retq" [] ;;
          emit EmptyString [] ;;
          modify (fun c => set_symbols (firstn (List.length (symbols c0)) (symbols c)) c))
         (fun _ c' => symbols c' = symbols c0) (table_grows c0).
Proof.
  do 6 scope_step.
  eapply triple_bind.
  { apply (preserves_triple table_grows). apply save_params_grows. }
  intros ?. eapply triple_bind.
  { apply (preserves_triple table_grows). apply preserves_modify. intros x.
    apply table_grows_same. reflexivity. }
  intros ?. eapply triple_bind.
  { apply (preserves_triple table_grows).
    apply preserves_gen_stmt_x64;
      auto using emit_grows, new_label_grows, add_string_grows, declare_local_grows. }
  intros ?. do 5 scope_step.
Qed.

Lemma gen_func_arm64_scope (fuel : nat) (node : AST) (c : Compiler) :
  triple (fun x => x = c) (Arm64.gen_func_arm64 fuel node)
         (fun _ c' => symbols c' = symbols c) (table_grows c).
Proof.
  destruct node; try (intros x ->; apply table_grows_same; reflexivity).
  intros x ->. unfold Arm64.gen_func_arm64. rewrite bind_modify, bind_get. cbv zeta.
  exact (gen_func_arm64_rest fuel name params node (set_stack_offset 0 c)
           (set_stack_offset 0 c) (frame_refl _)).
Qed.

Lemma gen_func_x64_scope (fuel : nat) (node : AST) (c : Compiler) :
  triple (fun x => x = c) (X64.gen_func_x64 fuel node)
         (fun _ c' => symbols c' = symbols c) (table_grows c).
Proof.
  destruct node; try (intros x ->; apply table_grows_same; reflexivity).
  intros x ->. unfold X64.gen_func_x64. rewrite bind_modify, bind_get. cbv zeta.
  exact (gen_func_x64_rest fuel name params node (set_stack_offset 0 c)
           (set_stack_offset 0 c) (frame_refl _)).
Qed.

(** Parameters and locals do not outlive their function: when the
    generation of a function returns, on either back-end, the symbol table
    is exactly what it was before the function, so that no name of one
    function is visible in the next.  When the generation stops with a
    diagnostic or a fault, the table still begins with the old entries. *)
Theorem function_scope_is_dropped (fuel : nat) (node : AST) (c : Compiler) :
  match Arm64.gen_func_arm64 fuel node c with
  | Done _ c' => symbols c' = symbols c
  | Fatal _ c' | Fault _ c' => table_grows c c'
  | Timeout => True
  end
  /\ match X64.gen_func_x64 fuel node c with
     | Done _ c' => symbols c' = symbols c
     | Fatal _ c' | Fault _ c' => table_grows c c'
     | Timeout => True
     end.
Proof.
  split.
  - exact (gen_func_arm64_scope fuel node c c eq_refl).
  - exact (gen_func_x64_scope fuel node c c eq_refl).
Qed.

(** ** Every branch targets a label of its own function *)

Lemma refs_of_app (l1 l2 : list line) :
  refs_of (l1 ++ l2) = (refs_of l1 ++ refs_of l2)%list.
Proof. unfold refs_of. apply flat_map_app. Qed.

Lemma refs_of_snoc (l : list line) (x : line) :
  refs_of (l ++ [x]) = (refs_of l ++ ref_of x)%list.
Proof. rewrite refs_of_app. unfold refs_of at 2. cbn. rewrite app_nil_r. reflexivity. Qed.

Lemma closed_inv_line (before : list line) (S D : list Z) (c : Compiler) (x : line) :
  closed_inv before S D c ->
  incl (ref_of x) S ->
  closed_inv before S (label_of x ++ D) (set_out (out c ++ [x]) c).
Proof.
  intros (chunk & Ho & Hr & Hd) Hx. exists (chunk ++ [x])%list. cbn [out set_out].
  split; [rewrite Ho, app_assoc; reflexivity|]. split.
  - rewrite refs_of_snoc, labels_of_snoc. intros n Hn.
    apply in_app_or in Hn. destruct Hn as [Hn|Hn].
    + specialize (Hr n Hn). apply in_app_or in Hr. apply in_or_app.
      destruct Hr as [Hr|Hr]; [left; exact Hr|right; apply in_or_app; left; exact Hr].
    + apply in_or_app. left. exact (Hx n Hn).
  - rewrite labels_of_snoc. intros n Hn. apply in_or_app.
    apply in_app_or in Hn. destruct Hn as [Hn|Hn]; [right; exact Hn|left; exact (Hd n Hn)].
Qed.

Lemma closed_inv_weaken (before : list line) (S S' D D' : list Z) (c : Compiler) :
  closed_inv before S' D' c ->
  (forall n, In n S' -> In n S \/ In n D') ->
  incl D D' ->
  closed_inv before S D c.
Proof.
  intros (chunk & Ho & Hr & Hd) HS HD. exists chunk. split; [exact Ho|]. split.
  - intros n Hn. specialize (Hr n Hn). apply in_app_or in Hr. apply in_or_app.
    destruct Hr as [Hr|Hr]; [|right; exact Hr].
    destruct (HS n Hr) as [H|H]; [left; exact H|right; exact (Hd n H)].
  - intros n Hn. exact (Hd n (HD n Hn)).
Qed.

Lemma closed_inv_same_out (before : list line) (S D : list Z) (c c' : Compiler) :
  out c' = out c -> closed_inv before S D c -> closed_inv before S D c'.
Proof. intros Ho (chunk & H). exists chunk. rewrite Ho. exact H. Qed.

(** *** Rules *)

Lemma closed_ret {A} (a : A) : closed (ret a).
Proof. intros before S D c Hc. exact Hc. Qed.

Lemma closed_get : closed get.
Proof. intros before S D c Hc. exact Hc. Qed.

Lemma closed_error {A} f l : closed (@error A f l).
Proof. intros before S D c Hc. exact I. Qed.

Lemma closed_fault {A} f : closed (@raise_fault A f).
Proof. intros before S D c Hc. exact I. Qed.

Lemma closed_timeout {A} : closed (@timeout A).
Proof. intros before S D c Hc. exact I. Qed.

Lemma closed_bind {A B} (m : M A) (k : A -> M B) :
  closed m -> (forall a, closed (k a)) -> closed (bind m k).
Proof.
  intros Hm Hk before S D. eapply triple_bind; [apply Hm|]. intros a. apply Hk.
Qed.

(** Code that writes no line. *)
Lemma closed_quiet {A} (m : M A) :
  (forall c a c', m c = Done a c' -> out c' = out c) -> closed m.
Proof.
  intros H before S D c Hc. destruct (m c) as [a c'| | |] eqn:E; try exact I.
  exact (closed_inv_same_out _ _ _ _ _ (H _ _ _ E) Hc).
Qed.

Lemma closed_modify (f : Compiler -> Compiler) :
  (forall c, out (f c) = out c) -> closed (modify f).
Proof. intros H. apply closed_quiet. intros c a c' E. injection E as _ <-. apply H. Qed.

(** A line that is neither a branch nor a label definition. *)
Lemma closed_emit (f : string) (a : list fmt_arg) :
  is_branch f = false -> String.eqb f "L%d:" = false -> closed (emit f a).
Proof.
  intros Hb Hl before S D. apply triple_modify. intros c Hc.
  pose proof (closed_inv_line before S D c (mkLine f a) Hc) as H.
  unfold ref_of, label_of in H. cbn [fmt] in H. rewrite Hb, Hl in H.
  apply H. intros n [].
Qed.

Lemma closed_for_each {A} (f : A -> M unit) (l : list A) :
  (forall a, closed (f a)) -> closed (for_each f l).
Proof.
  intros H. induction l as [|x l IH]; cbn [for_each];
    [apply closed_ret | apply closed_bind; auto].
Qed.

Lemma closed_for_each_from {A} (f : Z -> A -> M unit) (l : list A) :
  (forall i a, closed (f i a)) -> forall i, closed (for_each_from f i l).
Proof.
  intros H. induction l as [|x l IH]; intros i; cbn [for_each_from];
    [apply closed_ret | apply closed_bind; auto].
Qed.

Lemma closed_when (b : bool) (m : M unit) : closed m -> closed (when b m).
Proof. intros H. destruct b; [exact H | apply closed_ret]. Qed.

Lemma closed_opt_iter {A} (f : A -> M unit) (o : option A) :
  (forall a, closed (f a)) -> closed (opt_iter f o).
Proof. intros H. destruct o; [apply H | apply closed_ret]. Qed.

Lemma closed_find_symbol (name : string) : closed (find_symbol name).
Proof. apply closed_quiet. intros c a c' E. injection E as _ <-. reflexivity. Qed.

Lemma closed_sym_prefix : closed sym_prefix.
Proof. apply closed_quiet. intros c a c' E. injection E as _ <-. reflexivity. Qed.

Lemma closed_new_label : closed new_label.
Proof. apply closed_quiet. intros c a c' E. injection E as _ <-. reflexivity. Qed.

Lemma closed_add_string (s : string) : closed (add_string s).
Proof.
  apply closed_quiet. intros c a c'. unfold add_string. rewrite bind_get.
  destruct (256 <=? nstrings c); [discriminate|].
  intros E. injection E as _ <-. reflexivity.
Qed.

Lemma closed_add_symbol (name : string) (g p : bool) (i : Z) :
  closed (add_symbol name g p i).
Proof.
  apply closed_quiet. intros c a c'. unfold add_symbol. rewrite bind_get.
  destruct (256 <=? nsymbols c); [discriminate|].
  destruct (negb g && negb p); intros E; injection E as _ <-; reflexivity.
Qed.

Lemma closed_update_last_symbol (f : Symbol -> Symbol) : closed (update_last_symbol f).
Proof. apply closed_modify. intros c. destruct (rev (symbols c)); reflexivity. Qed.

Create HintDb closed discriminated.

#[local] Hint Resolve closed_ret closed_get closed_error closed_fault closed_timeout
  closed_find_symbol closed_sym_prefix closed_new_label closed_add_string
  closed_add_symbol closed_update_last_symbol : closed.
#[local] Hint Extern 1 (closed (emit _ _)) =>
  apply closed_emit; reflexivity : closed.
#[local] Hint Extern 1 (closed (modify _)) =>
  apply closed_modify; intros; reflexivity : closed.

Ltac closed_step :=
  match goal with
  | |- closed (let _ := _ in _) => cbv zeta
  | |- closed (bind _ _) => apply closed_bind; [|intros ?]
  | |- closed (for_each _ _) => apply closed_for_each; intros ?
  | |- closed (for_each_from _ _ _) => apply closed_for_each_from; intros ? ?
  | |- closed (when _ _) => apply closed_when
  | |- closed (opt_iter _ _) => apply closed_opt_iter; intros ?
  | |- closed (if ?b then _ else _) => destruct b
  | |- closed (match ?x with _ => _ end) => destruct x
  | |- closed _ => solve [eauto with closed]
  end.

Lemma closed_declare_local (name : string) (a : bool) (n : Z) :
  closed (declare_local name a n).
Proof. unfold declare_local. repeat closed_step. Qed.

Lemma closed_declare_global (g : AST) : closed (declare_global g).
Proof. unfold declare_global. repeat closed_step. Qed.

#[local] Hint Resolve closed_declare_local closed_declare_global : closed.

(** *** The constructs that draw labels *)

Lemma draw_label (before : list line) (S D : list Z) :
  triple (closed_inv before S D) new_label (fun n => closed_inv before (n :: S) D)
         (fun _ => True).
Proof.
  intros c Hc. cbn. eapply closed_inv_weaken.
  - eapply closed_inv_same_out; [|exact Hc]. reflexivity.
  - intros n Hn. left. right. exact Hn.
  - apply incl_refl.
Qed.

Lemma emit_branch (before : list line) (S D : list Z) (f : string) (n : Z) :
  is_branch f = true -> String.eqb f "L%d:" = false -> In n S ->
  triple (closed_inv before S D) (emit f [FInt n]) (fun _ => closed_inv before S D)
         (fun _ => True).
Proof.
  intros Hb Hl Hn. apply triple_modify. intros c Hc.
  pose proof (closed_inv_line before S D c (mkLine f [FInt n]) Hc) as H.
  unfold ref_of, label_of in H. cbn [fmt fargs] in H. rewrite Hb, Hl in H.
  apply H. intros x [<-|[]]. exact Hn.
Qed.

Lemma emit_label (before : list line) (S D : list Z) (n : Z) :
  triple (closed_inv before S D) (emit "L%d:" [FInt n])
         (fun _ => closed_inv before S (n :: D)) (fun _ => True).
Proof.
  apply triple_modify. intros c Hc.
  exact (closed_inv_line before S D c (mkLine "L%d:" [FInt n]) Hc
           ltac:(intros x [])).
Qed.

Lemma closed_use {A} (m : M A) (before : list line) (S D : list Z) :
  closed m ->
  triple (closed_inv before S D) m (fun _ => closed_inv before S D) (fun _ => True).
Proof. intros H. apply H. Qed.

Lemma close_labels {A} (before : list line) (S S' D D' : list Z) (m : M A)
      (P : Compiler -> Prop) :
  (forall n, In n S' -> In n S \/ In n D') -> incl D D' ->
  triple P m (fun _ => closed_inv before S' D') (fun _ => True) ->
  triple P m (fun _ => closed_inv before S D) (fun _ => True).
Proof.
  intros HS HD H. eapply triple_post; [exact H|].
  intros a c Hc. exact (closed_inv_weaken _ _ _ _ _ _ Hc HS HD).
Qed.

Ltac in_list := cbn [In] in *; intuition (subst; auto).

(** One command of a construct: a branch to a label in sight, a label
    definition, or code already known to be closed. *)
Ltac branch_step :=
  match goal with
  | |- triple _ (bind (bind _ _) _) _ _ => apply triple_assoc
  | |- triple _ (bind (opt_iter _ (Some _)) _) _ _ => cbn [opt_iter]; cbv beta
  | |- triple _ (bind (opt_iter _ None) _) _ _ => cbn [opt_iter]
  | |- triple _ (bind (opt_iter _ ?o) _) _ _ => destruct o
  | |- triple _ (bind (emit "L%d:" _) _) _ _ =>
      eapply triple_bind; [apply emit_label|intros ?]
  | |- triple _ (bind (emit _ _) _) _ _ =>
      eapply triple_bind;
      [first [ apply emit_branch; [reflexivity|reflexivity|in_list]
             | apply closed_use; apply closed_emit; reflexivity ]
      |intros ?]
  | |- triple _ (bind new_label _) _ _ =>
      eapply triple_bind; [apply draw_label|intros ?]
  | |- triple _ (bind _ _) _ _ =>
      eapply triple_bind; [apply closed_use; solve [eauto with closed]|intros ?]
  end.

Ltac branch_end :=
  eapply close_labels; [| |apply emit_label];
  [intros ? ?; in_list | intros ? ?; in_list].

Section ClosedExpr.

Variable gen_expr : AST -> M unit.
Hypothesis H_gen : forall a, closed (gen_expr a).

Hint Resolve H_gen : closed.

Lemma closed_push_args_arm64 (args : list AST) :
  forall k, closed (Arm64.push_args gen_expr args k).
Proof. induction k; cbn [Arm64.push_args]; repeat closed_step. Qed.

Lemma closed_push_args_x64 (args : list AST) :
  forall k, closed (X64.push_args gen_expr args k).
Proof. induction k; cbn [X64.push_args]; repeat closed_step. Qed.

End ClosedExpr.

Lemma closed_pop_args_arm64 (nargs : Z) (n : nat) :
  forall i, closed (Arm64.pop_args nargs n i).
Proof. induction n; intros i; cbn [Arm64.pop_args]; repeat closed_step. Qed.

Lemma closed_pop_args_x64 (nargs : Z) (n : nat) :
  forall i, closed (X64.pop_args nargs n i).
Proof. induction n; intros i; cbn [X64.pop_args]; repeat closed_step. Qed.

Lemma closed_gen_setcc (cc : string) : closed (X64.gen_setcc cc).
Proof. unfold X64.gen_setcc. repeat closed_step. Qed.

Lemma closed_gen_binop_tail_arm64 (op : TokenType) : closed (Arm64.gen_binop_tail op).
Proof.
  destruct op; cbn [Arm64.gen_binop_tail]; try solve [repeat closed_step].
  - intros before S D. branch_step. branch_step. branch_step. branch_step.
    eapply triple_bind; [apply closed_use; apply closed_emit; reflexivity|intros ?].
    eapply close_labels with (S' := a :: S) (D' := a :: D);
      [intros ? ?; in_list | intros ? ?; in_list |].
    apply closed_use. apply closed_emit; reflexivity.
  - intros before S D. branch_step. branch_step. branch_step. branch_step.
    eapply triple_bind; [apply closed_use; apply closed_emit; reflexivity|intros ?].
    eapply close_labels with (S' := a :: S) (D' := a :: D);
      [intros ? ?; in_list | intros ? ?; in_list |].
    apply closed_use. apply closed_emit; reflexivity.
Qed.

Lemma closed_gen_binop_tail_x64 (op : TokenType) : closed (X64.gen_binop_tail op).
Proof.
  pose proof closed_gen_setcc as Hs.
  destruct op; cbn [X64.gen_binop_tail]; try solve [repeat closed_step].
  - intros before S D. do 7 branch_step.
    eapply close_labels with (S' := a :: S) (D' := a :: D);
      [intros ? ?; in_list | intros ? ?; in_list |].
    apply closed_use. apply closed_emit; reflexivity.
  - intros before S D. do 7 branch_step.
    eapply close_labels with (S' := a :: S) (D' := a :: D);
      [intros ? ?; in_list | intros ? ?; in_list |].
    apply closed_use. apply closed_emit; reflexivity.
Qed.

#[local] Hint Resolve closed_push_args_arm64 closed_push_args_x64 closed_pop_args_arm64
  closed_pop_args_x64 closed_gen_binop_tail_arm64 closed_gen_binop_tail_x64 : closed.

Lemma closed_gen_expr_arm64 (depth : nat) :
  forall node, closed (Arm64.gen_expr_arm64 depth node).
Proof.
  induction depth as [|d IH]; intros node; cbn [Arm64.gen_expr_arm64];
    [apply closed_timeout|].
  unfold Arm64.gen_expr_body. repeat closed_step.
Qed.

Lemma closed_gen_expr_x64 (depth : nat) :
  forall node, closed (X64.gen_expr_x64 depth node).
Proof.
  induction depth as [|d IH]; intros node; cbn [X64.gen_expr_x64];
    [apply closed_timeout|].
  unfold X64.gen_expr_body. repeat closed_step.
Qed.

#[local] Hint Resolve closed_gen_expr_arm64 closed_gen_expr_x64 : closed.

(** *** Statements *)

Lemma closed_gen_stmt_depth_arm64 (fuel depth : nat) :
  forall node, closed (Arm64.gen_stmt_depth fuel depth node).
Proof.
  induction depth as [|d IH]; intros node; cbn [Arm64.gen_stmt_depth];
    [apply closed_timeout|].
  unfold Arm64.gen_stmt_body.
  destruct node; try solve [repeat closed_step]; intros before S D.
  - repeat branch_step; branch_end.
  - repeat branch_step; branch_end.
  - repeat branch_step; branch_end.
Qed.

Lemma closed_gen_stmt_depth_x64 (fuel depth : nat) :
  forall node, closed (X64.gen_stmt_depth fuel depth node).
Proof.
  induction depth as [|d IH]; intros node; cbn [X64.gen_stmt_depth];
    [apply closed_timeout|].
  unfold X64.gen_stmt_body.
  destruct node; try solve [repeat closed_step]; intros before S D.
  - repeat branch_step; branch_end.
  - repeat branch_step; branch_end.
  - repeat branch_step; branch_end.
Qed.

Lemma closed_gen_stmt_arm64 (fuel : nat) (node : AST) :
  closed (Arm64.gen_stmt_arm64 fuel node).
Proof. apply closed_gen_stmt_depth_arm64. Qed.

Lemma closed_gen_stmt_x64 (fuel : nat) (node : AST) :
  closed (X64.gen_stmt_x64 fuel node).
Proof. apply closed_gen_stmt_depth_x64. Qed.

#[local] Hint Resolve closed_gen_stmt_arm64 closed_gen_stmt_x64 : closed.

(** *** Functions and programs *)

Lemma closed_gen_func_arm64 (fuel : nat) (node : AST) :
  closed (Arm64.gen_func_arm64 fuel node).
Proof. unfold Arm64.gen_func_arm64. repeat closed_step. Qed.

Lemma closed_save_params (params : list string) :
  forall i, closed (X64.save_params i params).
Proof. induction params; intros i; cbn [X64.save_params]; repeat closed_step. Qed.

#[local] Hint Resolve closed_save_params : closed.

Lemma closed_gen_func_x64 (fuel : nat) (node : AST) :
  closed (X64.gen_func_x64 fuel node).
Proof. unfold X64.gen_func_x64. repeat closed_step. Qed.

Lemma closed_gen_global_data (align : bool) (prefix : string) (g : AST) :
  closed (gen_global_data align prefix g).
Proof. unfold gen_global_data. repeat closed_step. Qed.

Lemma closed_gen_strings (prefix : string) : closed (gen_strings prefix).
Proof. unfold gen_strings. repeat closed_step. Qed.

#[local] Hint Resolve closed_gen_func_arm64 closed_gen_func_x64 closed_gen_global_data
  closed_gen_strings : closed.

Lemma closed_gen_program_arm64 (fuel : nat) (node : AST) :
  closed (gen_program_arm64 fuel node).
Proof. unfold gen_program_arm64. repeat closed_step. Qed.

Lemma closed_gen_program_x64 (fuel : nat) (node : AST) :
  closed (gen_program_x64 fuel node).
Proof. unfold gen_program_x64. repeat closed_step. Qed.

Lemma closed_chunk {A} (m : M A) (c : Compiler) :
  closed m ->
  match m c with
  | Done _ c' => exists chunk, out c' = (out c ++ chunk)%list /\ no_dangling chunk
  | _ => True
  end.
Proof.
  intros H. specialize (H (out c) [] [] c).
  destruct (m c) as [a c'| | |]; try exact I.
  destruct H as (chunk & Ho & Hr & _).
  - exists []. split; [symmetry; apply app_nil_r|]. split; intros n [].
  - exists chunk. split; [exact Ho|exact Hr].
Qed.



(** ** The frame layout of locals *)

Lemma stacked_le (l : list Symbol) : forall lo hi, stacked lo l hi -> lo <= hi.
Proof.
  induction l as [|s l IH]; intros lo hi H; cbn [stacked] in H; [exact H|].
  destruct H as (H1 & H2 & _ & H3). specialize (IH _ _ H3). lia.
Qed.

Lemma stacked_snoc (l : list Symbol) (s : Symbol) :
  forall lo hi hi',
    stacked lo l hi -> hi <= slot_bottom s -> slot_bottom s < offset s ->
    offset s mod 4 = 0 -> offset s <= hi' ->
    stacked lo (l ++ [s]) hi'.
Proof.
  induction l as [|x l IH]; intros lo hi hi' H H1 H2 H3 H4; cbn [stacked app] in *.
  - repeat split; try assumption. lia.
  - destruct H as (A & B & C & D). repeat split; try assumption.
    exact (IH _ _ _ D H1 H2 H3 H4).
Qed.

Lemma stacked_raise (l : list Symbol) :
  forall lo hi hi', stacked lo l hi -> hi <= hi' -> stacked lo l hi'.
Proof.
  induction l as [|x l IH]; intros lo hi hi' H Hh; cbn [stacked] in *; [lia|].
  destruct H as (A & B & C & D). repeat split; try assumption. exact (IH _ _ _ D Hh).
Qed.

Lemma stacked_disjoint (l : list Symbol) :
  forall lo hi, stacked lo l hi ->
                slots_disjoint l /\ Forall (slot_within lo hi) l.
Proof.
  induction l as [|x l IH]; intros lo hi H; cbn [stacked] in H.
  - split; constructor.
  - destruct H as (A & B & C & D). destruct (IH _ _ D) as [I1 I2].
    pose proof (stacked_le _ _ _ D) as Hle.
    split.
    + constructor; [|exact I1].
      eapply Forall_impl; [|exact I2]. intros s (Hs & _). exact Hs.
    + constructor; [unfold slot_within; repeat split; try assumption; lia|].
      eapply Forall_impl; [|exact I2]. unfold slot_within.
      intros s (Hs1 & Hs2 & Hs3 & Hs4). repeat split; try assumption; lia.
Qed.

Lemma laid_out_same (lo : Z) (c c' : Compiler) :
  same_frame c c' -> laid_out lo c -> laid_out lo c'.
Proof.
  intros [Hs Ho] H. unfold laid_out, locals in *. rewrite Hs, Ho. exact H.
Qed.

Lemma grows_frame_same (lo n : Z) (c c' : Compiler) :
  0 <= n -> same_frame c c' -> grows_frame lo n c c'.
Proof.
  intros Hn Hs Hl Hb. split; [exact (laid_out_same _ _ _ Hs Hl)|].
  destruct Hs as [_ ->]. lia.
Qed.

Lemma grows_frame_trans (lo n1 n2 : Z) (c c1 c2 : Compiler) :
  0 <= n1 -> 0 <= n2 ->
  grows_frame lo n1 c c1 -> grows_frame lo n2 c1 c2 -> grows_frame lo (n1 + n2) c c2.
Proof.
  intros H1 H2 G1 G2 Hl Hb.
  destruct (G1 Hl ltac:(lia)) as [L1 B1].
  destruct (G2 L1 ltac:(lia)) as [L2 B2].
  split; [exact L2|lia].
Qed.

Lemma grows_frame_more (lo n n' : Z) (c c' : Compiler) :
  n <= n' -> grows_frame lo n c c' -> grows_frame lo n' c c'.
Proof.
  intros Hn G Hl Hb. destruct (G Hl ltac:(lia)) as [L B]. split; [exact L|lia].
Qed.

Section Allots.

Variable lo : Z.

Lemma allots_quiet {A} (n : Z) (m : M A) :
  0 <= n -> preserves same_frame m -> allots lo n m.
Proof.
  intros Hn H c. specialize (H c). destruct (m c) as [a c'|d c'|f c'|]; try exact I.
  - exact (grows_frame_same _ _ _ _ Hn H).
  - exact (grows_frame_same _ _ _ _ Hn (proj1 H)).
  - exact (grows_frame_same _ _ _ _ Hn H).
Qed.

Lemma allots_bind {A B} (n1 n2 : Z) (m : M A) (k : A -> M B) :
  0 <= n1 -> 0 <= n2 ->
  allots lo n1 m -> (forall a, allots lo n2 (k a)) -> allots lo (n1 + n2) (bind m k).
Proof.
  intros H1 H2 Hm Hk c. specialize (Hm c). unfold bind.
  destruct (m c) as [a c1|d c1|f c1|]; try exact I.
  - specialize (Hk a c1). destruct (k a c1) as [b c2|d c2|f c2|]; try exact I;
      exact (grows_frame_trans _ _ _ _ _ _ H1 H2 Hm Hk).
  - apply (grows_frame_more _ n1); [lia|exact Hm].
  - apply (grows_frame_more _ n1); [lia|exact Hm].
Qed.

Lemma allots_more {A} (n n' : Z) (m : M A) :
  n <= n' -> allots lo n m -> allots lo n' m.
Proof.
  intros Hn H c. specialize (H c).
  destruct (m c); try exact I; exact (grows_frame_more _ _ _ _ _ Hn H).
Qed.

Lemma allots_after_quiet {A B} (n : Z) (m : M A) (k : A -> M B) :
  0 <= n -> preserves same_frame m -> (forall a, allots lo n (k a)) ->
  allots lo n (bind m k).
Proof.
  intros Hn Hm Hk. apply (allots_more (0 + n)); [lia|].
  apply allots_bind; [lia|exact Hn|apply allots_quiet; [lia|exact Hm]|exact Hk].
Qed.

Lemma allots_then_quiet {A B} (n : Z) (m : M A) (k : A -> M B) :
  0 <= n -> allots lo n m -> (forall a, preserves same_frame (k a)) ->
  allots lo n (bind m k).
Proof.
  intros Hn Hm Hk. apply (allots_more (n + 0)); [lia|].
  apply allots_bind; [exact Hn|lia|exact Hm|].
  intros a. apply allots_quiet; [lia|apply Hk].
Qed.

Lemma allots_declare_local (name : string) (is_array : bool) (size : Z) :
  (is_array = true -> 1 <= size) ->
  allots lo (if is_array then 4 + 4 * size else 8) (declare_local name is_array size).
Proof.
  intros Hsz c. unfold declare_local, add_symbol. rewrite bind_assoc, bind_get.
  destruct (256 <=? nsymbols c).
  { apply grows_frame_same; [destruct is_array; [specialize (Hsz eq_refl)|]; lia|].
    split; reflexivity. }
  destruct is_array; cbn -[Z.add Z.mul Z.sub Int.add Int.sub Int.mul].
  - specialize (Hsz eq_refl). rewrite rev_app_distr.
    cbn -[Z.add Z.mul Z.sub Int.add Int.sub Int.mul]. rewrite rev_involutive.
    intros (H0 & Hm & Hs & Hst) Hb. pose proof (stacked_le _ _ _ Hst) as Hle.
    unfold laid_out, locals. cbn -[Z.add Z.mul Z.sub Int.add Int.sub Int.mul Z.modulo].
    unfold Int.add, Int.sub, Int.mul.
    rewrite (wrap_small (stack_offset c + 8))
      by (unfold Int.min_signed, Int.max_signed in *; lia).
    rewrite (wrap_small (size - 1)) by (unfold Int.min_signed, Int.max_signed in *; lia).
    rewrite (wrap_small ((size - 1) * 4))
      by (unfold Int.min_signed, Int.max_signed in *; lia).
    rewrite (wrap_small (stack_offset c + 8 + (size - 1) * 4))
      by (unfold Int.min_signed, Int.max_signed in *; lia).
    rewrite filter_app. cbn -[Z.add Z.mul Z.sub Z.modulo].
    split; [|lia].
    split; [exact H0|]. split; [exact Hm|].
    split; [Z.div_mod_to_equations; lia|].
    eapply stacked_snoc; [exact Hst| | | |];
      unfold slot_bottom, cells; cbn -[Z.add Z.mul Z.sub Z.modulo]; try lia.
    Z.div_mod_to_equations; lia.
  - intros (H0 & Hm & Hs & Hst) Hb. pose proof (stacked_le _ _ _ Hst) as Hle.
    unfold laid_out, locals. cbn -[Z.add Z.mul Z.sub Int.add Z.modulo].
    unfold Int.add.
    rewrite (wrap_small (stack_offset c + 8))
      by (unfold Int.min_signed, Int.max_signed in *; lia).
    rewrite filter_app. cbn -[Z.add Z.mul Z.sub Z.modulo].
    split; [|lia].
    split; [exact H0|]. split; [exact Hm|].
    split; [Z.div_mod_to_equations; lia|].
    eapply stacked_snoc; [exact Hst| | | |];
      unfold slot_bottom, cells; cbn -[Z.add Z.mul Z.sub Z.modulo]; try lia.
    Z.div_mod_to_equations; lia.
Qed.

End Allots.

Lemma frame_need_nonneg (a : AST) : arrays_nonempty a = true -> 0 <= frame_need a.
Proof.
  induction a using AST_induction; cbn [frame_need arrays_nonempty]; intros Ha; try lia.
  - apply andb_prop in Ha. destruct Ha as [Ht He].
    destruct e as [e|]; cbn [opt_need opt_all P_opt] in *; [|specialize (IHa2 Ht); lia].
    specialize (IHa2 Ht). specialize (H He). lia.
  - auto.
  - apply andb_prop in Ha. destruct Ha as [Hi Hb]. specialize (IHa Hb).
    destruct i as [i|]; cbn [opt_need opt_all P_opt] in *; [|lia].
    specialize (H Hi). lia.
  - induction H as [|s ss Hs Hss IH]; cbn [map fold_right forallb] in *; [lia|].
    apply andb_prop in Ha. destruct Ha as [H1 H2]. specialize (Hs H1). specialize (IH H2).
    lia.
  - destruct a; [|lia]. apply Z.leb_le in Ha. lia.
Qed.

Create HintDb quiet discriminated.

#[local] Hint Resolve emit_same_frame new_label_same_frame gen_expr_arm64_same_frame
  gen_expr_x64_same_frame : quiet.

Ltac quiet_code :=
  solve [repeat first [frame_step | solve [eauto with preserves quiet]]].

Ltac skip_quiet :=
  repeat (apply allots_after_quiet; [lia | quiet_code | intros ?]).

Section AllotsLoops.

Variable lo : Z.
Variable gen : AST -> M unit.
Hypothesis gen_ok :
  forall node, arrays_nonempty node = true -> allots lo (frame_need node) (gen node).

Lemma allots_opt_iter (o : option AST) :
  opt_all arrays_nonempty o = true ->
  allots lo (opt_need frame_need o) (opt_iter gen o).
Proof.
  destruct o as [x|]; cbn [opt_all opt_need opt_iter]; intros H; [exact (gen_ok x H)|].
  apply allots_quiet; [lia|apply preserves_ret].
Qed.

Lemma allots_for_each (l : list AST) :
  forallb arrays_nonempty l = true ->
  allots lo (fold_right Z.add 0 (map frame_need l)) (for_each gen l).
Proof.
  induction l as [|x l IH]; cbn [forallb map fold_right for_each]; intros H.
  - apply allots_quiet; [lia|apply preserves_ret].
  - apply andb_prop in H. destruct H as [H1 H2].
    assert (0 <= fold_right Z.add 0 (map frame_need l)).
    { clear IH. induction l as [|y l IHl]; cbn [map fold_right forallb] in *; [lia|].
      apply andb_prop in H2. destruct H2 as [Hy Hl].
      pose proof (frame_need_nonneg y Hy). specialize (IHl Hl). lia. }
    apply allots_bind; [apply frame_need_nonneg; exact H1|assumption|exact (gen_ok x H1)|].
    intros _. exact (IH H2).
Qed.

End AllotsLoops.

Lemma allots_gen_stmt_depth_arm64 (lo : Z) (fuel d : nat) :
  forall node, arrays_nonempty node = true ->
               allots lo (frame_need node) (Arm64.gen_stmt_depth fuel d node).
Proof.
  induction d as [|d IH]; intros node Ha; [intros c; exact I|].
  cbn [Arm64.gen_stmt_depth].
  destruct node; cbn [Arm64.gen_stmt_body frame_need arrays_nonempty] in *;
    try (apply allots_quiet; [lia|quiet_code]).
  - (* if *)
    apply andb_prop in Ha. destruct Ha as [Ht He].
    pose proof (frame_need_nonneg _ Ht) as Nt.
    assert (Ne : 0 <= opt_need frame_need else_branch).
    { destruct else_branch; cbn [opt_need opt_all] in *;
        [apply frame_need_nonneg; exact He|lia]. }
    skip_quiet.
    apply allots_bind; [exact Nt|exact Ne|exact (IH _ Ht)|]. intros ?.
    skip_quiet.
    apply allots_then_quiet; [exact Ne|apply (allots_opt_iter _ _ IH); exact He|].
    intros ?. quiet_code.
  - (* while *)
    pose proof (frame_need_nonneg _ Ha) as Nb.
    skip_quiet.
    apply allots_then_quiet; [exact Nb|exact (IH _ Ha)|]. intros ?. quiet_code.
  - (* for *)
    apply andb_prop in Ha. destruct Ha as [Hi Hb].
    pose proof (frame_need_nonneg _ Hb) as Nb.
    assert (Ni : 0 <= opt_need frame_need init).
    { destruct init; cbn [opt_need opt_all] in *;
        [apply frame_need_nonneg; exact Hi|lia]. }
    skip_quiet.
    apply allots_bind; [exact Ni|exact Nb|apply (allots_opt_iter _ _ IH); exact Hi|].
    intros ?. skip_quiet.
    apply allots_then_quiet; [exact Nb|exact (IH _ Hb)|]. intros ?. quiet_code.
  - (* block *)
    apply (allots_for_each _ _ IH). exact Ha.
  - (* declaration *)
    apply allots_then_quiet.
    + destruct is_array; [apply Z.leb_le in Ha|]; lia.
    + apply allots_declare_local. intros ->. apply Z.leb_le. exact Ha.
    + intros sym. quiet_code.
Qed.

Lemma allots_gen_stmt_depth_x64 (lo : Z) (fuel d : nat) :
  forall node, arrays_nonempty node = true ->
               allots lo (frame_need node) (X64.gen_stmt_depth fuel d node).
Proof.
  induction d as [|d IH]; intros node Ha; [intros c; exact I|].
  cbn [X64.gen_stmt_depth].
  destruct node; cbn [X64.gen_stmt_body frame_need arrays_nonempty] in *;
    try (apply allots_quiet; [lia|quiet_code]).
  - (* if *)
    apply andb_prop in Ha. destruct Ha as [Ht He].
    pose proof (frame_need_nonneg _ Ht) as Nt.
    assert (Ne : 0 <= opt_need frame_need else_branch).
    { destruct else_branch; cbn [opt_need opt_all] in *;
        [apply frame_need_nonneg; exact He|lia]. }
    skip_quiet.
    apply allots_bind; [exact Nt|exact Ne|exact (IH _ Ht)|]. intros ?.
    skip_quiet.
    apply allots_then_quiet; [exact Ne|apply (allots_opt_iter _ _ IH); exact He|].
    intros ?. quiet_code.
  - (* while *)
    pose proof (frame_need_nonneg _ Ha) as Nb.
    skip_quiet.
    apply allots_then_quiet; [exact Nb|exact (IH _ Ha)|]. intros ?. quiet_code.
  - (* for *)
    apply andb_prop in Ha. destruct Ha as [Hi Hb].
    pose proof (frame_need_nonneg _ Hb) as Nb.
    assert (Ni : 0 <= opt_need frame_need init).
    { destruct init; cbn [opt_need opt_all] in *;
        [apply frame_need_nonneg; exact Hi|lia]. }
    skip_quiet.
    apply allots_bind; [exact Ni|exact Nb|apply (allots_opt_iter _ _ IH); exact Hi|].
    intros ?. skip_quiet.
    apply allots_then_quiet; [exact Nb|exact (IH _ Hb)|]. intros ?. quiet_code.
  - (* block *)
    apply (allots_for_each _ _ IH). exact Ha.
  - (* declaration *)
    apply allots_then_quiet.
    + destruct is_array; [apply Z.leb_le in Ha|]; lia.
    + apply allots_declare_local. intros ->. apply Z.leb_le. exact Ha.
    + intros sym. quiet_code.
Qed.

(** The locals of a function body never share a byte of the frame.  From a
    state whose locals are stacked above the depth [lo] (where the
    parameter slots end), for every statement whose arrays have at least
    one element and whose declarations do not overflow the 32-bit frame
    counter, on either back-end and however the generation ends: the
    locals are still stacked, the frame counter has grown by at most the
    bytes the declarations need, the slot of each local ends where the next
    one begins or before, and every local's offset is a positive multiple
    of 4 not above the frame counter.  The only bound on the counter is
    [INT_MAX]: the 256 bytes the prologue reserves are not checked. *)
Theorem locals_are_stacked_without_overlap
  (fuel : nat) (body : AST) (lo : Z) (c : Compiler) :
  laid_out lo c ->
  arrays_nonempty body = true ->
  stack_offset c + frame_need body <= Int.max_signed ->
  match Arm64.gen_stmt_arm64 fuel body c with
  | Done _ c' | Fatal _ c' | Fault _ c' =>
      laid_out lo c'
      /\ stack_offset c <= stack_offset c' <= stack_offset c + frame_need body
      /\ slots_disjoint (locals c')
      /\ Forall (slot_within lo (stack_offset c')) (locals c')
  | Timeout => True
  end
  /\ match X64.gen_stmt_x64 fuel body c with
     | Done _ c' | Fatal _ c' | Fault _ c' =>
         laid_out lo c'
         /\ stack_offset c <= stack_offset c' <= stack_offset c + frame_need body
         /\ slots_disjoint (locals c')
         /\ Forall (slot_within lo (stack_offset c')) (locals c')
     | Timeout => True
     end.
Proof.
  intros Hl Ha Hb.
  assert (G : forall c', grows_frame lo (frame_need body) c c' ->
                         laid_out lo c'
                         /\ stack_offset c <= stack_offset c' <= stack_offset c + frame_need body
                         /\ slots_disjoint (locals c')
                         /\ Forall (slot_within lo (stack_offset c')) (locals c')).
  { intros c' H. destruct (H Hl Hb) as [L B]. split; [exact L|]. split; [exact B|].
    destruct L as (_ & _ & _ & S). exact (stacked_disjoint _ _ _ S). }
  split.
  - pose proof (allots_gen_stmt_depth_arm64 lo fuel fuel body Ha c) as H.
    unfold Arm64.gen_stmt_arm64.
    destruct (Arm64.gen_stmt_depth fuel fuel body c); try exact I; apply G; exact H.
  - pose proof (allots_gen_stmt_depth_x64 lo fuel fuel body Ha c) as H.
    unfold X64.gen_stmt_x64.
    destruct (X64.gen_stmt_depth fuel fuel body c); try exact I; apply G; exact H.
Qed.

Lemma locals_are_stacked_without_overlap_witness :
  match Arm64.gen_stmt_arm64 5 body_big_array empty_table with
  | Done _ c' =>
      (laid_out 0 c'
       /\ stack_offset empty_table <= stack_offset c'
          <= stack_offset empty_table + frame_need body_big_array
       /\ slots_disjoint (locals c')
       /\ Forall (slot_within 0 (stack_offset c')) (locals c'))
      /\ map offset (locals c') = [8; 412; 420]
  | _ => False
  end.
Proof.
  pose proof (locals_are_stacked_without_overlap 5 body_big_array 0 empty_table) as H.
  assert (L : laid_out 0 empty_table).
  { unfold laid_out. cbn. repeat split; lia. }
  specialize (H L eq_refl ltac:(vm_compute; discriminate)).
  destruct H as [H _].
  destruct (Arm64.gen_stmt_arm64 5 body_big_array empty_table) as [u c'| | |] eqn:E;
    [|vm_compute in E; discriminate E ..].
  split; [exact H|].
  vm_compute in E. injection E as _ E. rewrite <- E. reflexivity.
Defined.

(** ** The JSON dump: string escaping *)

Lemma string_length_append (s t : string) :
  String.length (s ++ t) = (String.length s + String.length t)%nat.
Proof. induction s as [|a s IH]; cbn; [reflexivity|rewrite IH; reflexivity]. Qed.

Lemma append_inv_tail (t : string) : forall s s', s ++ t = s' ++ t -> s = s'.
Proof.
  induction s as [|a s IH]; intros [|b s'] H; cbn in H.
  - reflexivity.
  - apply (f_equal String.length) in H. cbn in H. rewrite string_length_append in H. lia.
  - apply (f_equal String.length) in H. cbn in H. rewrite string_length_append in H. lia.
  - injection H as -> H. f_equal. exact (IH _ H).
Qed.

Lemma json_escape_split (c1 c2 : ascii) (r1 r2 : string) :
  json_escape c1 ++ r1 = json_escape c2 ++ r2 -> c1 = c2 /\ r1 = r2.
Proof.
  unfold json_escape.
  destruct (is_char c1 DQUOTE) eqn:A1; [apply Ascii.eqb_eq in A1; subst c1|];
    [|destruct (is_char c1 BACKSLASH) eqn:A2; [apply Ascii.eqb_eq in A2; subst c1|];
      [|destruct (is_char c1 LF) eqn:A3; [apply Ascii.eqb_eq in A3; subst c1|];
        [|destruct (is_char c1 CR) eqn:A4; [apply Ascii.eqb_eq in A4; subst c1|];
          [|destruct (is_char c1 TAB) eqn:A5; [apply Ascii.eqb_eq in A5; subst c1|]]]]].
  all: destruct (is_char c2 DQUOTE) eqn:B1; [apply Ascii.eqb_eq in B1; subst c2|];
    [|destruct (is_char c2 BACKSLASH) eqn:B2; [apply Ascii.eqb_eq in B2; subst c2|];
      [|destruct (is_char c2 LF) eqn:B3; [apply Ascii.eqb_eq in B3; subst c2|];
        [|destruct (is_char c2 CR) eqn:B4; [apply Ascii.eqb_eq in B4; subst c2|];
          [|destruct (is_char c2 TAB) eqn:B5; [apply Ascii.eqb_eq in B5; subst c2|]]]]].
  all: cbn; intros H; try discriminate H.
  all: try (injection H as H; split; [reflexivity|exact H]).
  all: try (injection H as H1 H2; subst; cbn in *; discriminate).
  injection H as H1 H2. split; assumption.
Qed.

Lemma json_escape_all_injective (t : string) :
  forall s1 s2, json_escape_all s1 ++ t = json_escape_all s2 ++ t -> s1 = s2.
Proof.
  induction s1 as [|c1 s1 IH]; intros [|c2 s2] H; cbn [json_escape_all] in H.
  - reflexivity.
  - exfalso. apply (f_equal String.length) in H.
    rewrite !string_length_append in H. cbn in H.
    assert (0 < String.length (json_escape c2))%nat.
    { unfold json_escape. repeat match goal with
                                 | |- context [if ?b then _ else _] => destruct b
                                 end; cbn; lia. }
    lia.
  - exfalso. apply (f_equal String.length) in H.
    rewrite !string_length_append in H. cbn in H.
    assert (0 < String.length (json_escape c1))%nat.
    { unfold json_escape. repeat match goal with
                                 | |- context [if ?b then _ else _] => destruct b
                                 end; cbn; lia. }
    lia.
  - assert (Hassoc : forall a b c : string, (a ++ b) ++ c = a ++ (b ++ c)).
    { intros a b c. induction a as [|x a IHa]; cbn; [reflexivity|rewrite IHa; reflexivity]. }
    rewrite !Hassoc in H. apply json_escape_split in H. destruct H as [-> H].
    f_equal. exact (IH _ H).
Qed.

Lemma json_body_escaped (s : string) :
  json_safe s = true -> json_body (json_escape_all s ++ quote) = true.
Proof.
  induction s as [|ch s IH]; cbn [json_safe json_escape_all]; intros H; [reflexivity|].
  apply andb_prop in H. destruct H as [Hc Hs]. specialize (IH Hs).
  unfold json_escape.
  destruct (is_char ch DQUOTE) eqn:A1; [cbn; exact IH|].
  destruct (is_char ch BACKSLASH) eqn:A2; [cbn; exact IH|].
  destruct (is_char ch LF) eqn:A3; [cbn; exact IH|].
  destruct (is_char ch CR) eqn:A4; [cbn; exact IH|].
  destruct (is_char ch TAB) eqn:A5; [cbn; exact IH|].
  cbn [append json_body]. rewrite A1, A2.
  unfold json_safe_char in Hc. rewrite A3, A4, A5, !orb_false_r in Hc.
  rewrite Hc. exact IH.
Qed.

(** [print_json_string] loses nothing and writes one string token: two
    different strings are written differently, and for a string without
    control bytes other than newline, carriage return and tab the text
    written is a JSON string token -- an opening quote, then escapes and
    plain bytes, then the closing quote.  Only the five bytes of the
    [switch] are escaped; other control bytes are copied as they are. *)
Theorem print_json_string_is_faithful (s1 s2 : string) :
  s1 <> s2 ->
  print_json_string s1 <> print_json_string s2
  /\ (json_safe s1 = true -> json_string_token (print_json_string s1) = true).
Proof.
  intros Hne. split.
  - intros H. apply Hne. unfold print_json_string in H. cbn in H.
    injection H as H. exact (json_escape_all_injective _ _ _ H).
  - intros Hs. unfold print_json_string. cbn. apply json_body_escaped. exact Hs.
Qed.

Lemma print_json_string_is_faithful_witness :
  print_json_string (String "a" (String LF "b"))
  <> print_json_string (String "a" (String BACKSLASH "nb"))
  /\ json_string_token (print_json_string (String "a" (String LF "b"))) = true.
Proof.
  destruct (print_json_string_is_faithful
              (String "a" (String LF "b")) (String "a" (String BACKSLASH "nb"))
              ltac:(discriminate)) as [H1 H2].
  split; [exact H1|apply H2; reflexivity].
Defined.

(** A control byte that is not one of the five is written as it is, and
    the text is then no JSON string token. *)
Example print_json_string_keeps_control_bytes :
  print_json_string (String "001" EmptyString) = quote ++ String "001" quote
  /\ json_string_token (print_json_string (String "001" EmptyString)) = false.
Proof. split; reflexivity. Qed.

(** ** The trees the parser builds *)

Create HintDb shape discriminated.

Lemma returns_bind_fault {A B} (f : fault) (k : A -> M B) (Q : B -> Prop) :
  returns (bind (raise_fault f) k) Q.
Proof. intros c a c' E. discriminate E. Qed.

Ltac shape_step :=
  match goal with
  | |- returns (let _ := _ in _) _ => cbv zeta
  | |- returns (ret _) _ => apply returns_ret
  | |- returns (error _ _) _ => apply returns_error
  | |- returns (raise_fault _) _ => apply returns_fault
  | |- returns timeout _ => apply returns_timeout
  | |- returns (bind (raise_fault _) _) _ => apply returns_bind_fault
  | |- returns (bind ?m _) _ =>
      first [ eapply returns_bind; [solve [eauto with shape] | intros ? ?]
            | match m with (if ?b then _ else _) => destruct b eqn:? end
            | apply returns_bind_any; intros ? ]
  | |- returns (if ?b then _ else _) _ => destruct b eqn:?
  | |- returns (match ?x with _ => _ end) _ => destruct x eqn:?
  | |- returns _ _ => solve [eauto with shape]
  end.

Lemma expr_is_stmt (a : AST) : expr_shape a = true -> stmt_shape a = true.
Proof. destruct a; cbn; intros H; try discriminate H; exact H. Qed.

Lemma length_snoc_le {A} (l : list A) (x : A) (n : nat) (k : Z) :
  (k <=? Z.of_nat (List.length l)) = false -> k = Z.of_nat n ->
  Nat.leb (List.length (l ++ [x])) n = true.
Proof.
  intros H Hk. apply Z.leb_gt in H. apply Nat.leb_le. rewrite length_app. cbn. lia.
Qed.

(** Close a goal about the shape of a node built from parts whose shapes
    are in the context. *)
Ltac shape_node :=
  cbn [expr_shape stmt_shape func_shape global_shape program_shape opt_all
       is_block List.length Nat.leb forallb] in *;
  repeat match goal with
         | H : _ /\ _ |- _ => destruct H
         end;
  repeat match goal with
         | H : expr_shape _ = true |- _ => rewrite H
         | H : stmt_shape _ = true |- _ => rewrite H
         | H : forallb _ _ = true |- _ => rewrite H
         | H : Nat.leb _ _ = true |- _ => rewrite H
         | H : opt_all _ _ = true |- _ => rewrite H
         | H : is_block _ = true |- _ => rewrite H
         end;
  cbn [andb];
  try reflexivity;
  try match goal with
      | op : TokenType |- _ => destruct op; try discriminate; reflexivity
      end.

Section ShapeLevels.

Variable fuel : nat.
Variable pe : M AST.
Hypothesis Hpe : returns pe (fun e => expr_shape e = true).

Hint Resolve Hpe : shape.

Lemma call_args_loop_shape (n : nat) :
  forall args,
    Nat.leb (List.length args) 16 = true -> forallb expr_shape args = true ->
    returns (call_args_loop fuel pe n args)
            (fun l => Nat.leb (List.length l) 16 = true /\ forallb expr_shape l = true).
Proof.
  induction n as [|n IH]; intros args Hl Hargs; cbn [call_args_loop].
  - apply returns_timeout.
  - repeat shape_step; try (split; assumption).
    all: apply IH; [eapply length_snoc_le; [eassumption|reflexivity]
                   |apply forallb_snoc; assumption].
Qed.

Lemma parse_primary_shape : returns (parse_primary fuel pe) (fun e => expr_shape e = true).
Proof.
  unfold parse_primary.
  pose proof (call_args_loop_shape fuel [] eq_refl eq_refl) as Hc.
  repeat shape_step; shape_node.
Qed.

Hint Resolve parse_primary_shape : shape.

Lemma parse_unary_shape (n : nat) :
  returns (parse_unary fuel pe n) (fun e => expr_shape e = true).
Proof.
  induction n as [|n IH]; cbn [parse_unary].
  - apply returns_timeout.
  - repeat shape_step; auto with shape; shape_node.
Qed.

Hint Resolve parse_unary_shape : shape.

Lemma multiplicative_loop_shape (n : nat) :
  forall e, expr_shape e = true ->
            returns (multiplicative_loop fuel pe n e) (fun e => expr_shape e = true).
Proof.
  induction n as [|n IH]; intros e He; cbn [multiplicative_loop].
  - apply returns_timeout.
  - repeat shape_step; try assumption. apply IH. shape_node.
Qed.

Lemma parse_multiplicative_shape :
  returns (parse_multiplicative fuel pe) (fun e => expr_shape e = true).
Proof.
  unfold parse_multiplicative. eapply returns_bind; [apply parse_unary_shape|].
  intros e He. apply multiplicative_loop_shape. exact He.
Qed.

Hint Resolve parse_multiplicative_shape : shape.

Lemma additive_loop_shape (n : nat) :
  forall e, expr_shape e = true ->
            returns (additive_loop fuel pe n e) (fun e => expr_shape e = true).
Proof.
  induction n as [|n IH]; intros e He; cbn [additive_loop].
  - apply returns_timeout.
  - repeat shape_step; try assumption. apply IH. shape_node.
Qed.

Lemma parse_additive_shape :
  returns (parse_additive fuel pe) (fun e => expr_shape e = true).
Proof.
  unfold parse_additive. eapply returns_bind; [apply parse_multiplicative_shape|].
  intros e He. apply additive_loop_shape. exact He.
Qed.

Hint Resolve parse_additive_shape : shape.

Lemma relational_loop_shape (n : nat) :
  forall e, expr_shape e = true ->
            returns (relational_loop fuel pe n e) (fun e => expr_shape e = true).
Proof.
  induction n as [|n IH]; intros e He; cbn [relational_loop].
  - apply returns_timeout.
  - repeat shape_step; try assumption. apply IH. shape_node.
Qed.

Lemma parse_relational_shape :
  returns (parse_relational fuel pe) (fun e => expr_shape e = true).
Proof.
  unfold parse_relational. eapply returns_bind; [apply parse_additive_shape|].
  intros e He. apply relational_loop_shape. exact He.
Qed.

Hint Resolve parse_relational_shape : shape.

Lemma equality_loop_shape (n : nat) :
  forall e, expr_shape e = true ->
            returns (equality_loop fuel pe n e) (fun e => expr_shape e = true).
Proof.
  induction n as [|n IH]; intros e He; cbn [equality_loop].
  - apply returns_timeout.
  - repeat shape_step; try assumption. apply IH. shape_node.
Qed.

Lemma parse_equality_shape :
  returns (parse_equality fuel pe) (fun e => expr_shape e = true).
Proof.
  unfold parse_equality. eapply returns_bind; [apply parse_relational_shape|].
  intros e He. apply equality_loop_shape. exact He.
Qed.

Hint Resolve parse_equality_shape : shape.

Lemma logical_and_loop_shape (n : nat) :
  forall e, expr_shape e = true ->
            returns (logical_and_loop fuel pe n e) (fun e => expr_shape e = true).
Proof.
  induction n as [|n IH]; intros e He; cbn [logical_and_loop].
  - apply returns_timeout.
  - repeat shape_step; try assumption. apply IH. shape_node.
Qed.

Lemma parse_logical_and_shape :
  returns (parse_logical_and fuel pe) (fun e => expr_shape e = true).
Proof.
  unfold parse_logical_and. eapply returns_bind; [apply parse_equality_shape|].
  intros e He. apply logical_and_loop_shape. exact He.
Qed.

Hint Resolve parse_logical_and_shape : shape.

Lemma logical_or_loop_shape (n : nat) :
  forall e, expr_shape e = true ->
            returns (logical_or_loop fuel pe n e) (fun e => expr_shape e = true).
Proof.
  induction n as [|n IH]; intros e He; cbn [logical_or_loop].
  - apply returns_timeout.
  - repeat shape_step; try assumption. apply IH. shape_node.
Qed.

Lemma parse_logical_or_shape :
  returns (parse_logical_or fuel pe) (fun e => expr_shape e = true).
Proof.
  unfold parse_logical_or. eapply returns_bind; [apply parse_logical_and_shape|].
  intros e He. apply logical_or_loop_shape. exact He.
Qed.

Lemma parse_assignment_shape (n : nat) :
  returns (parse_assignment fuel pe n) (fun e => expr_shape e = true).
Proof.
  induction n as [|n IH]; cbn [parse_assignment].
  - apply returns_timeout.
  - eapply returns_bind; [apply parse_logical_or_shape|].
    intros l Hl. repeat shape_step; try assumption; shape_node.
Qed.

End ShapeLevels.

Lemma parse_expr_depth_shape (fuel d : nat) :
  returns (parse_expr_depth fuel d) (fun e => expr_shape e = true).
Proof.
  induction d as [|d IH]; cbn [parse_expr_depth].
  - apply returns_timeout.
  - apply parse_assignment_shape. exact IH.
Qed.

Lemma parse_expr_shape (fuel : nat) :
  returns (parse_expr fuel) (fun e => expr_shape e = true).
Proof. apply parse_expr_depth_shape. Qed.

#[local] Hint Resolve parse_expr_shape : shape.

Lemma parse_initializer_shape (fuel : nat) :
  returns (parse_initializer fuel) (fun o => opt_all expr_shape o = true).
Proof. unfold parse_initializer. repeat shape_step; shape_node. Qed.

#[local] Hint Resolve parse_initializer_shape : shape.

Lemma optional_expr_shape (fuel : nat) (b : bool) :
  returns (if b then e <- parse_expr fuel ;; ret (Some e) else ret None)
          (fun o => opt_all expr_shape o = true).
Proof. repeat shape_step; shape_node. Qed.

#[local] Hint Resolve optional_expr_shape : shape.

Lemma for_init_shape (fuel : nat) (t1 : TokenType) :
  returns (if tok_eqb t1 TOK_INT then
             next_token fuel ;;
             c <- get ;;
             let name := str (cur c) in
             expect fuel TOK_IDENT ;;
             i <- parse_initializer fuel ;;
             ret (Some (AST_VARDECL name i false 0))
           else if negb (tok_eqb t1 TOK_SEMI) then
             e <- parse_expr fuel ;; ret (Some e)
           else ret None) (fun o => opt_all stmt_shape o = true).
Proof.
  repeat shape_step; cbn [opt_all stmt_shape]; try assumption; try reflexivity.
  apply expr_is_stmt. assumption.
Qed.

#[local] Hint Resolve for_init_shape : shape.

Section ShapeStatements.

Variable fuel : nat.
Variable ps : M AST.
Hypothesis Hps : returns ps (fun s => stmt_shape s = true).

Hint Resolve Hps : shape.

Lemma block_loop_shape (n : nat) :
  forall stmts,
    Nat.leb (List.length stmts) 256 = true -> forallb stmt_shape stmts = true ->
    returns (block_loop ps n stmts)
            (fun l => Nat.leb (List.length l) 256 = true /\ forallb stmt_shape l = true).
Proof.
  induction n as [|n IH]; intros stmts Hl Hs; cbn [block_loop].
  - apply returns_timeout.
  - repeat shape_step; try (split; assumption).
    all: apply IH; [eapply length_snoc_le; [eassumption|reflexivity]
                   |apply forallb_snoc; assumption].
Qed.

Lemma parse_block_shape :
  returns (parse_block fuel ps) (fun b => is_block b = true /\ stmt_shape b = true).
Proof.
  unfold parse_block. apply returns_bind_any. intros _.
  eapply returns_bind; [apply (block_loop_shape fuel []); reflexivity|].
  intros stmts [Hl Hs]. repeat shape_step. split; [reflexivity|].
  cbn [stmt_shape]. rewrite Hl, Hs. reflexivity.
Qed.

Lemma parse_block_stmt : returns (parse_block fuel ps) (fun b => stmt_shape b = true).
Proof. intros c a c' E. exact (proj2 (parse_block_shape c a c' E)). Qed.

Hint Resolve parse_block_stmt : shape.

Lemma parse_stmt_body_shape :
  returns (parse_stmt_body fuel ps) (fun s => stmt_shape s = true).
Proof.
  unfold parse_stmt_body.
  repeat shape_step; try (apply expr_is_stmt; assumption); shape_node.
Qed.

End ShapeStatements.

Lemma parse_stmt_depth_shape (fuel d : nat) :
  returns (parse_stmt_depth fuel d) (fun s => stmt_shape s = true).
Proof.
  induction d as [|d IH]; cbn [parse_stmt_depth].
  - apply returns_timeout.
  - apply parse_stmt_body_shape. exact IH.
Qed.

Lemma parse_stmt_shape (fuel : nat) :
  returns (parse_stmt fuel) (fun s => stmt_shape s = true).
Proof. apply parse_stmt_depth_shape. Qed.

Lemma params_loop_shape (fuel n : nat) :
  forall params,
    Nat.leb (List.length params) 16 = true ->
    returns (params_loop fuel n params) (fun l => Nat.leb (List.length l) 16 = true).
Proof.
  induction n as [|n IH]; intros params Hl; cbn [params_loop].
  - apply returns_timeout.
  - repeat shape_step; try assumption.
    all: apply IH; eapply length_snoc_le; [eassumption|reflexivity].
Qed.

Lemma program_loop_shape (fuel n : nat) :
  forall funcs globals,
    Nat.leb (List.length funcs) 64 = true -> forallb func_shape funcs = true ->
    Nat.leb (List.length globals) 64 = true -> forallb global_shape globals = true ->
    returns (program_loop fuel n funcs globals) (fun p => program_shape p = true).
Proof.
  induction n as [|n IH]; intros funcs globals Hfl Hf Hgl Hg; cbn [program_loop].
  - apply returns_timeout.
  - pose proof (parse_block_shape fuel (parse_stmt fuel) (parse_stmt_shape fuel)) as Hb.
    pose proof (params_loop_shape fuel fuel [] eq_refl) as Hp.
    repeat shape_step;
      try (apply IH; try assumption;
           first [ eapply length_snoc_le; [eassumption|reflexivity]
                 | apply forallb_snoc; try assumption ]);
      shape_node.
Qed.

Lemma parse_only_shape (fuel : nat) (source : string) (prog : AST) (c : Compiler) :
  parse_only fuel source = Done prog c -> program_shape prog = true.
Proof.
  unfold parse_only. intros H. apply bind_Done in H. destruct H as (_ & c1 & _ & H).
  exact (program_loop_shape fuel fuel [] [] eq_refl eq_refl eq_refl eq_refl _ _ _ H).
Qed.



(** ** Line and column of the read position *)

#[local] Instance keeps_track_frame : Frame keeps_track.
Proof.
  split.
  - intros c. split; [reflexivity|exact (fun H => H)].
  - intros c1 c2 c3 [A1 A2] [B1 B2]. split; [congruence|auto].
Qed.

Lemma newlines_snoc (l : list ascii) (ch : ascii) :
  newlines (l ++ [ch]) = (newlines l + (if is_newline ch then 1 else 0))%nat.
Proof.
  unfold newlines. rewrite filter_app, length_app. cbn [filter].
  destruct (is_newline ch); reflexivity.
Qed.

Lemma last_line_snoc (l : list ascii) (ch : ascii) :
  last_line (l ++ [ch]) = if is_newline ch then [] else (last_line l ++ [ch])%list.
Proof.
  unfold last_line. rewrite rev_app_distr. cbn [rev app until_newline].
  destruct (is_newline ch); reflexivity.
Qed.

Lemma newlines_le (l : list ascii) : (newlines l <= List.length l)%nat.
Proof. apply filter_length_le. Qed.

Lemma until_newline_le (l : list ascii) :
  (List.length (until_newline l) <= List.length l)%nat.
Proof.
  induction l as [|ch l IH]; cbn [until_newline List.length]; [lia|].
  destruct (is_newline ch); cbn [List.length]; lia.
Qed.

Lemma last_line_le (l : list ascii) : (List.length (last_line l) <= List.length l)%nat.
Proof.
  unfold last_line. rewrite length_rev.
  rewrite <- (length_rev l). apply until_newline_le.
Qed.

Lemma advance_reads (c : Compiler) :
  match advance c with
  | Done ch c' =>
      0 <= pos c /\ nth_error (buffer c) (Z.to_nat (pos c)) = Some ch
      /\ c' = advanced ch c
  | Fault _ c' => c' = c
  | _ => False
  end.
Proof.
  unfold advance. rewrite bind_get. unfold bind at 1. unfold src_at, buffer.
  destruct (Z.ltb_spec (pos c) 0) as [L|L]; [reflexivity|].
  destruct (nth_error (src c) (Z.to_nat (pos c))) as [ch|] eqn:E.
  - unfold bind, modify, ret.
    destruct (is_char ch LF) eqn:Hnl.
    all: split; [exact L|]; split;
      [|unfold advanced; cbv zeta; rewrite Hnl; reflexivity].
    all: rewrite nth_error_app1; [exact E|apply nth_error_Some; congruence].
  - destruct (Z.eqb_spec (pos c) (Z.of_nat (List.length (src c)))) as [P|P]; [|reflexivity].
    unfold bind, modify, ret.
    change (is_char NUL LF) with false. cbv iota.
    split; [exact L|]. split; [|reflexivity].
    rewrite P, Nat2Z.id, nth_error_app2, Nat.sub_diag by lia. reflexivity.
Qed.

Lemma advanced_tracks (ch : ascii) (c : Compiler) :
  0 <= pos c -> nth_error (buffer c) (Z.to_nat (pos c)) = Some ch ->
  keeps_track c (advanced ch c).
Proof.
  intros L E. split.
  - unfold advanced. cbv zeta. destruct (is_char ch LF); reflexivity.
  - intros (Hp & Hb & Hl & Hc).
    assert (Hlt : (Z.to_nat (pos c) < List.length (buffer c))%nat).
    { apply nth_error_Some. congruence. }
    pose proof (newlines_le (consumed c)) as Nn.
    pose proof (last_line_le (consumed c)) as Nc.
    assert (Hcl : List.length (consumed c) = Z.to_nat (pos c)).
    { unfold consumed. rewrite length_firstn. lia. }
    assert (Hpos : Int.add (pos c) 1 = pos c + 1).
    { apply wrap_small. unfold Int.min_signed, Int.max_signed in *. lia. }
    assert (Hcons : consumed (set_pos (pos c + 1) c) = (consumed c ++ [ch])%list).
    { unfold consumed, buffer. cbn [set_pos pos src].
      replace (Z.to_nat (pos c + 1)) with (S (Z.to_nat (pos c))) by lia.
      apply firstn_succ_nth. exact E. }
    unfold advanced. cbv zeta. rewrite Hpos.
    assert (Hsame : forall c', src c' = src c -> pos c' = pos c + 1 ->
                               consumed c' = (consumed c ++ [ch])%list).
    { intros c' Hs Hq. rewrite <- Hcons. unfold consumed, buffer.
      rewrite Hs, Hq. reflexivity. }
    destruct (is_char ch LF) eqn:Hnl.
    + unfold tracks.
      rewrite Hsame by reflexivity.
      rewrite newlines_snoc, last_line_snoc. unfold is_newline. rewrite Hnl.
      unfold buffer in *. cbn [set_col set_line set_pos pos src cline col List.length].
      rewrite Hl.
      unfold Int.add. rewrite wrap_small
        by (unfold Int.min_signed, Int.max_signed in *; lia).
      lia.
    + unfold tracks.
      rewrite Hsame by reflexivity.
      rewrite newlines_snoc, last_line_snoc. unfold is_newline. rewrite Hnl.
      rewrite length_app.
      unfold buffer in *. cbn [set_col set_line set_pos pos src cline col List.length].
      rewrite Hl, Hc.
      unfold Int.add. rewrite wrap_small
        by (unfold Int.min_signed, Int.max_signed in *; lia).
      lia.
Qed.

Lemma advance_keeps_track : preserves keeps_track advance.
Proof.
  intros c. pose proof (advance_reads c) as H.
  destruct (advance c) as [ch c'|d c'|f c'|]; try contradiction.
  - destruct H as (L & E & ->). apply advanced_tracks; assumption.
  - rewrite H. apply frame_refl.
Qed.

Lemma token_keeps_track (t : Token) (c : Compiler) : keeps_track c (set_cur t c).
Proof. split; [reflexivity|exact (fun H => H)]. Qed.

Lemma next_token_keeps_track (fuel : nat) : preserves keeps_track (next_token fuel).
Proof.
  apply next_token_from_advance; intros; try apply token_keeps_track.
  apply advance_keeps_track.
Qed.

Lemma length_list_of_string (s : string) :
  List.length (list_of_string s) = String.length s.
Proof.
  unfold list_of_string. induction s as [|ch s IH]; cbn; [reflexivity|].
  rewrite IH. reflexivity.
Qed.

Lemma init_tracks (source : string) (arm64 linux : bool) :
  Z.of_nat (String.length source) + 1 < Int.max_signed ->
  tracks (init_compiler source arm64 linux).
Proof.
  intros H. unfold tracks, consumed, buffer. cbn [init_compiler pos src cline col].
  rewrite length_app, length_list_of_string. cbn [List.length Z.to_nat firstn].
  repeat split; try lia. 
Qed.

(** The line and the column the compiler keeps are those of its read
    position.  For every source of fewer than [INT_MAX - 1] bytes, however
    the lexer and the parser end, [line] is one more than the number of
    newlines among the bytes read so far and [col] one more than the number
    of bytes read after the last of them (a tab counts for one column); the
    source text itself is never changed.  A diagnostic of the lexer or the
    parser therefore carries the position of the cursor, which has already
    passed the token the parser is looking at. *)
Theorem diagnostics_carry_the_cursor_position
  (fuel : nat) (source : string) (arm64 linux : bool) :
  Z.of_nat (String.length source) + 1 < Int.max_signed ->
  match (next_token fuel ;; do_parse_program fuel) (init_compiler source arm64 linux) with
  | Done _ c' | Fault _ c' => tracks c'
  | Fatal d c' =>
      tracks c'
      /\ dline d = 1 + Z.of_nat (newlines (consumed c'))
      /\ dcol d = 1 + Z.of_nat (List.length (last_line (consumed c')))
  | Timeout => True
  end.
Proof.
  intros H.
  pose proof (preserves_parse fuel (next_token_keeps_track fuel)
                              (init_compiler source arm64 linux)) as P.
  pose proof (init_tracks source arm64 linux H) as T.
  destruct ((next_token fuel ;; do_parse_program fuel) (init_compiler source arm64 linux))
    as [a c'|d c'|f c'|]; try exact I.
  - exact (proj2 P T).
  - destruct P as ((_ & P) & Dl & Dc). specialize (P T).
    split; [exact P|]. destruct P as (_ & _ & Pl & Pc).
    rewrite Dl, Dc. split; [exact Pl|exact Pc].
  - exact (proj2 P T).
Qed.

Lemma diagnostics_carry_the_cursor_position_witness :
  match (next_token 40 ;; do_parse_program 40) (init_compiler src_error_on_line_3 false true) with
  | Fatal d c' => dline d = 3 /\ dcol d = 12 /\ pos c' = 13
  | _ => False
  end.
Proof.
  pose proof (diagnostics_carry_the_cursor_position 40 src_error_on_line_3 false true) as H.
  destruct ((next_token 40 ;; do_parse_program 40) (init_compiler src_error_on_line_3 false true))
    as [a c'|d c'|f c'|] eqn:E; try (vm_compute in E; discriminate E).
  destruct H as (_ & Hl & Hc); [vm_compute; reflexivity|].
  assert (Hpos : pos c' = 13) by (vm_compute in E; injection E as _ E; rewrite <- E; reflexivity).
  assert (Hsrc : src c' = list_of_string src_error_on_line_3)
    by (vm_compute in E; injection E as _ E; rewrite <- E; reflexivity).
  unfold consumed, buffer in Hl, Hc. rewrite Hpos, Hsrc in Hl, Hc.
  split; [exact Hl|]. split; [exact Hc|exact Hpos].
Defined.

(** ** Pushes and pops of expression code *)

#[local] Instance same_out_frame : Frame same_out.
Proof.
  split.
  - intros c. reflexivity.
  - intros c1 c2 c3 A B. unfold same_out in *. congruence.
Qed.

#[local] Hint Resolve same_out_frame : preserves.

Lemma level_app (h : Z) (l1 l2 : list line) :
  level h (l1 ++ l2) = match level h l1 with
                       | Some h' => level h' l2
                       | None => None
                       end.
Proof.
  revert h. induction l1 as [|x l1 IH]; intros h; cbn [app level]; [reflexivity|].
  cbv zeta. destruct (h + effect x <? 0); [reflexivity|apply IH].
Qed.

Lemma level_nonneg (l : list line) :
  forall h k, 0 <= h -> level h l = Some k -> 0 <= k.
Proof.
  induction l as [|x l IH]; intros h k Hh; cbn [level].
  - intros E. injection E as <-. exact Hh.
  - cbv zeta. destruct (Z.ltb_spec (h + effect x) 0) as [L|L]; [discriminate|].
    apply IH. exact L.
Qed.

Lemma at_level_nonneg (before : list line) (h : Z) (c : Compiler) :
  at_level before h c -> 0 <= h.
Proof. intros (chunk & _ & H). exact (level_nonneg chunk 0 h (Z.le_refl 0) H). Qed.

Lemma at_level_eq (before : list line) (h h' : Z) (c : Compiler) :
  at_level before h c -> h = h' -> at_level before h' c.
Proof. intros H <-. exact H. Qed.

Lemma at_level_line (before : list line) (h k : Z) (x : line) (c : Compiler) :
  effect x = k -> 0 <= h + k -> at_level before h c ->
  at_level before (h + k) (set_out (out c ++ [x]) c).
Proof.
  intros Hk Hh (chunk & Ho & Hl). exists (chunk ++ [x])%list. cbn [out set_out].
  split; [rewrite Ho, app_assoc; reflexivity|].
  rewrite level_app, Hl. cbn [level]. cbv zeta. rewrite Hk.
  destruct (Z.ltb_spec (h + k) 0); [lia|reflexivity].
Qed.

(** *** Rules *)

Lemma level_emit (before : list line) (h k : Z) (f : string) (a : list fmt_arg) :
  effect (mkLine f a) = k -> 0 <= h + k ->
  triple (at_level before h) (emit f a) (fun _ => at_level before (h + k))
         (never_below before).
Proof.
  intros Hk Hh. apply triple_modify. intros c Hc.
  exact (at_level_line before h k _ c Hk Hh Hc).
Qed.

Lemma level_quiet {A} (before : list line) (h : Z) (m : M A) :
  preserves same_out m ->
  triple (at_level before h) m (fun _ => at_level before h) (never_below before).
Proof.
  intros H c (chunk & Ho & Hl). specialize (H c).
  destruct (m c) as [a c'|d c'|f c'|]; try exact I.
  - exists chunk. rewrite H. split; assumption.
  - destruct H as [H _]. exists h, chunk. rewrite H. split; assumption.
  - exists h, chunk. rewrite H. split; assumption.
Qed.

Lemma level_stop {A} (before : list line) (h : Z) (m : M A) (Q : A -> Compiler -> Prop) :
  (forall c, match m c with Fatal _ c' | Fault _ c' => c' = c | _ => False end) ->
  triple (at_level before h) m Q (never_below before).
Proof.
  intros H c Hc. specialize (H c).
  destruct (m c) as [a c'|d c'|f c'|]; try contradiction; subst c'; exists h; exact Hc.
Qed.

Lemma new_label_same_out : preserves same_out new_label.
Proof. intros c. reflexivity. Qed.

Lemma add_string_same_out (s : string) : preserves same_out (add_string s).
Proof.
  intros c. unfold add_string. rewrite bind_get.
  destruct (256 <=? nstrings c); reflexivity.
Qed.

#[local] Hint Resolve new_label_same_out add_string_same_out : preserves.

Lemma surplus_sum_nonneg (limit : Z) (l : list AST) :
  Forall (fun e => 0 <= surplus limit e) l ->
  0 <= fold_right Z.add 0 (map (surplus limit) l).
Proof.
  induction 1 as [|e l He Hl IH]; cbn [map fold_right]; lia.
Qed.

Lemma surplus_nonneg (limit : Z) (e : AST) : 0 <= surplus limit e.
Proof.
  induction e using AST_induction; cbn [surplus]; try lia.
  - (* assignment *)
    destruct e1; cbn [surplus] in *; lia.
  - (* call *)
    pose proof (surplus_sum_nonneg limit args) as Hs.
    assert (Forall (fun e => 0 <= surplus limit e) args) as Hf by assumption.
    specialize (Hs Hf). lia.
Qed.

Ltac note H :=
  let T := type of H in
  lazymatch goal with
  | _ : T |- _ => fail
  | _ => pose proof H
  end.

Ltac level_side lim :=
  repeat match goal with
         | e : AST |- _ => note (surplus_nonneg lim e)
         end;
  cbn [surplus] in *; lia.

Ltac level_leaf lim :=
  first [ eapply (level_emit _ _ 0); [reflexivity | level_side lim]
        | eapply (level_emit _ _ 1); [reflexivity | level_side lim]
        | eapply (level_emit _ _ (-1)); [reflexivity | level_side lim]
        | apply level_quiet; solve [eauto with preserves]
        | apply level_stop; intros ?; reflexivity
        | match goal with
          | H : forall e, moves _ _ |- _ => eapply H; level_side lim
          end ].

Ltac level_step lim :=
  match goal with
  | |- triple _ (let _ := _ in _) _ _ => cbv zeta
  | |- triple _ (bind (bind _ _) _) _ _ => apply triple_assoc
  | |- triple _ (bind (when _ _) _) _ _ => unfold when at 1
  | |- triple _ (when _ _) _ _ => unfold when at 1
  | |- triple _ (bind (if ?b then _ else _) _) _ _ => destruct b eqn:?
  | |- triple _ (bind (match ?x with _ => _ end) _) _ _ => destruct x eqn:?
  | |- triple _ (bind (ret _) _) _ _ => eapply triple_bind; [apply triple_ret; intros ? H; exact H|intros ?]
  | |- triple _ (bind _ _) _ _ => eapply triple_bind; [level_leaf lim|intros ?]
  | |- triple _ (if ?b then _ else _) _ _ => destruct b eqn:?
  | |- triple _ (match ?x with _ => _ end) _ _ => destruct x eqn:?
  end.

(** The last piece of a sequence: its level is the one asked for. *)
Ltac level_end lim :=
  match goal with
  | |- triple _ (error _ _) _ _ => apply level_stop; intros ?; reflexivity
  | |- triple _ (raise_fault _) _ _ => apply level_stop; intros ?; reflexivity
  | |- triple _ timeout _ _ => apply triple_timeout
  | |- triple _ (ret _) _ _ =>
      apply triple_ret; intros ? ?; eapply at_level_eq; [eassumption|level_side lim]
  | |- triple _ _ _ _ =>
      eapply triple_post;
      [ level_leaf lim
      | cbv beta; intros ? ? ?; eapply at_level_eq; [eassumption|level_side lim] ]
  end.

Ltac level_run lim := repeat level_step lim; try level_end lim.

Lemma sum_firstn_succ (limit : Z) (args : list AST) (i : nat) (a : AST) :
  nth_error args i = Some a ->
  fold_right Z.add 0 (map (surplus limit) (firstn (S i) args))
  = fold_right Z.add 0 (map (surplus limit) (firstn i args)) + surplus limit a.
Proof.
  intros H. rewrite (firstn_succ_nth args i a H), map_app.
  generalize (map (surplus limit) (firstn i args)). intros l.
  cbn [map]. induction l as [|x l IH]; cbn [app fold_right]; [lia|]. rewrite IH. lia.
Qed.

Lemma sum_firstn_nonneg (limit : Z) (args : list AST) (i : nat) :
  0 <= fold_right Z.add 0 (map (surplus limit) (firstn i args)).
Proof.
  apply surplus_sum_nonneg. apply Forall_forall. intros e _. apply surplus_nonneg.
Qed.

Section BalanceArm64.

Variable gen_expr : AST -> M unit.
Hypothesis Hgen : forall e, moves (surplus 8 e) (gen_expr e).

Lemma push_args_arm64_moves (args : list AST) (k : nat) :
  moves (Z.of_nat k + fold_right Z.add 0 (map (surplus 8) (firstn k args)))
        (Arm64.push_args gen_expr args k).
Proof.
  induction k as [|i IH]; intros before h Hh; cbn [Arm64.push_args].
  - apply triple_ret. intros c Hc. eapply at_level_eq; [exact Hc|].
    cbn [firstn map fold_right]. lia.
  - pose proof (sum_firstn_nonneg 8 args i) as Hs.
    destruct (nth_error args i) as [a|] eqn:E.
    + rewrite (sum_firstn_succ 8 args i a E).
      pose proof (surplus_nonneg 8 a) as Ha.
      eapply triple_bind; [apply Hgen; exact Hh|]. intros ?.
      eapply triple_bind; [eapply (level_emit _ _ 1); [reflexivity|lia]|]. intros ?.
      eapply triple_post; [apply IH; lia|].
      cbv beta. intros ? c Hc. eapply at_level_eq; [exact Hc|lia].
    + apply level_stop. intros c. reflexivity.
Qed.

Lemma pop_args_arm64_moves (nargs : Z) (fuel : nat) :
  forall i before h,
    0 <= i -> 8 - i <= Z.of_nat fuel ->
    0 <= h - Z.max 0 (Z.min nargs 8 - i) ->
    triple (at_level before h) (Arm64.pop_args nargs fuel i)
           (fun _ => at_level before (h - Z.max 0 (Z.min nargs 8 - i)))
           (never_below before).
Proof.
  induction fuel as [|k IH]; intros i before h Hi Hf Hh; cbn [Arm64.pop_args].
  - apply triple_ret. intros c Hc. eapply at_level_eq; [exact Hc|lia].
  - destruct ((i <? nargs) && (i <? 8)) eqn:E.
    + apply andb_prop in E. destruct E as [E1 E2].
      apply Z.ltb_lt in E1. apply Z.ltb_lt in E2.
      eapply triple_bind; [eapply (level_emit _ _ (-1)); [reflexivity|lia]|]. intros ?.
      eapply triple_post; [apply IH; lia|].
      cbv beta. intros ? c Hc. eapply at_level_eq; [exact Hc|lia].
    + apply triple_ret. intros c Hc. eapply at_level_eq; [exact Hc|].
      apply andb_false_iff in E. destruct E as [E|E]; apply Z.ltb_ge in E; lia.
Qed.

Lemma gen_binop_tail_arm64_moves (op : TokenType) : moves 0 (Arm64.gen_binop_tail op).
Proof.
  intros before h Hh. unfold Arm64.gen_binop_tail.
  destruct op; level_run 8.
Qed.

Lemma gen_expr_body_arm64_moves (e : AST) :
  moves (surplus 8 e) (Arm64.gen_expr_body gen_expr e).
Proof.
  intros before h Hh.
  pose proof gen_binop_tail_arm64_moves as Ht.
  destruct e; cbn [Arm64.gen_expr_body surplus]; level_run 8.
  (* call *)
  pose proof (sum_firstn_nonneg 8 args (List.length args)) as Hs.
  rewrite firstn_all in Hs.
  eapply triple_bind; [apply push_args_arm64_moves; exact Hh|]. intros ?.
  rewrite firstn_all.
  eapply triple_bind; [apply pop_args_arm64_moves; lia|]. intros ?.
  level_end 8.
Qed.

End BalanceArm64.

Lemma gen_expr_arm64_moves (depth : nat) :
  forall e, moves (surplus 8 e) (Arm64.gen_expr_arm64 depth e).
Proof.
  induction depth as [|d IH]; intros e; cbn [Arm64.gen_expr_arm64].
  - intros before h Hh. apply triple_timeout.
  - apply gen_expr_body_arm64_moves. exact IH.
Qed.

Section BalanceX64.

Variable gen_expr : AST -> M unit.
Hypothesis Hgen : forall e, moves (surplus 6 e) (gen_expr e).

Lemma push_args_x64_moves (args : list AST) (k : nat) :
  moves (Z.of_nat k + fold_right Z.add 0 (map (surplus 6) (firstn k args)))
        (X64.push_args gen_expr args k).
Proof.
  induction k as [|i IH]; intros before h Hh; cbn [X64.push_args].
  - apply triple_ret. intros c Hc. eapply at_level_eq; [exact Hc|].
    cbn [firstn map fold_right]. lia.
  - pose proof (sum_firstn_nonneg 6 args i) as Hs.
    destruct (nth_error args i) as [a|] eqn:E.
    + rewrite (sum_firstn_succ 6 args i a E).
      pose proof (surplus_nonneg 6 a) as Ha.
      eapply triple_bind; [apply Hgen; exact Hh|]. intros ?.
      eapply triple_bind; [eapply (level_emit _ _ 1); [reflexivity|lia]|]. intros ?.
      eapply triple_post; [apply IH; lia|].
      cbv beta. intros ? c Hc. eapply at_level_eq; [exact Hc|lia].
    + apply level_stop. intros c. reflexivity.
Qed.

Lemma pop_args_x64_moves (nargs : Z) (fuel : nat) :
  forall i before h,
    0 <= i -> 6 - i <= Z.of_nat fuel ->
    0 <= h - Z.max 0 (Z.min nargs 6 - i) ->
    triple (at_level before h) (X64.pop_args nargs fuel i)
           (fun _ => at_level before (h - Z.max 0 (Z.min nargs 6 - i)))
           (never_below before).
Proof.
  induction fuel as [|k IH]; intros i before h Hi Hf Hh; cbn [X64.pop_args].
  - apply triple_ret. intros c Hc. eapply at_level_eq; [exact Hc|lia].
  - destruct ((i <? nargs) && (i <? 6)) eqn:E.
    + apply andb_prop in E. destruct E as [E1 E2].
      apply Z.ltb_lt in E1. apply Z.ltb_lt in E2.
      eapply triple_bind; [eapply (level_emit _ _ (-1)); [reflexivity|lia]|]. intros ?.
      eapply triple_post; [apply IH; lia|].
      cbv beta. intros ? c Hc. eapply at_level_eq; [exact Hc|lia].
    + apply triple_ret. intros c Hc. eapply at_level_eq; [exact Hc|].
      apply andb_false_iff in E. destruct E as [E|E]; apply Z.ltb_ge in E; lia.
Qed.

Lemma gen_setcc_moves (cc : string) : moves 0 (X64.gen_setcc cc).
Proof. intros before h Hh. unfold X64.gen_setcc. level_run 6. Qed.

Lemma gen_binop_tail_x64_moves (op : TokenType) : moves 0 (X64.gen_binop_tail op).
Proof.
  intros before h Hh. unfold X64.gen_binop_tail.
  destruct op;
    lazymatch goal with
    | |- triple _ (X64.gen_setcc _) _ _ => apply gen_setcc_moves; exact Hh
    | _ => level_run 6
    end.
Qed.

Lemma gen_expr_body_x64_moves (e : AST) :
  moves (surplus 6 e) (X64.gen_expr_body gen_expr e).
Proof.
  intros before h Hh.
  pose proof gen_binop_tail_x64_moves as Ht.
  destruct e; cbn [X64.gen_expr_body surplus]; level_run 6.
  (* call *)
  pose proof (sum_firstn_nonneg 6 args (List.length args)) as Hs.
  rewrite firstn_all in Hs.
  eapply triple_bind; [apply push_args_x64_moves; exact Hh|]. intros ?.
  rewrite firstn_all.
  eapply triple_bind; [apply pop_args_x64_moves; lia|]. intros ?.
  level_run 6.
Qed.

End BalanceX64.

Lemma gen_expr_x64_moves (depth : nat) :
  forall e, moves (surplus 6 e) (X64.gen_expr_x64 depth e).
Proof.
  induction depth as [|d IH]; intros e; cbn [X64.gen_expr_x64].
  - intros before h Hh. apply triple_timeout.
  - apply gen_expr_body_x64_moves. exact IH.
Qed.

Lemma moves_chunk {A} (k : Z) (m : M A) (c : Compiler) :
  moves k m ->
  match m c with
  | Done _ c' => exists chunk, out c' = (out c ++ chunk)%list /\ level 0 chunk = Some k
  | Fatal _ c' | Fault _ c' =>
      exists chunk h, out c' = (out c ++ chunk)%list /\ level 0 chunk = Some h
  | Timeout => True
  end.
Proof.
  intros H. specialize (H (out c) 0 (Z.le_refl 0) c).
  assert (Hc : at_level (out c) 0 c).
  { exists []. split; [symmetry; apply app_nil_r|reflexivity]. }
  specialize (H Hc).
  destruct (m c) as [a c'|d c'|f c'|]; try exact I.
  - destruct H as (chunk & Ho & Hl). exists chunk. split; [exact Ho|exact Hl].
  - destruct H as (h & chunk & Ho & Hl). exists chunk, h. split; assumption.
  - destruct H as (h & chunk & Ho & Hl). exists chunk, h. split; assumption.
Qed.

(** Expression code leaves the stack as it found it, but for the surplus
    arguments of calls.  On either back-end, for every expression tree and
    start state: the lines written never pop more words than they have
    pushed, also when the generation stops with a diagnostic or a fault;
    and when the generation returns, the words pushed and not popped again
    are exactly the arguments beyond the eighth (AArch64) or the sixth
    (x86-64) of the calls in the expression, which are pushed like the
    others but never popped.  An expression without such a call is
    balanced. *)
Theorem expression_code_balances_the_stack (depth : nat) (e : AST) (c : Compiler) :
  match Arm64.gen_expr_arm64 depth e c with
  | Done _ c' =>
      exists chunk, out c' = (out c ++ chunk)%list /\ level 0 chunk = Some (surplus 8 e)
  | Fatal _ c' | Fault _ c' =>
      exists chunk h, out c' = (out c ++ chunk)%list /\ level 0 chunk = Some h
  | Timeout => True
  end
  /\ match X64.gen_expr_x64 depth e c with
     | Done _ c' =>
         exists chunk, out c' = (out c ++ chunk)%list /\ level 0 chunk = Some (surplus 6 e)
     | Fatal _ c' | Fault _ c' =>
         exists chunk h, out c' = (out c ++ chunk)%list /\ level 0 chunk = Some h
     | Timeout => True
     end.
Proof.
  split.
  - apply moves_chunk. apply gen_expr_arm64_moves.
  - apply moves_chunk. apply gen_expr_x64_moves.
Qed.

(** A call with nine arguments leaves one word on the AArch64 stack and
    three on the x86-64 stack. *)
Example nine_arguments_leave_words_on_the_stack :
  option_map (level 0) (option_map out
     (match Arm64.gen_expr_arm64 3 call_nine (init_compiler EmptyString true false) with
      | Done _ c' => Some c' | _ => None end)) = Some (Some 1)
  /\ option_map (level 0) (option_map out
     (match X64.gen_expr_x64 3 call_nine (init_compiler EmptyString false true) with
      | Done _ c' => Some c' | _ => None end)) = Some (Some 3)
  /\ surplus 8 call_nine = 1 /\ surplus 6 call_nine = 3.
Proof. repeat split; vm_compute; reflexivity. Qed.

(** ** String literals *)

Lemma str_refs_snoc (l : list line) (x : line) :
  str_refs (l ++ [x]) = (str_refs l ++ str_ref_of x)%list.
Proof. unfold str_refs. rewrite flat_map_app. cbn. rewrite app_nil_r. reflexivity. Qed.

Lemma str_defs_snoc (l : list line) (x : line) :
  str_defs (l ++ [x]) = (str_defs l ++ str_def_of x)%list.
Proof. unfold str_defs. rewrite flat_map_app. cbn. rewrite app_nil_r. reflexivity. Qed.

Lemma str_texts_snoc (l : list line) (x : line) :
  str_texts (l ++ [x]) = (str_texts l ++ str_text_of x)%list.
Proof. unfold str_texts. rewrite flat_map_app. cbn. rewrite app_nil_r. reflexivity. Qed.

Lemma numbered_snoc (p : string) (from : Z) (n : nat) :
  numbered p from (S n) = (numbered p from n ++ [(p, from + Z.of_nat n)])%list.
Proof. unfold numbered. rewrite seq_S, map_app. reflexivity. Qed.

Lemma refs_expected_snoc (arm linux : bool) (n : nat) :
  refs_expected arm linux (S n)
  = (refs_expected arm linux n
     ++ (if arm then [(ref_prefix arm linux, Z.of_nat n); (ref_prefix arm linux, Z.of_nat n)]
         else [(ref_prefix arm linux, Z.of_nat n)]))%list.
Proof.
  unfold refs_expected. rewrite numbered_snoc, flat_map_app. cbn [flat_map].
  rewrite app_nil_r. reflexivity.
Qed.

(** *** Rules *)

Section TidyRules.

Variables arm linux : bool.

Lemma tidy_ret {A} (a : A) : tidy arm linux (ret a).
Proof. intros c Hc. exact Hc. Qed.

Lemma tidy_get : tidy arm linux get.
Proof. intros c Hc. exact Hc. Qed.

Lemma tidy_error {A} f l : tidy arm linux (@error A f l).
Proof. intros c Hc. exact I. Qed.

Lemma tidy_fault {A} f : tidy arm linux (@raise_fault A f).
Proof. intros c Hc. exact I. Qed.

Lemma tidy_timeout {A} : tidy arm linux (@timeout A).
Proof. intros c Hc. exact I. Qed.

Lemma tidy_bind {A B} (m : M A) (k : A -> M B) :
  tidy arm linux m -> (forall a, tidy arm linux (k a)) -> tidy arm linux (bind m k).
Proof. intros Hm Hk. eapply triple_bind; [apply Hm|]. intros a. apply Hk. Qed.

(** Code that touches neither the output, the string table nor the target
    flags. *)
Lemma tidy_quiet {A} (m : M A) :
  (forall c a c', m c = Done a c' ->
                  out c' = out c /\ string_literals c' = string_literals c
                  /\ is_linux c' = is_linux c) ->
  tidy arm linux m.
Proof.
  intros H c (Hl & Hd & Ht & Hr). destruct (m c) as [a c'| | |] eqn:E; try exact I.
  destruct (H _ _ _ E) as (Ho & Hs & Hf).
  unfold str_inv. rewrite Ho, Hs, Hf. repeat split; assumption.
Qed.

Lemma tidy_modify (f : Compiler -> Compiler) :
  (forall c, out (f c) = out c /\ string_literals (f c) = string_literals c
             /\ is_linux (f c) = is_linux c) ->
  tidy arm linux (modify f).
Proof. intros H. apply tidy_quiet. intros c a c' E. injection E as _ <-. apply H. Qed.

(** A line that is neither a reference to a literal nor part of the string
    table. *)
Lemma tidy_emit (f : string) (a : list fmt_arg) :
  is_str_ref f = false -> String.eqb f "%sstr%d:" = false ->
  String.eqb f asciz_fmt = false ->
  tidy arm linux (emit f a).
Proof.
  intros Hr Hd Ht. apply triple_modify. intros c (Hl & Hdc & Htc & Hrc).
  unfold str_inv. cbn [out set_out string_literals is_linux].
  rewrite str_refs_snoc, str_defs_snoc, str_texts_snoc.
  unfold str_ref_of, str_def_of, str_text_of. cbn [fmt]. rewrite Hr, Hd, Ht.
  rewrite !app_nil_r. repeat split; assumption.
Qed.

Lemma tidy_for_each {A} (f : A -> M unit) (l : list A) :
  (forall a, tidy arm linux (f a)) -> tidy arm linux (for_each f l).
Proof.
  intros H. induction l as [|x l IH]; cbn [for_each];
    [apply tidy_ret | apply tidy_bind; auto].
Qed.

Lemma tidy_for_each_from {A} (f : Z -> A -> M unit) (l : list A) :
  (forall i a, tidy arm linux (f i a)) -> forall i, tidy arm linux (for_each_from f i l).
Proof.
  intros H. induction l as [|x l IH]; intros i; cbn [for_each_from];
    [apply tidy_ret | apply tidy_bind; auto].
Qed.

Lemma tidy_when (b : bool) (m : M unit) : tidy arm linux m -> tidy arm linux (when b m).
Proof. intros H. destruct b; [exact H | apply tidy_ret]. Qed.

Lemma tidy_opt_iter {A} (f : A -> M unit) (o : option A) :
  (forall a, tidy arm linux (f a)) -> tidy arm linux (opt_iter f o).
Proof. intros H. destruct o; [apply H | apply tidy_ret]. Qed.

Lemma tidy_find_symbol (name : string) : tidy arm linux (find_symbol name).
Proof. apply tidy_quiet. intros c a c' E. injection E as _ <-. repeat split. Qed.

Lemma tidy_sym_prefix : tidy arm linux sym_prefix.
Proof. apply tidy_quiet. intros c a c' E. injection E as _ <-. repeat split. Qed.

Lemma tidy_new_label : tidy arm linux new_label.
Proof. apply tidy_quiet. intros c a c' E. injection E as _ <-. repeat split. Qed.

Lemma tidy_add_symbol (name : string) (g p : bool) (i : Z) :
  tidy arm linux (add_symbol name g p i).
Proof.
  apply tidy_quiet. intros c a c'. unfold add_symbol. rewrite bind_get.
  destruct (256 <=? nsymbols c); [discriminate|].
  destruct (negb g && negb p); intros E; injection E as _ <-; repeat split.
Qed.

Lemma tidy_update_last_symbol (f : Symbol -> Symbol) :
  tidy arm linux (update_last_symbol f).
Proof. apply tidy_modify. intros c. destruct (rev (symbols c)); repeat split. Qed.

End TidyRules.

Create HintDb tidy discriminated.

#[local] Hint Resolve tidy_ret tidy_get tidy_error tidy_fault tidy_timeout
  tidy_find_symbol tidy_sym_prefix tidy_new_label tidy_add_symbol
  tidy_update_last_symbol : tidy.
#[local] Hint Extern 1 (tidy _ _ (emit _ _)) =>
  apply tidy_emit; reflexivity : tidy.
#[local] Hint Extern 1 (tidy _ _ (modify _)) =>
  apply tidy_modify; intros; repeat split : tidy.

Ltac tidy_step :=
  match goal with
  | |- tidy _ _ (let _ := _ in _) => cbv zeta
  | |- tidy _ _ (bind _ _) => apply tidy_bind; [|intros ?]
  | |- tidy _ _ (for_each _ _) => apply tidy_for_each; intros ?
  | |- tidy _ _ (for_each_from _ _ _) => apply tidy_for_each_from; intros ? ?
  | |- tidy _ _ (when _ _) => apply tidy_when
  | |- tidy _ _ (opt_iter _ _) => apply tidy_opt_iter; intros ?
  | |- tidy _ _ (if ?b then _ else _) => destruct b
  | |- tidy _ _ (match ?x with _ => _ end) => destruct x
  | |- tidy _ _ _ => solve [eauto with tidy]
  end.

(** *** A literal in an expression *)

Lemma literal_arm64 (linux : bool) (s : string) :
  tidy true linux (idx <- add_string s ;;
                   emit "    adrp x0, _str%d@PAGE" [FInt idx] ;;
                   emit "    add x0, x0, _str%d@PAGEOFF" [FInt idx]).
Proof.
  intros c (Hl & Hd & Ht & Hr). cbv [add_string bind get modify emit ret].
  destruct (256 <=? nstrings c); [exact I|].
  unfold str_inv.
  cbn [out set_out string_literals set_string_literals is_linux].
  rewrite !str_refs_snoc, !str_defs_snoc, !str_texts_snoc.
  rewrite length_app. cbn [List.length]. rewrite Nat.add_1_r, refs_expected_snoc.
  unfold str_ref_of, str_def_of, str_text_of. cbn [fmt fargs].
  change (is_str_ref "    adrp x0, _str%d@PAGE") with true.
  change (is_str_ref "    add x0, x0, _str%d@PAGEOFF") with true.
  cbv iota. cbn [String.eqb Ascii.eqb Bool.eqb]. cbv iota.
  rewrite !app_nil_r, Hd, Ht, Hr, <- app_assoc. unfold nstrings, ref_prefix.
  repeat split; try assumption.
Qed.

Lemma literal_x64 (linux : bool) (s : string) :
  tidy false linux (idx <- add_string s ;;
                    p <- sym_prefix ;;
                    emit "    leaq %sstr%d(%%rip), %%rax" [FStr p; FInt idx]).
Proof.
  intros c (Hl & Hd & Ht & Hr). cbv [add_string bind get modify emit ret sym_prefix].
  destruct (256 <=? nstrings c); [exact I|].
  unfold str_inv.
  cbn [out set_out string_literals set_string_literals is_linux].
  rewrite !str_refs_snoc, !str_defs_snoc, !str_texts_snoc.
  rewrite length_app. cbn [List.length]. rewrite Nat.add_1_r, refs_expected_snoc.
  unfold str_ref_of, str_def_of, str_text_of. cbn [fmt fargs].
  change (is_str_ref "    leaq %sstr%d(%%rip), %%rax") with true.
  cbv iota. cbn [String.eqb Ascii.eqb Bool.eqb]. cbv iota.
  rewrite !app_nil_r, Hd, Ht, Hr. unfold nstrings, ref_prefix, platform_prefix.
  rewrite Hl. repeat split; try assumption.
Qed.

(** *** The generators before the string table *)

Section TidyExpr.

Variables arm linux : bool.
Variable gen_expr : AST -> M unit.
Hypothesis H_gen : forall a, tidy arm linux (gen_expr a).

Hint Resolve H_gen : tidy.

Lemma tidy_push_args_arm64 (args : list AST) :
  forall k, tidy arm linux (Arm64.push_args gen_expr args k).
Proof. induction k; cbn [Arm64.push_args]; repeat tidy_step. Qed.

Lemma tidy_push_args_x64 (args : list AST) :
  forall k, tidy arm linux (X64.push_args gen_expr args k).
Proof. induction k; cbn [X64.push_args]; repeat tidy_step. Qed.

Lemma tidy_pop_args_arm64 (nargs : Z) (n : nat) :
  forall i, tidy arm linux (Arm64.pop_args nargs n i).
Proof. induction n; intros i; cbn [Arm64.pop_args]; repeat tidy_step. Qed.

Lemma tidy_pop_args_x64 (nargs : Z) (n : nat) :
  forall i, tidy arm linux (X64.pop_args nargs n i).
Proof. induction n; intros i; cbn [X64.pop_args]; repeat tidy_step. Qed.

Lemma tidy_gen_setcc (cc : string) : tidy arm linux (X64.gen_setcc cc).
Proof. unfold X64.gen_setcc. repeat tidy_step. Qed.

Hint Resolve tidy_gen_setcc : tidy.

Lemma tidy_gen_binop_tail_arm64 (op : TokenType) :
  tidy arm linux (Arm64.gen_binop_tail op).
Proof. unfold Arm64.gen_binop_tail. repeat tidy_step. Qed.

Lemma tidy_gen_binop_tail_x64 (op : TokenType) :
  tidy arm linux (X64.gen_binop_tail op).
Proof. unfold X64.gen_binop_tail. repeat tidy_step. Qed.

End TidyExpr.

#[local] Hint Resolve tidy_push_args_arm64 tidy_push_args_x64 tidy_pop_args_arm64
  tidy_pop_args_x64 tidy_gen_binop_tail_arm64 tidy_gen_binop_tail_x64 : tidy.

Lemma tidy_gen_expr_arm64 (linux : bool) (depth : nat) :
  forall node, tidy true linux (Arm64.gen_expr_arm64 depth node).
Proof.
  induction depth as [|d IH]; intros node; cbn [Arm64.gen_expr_arm64];
    [apply tidy_timeout|].
  destruct node; cbn [Arm64.gen_expr_body];
    try apply literal_arm64; repeat tidy_step.
Qed.

Lemma tidy_gen_expr_x64 (linux : bool) (depth : nat) :
  forall node, tidy false linux (X64.gen_expr_x64 depth node).
Proof.
  induction depth as [|d IH]; intros node; cbn [X64.gen_expr_x64];
    [apply tidy_timeout|].
  destruct node; cbn [X64.gen_expr_body];
    try apply literal_x64; repeat tidy_step.
Qed.

#[local] Hint Resolve tidy_gen_expr_arm64 tidy_gen_expr_x64 : tidy.

Lemma tidy_declare_local (arm linux : bool) (name : string) (a : bool) (n : Z) :
  tidy arm linux (declare_local name a n).
Proof. unfold declare_local. repeat tidy_step. Qed.

Lemma tidy_declare_global (arm linux : bool) (g : AST) :
  tidy arm linux (declare_global g).
Proof. unfold declare_global. repeat tidy_step. Qed.

#[local] Hint Resolve tidy_declare_local tidy_declare_global : tidy.

Lemma tidy_gen_stmt_depth_arm64 (linux : bool) (fuel depth : nat) :
  forall node, tidy true linux (Arm64.gen_stmt_depth fuel depth node).
Proof.
  induction depth as [|d IH]; intros node; cbn [Arm64.gen_stmt_depth];
    [apply tidy_timeout|].
  unfold Arm64.gen_stmt_body. repeat tidy_step.
Qed.

Lemma tidy_gen_stmt_depth_x64 (linux : bool) (fuel depth : nat) :
  forall node, tidy false linux (X64.gen_stmt_depth fuel depth node).
Proof.
  induction depth as [|d IH]; intros node; cbn [X64.gen_stmt_depth];
    [apply tidy_timeout|].
  unfold X64.gen_stmt_body. repeat tidy_step.
Qed.

Lemma tidy_gen_stmt_arm64 (linux : bool) (fuel : nat) (node : AST) :
  tidy true linux (Arm64.gen_stmt_arm64 fuel node).
Proof. apply tidy_gen_stmt_depth_arm64. Qed.

Lemma tidy_gen_stmt_x64 (linux : bool) (fuel : nat) (node : AST) :
  tidy false linux (X64.gen_stmt_x64 fuel node).
Proof. apply tidy_gen_stmt_depth_x64. Qed.

#[local] Hint Resolve tidy_gen_stmt_arm64 tidy_gen_stmt_x64 : tidy.

Lemma tidy_gen_func_arm64 (linux : bool) (fuel : nat) (node : AST) :
  tidy true linux (Arm64.gen_func_arm64 fuel node).
Proof. unfold Arm64.gen_func_arm64. repeat tidy_step. Qed.

Lemma tidy_save_params (arm linux : bool) (params : list string) :
  forall i, tidy arm linux (X64.save_params i params).
Proof. induction params; intros i; cbn [X64.save_params]; repeat tidy_step. Qed.

#[local] Hint Resolve tidy_save_params : tidy.

Lemma tidy_gen_func_x64 (linux : bool) (fuel : nat) (node : AST) :
  tidy false linux (X64.gen_func_x64 fuel node).
Proof. unfold X64.gen_func_x64. repeat tidy_step. Qed.

Lemma tidy_gen_global_data (arm linux : bool) (align : bool) (prefix : string) (g : AST) :
  tidy arm linux (gen_global_data align prefix g).
Proof. unfold gen_global_data. repeat tidy_step. Qed.

#[local] Hint Resolve tidy_gen_func_arm64 tidy_gen_func_x64 tidy_gen_global_data : tidy.

(** *** The string table *)

Lemma table_entry (arm linux : bool) (done : list string) (s : string) (c : Compiler) :
  table_inv arm linux done c ->
  table_inv arm linux (done ++ [s])
    (set_out ((out c ++ [mkLine "%sstr%d:" [FStr (platform_prefix linux);
                                           FInt (Z.of_nat (List.length done))]])
              ++ [mkLine asciz_fmt [FStr s]]) c).
Proof.
  intros (Hl & Hd & Ht & Hr). unfold table_inv.
  cbn [out set_out string_literals is_linux].
  rewrite !str_refs_snoc, !str_defs_snoc, !str_texts_snoc.
  rewrite length_app. cbn [List.length]. rewrite Nat.add_1_r, numbered_snoc.
  unfold str_ref_of, str_def_of, str_text_of. cbn [fmt fargs].
  change (is_str_ref "%sstr%d:") with false.
  change (is_str_ref asciz_fmt) with false.
  change (String.eqb "%sstr%d:" "%sstr%d:") with true.
  change (String.eqb asciz_fmt "%sstr%d:") with false.
  change (String.eqb "%sstr%d:" asciz_fmt) with false.
  change (String.eqb asciz_fmt asciz_fmt) with true.
  cbv iota. rewrite !app_nil_r, Hd, Ht, Hr, Z.add_0_l.
  repeat split; assumption.
Qed.

Lemma table_loop (arm linux : bool) (all l : list string) :
  forall done,
    triple (fun c => table_inv arm linux done c /\ string_literals c = all)
           (for_each_from
              (fun i s => emit "%sstr%d:" [FStr (platform_prefix linux); FInt i] ;;
                          emit asciz_fmt [FStr s])
              (Z.of_nat (List.length done)) l)
           (fun _ c => table_inv arm linux (done ++ l) c /\ string_literals c = all)
           (fun _ => True).
Proof.
  induction l as [|s l IH]; intros done; cbn [for_each_from].
  - apply triple_ret. intros c H. rewrite app_nil_r. exact H.
  - eapply triple_bind
      with (R := fun _ c => table_inv arm linux (done ++ [s]) c /\ string_literals c = all).
    + intros c [Hc Hs]. cbv [bind emit modify].
      split; [exact (table_entry arm linux done s c Hc)|exact Hs].
    + intros ?. cbv beta.
      replace (Z.of_nat (List.length done) + 1)
        with (Z.of_nat (List.length (done ++ [s])))
        by (rewrite length_app; cbn [List.length]; lia).
      replace (done ++ s :: l)%list with ((done ++ [s]) ++ l)%list
        by (rewrite <- app_assoc; reflexivity).
      apply IH.
Qed.

Lemma gen_strings_writes_table (arm linux : bool) :
  triple (str_inv arm linux) (gen_strings (platform_prefix linux))
         (fun _ => table_written arm linux) (fun _ => True).
Proof.
  unfold gen_strings. intros c Hc. rewrite bind_get.
  pose proof (table_loop arm linux (string_literals c) (string_literals c) [] c) as H.
  cbn [List.length Z.of_nat app] in H.
  match type of H with ?P -> _ => assert (Hp : P) end.
  { split; [exact Hc|reflexivity]. }
  specialize (H Hp).
  destruct (for_each_from _ 0 (string_literals c) c) as [u c'| | |]; try exact I.
  destruct H as [H Hs]. unfold table_written. rewrite Hs. exact H.
Qed.

Lemma prefix_is_platform (arm linux : bool) :
  triple (str_inv arm linux) sym_prefix
         (fun p c => p = platform_prefix linux /\ str_inv arm linux c) (fun _ => True).
Proof.
  intros c Hc. cbn. split; [|exact Hc]. destruct Hc as [Hl _]. rewrite Hl. reflexivity.
Qed.

Lemma triple_pure {A} (phi : Prop) (P : Compiler -> Prop) (m : M A)
      (Q : A -> Compiler -> Prop) E :
  (phi -> triple P m Q E) -> triple (fun c => phi /\ P c) m Q E.
Proof. intros H c [Hphi Hc]. exact (H Hphi c Hc). Qed.

Lemma tidy_use {A} (arm linux : bool) (m : M A) :
  tidy arm linux m ->
  triple (str_inv arm linux) m (fun _ => str_inv arm linux) (fun _ => True).
Proof. intros H. exact H. Qed.

Ltac tidy_then :=
  eapply triple_bind; [apply tidy_use; solve [repeat tidy_step]|intros ?].

Lemma gen_program_arm64_table (linux : bool) (fuel : nat) (node : AST) :
  triple (str_inv true linux) (gen_program_arm64 fuel node)
         (fun _ => table_written true linux) (fun _ => True).
Proof.
  unfold gen_program_arm64. destruct node; try (intros c Hc; exact I).
  tidy_then. tidy_then. tidy_then. tidy_then. tidy_then. tidy_then.
  eapply triple_bind; [apply prefix_is_platform|]. intros p. cbv beta.
  apply triple_pure. intros ->.
  tidy_then. tidy_then.
  apply gen_strings_writes_table.
Qed.

Lemma gen_program_x64_table (linux : bool) (fuel : nat) (node : AST) :
  triple (str_inv false linux) (gen_program_x64 fuel node)
         (fun _ => table_written false linux) (fun _ => True).
Proof.
  unfold gen_program_x64. destruct node; try (intros c Hc; exact I).
  tidy_then. tidy_then. tidy_then. tidy_then. tidy_then. tidy_then.
  eapply triple_bind; [apply prefix_is_platform|]. intros p. cbv beta.
  apply triple_pure. intros ->.
  tidy_then. tidy_then.
  apply gen_strings_writes_table.
Qed.

Lemma refs_expected_in (arm linux : bool) (n : nat) (r : string * Z) :
  In r (refs_expected arm linux n) -> In r (numbered (ref_prefix arm linux) 0 n).
Proof.
  unfold refs_expected. intros H. apply in_flat_map in H. destruct H as (x & Hx & Hr).
  destruct arm; cbn [In] in Hr; intuition (subst; auto).
Qed.

Lemma numbered_prefix (p : string) (from : Z) (n : nat) (r : string * Z) :
  In r (numbered p from n) -> fst r = p.
Proof.
  unfold numbered. intros H. apply in_map_iff in H. destruct H as (i & <- & _). reflexivity.
Qed.

Lemma parse_leaves_str_inv (fuel : nat) (source : string) (arm64 linux : bool) :
  match (next_token fuel ;; do_parse_program fuel) (init_compiler source arm64 linux) with
  | Done _ c1 => str_inv arm64 linux c1
  | _ => True
  end.
Proof.
  assert (P : preserves same_but_cursor (next_token fuel ;; do_parse_program fuel)).
  { apply preserves_parse. apply preserves_next_token; intros; repeat split. }
  specialize (P (init_compiler source arm64 linux)).
  destruct ((next_token fuel ;; do_parse_program fuel) (init_compiler source arm64 linux))
    as [program c1| | |]; try exact I.
  destruct P as (_ & _ & _ & Ho & _ & Hs & _ & Hl).
  unfold str_inv. rewrite Ho, Hs, Hl. repeat split.
Qed.

Lemma compile_writes_table (fuel : nat) (source : string) (arm64 linux : bool) :
  match compile fuel source arm64 linux with
  | Done _ c' => table_written arm64 linux c'
  | _ => True
  end.
Proof.
  rewrite compile_regroup.
  pose proof (parse_leaves_str_inv fuel source arm64 linux) as Hp.
  unfold bind at 1.
  destruct ((next_token fuel ;; do_parse_program fuel) (init_compiler source arm64 linux))
    as [program c1| | |]; try exact I.
  destruct arm64.
  - exact (gen_program_arm64_table linux fuel program c1 Hp).
  - exact (gen_program_x64_table linux fuel program c1 Hp).
Qed.



(** ** The command line *)

Lemma scan_plain (args : list string) :
  forall o,
    has_no_dash_o args = true ->
    Main.scan_args args o
    = Main.mkOptions (or_else (last_plain args) (Main.input_file o))
                     (Main.output_file o)
                     (Main.asm_only o || has_flag "-S" args)
                     (Main.dump_ast o || has_flag "--dump-ast" args).
Proof.
  induction args as [|a rest IH]; intros o H.
  - destruct o as [i out s d]. cbn. rewrite !orb_false_r. reflexivity.
  - unfold has_no_dash_o in H. cbn [existsb] in H.
    rewrite negb_orb in H. apply andb_prop in H. destruct H as [Ha Hr].
    apply negb_true_iff in Ha. rewrite String.eqb_sym in Ha.
    cbn [Main.scan_args]. cbv zeta. rewrite Ha.
    cbn [last_plain has_flag existsb]. unfold is_flag.
    rewrite (String.eqb_sym "-S" a), (String.eqb_sym "--dump-ast" a).
    destruct (String.eqb a "-S") eqn:ES.
    + rewrite (IH _ Hr). cbn [Main.input_file Main.output_file Main.asm_only
                               Main.dump_ast Main.set_asm_only].
      apply String.eqb_eq in ES. subst a. cbn [String.eqb Ascii.eqb Bool.eqb orb].
      destruct (last_plain rest); cbn [or_else];
        rewrite ?orb_true_r, ?orb_true_l; reflexivity.
    + destruct (String.eqb a "--dump-ast") eqn:ED.
      * rewrite (IH _ Hr). cbn [Main.input_file Main.output_file Main.asm_only
                                 Main.dump_ast Main.set_dump_ast].
        destruct (last_plain rest); cbn [or_else orb];
          rewrite ?orb_true_r, ?orb_true_l; reflexivity.
      * rewrite (IH _ Hr). cbn [Main.input_file Main.output_file Main.asm_only
                                 Main.dump_ast Main.set_input_file orb].
        destruct (last_plain rest); reflexivity.
Qed.

Lemma scan_app (a b : list string) :
  forall o,
    has_no_dash_o a = true ->
    Main.scan_args (a ++ b) o = Main.scan_args b (Main.scan_args a o).
Proof.
  induction a as [|x a IH]; intros o H; [reflexivity|].
  unfold has_no_dash_o in H. cbn [existsb] in H.
  rewrite negb_orb in H. apply andb_prop in H. destruct H as [Hx Hr].
  apply negb_true_iff in Hx. rewrite String.eqb_sym in Hx.
  cbn [app Main.scan_args]. cbv zeta. rewrite Hx.
  destruct (String.eqb x "-S"); [apply IH; exact Hr|].
  destruct (String.eqb x "--dump-ast"); apply IH; exact Hr.
Qed.

Lemma last_plain_app (a b : list string) :
  last_plain (a ++ b) = or_else (last_plain b) (last_plain a).
Proof.
  induction a as [|x a IH]; cbn [app last_plain].
  - destruct (last_plain b); reflexivity.
  - rewrite IH. destruct (last_plain b), (last_plain a); reflexivity.
Qed.

Lemma has_flag_app (f : string) (a b : list string) :
  has_flag f (a ++ b) = has_flag f a || has_flag f b.
Proof. apply existsb_app. Qed.

Lemma has_no_dash_o_app (a b : list string) :
  has_no_dash_o a = true -> has_no_dash_o b = true -> has_no_dash_o (a ++ b) = true.
Proof.
  unfold has_no_dash_o. rewrite existsb_app, negb_orb. intros -> ->. reflexivity.
Qed.

(** How [main] reads its arguments.  With no [-o] among them, the input
    file is the last argument that is neither [-S] nor [--dump-ast] (an
    earlier one is silently dropped), and the two flags count wherever
    they stand.  [-o] takes the next argument as the output name whatever
    it is, also [-S] or [--dump-ast], which then does not count as a flag.
    A final [-o] with nothing after it is taken as the name of the input
    file. *)
Theorem main_reads_its_arguments (pre post : list string) (v : string) :
  has_no_dash_o pre = true -> has_no_dash_o post = true ->
  Main.scan_args (pre ++ post) Main.no_options
  = Main.mkOptions (last_plain (pre ++ post)) None
                   (has_flag "-S" (pre ++ post)) (has_flag "--dump-ast" (pre ++ post))
  /\ Main.scan_args (pre ++ "-o" :: v :: post) Main.no_options
     = Main.mkOptions (last_plain (pre ++ post)) (Some v)
                      (has_flag "-S" (pre ++ post)) (has_flag "--dump-ast" (pre ++ post))
  /\ Main.scan_args (pre ++ ["-o"]) Main.no_options
     = Main.mkOptions (Some "-o") None (has_flag "-S" pre) (has_flag "--dump-ast" pre).
Proof.
  intros Hpre Hpost. split; [|split].
  - rewrite (scan_plain _ _ (has_no_dash_o_app _ _ Hpre Hpost)).
    cbn [Main.no_options Main.input_file Main.output_file Main.asm_only Main.dump_ast orb].
    destruct (last_plain (pre ++ post)); reflexivity.
  - rewrite (scan_app _ _ _ Hpre), (scan_plain pre _ Hpre).
    cbn [Main.scan_args]. cbv zeta. cbn [String.eqb Ascii.eqb Bool.eqb]. cbv iota.
    rewrite (scan_plain post _ Hpost).
    cbn [Main.no_options Main.input_file Main.output_file Main.asm_only Main.dump_ast
         Main.set_output_file orb].
    rewrite last_plain_app, !has_flag_app.
    destruct (last_plain post), (last_plain pre); reflexivity.
  - rewrite (scan_app _ _ _ Hpre), (scan_plain pre _ Hpre).
    cbn [Main.scan_args]. cbv zeta. cbn [String.eqb Ascii.eqb Bool.eqb]. cbv iota.
    cbn [Main.no_options Main.input_file Main.output_file Main.asm_only Main.dump_ast
         Main.set_input_file orb].
    reflexivity.
Qed.

Lemma main_reads_its_arguments_witness :
  Main.scan_args ["a.c"; "-S"; "b.c"] Main.no_options
  = Main.mkOptions (Some "b.c") None true false
  /\ Main.scan_args ["a.c"; "-o"; "-S"; "b.c"] Main.no_options
     = Main.mkOptions (Some "b.c") (Some "-S") false false
  /\ Main.scan_args ["a.c"; "-o"] Main.no_options
     = Main.mkOptions (Some "-o") None false false.
Proof.
  destruct (main_reads_its_arguments ["a.c"] ["b.c"] "-S" eq_refl eq_refl) as (_ & H2 & H3).
  destruct (main_reads_its_arguments ["a.c"; "-S"] ["b.c"] "x" eq_refl eq_refl) as (H1 & _ & _).
  split; [exact H1|]. split; [exact H2|exact H3].
Defined.

Lemma strrchr_dot_split (s : string) :
  match Main.strrchr_dot s with
  | Some i => exists ext, s = substring 0 i s ++ "." ++ ext /\ no_dot ext = true
  | None => no_dot s = true
  end.
Proof.
  induction s as [|ch rest IH]; cbn [Main.strrchr_dot no_dot]; [reflexivity|].
  destruct (Main.strrchr_dot rest) as [i|].
  - destruct IH as (ext & E & N). exists ext. split; [|exact N].
    cbn [substring]. cbn [append]. f_equal. exact E.
  - destruct (Ascii.eqb ch ".") eqn:D.
    + apply Ascii.eqb_eq in D. subst ch. exists rest. split; [reflexivity|exact IH].
    + rewrite IH. reflexivity.
Qed.

Lemma no_dot_append (s t : string) :
  no_dot (s ++ t) = no_dot s && no_dot t.
Proof.
  induction s as [|ch s IH]; cbn [append no_dot]; [reflexivity|].
  rewrite IH, andb_assoc. reflexivity.
Qed.

(** The stem of a name: the name up to its last dot. *)
Lemma stem_of_input (input : string) :
  exists stem,
    match Main.strrchr_dot input with
    | Some i => substring 0 i input
    | None => input
    end = stem
    /\ (String.length stem <= String.length input)%nat
    /\ (if no_dot input then stem = input
        else exists ext, input = stem ++ "." ++ ext /\ no_dot ext = true).
Proof.
  pose proof (strrchr_dot_split input) as H.
  destruct (Main.strrchr_dot input) as [i|].
  - destruct H as (ext & E & N). exists (substring 0 i input).
    split; [reflexivity|]. split.
    + rewrite E at 2. rewrite string_length_append. lia.
    + assert (D : no_dot input = false).
      { rewrite E, no_dot_append. cbn [append no_dot Ascii.eqb Bool.eqb negb andb].
        apply andb_false_r. }
      rewrite D. exists ext. split; [exact E|exact N].
  - exists input. rewrite H. repeat split. lia.
Qed.

(** Without [-o] the names come from the input file name, cut at its last
    dot: the assembly goes to [<stem>.s] and the executable to [<stem>].
    For every input name of fewer than 254 bytes: if the name has no dot,
    the stem is the whole name, so the executable has the name of the
    source file; otherwise the name is [<stem>.<ext>] with a dot-free
    [<ext>], wherever that last dot stands, also in a directory part
    ([./prog] gives the assembly file [.s] and the empty executable
    name). *)
Theorem default_names_cut_at_the_last_dot
  (argv0 : string) (args : list string) (input : string) :
  let o := Main.scan_args args Main.no_options in
  Main.input_file o = Some input ->
  Main.output_file o = None ->
  Main.dump_ast o = false ->
  (String.length input < 254)%nat ->
  exists stem,
    (if no_dot input then stem = input
     else exists ext, input = stem ++ "." ++ ext /\ no_dot ext = true)
    /\ Main.main (argv0 :: args)
       = if Main.asm_only o then Main.Assemble input (stem ++ ".s")
         else Main.Build input (stem ++ ".s") stem
                         (Main.snprintf 512 "cc -o %s %s -lc 2>&1"
                                        [FStr stem; FStr (stem ++ ".s")]).
Proof.
  intros o Hi Ho Hd Hlen.
  destruct (stem_of_input input) as (stem & Hs & Hl & Hsplit).
  exists stem. split; [exact Hsplit|].
  destruct args as [|a args'].
  { cbn in Hi. discriminate Hi. }
  unfold Main.main. fold o. cbv zeta. rewrite Hi.
  unfold Main.file_names. rewrite Ho.
  assert (F1 : Main.fits input = true).
  { unfold Main.fits. apply Nat.ltb_lt. lia. }
  assert (F2 : Main.fits (stem ++ ".s") = true).
  { unfold Main.fits. apply Nat.ltb_lt. rewrite string_length_append. cbn. lia. }
  rewrite F1. cbv zeta. rewrite Hs, F2, Hd.
  destruct (Main.asm_only o); reflexivity.
Qed.

Lemma default_names_cut_at_the_last_dot_witness :
  Main.main argv_dot_slash
  = Main.Build "./prog" ".s" EmptyString "cc -o  .s -lc 2>&1"
  /\ Main.main ["minicc"; "prog"]
     = Main.Build "prog" "prog.s" "prog" "cc -o prog prog.s -lc 2>&1".
Proof.
  split.
  - destruct (default_names_cut_at_the_last_dot "minicc" ["./prog"] "./prog"
                eq_refl eq_refl eq_refl) as (stem & Hs & Hm); [cbn; lia|].
    pose proof Hm as K. vm_compute in K.
    injection K. intros _ K2 _. rewrite <- K2 in Hm. exact Hm.
  - destruct (default_names_cut_at_the_last_dot "minicc" ["prog"] "prog"
                eq_refl eq_refl eq_refl) as (stem & Hs & Hm); [cbn; lia|].
    cbn [no_dot Ascii.eqb Bool.eqb negb andb] in Hs. subst stem.
    exact Hm.
Defined.

(** ** The dump is a JSON text *)

Lemma str_app_assoc (a b c : string) : (a ++ b) ++ c = a ++ b ++ c.
Proof. induction a as [|ch a IH]; cbn; [reflexivity|rewrite IH; reflexivity]. Qed.

Lemma str_app_nil_l (a : string) : EmptyString ++ a = a.
Proof. reflexivity. Qed.

Lemma str_app_nil_r (a : string) : a ++ EmptyString = a.
Proof. induction a as [|ch a IH]; cbn; [reflexivity|rewrite IH; reflexivity]. Qed.

Lemma blank_app (a b : string) : blank a -> blank b -> blank (a ++ b).
Proof. induction 1; intros Hb; cbn; try constructor; auto. Qed.

Lemma blank_indent (n : nat) : blank (print_indent n).
Proof.
  induction n as [|n IH]; cbn; [constructor|]. constructor. constructor. exact IH.
Qed.

Lemma blank_newline_indent (n : nat) : blank (newline ++ print_indent n).
Proof. cbn. constructor. apply blank_indent. Qed.

(** *** Numbers *)

Lemma nzhead_not_D0 (u v : Decimal.uint) : Decimal.nzhead u <> Decimal.D0 v.
Proof. induction u; cbn; try discriminate. exact IHu. Qed.

Lemma to_uint_normal (p : positive) : Decimal.unorm (Pos.to_uint p) = Pos.to_uint p.
Proof.
  pose proof (DecimalPos.Unsigned.to_of (Pos.to_uint p)) as H.
  rewrite DecimalPos.Unsigned.of_to in H. cbn in H. symmetry. exact H.
Qed.

Lemma to_uint_head (p : positive) :
  forall u, Pos.to_uint p <> Decimal.D0 u.
Proof.
  intros u E. pose proof (to_uint_normal p) as N. rewrite E in N.
  rewrite DecimalFacts.unorm_D0 in N.
  unfold Decimal.unorm in N.
  destruct (Decimal.nzhead u) eqn:Z; try discriminate N.
  - injection N as N. subst u.
    apply (DecimalPos.Unsigned.to_uint_nonzero p). exact E.
  - exact (nzhead_not_D0 u _ Z).
Qed.

Lemma digits_only_uint (d : Decimal.uint) :
  digits_only (NilEmpty.string_of_uint d) = true.
Proof. induction d; cbn; auto. Qed.

Lemma json_natural_pos (p : positive) :
  json_natural (NilZero.string_of_uint (Pos.to_uint p)) = true.
Proof.
  pose proof (to_uint_head p) as H.
  pose proof (DecimalPos.Unsigned.to_uint_nonnil p) as N.
  destruct (Pos.to_uint p) as [|u|u|u|u|u|u|u|u|u|u]; try contradiction;
    try (exfalso; exact (H u eq_refl));
    cbn; apply digits_only_uint.
Qed.

Lemma json_int_string_of_Z (z : Z) : json_int (string_of_Z z) = true.
Proof.
  unfold string_of_Z. destruct z as [|p|p]; cbn [Z.to_int NilZero.string_of_int].
  - reflexivity.
  - pose proof (json_natural_pos p) as H.
    destruct (NilZero.string_of_uint (Pos.to_uint p)) as [|ch rest] eqn:E;
      [discriminate H|].
    cbn [json_int]. destruct (is_char ch "-") eqn:M; [|exact H].
    apply Ascii.eqb_eq in M. subst ch. cbn in H. discriminate H.
  - cbn [json_int]. change (is_char "-" "-") with true. cbv iota.
    apply json_natural_pos.
Qed.

(** *** Strings *)

Lemma json_body_plain (s : string) :
  plain_name s = true -> json_body (s ++ quote) = true.
Proof.
  induction s as [|ch s IH]; cbn [plain_name append]; [reflexivity|].
  intros H. apply andb_prop in H. destruct H as [Hc Hs].
  unfold plain_char in Hc. apply andb_prop in Hc. destruct Hc as [Hc Hb].
  apply andb_prop in Hc. destruct Hc as [Hc Hq].
  apply negb_true_iff in Hq. apply negb_true_iff in Hb.
  cbn [json_body]. rewrite Hq, Hb, Hc. exact (IH Hs).
Qed.

Lemma quoted_name_token (s : string) :
  plain_name s = true -> json_string_token (quoted_name s) = true.
Proof. intros H. unfold quoted_name. cbn. apply json_body_plain. exact H. Qed.

Lemma quoted_name_value (s : string) :
  plain_name s = true -> wf_value (quoted_name s).
Proof. intros H. apply wf_string. apply quoted_name_token. exact H. Qed.

Lemma print_json_string_value (s : string) :
  json_safe s = true -> wf_value (print_json_string s).
Proof.
  intros H. apply wf_string. unfold print_json_string. cbn.
  apply json_body_escaped. exact H.
Qed.

Lemma op_to_string_plain (op : TokenType) : plain_name (op_to_string op) = true.
Proof. destruct op; reflexivity. Qed.

Lemma ast_type_name_plain (node : AST) : plain_name (ast_type_name node) = true.
Proof. destruct node; reflexivity. Qed.

(** *** Objects *)

Lemma members_of_fields (rest : string) :
  wf_fields rest ->
  forall b1 k b3 v b4,
    blank b1 -> json_string_token k = true -> blank b3 -> wf_value v -> blank b4 ->
    wf_members (b1 ++ k ++ ":" ++ b3 ++ v ++ rest ++ b4).
Proof.
  induction 1 as [|c1 k' c3 v' rest' Hc1 Hk' Hc3 Hv' Hrest IH];
    intros b1 k b3 v b4 Hb1 Hk Hb3 Hv Hb4.
  - exact (wf_last_member b1 k EmptyString b3 v b4 Hb1 Hk blank_empty Hb3 Hv Hb4).
  - rewrite ?str_app_assoc.
    exact (wf_more_members b1 k EmptyString b3 v EmptyString _
             Hb1 Hk blank_empty Hb3 Hv blank_empty
             (IH c1 k' c3 v' b4 Hc1 Hk' Hc3 Hv' Hb4)).
Qed.

Lemma object_of_fields (indent : nat) (tn fields : string) :
  plain_name tn = true -> wf_fields fields ->
  wf_value ("{" ++ newline ++ print_indent (indent + 1)
            ++ quoted_name "type" ++ ": " ++ quoted_name tn
            ++ fields ++ newline ++ print_indent indent ++ "}").
Proof.
  intros Ht Hf.
  pose proof (members_of_fields fields Hf (newline ++ print_indent (indent + 1))
                (quoted_name "type") " " (quoted_name tn)
                (newline ++ print_indent indent)
                (blank_newline_indent _) eq_refl
                (blank_space _ blank_empty) (quoted_name_value tn Ht)
                (blank_newline_indent _)) as H.
  apply wf_object in H.
  rewrite ?str_app_assoc in H. rewrite ?str_app_assoc. exact H.
Qed.

Lemma field_cons (indent : nat) (k v rest : string) :
  plain_name k = true -> wf_value v -> wf_fields rest ->
  wf_fields (json_field indent k ++ v ++ rest).
Proof.
  intros Hk Hv Hr. unfold json_field. rewrite ?str_app_assoc.
  exact (wf_field (newline ++ print_indent (indent + 1)) (quoted_name k) " " v rest
           (blank_newline_indent _) (quoted_name_token k Hk)
           (blank_space _ blank_empty) Hv Hr).
Qed.

Lemma field_last (indent : nat) (k v : string) :
  plain_name k = true -> wf_value v -> wf_fields (json_field indent k ++ v).
Proof.
  intros Hk Hv. rewrite <- (str_app_nil_r v).
  apply field_cons; [exact Hk|exact Hv|constructor].
Qed.

Lemma next_cons (indent : nat) (k v rest : string) :
  plain_name k = true -> wf_value v -> wf_fields rest ->
  wf_fields ("," ++ newline ++ json_next_field indent k ++ v ++ rest).
Proof.
  intros Hk Hv Hr. unfold json_next_field. rewrite ?str_app_assoc.
  exact (wf_field (newline ++ print_indent (indent + 1)) (quoted_name k) " " v rest
           (blank_newline_indent _) (quoted_name_token k Hk)
           (blank_space _ blank_empty) Hv Hr).
Qed.

Lemma next_last (indent : nat) (k v : string) :
  plain_name k = true -> wf_value v ->
  wf_fields ("," ++ newline ++ json_next_field indent k ++ v).
Proof.
  intros Hk Hv. rewrite <- (str_app_nil_r v).
  apply next_cons; [exact Hk|exact Hv|constructor].
Qed.

(** *** Arrays *)

Section ArrayValues.

Variable A : Type.
Variable item : A -> string.
Variable indent : nat.

Lemma json_items_cons (x : A) (tl : list A) :
  json_items item indent (x :: tl)
  = print_indent (indent + 2) ++ item x
    ++ (match tl with [] => EmptyString | _ => "," end)
    ++ newline ++ json_items item indent tl.
Proof. reflexivity. Qed.

Lemma elements_of_items (l : list A) :
  l <> [] -> Forall (fun x => wf_value (item x)) l ->
  forall b, blank b ->
            wf_elements (b ++ json_items item indent l ++ print_indent (indent + 1)).
Proof.
  induction l as [|x tl IH]; intros Hne Hall b Hb; [contradiction|].
  inversion Hall as [|? ? Hx Htl]; subst.
  rewrite json_items_cons. destruct tl as [|y tl'].
  - pose proof (wf_last_element (b ++ print_indent (indent + 2)) (item x)
                  (newline ++ print_indent (indent + 1))
                  (blank_app _ _ Hb (blank_indent _)) Hx (blank_newline_indent _)) as H.
    change (json_items item indent []) with EmptyString.
    rewrite ?str_app_assoc, ?str_app_nil_l, ?str_app_nil_r in *. exact H.
  - pose proof (wf_more_elements (b ++ print_indent (indent + 2)) (item x) EmptyString
                  _ (blank_app _ _ Hb (blank_indent _)) Hx blank_empty
                  (IH ltac:(discriminate) Htl newline (blank_newline _ blank_empty))) as H.
    rewrite ?str_app_assoc, ?str_app_nil_l in *. exact H.
Qed.

Lemma json_array_value (l : list A) :
  Forall (fun x => wf_value (item x)) l -> wf_value (json_array item indent l).
Proof.
  intros Hall. unfold json_array. destruct l as [|x tl].
  - exact (wf_empty_array EmptyString blank_empty).
  - apply wf_array.
    exact (elements_of_items (x :: tl) ltac:(discriminate) Hall newline
             (blank_newline _ blank_empty)).
Qed.

End ArrayValues.

(** *** Nodes *)

Ltac fields_step :=
  match goal with
  | |- wf_fields (json_field _ _ ++ _ ++ _) => apply field_cons; [reflexivity| |]
  | |- wf_fields (json_field _ _ ++ _) => apply field_last; [reflexivity|]
  | |- wf_fields ("," ++ newline ++ json_next_field _ _ ++ _ ++ _) =>
      apply next_cons; [reflexivity| |]
  | |- wf_fields ("," ++ newline ++ json_next_field _ _ ++ _) =>
      apply next_last; [reflexivity|]
  end.

Ltac split_dumpable :=
  repeat match goal with
         | H : _ && _ = true |- _ => apply andb_prop in H; destruct H
         end.

Ltac value_step :=
  match goal with
  | |- wf_value (string_of_Z _) => apply wf_number; apply json_int_string_of_Z
  | |- wf_value (print_json_string _) => apply print_json_string_value; assumption
  | |- wf_value (quoted_name (op_to_string _)) =>
      apply quoted_name_value; apply op_to_string_plain
  | |- wf_value (quoted_name _) => apply quoted_name_value; first [assumption|reflexivity]
  | |- wf_value "null" => apply wf_null
  | |- wf_value "true" => apply wf_true
  | |- wf_value "false" => apply wf_false
  | H : forall indent, _ -> wf_value (ast_to_json ?x indent)
    |- wf_value (ast_to_json ?x _) => apply H; assumption
  end.

Lemma children_values (l : list AST) (indent : nat) :
  Forall (fun a => forall indent, dumpable a = true -> wf_value (ast_to_json a indent)) l ->
  forallb dumpable l = true ->
  Forall (fun a => wf_value (ast_to_json a indent)) l.
Proof.
  induction 1 as [|x l Hx Hl IH]; cbn [forallb]; intros H; constructor.
  - apply andb_prop in H. apply Hx. exact (proj1 H).
  - apply andb_prop in H. apply IH. exact (proj2 H).
Qed.

Lemma names_values (l : list string) :
  forallb plain_name l = true -> Forall (fun s => wf_value (quoted_name s)) l.
Proof.
  induction l as [|x l IH]; cbn [forallb]; intros H; constructor.
  - apply andb_prop in H. apply quoted_name_value. exact (proj1 H).
  - apply andb_prop in H. apply IH. exact (proj2 H).
Qed.

Ltac node_step :=
  match goal with
  | |- wf_value (json_array quoted_name _ _) =>
      apply json_array_value; apply names_values; assumption
  | |- wf_value (json_array _ _ _) =>
      apply json_array_value; apply children_values; assumption
  | |- wf_value (match ?o with Some _ => _ | None => _ end) =>
      destruct o; cbn [P_opt opt_all] in *
  | |- wf_value (if ?b then _ else _) => destruct b
  | |- wf_value (quoted_name (if ?b then _ else _)) => destruct b
  | |- wf_fields ((if ?b then _ else _) ++ _) =>
      destruct b; rewrite ?str_app_assoc, ?str_app_nil_l
  end.

Lemma ast_to_json_value (node : AST) :
  forall indent, dumpable node = true -> wf_value (ast_to_json node indent).
Proof.
  induction node using AST_induction; intros indent Hd;
    cbn [ast_to_json]; cbn [dumpable] in Hd; split_dumpable;
    (apply object_of_fields; [reflexivity|]);
    repeat first [fields_step | value_step | node_step].
Qed.

(** What [--dump-ast] writes is a JSON text.  For every tree whose names
    hold no quote, backslash or control byte and whose string literals
    hold no control byte other than newline, carriage return and tab, and
    at every indentation, [ast_to_json] writes exactly one JSON value: an
    object whose members are separated by single commas, with arrays for
    the child lists, [null] for an absent child, integers without leading
    zeros, and string tokens.  Names are written between quotes without
    escaping, so the condition on them is needed. *)
Theorem dump_is_a_json_text (node : AST) (indent : nat) :
  dumpable node = true -> wf_value (ast_to_json node indent).
Proof. apply ast_to_json_value. Qed.

Lemma dump_is_a_json_text_witness :
  dumpable tree_two_globals = true /\ wf_value (ast_to_json tree_two_globals 0).
Proof.
  split; [reflexivity|]. apply (dump_is_a_json_text tree_two_globals 0). reflexivity.
Defined.

(** The parser takes whatever token follows [int] at the top level as the
    name of the declaration, also a string literal; such a name reaches the
    dump unescaped and is no JSON string token. *)
Example string_literal_as_global_name :
  option_map global_names (result_value (parse_only 40 src_string_as_name))
  = Some [String "a" (String BACKSLASH "qb")]
  /\ option_map dumpable (result_value (parse_only 40 src_string_as_name)) = Some false
  /\ json_string_token (quoted_name (String "a" (String BACKSLASH "qb"))) = false.
Proof. repeat split; vm_compute; reflexivity. Qed.

(** ** Parameters beyond the sixth *)

Lemma add_param (p : string) (i : Z) (c : Compiler) :
  nsymbols c < 256 ->
  add_symbol p false true i c
  = Done (param_entry i p) (set_symbols (symbols c ++ [param_entry i p]) c).
Proof.
  intros H. unfold add_symbol. rewrite bind_get.
  destruct (Z.leb_spec 256 (nsymbols c)) as [L|L]; [lia|]. reflexivity.
Qed.

Lemma nsymbols_snoc (c : Compiler) (s : Symbol) (c' : Compiler) :
  symbols c' = (symbols c ++ [s])%list -> nsymbols c' = nsymbols c + 1.
Proof. intros H. unfold nsymbols. rewrite H, length_app. cbn [List.length]. lia. Qed.

Lemma save_params_x64_spec (params : list string) :
  forall i c,
    0 <= i <= 6 ->
    nsymbols c + Z.of_nat (List.length params) <= 256 ->
    exists c',
      X64.save_params i params c = Done tt c'
      /\ symbols c' = (symbols c ++ param_entries i (firstn (Z.to_nat (6 - i)) params))%list.
Proof.
  induction params as [|p tl IH]; intros i c Hi Hroom; cbn [X64.save_params].
  - exists c. split; [reflexivity|]. rewrite firstn_nil. cbn. rewrite app_nil_r. reflexivity.
  - cbn [List.length] in Hroom.
    destruct (Z.ltb_spec i 6) as [L|L].
    + unfold bind at 1. rewrite add_param by lia.
      unfold bind at 1. cbn [emit modify].
      match goal with
      | |- exists c', X64.save_params _ _ ?c1 = _ /\ _ =>
          destruct (IH (i + 1) c1) as (c' & E & Hs)
      end.
      * lia.
      * rewrite (nsymbols_snoc c (param_entry i p)) by reflexivity. lia.
      * exists c'. split; [exact E|]. rewrite Hs. cbn [symbols set_out set_symbols].
        replace (Z.to_nat (6 - i)) with (S (Z.to_nat (6 - (i + 1)))) by lia.
        cbn [firstn param_entries]. rewrite <- app_assoc. reflexivity.
    + exists c. split; [reflexivity|].
      replace (Z.to_nat (6 - i)) with O by lia. cbn. rewrite app_nil_r. reflexivity.
Qed.

Lemma save_params_arm64_spec (params : list string) :
  forall i c,
    nsymbols c + Z.of_nat (List.length params) <= 256 ->
    exists c',
      for_each_from
        (fun i p => add_symbol p false true i ;;
                    emit "    str x%d, [x29, #%d]" [FInt i; FInt (param_slot i)])
        i params c = Done tt c'
      /\ symbols c' = (symbols c ++ param_entries i params)%list.
Proof.
  induction params as [|p tl IH]; intros i c Hroom; cbn [for_each_from].
  - exists c. split; [reflexivity|]. cbn. rewrite app_nil_r. reflexivity.
  - cbn [List.length] in Hroom.
    unfold bind at 1. unfold bind at 1. rewrite add_param by lia.
    cbn [emit modify].
    match goal with
    | |- exists c', for_each_from _ _ _ ?c1 = _ /\ _ =>
        destruct (IH (i + 1) c1) as (c' & E & Hs)
    end.
    + rewrite (nsymbols_snoc c (param_entry i p)) by reflexivity. lia.
    + exists c'. split; [exact E|]. rewrite Hs. cbn [symbols set_out set_symbols].
      cbn [param_entries]. rewrite <- app_assoc. reflexivity.
Qed.

Lemma find_from_end_app (l1 l2 : list Symbol) (name : string) :
  find_from_end (l1 ++ l2) name
  = match find_from_end l1 name with
    | Some s => Some s
    | None => find_from_end l2 name
    end.
Proof.
  induction l1 as [|s l1 IH]; cbn [app find_from_end]; [reflexivity|].
  destruct (String.eqb (sym_name s) name); [reflexivity|exact IH].
Qed.

Lemma param_entries_names (params : list string) :
  forall i, map sym_name (param_entries i params) = params.
Proof.
  induction params as [|p tl IH]; intros i; cbn [param_entries map]; [reflexivity|].
  rewrite IH. reflexivity.
Qed.

Lemma lookup_past (name : string) (c c' : Compiler) (entries : list Symbol) :
  symbols c' = (symbols c ++ entries)%list ->
  ~ In name (map sym_name entries) ->
  lookup name c' = lookup name c.
Proof.
  intros Hs N. unfold lookup. rewrite Hs, rev_app_distr, find_from_end_app.
  assert (H : find_from_end (rev entries) name = None).
  { apply find_from_end_none. rewrite map_rev. intros Hin. apply N.
    apply in_rev. exact Hin. }
  rewrite H. reflexivity.
Qed.



(** A function of seven parameters that returns the seventh compiles on
    AArch64 and is rejected on x86-64. *)
Example seventh_parameter_is_undefined_on_x64 :
  is_done (compile 40 src_seven_params true false) = true
  /\ option_map (fun d => render_line (dmsg d))
                (result_diagnostic (compile 40 src_seven_params false true))
     = Some "Undefined variable: h".
Proof. split; vm_compute; reflexivity. Qed.

(** ** The lexer and the parser terminate *)

Section HaltsRules.

Variable mu : Compiler -> Z.

Lemma halts_ret {A} (b : Z) (P : Compiler -> Prop) (a : A) :
  halts mu b 0 P (ret a) (fun _ c => P c).
Proof. intros c T Hp Hb. cbn. split; [exact T|]. split; [exact Hp|lia]. Qed.

Lemma halts_get (b : Z) (P : Compiler -> Prop) :
  halts mu b 0 P get (fun a c => P c /\ a = c).
Proof. intros c T Hp Hb. cbn. split; [exact T|]. split; [split; [exact Hp|reflexivity]|lia]. Qed.

Lemma halts_cur_type (b : Z) (P : Compiler -> Prop) :
  halts mu b 0 P cur_type (fun t c => P c /\ t = type (cur c)).
Proof. intros c T Hp Hb. cbn. split; [exact T|]. split; [split; [exact Hp|reflexivity]|lia]. Qed.

Lemma halts_is_tok (b : Z) (P : Compiler -> Prop) (t : TokenType) :
  halts mu b 0 P (is_tok t) (fun r c => P c /\ r = tok_eqb (type (cur c)) t).
Proof. intros c T Hp Hb. cbn. split; [exact T|]. split; [split; [exact Hp|reflexivity]|lia]. Qed.

Lemma halts_error {A} (b d : Z) (P : Compiler -> Prop) f l (Q : A -> Compiler -> Prop) :
  halts mu b d P (error f l) Q.
Proof. intros c T Hp Hb. exact I. Qed.

Lemma halts_fault {A} (b d : Z) (P : Compiler -> Prop) f (Q : A -> Compiler -> Prop) :
  halts mu b d P (raise_fault f) Q.
Proof. intros c T Hp Hb. exact I. Qed.

Lemma halts_vacuous {A} (b d : Z) (P : Compiler -> Prop) (f : M A)
      (Q : A -> Compiler -> Prop) :
  (forall c, tracks c -> P c -> mu c <= b -> False) -> halts mu b d P f Q.
Proof. intros H c T Hp Hb. destruct (H c T Hp Hb). Qed.

Lemma halts_bind {A B} (b d1 d2 : Z) (P : Compiler -> Prop) (f : M A) (k : A -> M B)
      (R : A -> Compiler -> Prop) (Q : B -> Compiler -> Prop) :
  halts mu b d1 P f R ->
  (forall a, halts mu (b - d1) d2 (R a) (k a) Q) ->
  halts mu b (d1 + d2) P (bind f k) Q.
Proof.
  intros Hf Hk c T Hp Hb. specialize (Hf c T Hp Hb). unfold bind.
  destruct (f c) as [a c1| | |]; try exact Hf.
  destruct Hf as (T1 & Hr & Hd).
  specialize (Hk a c1 T1 Hr ltac:(lia)).
  destruct (k a c1) as [r c2| | |]; try exact Hk.
  destruct Hk as (T2 & Hq & Hd2). split; [exact T2|]. split; [exact Hq|lia].
Qed.

Lemma halts_weaken {A} (b b' d d' : Z) (P P' : Compiler -> Prop) (f : M A)
      (Q Q' : A -> Compiler -> Prop) :
  halts mu b d P f Q ->
  b' <= b -> d' <= d -> (forall c, P' c -> P c) -> (forall a c, Q a c -> Q' a c) ->
  halts mu b' d' P' f Q'.
Proof.
  intros H Hb Hd HP HQ c T Hp Hc. specialize (H c T (HP c Hp) ltac:(lia)).
  destruct (f c) as [a c'| | |]; try exact H.
  destruct H as (T' & Hq & Hm). split; [exact T'|]. split; [exact (HQ _ _ Hq)|lia].
Qed.

(** A fact all states of the precondition share. *)
Lemma halts_assume {A} (phi : Prop) (b d : Z) (P : Compiler -> Prop) (f : M A)
      (Q : A -> Compiler -> Prop) :
  (forall c, tracks c -> P c -> phi) -> (phi -> halts mu b d P f Q) -> halts mu b d P f Q.
Proof. intros Hphi H c T Hp Hb. exact (H (Hphi c T Hp) c T Hp Hb). Qed.

(** A lower bound of the measure on the precondition. *)
Lemma halts_above {A} (lo b d : Z) (P : Compiler -> Prop) (f : M A)
      (Q : A -> Compiler -> Prop) :
  (forall c, tracks c -> P c -> lo <= mu c) -> (lo <= b -> halts mu b d P f Q) ->
  halts mu b d P f Q.
Proof.
  intros Hlo H c T Hp Hb. pose proof (Hlo c T Hp) as L. exact (H ltac:(lia) c T Hp Hb).
Qed.

End HaltsRules.

(** *** The cursor *)

Lemma unread_nonneg (c : Compiler) : tracks c -> 0 <= unread c.
Proof. intros (Hp & _). unfold unread. lia. Qed.

Lemma here_unread (c : Compiler) (ch : ascii) :
  here c = Some ch -> 1 <= unread c.
Proof.
  unfold here, unread. destruct (Z.ltb_spec (pos c) 0) as [L|L]; [discriminate|].
  intros H. assert (Hl : (Z.to_nat (pos c) < List.length (buffer c))%nat).
  { apply nth_error_Some. congruence. }
  lia.
Qed.

Lemma here_not_nul (c : Compiler) (ch : ascii) :
  here c = Some ch -> is_char ch NUL = false -> 2 <= unread c.
Proof.
  unfold here, unread, buffer. destruct (Z.ltb_spec (pos c) 0) as [L|L]; [discriminate|].
  intros H N.
  destruct (Nat.lt_ge_cases (Z.to_nat (pos c)) (List.length (src c))) as [K|K].
  - rewrite length_app. cbn [List.length]. lia.
  - rewrite nth_error_app2 in H by exact K.
    destruct (Z.to_nat (pos c) - List.length (src c))%nat as [|[|k]]; cbn in H;
      try discriminate H.
    injection H as <-. discriminate N.
Qed.

Lemma peek_reads (c : Compiler) :
  match peek c with
  | Done ch c' => c' = c /\ here c = Some ch
  | Fault _ c' => True
  | _ => False
  end.
Proof.
  unfold peek, src_at, here, buffer.
  destruct (Z.ltb_spec (pos c) 0) as [L|L]; [exact I|].
  destruct (nth_error (src c) (Z.to_nat (pos c))) as [ch|] eqn:E.
  - split; [reflexivity|].
    rewrite nth_error_app1; [exact E|apply nth_error_Some; congruence].
  - destruct (Z.eqb_spec (pos c) (Z.of_nat (List.length (src c)))) as [P|P]; [|exact I].
    split; [reflexivity|].
    rewrite P, Nat2Z.id, nth_error_app2, Nat.sub_diag by lia. reflexivity.
Qed.

Lemma src_at_same (i : Z) (c : Compiler) :
  match src_at i c with
  | Done _ c' => c' = c
  | Fault _ _ => True
  | _ => False
  end.
Proof.
  unfold src_at. destruct (i <? 0); [exact I|].
  destruct (nth_error (src c) (Z.to_nat i)); [reflexivity|].
  destruct (i =? Z.of_nat (List.length (src c))); [reflexivity|exact I].
Qed.

Lemma advanced_unread (ch : ascii) (c : Compiler) :
  tracks c -> here c = Some ch -> unread (advanced ch c) = unread c - 1.
Proof.
  intros (Hp & Hb & _) H. pose proof (here_unread c ch H) as U.
  unfold unread in *. unfold advanced. cbv zeta.
  assert (E : Int.add (pos c) 1 = pos c + 1).
  { apply wrap_small. unfold Int.min_signed, Int.max_signed in *. lia. }
  rewrite E. destruct (is_char ch LF); unfold buffer; cbn [set_col set_line set_pos pos src]; lia.
Qed.

Section LexerHalts.

Variable b : Z.
Variable P : Compiler -> Prop.

Lemma peek_halts :
  halts unread b 0 P peek (fun ch c => P c /\ here c = Some ch).
Proof.
  intros c T Hp Hb. pose proof (peek_reads c) as H.
  destruct (peek c) as [ch c'| | |]; try contradiction; [|exact I].
  destruct H as [-> H]. split; [exact T|]. split; [split; assumption|lia].
Qed.

Lemma src_at_halts (i : Z) :
  halts unread b 0 P (src_at i) (fun _ c => P c).
Proof.
  intros c T Hp Hb. pose proof (src_at_same i c) as H.
  destruct (src_at i c) as [ch c'| | |]; try contradiction; [|exact I].
  subst c'. split; [exact T|]. split; [assumption|lia].
Qed.

Lemma advance_halts :
  halts unread b 1 P advance (fun _ _ => True).
Proof.
  intros c T Hp Hb. pose proof (advance_reads c) as H.
  destruct (advance c) as [ch c'| | |]; try contradiction; [|exact I].
  destruct H as (L & E & ->).
  assert (Hh : here c = Some ch).
  { unfold here. destruct (Z.ltb_spec (pos c) 0); [lia|exact E]. }
  split; [exact (proj2 (advanced_tracks ch c L E) T)|]. split; [exact I|].
  rewrite (advanced_unread ch c T Hh). lia.
Qed.

(** A write to the current token. *)
Lemma set_token_halts (f : Compiler -> Compiler) (Q : unit -> Compiler -> Prop) :
  (forall c, exists t, f c = set_cur t c) ->
  (forall c, P c -> Q tt (f c)) ->
  halts unread b 0 P (modify f) Q.
Proof.
  intros Hf HQ c T Hp Hb. cbn. destruct (Hf c) as (t & E).
  split; [rewrite E; exact (proj2 (token_keeps_track t c) T)|].
  split; [exact (HQ c Hp)|]. rewrite E. unfold unread, buffer. cbn. lia.
Qed.

End LexerHalts.

Lemma halts_seq {A B} (mu : Compiler -> Z) (b d d1 : Z) (P : Compiler -> Prop)
      (f : M A) (k : A -> M B) (R : A -> Compiler -> Prop) (Q : B -> Compiler -> Prop) :
  halts mu b d1 P f R ->
  (forall a, halts mu (b - d1) (d - d1) (R a) (k a) Q) ->
  halts mu b d P (bind f k) Q.
Proof.
  intros Hf Hk. replace d with (d1 + (d - d1)) by lia.
  exact (halts_bind mu b d1 (d - d1) P f k R Q Hf Hk).
Qed.

(** Use a lemma where the bound, the decrease and the conditions asked for
    are weaker than those it gives. *)
Ltac halts_apply L :=
  (eapply halts_weaken;
   [ eapply L
   | first [apply Z.le_refl | lia]
   | first [apply Z.le_refl | lia]
   | let H := fresh in intros ? H; first [exact H | exact I | tauto]
   | let H := fresh in intros ? ? H; first [exact H | exact I | tauto] ]);
  try first [lia | assumption].

Ltac halts_then L := eapply halts_seq; [halts_apply L | intros ?; cbv beta].

Lemma halts_assoc {A B C} (mu : Compiler -> Z) (b d : Z) (P : Compiler -> Prop)
      (f : M A) (k : A -> M B) (h : B -> M C) (Q : C -> Compiler -> Prop) :
  halts mu b d P (bind f (fun a => bind (k a) h)) Q ->
  halts mu b d P (bind (bind f k) h) Q.
Proof. intros H c T Hp Hb. rewrite bind_assoc. exact (H c T Hp Hb). Qed.

Lemma halts_bind_ret {A B} (mu : Compiler -> Z) (b d : Z) (P : Compiler -> Prop)
      (a : A) (k : A -> M B) (Q : B -> Compiler -> Prop) :
  halts mu b d P (k a) Q -> halts mu b d P (bind (ret a) k) Q.
Proof. intros H c T Hp Hb. exact (H c T Hp Hb). Qed.

Ltac lex_read :=
  match goal with
  | |- halts _ _ _ _ (bind (bind _ _) _) _ => apply halts_assoc
  | |- halts _ _ _ _ (bind (ret _) _) _ => apply halts_bind_ret; cbv beta
  | |- halts _ _ _ _ (bind peek _) _ => halts_then peek_halts
  | |- halts _ _ _ _ (bind (src_at _) _) _ => halts_then src_at_halts
  | |- halts _ _ _ _ (bind get _) _ => halts_then halts_get
  | |- halts _ _ _ _ (bind advance _) _ => halts_then advance_halts
  | |- halts _ _ _ _ (bind (ret _) _) _ => halts_then halts_ret
  | |- halts _ _ _ _ (bind (if ?x then _ else _) _) _ => destruct x eqn:?
  | |- halts _ _ _ _ (if ?x then _ else _) _ => destruct x eqn:?
  | |- halts _ _ _ _ (ret _) _ => halts_apply halts_ret
  | |- halts _ _ _ _ (error _ _) _ => apply halts_error
  | |- halts _ _ _ _ (raise_fault _) _ => apply halts_fault
  end.

Lemma halts_out_of_range {A} (b d : Z) (P : Compiler -> Prop) (f : M A)
      (Q : A -> Compiler -> Prop) :
  b < 0 -> halts unread b d P f Q.
Proof.
  intros Hb. apply halts_vacuous. intros c T _ Hc.
  pose proof (unread_nonneg c T). lia.
Qed.

Lemma skip_line_comment_halts (n : nat) :
  forall b P, b < Z.of_nat n -> halts unread b 0 P (skip_line_comment n) any_result.
Proof.
  induction n as [|n IH]; intros b P Hb; cbn [skip_line_comment].
  - apply halts_out_of_range. lia.
  - repeat lex_read. halts_apply IH.
Qed.

Lemma skip_block_comment_halts (n : nat) :
  forall b P, b < Z.of_nat n -> halts unread b 0 P (skip_block_comment n) any_result.
Proof.
  induction n as [|n IH]; intros b P Hb; cbn [skip_block_comment].
  - apply halts_out_of_range. lia.
  - repeat lex_read; halts_apply IH.
Qed.

Lemma lex_ident_loop_halts (n : nat) :
  forall b P, b < Z.of_nat n -> halts unread b 0 P (lex_ident_loop n) any_result.
Proof.
  induction n as [|n IH]; intros b P Hb; cbn [lex_ident_loop].
  - apply halts_out_of_range. lia.
  - repeat lex_read. halts_apply IH.
Qed.

Lemma lex_string_loop_halts (n : nat) :
  forall b P, b < Z.of_nat n -> halts unread b 0 P (lex_string_loop n) any_result.
Proof.
  induction n as [|n IH]; intros b P Hb; cbn [lex_string_loop].
  - apply halts_out_of_range. lia.
  - repeat lex_read; halts_apply IH.
Qed.

Lemma set_token_any (b : Z) (P : Compiler -> Prop) (f : Compiler -> Compiler) :
  (forall c, exists t, f c = set_cur t c) ->
  halts unread b 0 P (modify f) any_result.
Proof. intros Hf. apply set_token_halts; [exact Hf|]. intros c _. exact I. Qed.

Lemma set_token_here (b : Z) (ch : ascii) (f : Compiler -> Compiler) :
  (forall c, exists t, f c = set_cur t c) ->
  halts unread b 0 (fun c => here c = Some ch) (modify f) (fun _ c => here c = Some ch).
Proof.
  intros Hf. apply set_token_halts; [exact Hf|]. intros c H.
  destruct (Hf c) as (t & ->). exact H.
Qed.

Ltac token_write := intros ?; eexists; reflexivity.

Ltac lex_step :=
  first
    [ lex_read
    | match goal with
      | |- halts _ _ _ _ (bind (modify _) _) _ =>
          eapply halts_seq;
          [halts_apply set_token_any; token_write | intros ?; cbv beta]
      | |- halts _ _ _ _ (modify _) _ => halts_apply set_token_any; token_write
      end ].

Lemma lex_number_loop_halts (n : nat) :
  forall b P, b < Z.of_nat n -> halts unread b 0 P (lex_number_loop n) any_result.
Proof.
  induction n as [|n IH]; intros b P Hb; cbn [lex_number_loop].
  - apply halts_out_of_range. lia.
  - repeat lex_step. halts_apply IH.
Qed.

(** The loops read at least one byte when they start on a byte of their
    own. *)
Lemma same_here (c : Compiler) (P : Compiler -> Prop) (ch ch' : ascii) :
  (P c /\ here c = Some ch') -> (forall c, P c -> here c = Some ch) -> ch' = ch.
Proof. intros [Hp H'] H. specialize (H c Hp). congruence. Qed.

Lemma skip_line_comment_strict (n : nat) (b : Z) (ch : ascii) :
  b < Z.of_nat n -> is_char ch "/" = true ->
  halts unread b 1 (fun c => here c = Some ch) (skip_line_comment n) any_result.
Proof.
  intros Hb Hc. destruct n as [|n]; [apply halts_out_of_range; lia|].
  cbn [skip_line_comment]. lex_step.
  apply (halts_assume unread (a = ch)).
  { intros c _ [H1 H2]. congruence. }
  intros ->. apply Ascii.eqb_eq in Hc. subst ch.
  change (negb (is_char "/" NUL) && negb (is_char "/" LF)) with true. cbv iota.
  lex_step. halts_apply skip_line_comment_halts.
Qed.

Lemma lex_ident_loop_strict (n : nat) (b : Z) (ch : ascii) :
  b < Z.of_nat n -> isalpha ch || is_char ch "_" = true ->
  halts unread b 1 (fun c => here c = Some ch) (lex_ident_loop n) any_result.
Proof.
  intros Hb Hc. destruct n as [|n]; [apply halts_out_of_range; lia|].
  cbn [lex_ident_loop]. lex_step.
  apply (halts_assume unread (a = ch)).
  { intros c _ [H1 H2]. congruence. }
  intros ->.
  assert (E : isalnum ch || is_char ch "_" = true).
  { unfold isalnum. apply orb_true_iff in Hc. destruct Hc as [-> | ->];
      rewrite ?orb_true_r; reflexivity. }
  rewrite E. lex_step. halts_apply lex_ident_loop_halts.
Qed.

Lemma lex_number_loop_strict (n : nat) (b : Z) (ch : ascii) :
  b < Z.of_nat n -> isdigit ch = true ->
  halts unread b 1 (fun c => here c = Some ch) (lex_number_loop n) any_result.
Proof.
  intros Hb Hc. destruct n as [|n]; [apply halts_out_of_range; lia|].
  cbn [lex_number_loop]. lex_step.
  apply (halts_assume unread (a = ch)).
  { intros c _ [H1 H2]. congruence. }
  intros ->. rewrite Hc. repeat lex_step. halts_apply lex_number_loop_halts.
Qed.

Lemma skip_whitespace_halts (n : nat) :
  forall b P, 2 * b < Z.of_nat n -> halts unread b 0 P (skip_whitespace n) any_result.
Proof.
  induction n as [|n IH]; intros b P Hb; cbn [skip_whitespace].
  - apply halts_out_of_range. lia.
  - lex_step.
    apply (halts_above unread 1).
    { intros c _ [_ H]. exact (here_unread c a H). }
    intros Hone.
    lex_step.
    + lex_step. halts_apply IH.
    + lex_step; [|lex_step].
      lex_step. lex_step. lex_step.
      * eapply halts_seq;
          [halts_apply (skip_line_comment_strict n (b - 0 - 0 - 0) a)|].
        intros ?. cbv beta. halts_apply IH.
      * lex_step; [|lex_step].
        lex_step. lex_step.
        eapply halts_seq; [halts_apply skip_block_comment_halts|intros ?; cbv beta].
        repeat lex_step; halts_apply IH.
Qed.

(** *** One token *)

Lemma pending_le (c : Compiler) : 0 <= pending c <= 1.
Proof. unfold pending. destruct (tok_eqb (type (cur c)) TOK_EOF); lia. Qed.

Lemma lexes_after {A B} (b d1 : Z) (P : Compiler -> Prop) (f : M A) (k : A -> M B)
      (R : A -> Compiler -> Prop) :
  0 <= d1 ->
  halts unread b d1 P f R ->
  (forall a, lexes (b - d1) (R a) (k a)) ->
  lexes b P (bind f k).
Proof.
  intros Hd Hf Hk c T Hp Hb. specialize (Hf c T Hp Hb). unfold bind.
  destruct (f c) as [a c1| | |]; try exact Hf.
  destruct Hf as (T1 & Hr & Hm).
  specialize (Hk a c1 T1 Hr ltac:(lia)).
  destruct (k a c1) as [r c2| | |]; try exact Hk.
  destruct Hk as (T2 & Hm2). split; [exact T2|lia].
Qed.

Lemma lexes_strict {A} (b : Z) (P : Compiler -> Prop) (f : M A)
      (Q : A -> Compiler -> Prop) :
  halts unread b 1 P f Q -> lexes b P f.
Proof.
  intros H c T Hp Hb. specialize (H c T Hp Hb).
  destruct (f c) as [a c'| | |]; try exact H.
  destruct H as (T' & _ & Hm). split; [exact T'|].
  pose proof (pending_le c'). lia.
Qed.

Lemma lexes_eof (b : Z) (P : Compiler -> Prop) :
  lexes b P (modify (set_type TOK_EOF)).
Proof.
  intros c T Hp Hb. cbn [modify].
  split; [exact (proj2 (token_keeps_track _ c) T)|].
  unfold pending, unread, buffer. cbn. lia.
Qed.

Ltac lex_loop :=
  match goal with
  | |- halts _ _ _ _ (bind (lex_ident_loop _) _) _ => halts_then lex_ident_loop_halts
  | |- halts _ _ _ _ (bind (lex_number_loop _) _) _ => halts_then lex_number_loop_halts
  | |- halts _ _ _ _ (bind (lex_string_loop _) _) _ => halts_then lex_string_loop_halts
  | |- halts _ _ _ _ (two_char _ _ _) _ => unfold two_char
  end.

Lemma next_token_lexes (fuel : nat) (b : Z) (P : Compiler -> Prop) :
  2 * b < Z.of_nat fuel -> lexes b P (next_token fuel).
Proof.
  intros Hb. unfold next_token.
  eapply (lexes_after b 0); [lia|halts_apply skip_whitespace_halts|]. intros ?.
  eapply (lexes_after _ 0); [lia|halts_apply set_token_any; token_write|]. intros ?.
  eapply (lexes_after _ 0); [lia|halts_apply peek_halts|]. intros ch. cbv beta.
  destruct (is_char ch NUL) eqn:Hnul; [apply lexes_eof|].
  eapply (lexes_strict _ _ _ any_result).
  destruct (isalpha ch || is_char ch "_") eqn:Hid.
  { lex_step.
    eapply halts_seq; [halts_apply (lex_ident_loop_strict fuel (b - 0 - 0 - 0 - 0) ch)|].
    intros ?. cbv beta. repeat lex_step. }
  destruct (isdigit ch) eqn:Hdig.
  { eapply halts_seq; [halts_apply (set_token_here (b - 0 - 0 - 0) ch); token_write|].
    intros ?. cbv beta.
    eapply halts_seq; [halts_apply (lex_number_loop_strict fuel (b - 0 - 0 - 0 - 0) ch)|].
    intros ?. cbv beta. repeat lex_step. }
  destruct (is_char ch DQUOTE) eqn:Hq.
  { repeat first [lex_step | lex_loop]. }
  repeat first [lex_step | lex_loop].
Qed.

(** *** Tokens *)

Lemma tokens_left_nonneg (c : Compiler) : tracks c -> 0 <= tokens_left c.
Proof.
  intros T. pose proof (unread_nonneg c T). pose proof (pending_le c).
  unfold tokens_left. lia.
Qed.

Lemma out_of_tokens {A} (b d : Z) (P : Compiler -> Prop) (f : M A)
      (Q : A -> Compiler -> Prop) :
  b < 0 -> halts tokens_left b d P f Q.
Proof.
  intros Hb. apply halts_vacuous. intros c T _ Hc.
  pose proof (tokens_left_nonneg c T). lia.
Qed.

Lemma next_token_halts (fuel : nat) (b : Z) (P : Compiler -> Prop) :
  b < Z.of_nat fuel -> halts tokens_left b 0 P (next_token fuel) any_result.
Proof.
  intros Hb c T Hp Hc.
  pose proof (pending_le c) as Pc. pose proof (unread_nonneg c T) as Uc.
  pose proof (next_token_lexes fuel (unread c) anything
                ltac:(unfold tokens_left in Hc; lia) c T I (Z.le_refl _)) as H.
  destruct (next_token fuel c) as [u c'| | |]; try exact H.
  destruct H as (T' & Hm). split; [exact T'|]. split; [exact I|].
  pose proof (pending_le c'). unfold tokens_left. lia.
Qed.

Lemma next_token_consumes (fuel : nat) (b : Z) (P : Compiler -> Prop) :
  b < Z.of_nat fuel ->
  (forall c, P c -> tok_eqb (type (cur c)) TOK_EOF = false) ->
  halts tokens_left b 1 P (next_token fuel) any_result.
Proof.
  intros Hb Hne c T Hp Hc.
  pose proof (pending_le c) as Pc. pose proof (unread_nonneg c T) as Uc.
  pose proof (next_token_lexes fuel (unread c) anything
                ltac:(unfold tokens_left in Hc; lia) c T I (Z.le_refl _)) as H.
  destruct (next_token fuel c) as [u c'| | |]; try exact H.
  destruct H as (T' & Hm). split; [exact T'|]. split; [exact I|].
  pose proof (pending_le c').
  assert (E : pending c = 1). { unfold pending. rewrite (Hne c Hp). reflexivity. }
  unfold tokens_left. lia.
Qed.

Lemma expect_consumes (fuel : nat) (b : Z) (P : Compiler -> Prop) (t : TokenType) :
  b < Z.of_nat fuel -> tok_eqb t TOK_EOF = false ->
  halts tokens_left b 1 P (expect fuel t) any_result.
Proof.
  intros Hb Ht. unfold expect, accept.
  apply halts_assoc. halts_then halts_is_tok.
  destruct a eqn:E.
  - apply halts_assoc.
    eapply halts_seq.
    + halts_apply (next_token_consumes fuel (b - 0)).
      intros c [_ Hc]. symmetry in Hc.
      destruct (type (cur c)); try reflexivity.
      destruct t; try discriminate Ht; vm_compute in Hc; discriminate Hc.
    + intros ?. cbv beta. apply halts_bind_ret. cbv beta iota. halts_apply halts_ret.
  - apply halts_bind_ret. cbv beta iota. apply halts_error.
Qed.

(** *** The parser *)

Lemma halts_vacuous_bind_error {A B} (mu : Compiler -> Z) (b d : Z) (P : Compiler -> Prop)
      f l (k : A -> M B) (Q : B -> Compiler -> Prop) :
  halts mu b d P (bind (error f l) k) Q.
Proof. intros c T Hp Hb. exact I. Qed.

Lemma halts_vacuous_bind_fault {A B} (mu : Compiler -> Z) (b d : Z) (P : Compiler -> Prop)
      f (k : A -> M B) (Q : B -> Compiler -> Prop) :
  halts mu b d P (bind (raise_fault f) k) Q.
Proof. intros c T Hp Hb. exact I. Qed.

Lemma token_of (x : TokenType) (p : TokenType -> bool) :
  p x = true -> p TOK_EOF = false -> tok_eqb x TOK_EOF = false.
Proof.
  intros Hx He. unfold tok_eqb. destruct (TokenType_eq_dec x TOK_EOF) as [->|]; [|reflexivity].
  congruence.
Qed.

(** The current token is not the end of the input, by a test the code
    has made on it. *)
Ltac not_eof :=
  let c := fresh "c" in
  let Hc := fresh "Hc" in
  intros c Hc; cbv beta in Hc;
  repeat match goal with H : _ /\ _ |- _ => destruct H end;
  try match goal with H : _ = type (cur c) |- _ => rewrite <- H end;
  try match goal with H : _ = c |- _ => rewrite <- H end;
  match goal with
  | Heq : ?l = true |- tok_eqb ?x TOK_EOF = false =>
      let p := eval pattern x in l in
      match p with
      | ?f _ => apply (token_of x f Heq); reflexivity
      end
  end.

Ltac halts_next L := eapply halts_seq; [solve [halts_apply L] | intros ?; cbv beta].

Ltac parse_halts :=
  match goal with
  | |- halts _ _ _ _ (let _ := _ in _) _ => cbv zeta
  | |- halts _ _ _ _ (bind (bind _ _) _) _ => apply halts_assoc
  | |- halts _ _ _ _ (bind (ret _) _) _ => apply halts_bind_ret; cbv beta
  | |- halts _ _ _ _ (bind get _) _ => halts_next halts_get
  | |- halts _ _ _ _ (bind cur_type _) _ => halts_next halts_cur_type
  | |- halts _ _ _ _ (bind (next_token _) _) _ =>
      first [ eapply halts_seq;
              [solve [halts_apply next_token_consumes; not_eof] | intros ?; cbv beta]
            | halts_next next_token_halts ]
  | |- halts _ _ _ _ (bind (expect _ _) _) _ =>
      eapply halts_seq;
      [solve [halts_apply expect_consumes; reflexivity] | intros ?; cbv beta]
  | |- halts _ _ _ _ (bind (if ?x then _ else _) _) _ => destruct x eqn:?
  | |- halts _ _ _ _ (bind (match ?x with _ => _ end) _) _ => destruct x eqn:?
  | |- halts _ _ _ _ (bind (error _ _) _) _ =>
      apply halts_vacuous_bind_error
  | |- halts _ _ _ _ (bind (raise_fault _) _) _ =>
      apply halts_vacuous_bind_fault
  | |- halts _ _ _ _ (bind _ _) _ =>
      match goal with
      | H : _ |- _ => eapply halts_seq; [solve [halts_apply H] | intros ?; cbv beta]
      end
  | |- halts _ _ _ _ (if ?x then _ else _) _ => destruct x eqn:?
  | |- halts _ _ _ _ (match ?x with _ => _ end) _ => destruct x eqn:?
  | |- halts _ _ _ _ (ret _) _ => solve [halts_apply halts_ret]
  | |- halts _ _ _ _ (error _ _) _ => apply halts_error
  | |- halts _ _ _ _ (raise_fault _) _ => apply halts_fault
  | |- halts _ _ _ _ (next_token _) _ =>
      first [ solve [halts_apply next_token_consumes; not_eof]
            | solve [halts_apply next_token_halts] ]
  | |- halts _ _ _ _ (expect _ _) _ => solve [halts_apply expect_consumes; reflexivity]
  | |- halts _ _ _ _ _ _ =>
      match goal with
      | H : _ |- _ => solve [halts_apply H]
      end
  end.

Section HaltsLevels.

Variable fuel : nat.
Variable pe : M AST.
Variable B : Z.
Hypothesis Hpe : forall b P, b < B -> b < Z.of_nat fuel ->
                             halts tokens_left b 1 P pe any_result.

Lemma call_args_loop_halts (n : nat) :
  forall b P args,
    b < Z.of_nat n -> b < Z.of_nat fuel -> b < B ->
    halts tokens_left b 0 P (call_args_loop fuel pe n args) any_result.
Proof.
  induction n as [|n IH]; intros b P args Hn Hf Hb; cbn [call_args_loop].
  - apply out_of_tokens. lia.
  - repeat parse_halts.
Qed.

Lemma parse_primary_halts (b : Z) (P : Compiler -> Prop) :
  b < Z.of_nat fuel -> b <= B ->
  halts tokens_left b 1 P (parse_primary fuel pe) any_result.
Proof.
  intros Hf Hb. pose proof call_args_loop_halts as Hargs.
  unfold parse_primary. repeat parse_halts.
Qed.

Lemma parse_unary_halts (n : nat) :
  forall b P,
    b < Z.of_nat n -> b < Z.of_nat fuel -> b <= B ->
    halts tokens_left b 1 P (parse_unary fuel pe n) any_result.
Proof.
  pose proof parse_primary_halts as Hprim.
  induction n as [|n IH]; intros b P Hn Hf Hb; cbn [parse_unary].
  - apply out_of_tokens. lia.
  - repeat parse_halts.
Qed.

Lemma multiplicative_loop_halts (n : nat) :
  forall b P e,
    b < Z.of_nat n -> b < Z.of_nat fuel -> b <= B ->
    halts tokens_left b 0 P (multiplicative_loop fuel pe n e) any_result.
Proof.
  pose proof parse_unary_halts as Hsub.
  induction n as [|n IH]; intros b P e Hn Hf Hb; cbn [multiplicative_loop].
  - apply out_of_tokens. lia.
  - repeat parse_halts.
Qed.

Lemma parse_multiplicative_halts (b : Z) (P : Compiler -> Prop) :
  b < Z.of_nat fuel -> b <= B ->
  halts tokens_left b 1 P (parse_multiplicative fuel pe) any_result.
Proof.
  intros Hf Hb. pose proof parse_unary_halts as Hsub.
  pose proof multiplicative_loop_halts as Hloop.
  unfold parse_multiplicative. repeat parse_halts.
Qed.

Lemma additive_loop_halts (n : nat) :
  forall b P e,
    b < Z.of_nat n -> b < Z.of_nat fuel -> b <= B ->
    halts tokens_left b 0 P (additive_loop fuel pe n e) any_result.
Proof.
  pose proof parse_multiplicative_halts as Hsub.
  induction n as [|n IH]; intros b P e Hn Hf Hb; cbn [additive_loop].
  - apply out_of_tokens. lia.
  - repeat parse_halts.
Qed.

Lemma parse_additive_halts (b : Z) (P : Compiler -> Prop) :
  b < Z.of_nat fuel -> b <= B ->
  halts tokens_left b 1 P (parse_additive fuel pe) any_result.
Proof.
  intros Hf Hb. pose proof parse_multiplicative_halts as Hsub.
  pose proof additive_loop_halts as Hloop.
  unfold parse_additive. repeat parse_halts.
Qed.

Lemma relational_loop_halts (n : nat) :
  forall b P e,
    b < Z.of_nat n -> b < Z.of_nat fuel -> b <= B ->
    halts tokens_left b 0 P (relational_loop fuel pe n e) any_result.
Proof.
  pose proof parse_additive_halts as Hsub.
  induction n as [|n IH]; intros b P e Hn Hf Hb; cbn [relational_loop].
  - apply out_of_tokens. lia.
  - repeat parse_halts.
Qed.

Lemma parse_relational_halts (b : Z) (P : Compiler -> Prop) :
  b < Z.of_nat fuel -> b <= B ->
  halts tokens_left b 1 P (parse_relational fuel pe) any_result.
Proof.
  intros Hf Hb. pose proof parse_additive_halts as Hsub.
  pose proof relational_loop_halts as Hloop.
  unfold parse_relational. repeat parse_halts.
Qed.

Lemma equality_loop_halts (n : nat) :
  forall b P e,
    b < Z.of_nat n -> b < Z.of_nat fuel -> b <= B ->
    halts tokens_left b 0 P (equality_loop fuel pe n e) any_result.
Proof.
  pose proof parse_relational_halts as Hsub.
  induction n as [|n IH]; intros b P e Hn Hf Hb; cbn [equality_loop].
  - apply out_of_tokens. lia.
  - repeat parse_halts.
Qed.

Lemma parse_equality_halts (b : Z) (P : Compiler -> Prop) :
  b < Z.of_nat fuel -> b <= B ->
  halts tokens_left b 1 P (parse_equality fuel pe) any_result.
Proof.
  intros Hf Hb. pose proof parse_relational_halts as Hsub.
  pose proof equality_loop_halts as Hloop.
  unfold parse_equality. repeat parse_halts.
Qed.

Lemma logical_and_loop_halts (n : nat) :
  forall b P e,
    b < Z.of_nat n -> b < Z.of_nat fuel -> b <= B ->
    halts tokens_left b 0 P (logical_and_loop fuel pe n e) any_result.
Proof.
  pose proof parse_equality_halts as Hsub.
  induction n as [|n IH]; intros b P e Hn Hf Hb; cbn [logical_and_loop].
  - apply out_of_tokens. lia.
  - repeat parse_halts.
Qed.

Lemma parse_logical_and_halts (b : Z) (P : Compiler -> Prop) :
  b < Z.of_nat fuel -> b <= B ->
  halts tokens_left b 1 P (parse_logical_and fuel pe) any_result.
Proof.
  intros Hf Hb. pose proof parse_equality_halts as Hsub.
  pose proof logical_and_loop_halts as Hloop.
  unfold parse_logical_and. repeat parse_halts.
Qed.

Lemma logical_or_loop_halts (n : nat) :
  forall b P e,
    b < Z.of_nat n -> b < Z.of_nat fuel -> b <= B ->
    halts tokens_left b 0 P (logical_or_loop fuel pe n e) any_result.
Proof.
  pose proof parse_logical_and_halts as Hsub.
  induction n as [|n IH]; intros b P e Hn Hf Hb; cbn [logical_or_loop].
  - apply out_of_tokens. lia.
  - repeat parse_halts.
Qed.

Lemma parse_logical_or_halts (b : Z) (P : Compiler -> Prop) :
  b < Z.of_nat fuel -> b <= B ->
  halts tokens_left b 1 P (parse_logical_or fuel pe) any_result.
Proof.
  intros Hf Hb. pose proof parse_logical_and_halts as Hsub.
  pose proof logical_or_loop_halts as Hloop.
  unfold parse_logical_or. repeat parse_halts.
Qed.

Lemma parse_assignment_halts (n : nat) :
  forall b P,
    b < Z.of_nat n -> b < Z.of_nat fuel -> b <= B ->
    halts tokens_left b 1 P (parse_assignment fuel pe n) any_result.
Proof.
  pose proof parse_logical_or_halts as Hsub.
  induction n as [|n IH]; intros b P Hn Hf Hb; cbn [parse_assignment].
  - apply out_of_tokens. lia.
  - repeat parse_halts.
Qed.

End HaltsLevels.

Lemma parse_expr_depth_halts (fuel d : nat) :
  forall b P,
    b < Z.of_nat d -> b < Z.of_nat fuel ->
    halts tokens_left b 1 P (parse_expr_depth fuel d) any_result.
Proof.
  induction d as [|d IH]; intros b P Hd Hf; cbn [parse_expr_depth].
  - apply out_of_tokens. lia.
  - apply (parse_assignment_halts fuel (parse_expr_depth fuel d) (Z.of_nat d)); try lia.
    intros b' P' Hb' Hf'. apply IH; lia.
Qed.

Lemma parse_expr_halts (fuel : nat) (b : Z) (P : Compiler -> Prop) :
  b < Z.of_nat fuel -> halts tokens_left b 1 P (parse_expr fuel) any_result.
Proof. intros Hf. apply parse_expr_depth_halts; exact Hf. Qed.

Lemma parse_array_suffix_halts (fuel : nat) (b : Z) (P : Compiler -> Prop) :
  b < Z.of_nat fuel -> halts tokens_left b 0 P (parse_array_suffix fuel) any_result.
Proof. intros Hf. unfold parse_array_suffix. repeat parse_halts. Qed.

Lemma parse_initializer_halts (fuel : nat) (b : Z) (P : Compiler -> Prop) :
  b < Z.of_nat fuel -> halts tokens_left b 0 P (parse_initializer fuel) any_result.
Proof.
  intros Hf. pose proof (parse_expr_halts fuel) as Hexpr.
  unfold parse_initializer. repeat parse_halts.
Qed.

Section HaltsStatements.

Variable fuel : nat.
Variable ps : M AST.
Variable B : Z.
Hypothesis Hps : forall b P, b < B -> b < Z.of_nat fuel ->
                             halts tokens_left b 1 P ps any_result.

Lemma block_loop_halts (n : nat) :
  forall b P stmts,
    b < Z.of_nat n -> b < Z.of_nat fuel -> b < B ->
    halts tokens_left b 0 P (block_loop ps n stmts) any_result.
Proof.
  induction n as [|n IH]; intros b P stmts Hn Hf Hb; cbn [block_loop].
  - apply out_of_tokens. lia.
  - repeat parse_halts.
Qed.

Lemma parse_block_halts (b : Z) (P : Compiler -> Prop) :
  b < Z.of_nat fuel -> b <= B ->
  halts tokens_left b 1 P (parse_block fuel ps) any_result.
Proof.
  intros Hf Hb. pose proof block_loop_halts as Hloop.
  unfold parse_block. repeat parse_halts.
Qed.

Lemma parse_stmt_body_halts (b : Z) (P : Compiler -> Prop) :
  b < Z.of_nat fuel -> b <= B ->
  halts tokens_left b 1 P (parse_stmt_body fuel ps) any_result.
Proof.
  intros Hf Hb.
  pose proof (parse_expr_halts fuel) as Hexpr.
  pose proof (parse_array_suffix_halts fuel) as Hsuffix.
  pose proof (parse_initializer_halts fuel) as Hinit.
  pose proof parse_block_halts as Hblock.
  unfold parse_stmt_body. repeat parse_halts.
Qed.

End HaltsStatements.

Lemma parse_stmt_depth_halts (fuel d : nat) :
  forall b P,
    b < Z.of_nat d -> b < Z.of_nat fuel ->
    halts tokens_left b 1 P (parse_stmt_depth fuel d) any_result.
Proof.
  induction d as [|d IH]; intros b P Hd Hf; cbn [parse_stmt_depth].
  - apply out_of_tokens. lia.
  - apply (parse_stmt_body_halts fuel (parse_stmt_depth fuel d) (Z.of_nat d)); try lia.
    intros b' P' Hb' Hf'. apply IH; lia.
Qed.

Lemma parse_stmt_halts (fuel : nat) (b : Z) (P : Compiler -> Prop) :
  b < Z.of_nat fuel -> halts tokens_left b 1 P (parse_stmt fuel) any_result.
Proof. intros Hf. apply parse_stmt_depth_halts; exact Hf. Qed.

Lemma params_loop_halts (fuel n : nat) :
  forall b P params,
    b < Z.of_nat n -> b < Z.of_nat fuel ->
    halts tokens_left b 0 P (params_loop fuel n params) any_result.
Proof.
  induction n as [|n IH]; intros b P params Hn Hf; cbn [params_loop].
  - apply out_of_tokens. lia.
  - repeat parse_halts.
Qed.

Lemma program_loop_halts (fuel n : nat) :
  forall b P funcs globals,
    b < Z.of_nat n -> b < Z.of_nat fuel ->
    halts tokens_left b 0 P (program_loop fuel n funcs globals) any_result.
Proof.
  pose proof (params_loop_halts fuel) as Hparams.
  pose proof (parse_array_suffix_halts fuel) as Hsuffix.
  pose proof (parse_initializer_halts fuel) as Hinit.
  assert (Hblock : forall b P, b < Z.of_nat fuel ->
                     halts tokens_left b 1 P (parse_block fuel (parse_stmt fuel)) any_result).
  { intros b P Hf. apply (parse_block_halts fuel (parse_stmt fuel) (Z.of_nat fuel)); try lia.
    intros b' P' _ Hf'. apply parse_stmt_halts. exact Hf'. }
  induction n as [|n IH]; intros b P funcs globals Hn Hf; cbn [program_loop].
  - apply out_of_tokens. lia.
  - repeat parse_halts.
Qed.

Lemma tokens_left_init (source : string) (arm64 linux : bool) :
  tokens_left (init_compiler source arm64 linux) = 2 * Z.of_nat (String.length source) + 2.
Proof.
  unfold tokens_left, unread, pending, buffer. cbn [init_compiler pos src cur type].
  rewrite length_app, length_list_of_string. cbn [List.length]. 
  change (tok_eqb TOK_EOF TOK_EOF) with true. cbv iota. lia.
Qed.

(** Lexing and parsing terminate.  Every loop iteration and every
    recursive call of the lexer and of the parser is preceded by the
    consumption of input: the lexer's loops read one byte a turn, an
    expression, a statement and a block each consume at least one token
    when they return, and [next_token] never gives the input back.  So a
    budget of loop turns and of recursion depth linear in the length of
    the source is never used up: for every source of fewer than
    [INT_MAX - 1] bytes and every budget above twice its length plus two,
    [parse_only] ends with a tree, a diagnostic or a fault. *)
Theorem lexing_and_parsing_terminate (fuel : nat) (source : string) :
  Z.of_nat (String.length source) + 1 < Int.max_signed ->
  2 * Z.of_nat (String.length source) + 2 < Z.of_nat fuel ->
  parse_only fuel source <> Timeout.
Proof.
  intros Hlen Hfuel.
  assert (H : halts tokens_left (2 * Z.of_nat (String.length source) + 2) 0 anything
                (next_token fuel ;; do_parse_program fuel) any_result).
  { pose proof (program_loop_halts fuel fuel) as Hloop.
    unfold do_parse_program. repeat parse_halts. }
  specialize (H (init_compiler source false false) (init_tracks source false false Hlen) I).
  rewrite tokens_left_init in H. specialize (H (Z.le_refl _)).
  unfold parse_only. intros E. rewrite E in H. exact H.
Qed.

Lemma lexing_and_parsing_terminate_witness :
  parse_only 60 "int main() { return 0; }" <> Timeout.
Proof.
  apply lexing_and_parsing_terminate.
  - unfold Int.max_signed. vm_compute. reflexivity.
  - vm_compute. reflexivity.
Defined.
